(** * Contextual search: the CTG addressing engine and the dual-projection tree

    A shallow embedding of [src/core/ctgEngine.ts] (class [CTGEngine]) and
    [src/core/dtree.ts] (classes [DTreeNode], [TokenXref], [DTree]), and the
    properties of the specification checked against them. *)

From Stdlib Require Import ZArith Lia List Bool Ascii String.
From stdpp Require Import base tactics option list gmap strings sorting.

Local Open Scope Z_scope.

Set Warnings "-register-all".

(** ** Outcomes of a call

    A method either returns, throws, or is still running when the fuel that
    bounds its loops is used up.  The engine and the tree throw plain [Error]
    objects; they are named after the taxonomy of the specification:
    [validatePositiveInteger] throws [InvalidId], [mintNextChild] throws
    [NoAvailableChild], [DTree.removeNode] throws [RootRemovalForbidden].
    No [throw] of the sources corresponds to [AddressingDivergence] or to
    [StaleCoordinates].  [TypeError] is the error of the JavaScript runtime
    when a property of [undefined] is read: in the tree it stands for a
    reference that is not an object of the heap. *)

Inductive error : Type :=
| InvalidId
| AddressingDivergence
| NoAvailableChild
| RootRemovalForbidden
| StaleCoordinates
| TypeError.

Inductive outcome (A : Type) : Type :=
| Ok (a : A)
| Throw (e : error)
| OutOfFuel.

Arguments Ok {A} a.
Arguments Throw {A} e.
Arguments OutOfFuel {A}.

#[global] Instance outcome_bind : MBind outcome := fun A B k m =>
  match m with
  | Ok a => k a
  | Throw e => Throw e
  | OutOfFuel => OutOfFuel
  end.

(** A computation that is still running whatever fuel it is given. *)
Inductive Diverges {A : Type} (run : nat -> outcome A) : Prop :=
| diverges_intro : (forall fuel, run fuel = OutOfFuel) -> Diverges run.

(** ** JavaScript numbers

    A JavaScript [number] is an IEEE-754 double.  The engine only computes on
    integer values, which are modelled by [Z]; every other number (a fraction,
    NaN, an infinity) is [NonInteger], and the only thing the engine does with
    one is to reject it. *)

Module JS.

Inductive number : Type :=
| Integer (z : Z)
| NonInteger.

(** [ToInt32]: the operand conversion of the bitwise operators. *)
Definition ToInt32 (x : Z) : Z := (x + 2 ^ 31) mod 2 ^ 32 - 2 ^ 31.

(** [a & b] *)
Definition bitand (a b : Z) : Z := Z.land (ToInt32 a) (ToInt32 b).

(** [a >> b]: the sign-propagating shift of the 32-bit value of [a] by the
    low five bits of [b]. *)
Definition sar (a b : Z) : Z := Z.shiftr (ToInt32 a) (Z.land (ToInt32 b) 31).

(** The double nearest to an integer (ties to even): the identity below
    [2^53], a multiple of the unit in the last place above.  Overflow to an
    infinity (beyond [2^1024]) is not modelled. *)
Definition round_double (x : Z) : Z :=
  let a := Z.abs x in
  if a <? 2 ^ 53 then x
  else
    let e := Z.log2 a - 52 in
    let q := a / 2 ^ e in
    let r := a mod 2 ^ e in
    let half := 2 ^ (e - 1) in
    let q' := if r <? half then q
              else if half <? r then q + 1
              else if Z.even q then q else q + 1 in
    Z.sgn x * (q' * 2 ^ e).

Definition add (a b : Z) : Z := round_double (a + b).
Definition sub (a b : Z) : Z := round_double (a - b).
Definition mul (a b : Z) : Z := round_double (a * b).

(** [a % b]: the remainder has the sign of the dividend and is exact. *)
Definition rem (a b : Z) : Z := Z.rem a b.

(** [Math.pow(2, k)] for a loop index [k >= 0]: a power of two is a double. *)
Definition pow2 (k : Z) : Z := 2 ^ k.

(** [Number.MAX_SAFE_INTEGER] *)
Definition MAX_SAFE_INTEGER : Z := 2 ^ 53 - 1.

End JS.

(** ** CTGEngine *)

Module CTGEngine.

Import JS.

(** [validatePositiveInteger]: throws unless [Number.isInteger(n)] and
    [n >= 1]; the integer is handed on. *)
Definition validatePositiveInteger (n : number) : outcome Z :=
  match n with
  | Integer z => if z <? 1 then Throw InvalidId else Ok z
  | NonInteger => Throw InvalidId
  end.

(** The loop of [getOddPart]: [while ((n & 1) === 0) n = n >> 1; return n]. *)
Fixpoint getOddPart_loop (fuel : nat) (n : Z) : outcome Z :=
  match fuel with
  | O => OutOfFuel
  | S fuel' =>
      if bitand n 1 =? 0 then getOddPart_loop fuel' (sar n 1) else Ok n
  end.

Definition getOddPart (fuel : nat) (n : number) : outcome Z :=
  z ← validatePositiveInteger n;
  getOddPart_loop fuel z.

(** The loop of [getPowerOfTwo], with its counter [k]. *)
Fixpoint getPowerOfTwo_loop (fuel : nat) (k : Z) (n : Z) : outcome Z :=
  match fuel with
  | O => OutOfFuel
  | S fuel' =>
      if bitand n 1 =? 0 then getPowerOfTwo_loop fuel' (k + 1) (sar n 1)
      else Ok k
  end.

Definition getPowerOfTwo (fuel : nat) (n : number) : outcome Z :=
  z ← validatePositiveInteger n;
  getPowerOfTwo_loop fuel 0 z.

Definition isOddNode (n : number) : outcome bool :=
  z ← validatePositiveInteger n;
  Ok (bitand z 1 =? 1).

(** [getParent]: [None] is JavaScript's [null]. *)
Definition getParent (fuel : nat) (n : number) : outcome (option Z) :=
  z ← validatePositiveInteger n;
  if z =? 1 then Ok None
  else if bitand z 1 =? 0 then Ok (Some (sar z 1))
  else
    let threeNPlusOne := add (mul 3 z) 1 in
    p ← getOddPart fuel (Integer threeNPlusOne);
    Ok (Some p).

(** The loop of [getAncestryChain]: [chain] is the array built so far. *)
Fixpoint getAncestryChain_loop (fuel : nat) (current : Z) (chain : list Z)
  : outcome (list Z) :=
  match fuel with
  | O => OutOfFuel
  | S fuel' =>
      if current =? 1 then Ok chain
      else
        parent ← getParent fuel' (Integer current);
        match parent with
        | None => Ok chain
        | Some p => getAncestryChain_loop fuel' p (chain ++ [p])
        end
  end.

Definition getAncestryChain (fuel : nat) (n : number) : outcome (list Z) :=
  z ← validatePositiveInteger n;
  getAncestryChain_loop fuel z [z].

(** [getPillar]: [maxVersions] pushes of [oddBase * Math.pow(2, k)]. *)
Definition getPillar (fuel : nat) (n : number) (maxVersions : nat)
  : outcome (list Z) :=
  _ ← validatePositiveInteger n;
  oddBase ← getOddPart fuel n;
  Ok (map (fun k => mul oddBase (pow2 (Z.of_nat k))) (seq 0 maxVersions)).

(** One turn of the [for] loop of [findAdmissibleAssociates], for the
    exponent [k]: the candidate to push, if any. *)
Definition associate_at (fuel : nat) (parentID : Z) (k : Z)
  : outcome (option Z) :=
  let numerator := sub (mul (pow2 k) parentID) 1 in
  if rem numerator 3 =? 0 then
    (* the division is exact, so [Number.isInteger(candidate)] holds *)
    let candidate := Z.quot numerator 3 in
    if (0 <? candidate) && (bitand candidate 1 =? 1) then
      p ← getParent fuel (Integer candidate);
      Ok (if decide (p = Some parentID) then Some candidate else None)
    else Ok None
  else Ok None.

Fixpoint findAdmissibleAssociates_loop (fuel : nat) (parentID : Z)
  (ks : list Z) (children : list Z) : outcome (list Z) :=
  match ks with
  | [] => Ok children
  | k :: ks' =>
      c ← associate_at fuel parentID k;
      findAdmissibleAssociates_loop fuel parentID ks'
        (match c with Some c => children ++ [c] | None => children end)
  end.

(** [findAdmissibleAssociates]: [k] runs from 1 to [maxSearch]; the result is
    sorted with the comparator [(a, b) => a - b]. *)
Definition findAdmissibleAssociates (fuel : nat) (parentID : number)
  (maxSearch : nat) : outcome (list Z) :=
  p ← validatePositiveInteger parentID;
  children ← findAdmissibleAssociates_loop fuel p
               (map Z.of_nat (seq 1 maxSearch)) [];
  Ok (merge_sort Z.le children).

(** [mintNextChild]: the first admissible associate (search depth 30) that
    the set built from [currentChildren] does not hold. *)
Definition mintNextChild (fuel : nat) (parentID : number)
  (currentChildren : list Z) : outcome Z :=
  _ ← validatePositiveInteger parentID;
  let currentSet : gset Z := list_to_set currentChildren in
  admissible ← findAdmissibleAssociates fuel parentID 30;
  match List.find (fun c => bool_decide (c ∉ currentSet)) admissible with
  | Some candidate => Ok candidate
  | None => Throw NoAvailableChild
  end.

Definition mintNextVersion (n : number) : outcome Z :=
  z ← validatePositiveInteger n;
  Ok (mul z 2).

Definition verifyParenthood (fuel : nat) (parentID childID : number)
  : outcome bool :=
  p ← validatePositiveInteger parentID;
  _ ← validatePositiveInteger childID;
  q ← getParent fuel childID;
  Ok (bool_decide (q = Some p)).

Definition verifyAncestry (fuel : nat) (ancestorID descendantID : number)
  : outcome bool :=
  a ← validatePositiveInteger ancestorID;
  _ ← validatePositiveInteger descendantID;
  chain ← getAncestryChain fuel descendantID;
  Ok (bool_decide (a ∈ chain)).

(** [getNodeInfo]: the object it returns, its fields under the names
    [info_id] for [id], [info_type] for [type], and so on. *)
Inductive InfoType : Type := IT_root | IT_odd | IT_even.

Record NodeInfo : Type := mkInfo {
  info_id : Z;
  info_type : InfoType;
  info_oddBase : Z;
  info_pillarLevel : Z;
  info_parent : option Z;
  info_ancestryDepth : Z
}.

Definition getNodeInfo (fuel : nat) (n : number) : outcome NodeInfo :=
  z ← validatePositiveInteger n;
  oddBase ← getOddPart fuel n;
  pillarLevel ← getPowerOfTwo fuel n;
  parent ← getParent fuel n;
  chain ← getAncestryChain fuel n;
  let ancestryDepth := Z.of_nat (length chain) - 1 in
  type ← (if z =? 1 then Ok IT_root
          else b ← isOddNode n; Ok (if b : bool then IT_odd else IT_even));
  Ok (mkInfo z type oddBase pillarLevel parent ancestryDepth).

End CTGEngine.


(** ** DTree: nodes, token cross-reference and tree

    The objects of [dtree.ts] reference each other ([parent], [children],
    [prevSibling], [nextSibling], the sets of the cross-reference) and are
    mutated in place, so they live in a heap: a finite map from references to
    node records.  The node created by the [k]-th call of [generateId] has the
    reference [k], and its [id], the string [node_k], is represented by the
    number [k].

    Coordinates: [q1Counter] and the counter of [recalculateQ2] advance by
    [INITIAL_SPACING] per node and stay below [2^53] for every tree that fits
    in memory; there the addition of doubles is exact and it is modelled by
    the addition of [Z].  The provisional [q2] of a new node starts from
    [Number.MAX_SAFE_INTEGER] and is rounded ([JS.add]).

    Data: the [data] of a node is a reference to a data object, and the
    data objects of the program are kept in a store of their own, the
    [objects] of the tree, in the order of their creation.  A caller hands
    [appendChild] and [addNode] an object, which the node then shares with
    whoever else holds it; [indexContent] assigns [node.data.content] in
    that object, so that every node made with the same object shows the new
    content.  An object literal of a caller is [newData].  Every node is made
    with a data object (the type of [data] has no [null]); [dataOf] reads
    it, and what it yields for a reference that was never allocated plays no
    role. *)

Module DTree.

Import JS.

(** References are the allocation numbers of the objects: [ref] for the
    nodes, [dref] for the data objects. *)
Abbreviation ref := nat (only parsing).
Abbreviation dref := nat (only parsing).

Inductive NodeType : Type :=
| NT_root | NT_document | NT_section | NT_paragraph
| NT_sentence | NT_list | NT_list_item | NT_generic.

#[global] Instance NodeType_eq_dec : EqDecision NodeType.
Proof. solve_decision. Defined.

(** [DTreeNodeData]; the free-form [metadata] record is left out. *)
Record DTreeNodeData : Type := mkData {
  type : NodeType;
  content : option string
}.

Record DTreeNode : Type := mkNode {
  id : nat;
  q1 : Z;
  q2 : Z;
  data : dref;
  parent : option ref;
  children : list ref;
  prevSibling : option ref;
  nextSibling : option ref
}.

Definition set_q2 (v : Z) (n : DTreeNode) : DTreeNode :=
  mkNode (id n) (q1 n) v (data n) (parent n) (children n)
         (prevSibling n) (nextSibling n).

Definition set_children (cs : list ref) (n : DTreeNode) : DTreeNode :=
  mkNode (id n) (q1 n) (q2 n) (data n) (parent n) cs
         (prevSibling n) (nextSibling n).

Definition set_prevSibling (p : option ref) (n : DTreeNode) : DTreeNode :=
  mkNode (id n) (q1 n) (q2 n) (data n) (parent n) (children n)
         p (nextSibling n).

Definition set_nextSibling (p : option ref) (n : DTreeNode) : DTreeNode :=
  mkNode (id n) (q1 n) (q2 n) (data n) (parent n) (children n)
         (prevSibling n) p.

(** Reading a property of the object behind a reference. *)
Definition deref (h : gmap ref DTreeNode) (r : ref) : outcome DTreeNode :=
  match h !! r with
  | Some n => Ok n
  | None => Throw TypeError
  end.

(** *** Arrays and insertion-ordered sets *)

(** [Array.prototype.indexOf]: the first index, or [-1]. *)
Fixpoint indexOf (l : list ref) (x : ref) : Z :=
  match l with
  | [] => -1
  | y :: l' =>
      if decide (y = x) then 0
      else let i := indexOf l' x in if i <? 0 then -1 else i + 1
  end.

(** [Array.prototype.splice(start, deleteCount, ...items)]: a negative
    [start] counts from the end, and the start is clamped to the array. *)
Definition splice {A : Type} (l : list A) (start : Z) (deleteCount : nat)
  (items : list A) : list A :=
  let len := Z.of_nat (length l) in
  let s := Z.to_nat (if start <? 0 then Z.max (len + start) 0
                     else Z.min start len) in
  take s l ++ items ++ drop (s + deleteCount) l.

(** [Set.prototype.add]: a set keeps its elements in insertion order. *)
Definition set_add (s : list ref) (x : ref) : list ref :=
  if decide (x ∈ s) then s else s ++ [x].

(** [Set.prototype.delete] *)
Definition set_delete (s : list ref) (x : ref) : list ref :=
  filter (fun y => y ≠ x) s.

(** [new Set(array)] spread into an array again: the first occurrences. *)
Definition set_of_array (l : list ref) : list ref :=
  fold_left set_add l [].

(** *** Strings

    A [string] holds the bytes of a string of the program (its text in
    UTF-8; for ASCII text the characters themselves), so that two strings
    are equal, or one is empty, exactly when the strings of the program
    are, and a line feed is the byte 10 wherever it occurs.  The functions
    of the library that read a string through the Unicode tables or a
    regular expression are not modelled: they are the operations of the
    class below, and what is proved of the code holds for every instance,
    so for the functions of the library too. *)
Class StringOps : Type := {
  (** [String.prototype.toLowerCase] *)
  toLowerCase : string -> string;
  (** [String.prototype.trim] *)
  trim : string -> string;
  (** [s.split(/\s+/)] *)
  split_blanks : string -> list string;
  (** [s.replace(/[^\w]/g, '')] *)
  strip_non_word : string -> string
}.

Fixpoint string_rev (s : string) : string :=
  match s with
  | EmptyString => EmptyString
  | String c s' => (string_rev s' ++ String c EmptyString)%string
  end.

(** *** TokenXref: [Map<string, Set<DTreeNode>>]

    The order of the keys of the map is only seen by [getAllTokens], which is
    not modelled. *)

Module TokenXref.

Section WithStrings.

Context `{string_ops : StringOps}.

Definition add (index : gmap string (list ref)) (token : string) (node : ref)
  : gmap string (list ref) :=
  let normalizedToken := trim (toLowerCase token) in
  let index' := match index !! normalizedToken with
                | Some _ => index
                | None => <[normalizedToken := []]> index
                end in
  alter (fun s => set_add s node) normalizedToken index'.

Definition addMany (index : gmap string (list ref)) (tokens : list string)
  (node : ref) : gmap string (list ref) :=
  fold_left (fun ix token => add ix token node) tokens index.

Definition get (index : gmap string (list ref)) (token : string) : list ref :=
  let normalizedToken := trim (toLowerCase token) in
  match index !! normalizedToken with
  | Some nodes => nodes
  | None => []
  end.

Definition has (index : gmap string (list ref)) (token : string) : bool :=
  bool_decide (is_Some (index !! trim (toLowerCase token))).

Definition removeNode (index : gmap string (list ref)) (node : ref)
  : gmap string (list ref) :=
  (fun nodes => set_delete nodes node) <$> index.

End WithStrings.

End TokenXref.

(** *** The tree *)

Section WithStrings.

Context `{string_ops : StringOps}.

Record DTree : Type := mkTree {
  heap : gmap ref DTreeNode;
  root : ref;
  xref : gmap string (list ref);
  nodeMap : gmap nat ref;
  nextId : nat;
  q1Counter : Z;
  q2Counter : Z;
  objects : list DTreeNodeData
}.

Definition INITIAL_SPACING : Z := 1000.

Definition with_heap (h : gmap ref DTreeNode) (t : DTree) : DTree :=
  mkTree h (root t) (xref t) (nodeMap t) (nextId t) (q1Counter t)
         (q2Counter t) (objects t).

Definition with_objects (os : list DTreeNodeData) (t : DTree) : DTree :=
  mkTree (heap t) (root t) (xref t) (nodeMap t) (nextId t) (q1Counter t)
         (q2Counter t) os.

(** Reading the data object behind a reference. *)
Definition dataOf (os : list DTreeNodeData) (r : dref) : DTreeNodeData :=
  default (mkData NT_generic None) (os !! r).

(** An object literal [{ type: ..., content: ... }] of a caller: a new data
    object, returned with its reference. *)
Definition newData (t : DTree) (d : DTreeNodeData) : DTree * dref :=
  (with_objects (objects t ++ [d]) t, length (objects t)).

(** [new DTree(rootData)]: the data object of the root, [rootData] or a
    new [{ type: 'root' }], is the first of the store. *)
Definition new (rootData : option DTreeNodeData) : DTree :=
  let rootNode := mkNode 1 0 MAX_SAFE_INTEGER 0 None [] None None in
  mkTree {[ 1%nat := rootNode ]} 1%nat ∅ {[ 1%nat := 1%nat ]} 2%nat 0 0
         [match rootData with Some d => d | None => mkData NT_root None end].

(** [DTreeNode.contains] *)
Definition contains (a b : DTreeNode) : bool :=
  (q1 a <? q1 b) && (q2 b <? q2 a).

(** [DTreeNode.equals] *)
Definition equals (a b : DTreeNode) : bool := bool_decide (id a = id b).

(** [DTreeNode.isLeaf] and [DTreeNode.isRoot] *)
Definition isLeaf (n : DTreeNode) : bool :=
  bool_decide (length (children n) = 0%nat).

Definition isRoot (n : DTreeNode) : bool :=
  bool_decide (parent n = None).

(** [DTreeNode.getAncestryPath]: the loop follows [current]. *)
Fixpoint getAncestryPath_loop (fuel : nat) (h : gmap ref DTreeNode)
  (current : option ref) (path : list ref) : outcome (list ref) :=
  match fuel with
  | O => OutOfFuel
  | S fuel' =>
      match current with
      | None => Ok path
      | Some c =>
          cn ← deref h c;
          getAncestryPath_loop fuel' h (parent cn) (path ++ [c])
      end
  end.

Definition getAncestryPath (fuel : nat) (h : gmap ref DTreeNode) (node : ref)
  : outcome (list ref) :=
  n ← deref h node;
  getAncestryPath_loop fuel h (parent n) [node].

(** [DTreeNode.getSubtree]: pre-order; the inner loop runs over the
    children. *)
Fixpoint getSubtree (fuel : nat) (h : gmap ref DTreeNode) (node : ref)
  : outcome (list ref) :=
  match fuel with
  | O => OutOfFuel
  | S fuel' =>
      n ← deref h node;
      rest ← (fix over (cs : list ref) : outcome (list ref) :=
                match cs with
                | [] => Ok []
                | c :: cs' =>
                    sub ← getSubtree fuel' h c;
                    more ← over cs';
                    Ok (sub ++ more)
                end) (children n);
      Ok (node :: rest)
  end.

(** [calculateChildIndices]: the new value of [q1Counter], which is the
    [q1] of the child, and its provisional [q2]. *)
Definition calculateChildIndices (t : DTree) (parent : ref)
  (afterSibling : option ref) : outcome (Z * Z) :=
  let q1 := q1Counter t + INITIAL_SPACING in
  pn ← deref (heap t) parent;
  let siblings := children pn in
  match afterSibling with
  | Some a =>
      if bool_decide (length siblings = 0%nat)
      then Ok (q1, add (q2 pn) INITIAL_SPACING)
      else an ← deref (heap t) a; Ok (q1, add (q2 an) INITIAL_SPACING)
  | None => Ok (q1, add (q2 pn) INITIAL_SPACING)
  end.

(** [addNode]: the new reference is returned with the tree. *)
Definition addNode (t : DTree) (parent : ref) (data : dref)
  (afterSibling : option ref) : outcome (DTree * ref) :=
  '(q1, q2) ← calculateChildIndices t parent afterSibling;
  let node := nextId t in
  let h0 := <[ node := mkNode node q1 q2 data (Some parent) [] None None ]>
              (heap t) in
  h ← match afterSibling with
      | Some a =>
          an ← deref h0 a;
          let h1 := alter (fun n => set_nextSibling (nextSibling an)
                                      (set_prevSibling (Some a) n)) node h0 in
          let h2 := match nextSibling an with
                    | Some nx => alter (set_prevSibling (Some node)) nx h1
                    | None => h1
                    end in
          let h3 := alter (set_nextSibling (Some node)) a h2 in
          pn ← deref h3 parent;
          let index := indexOf (children pn) a in
          Ok (alter (set_children (splice (children pn) (index + 1) 0 [node]))
                    parent h3)
      | None =>
          pn ← deref h0 parent;
          let h1 := match children pn with
                    | firstChild :: _ =>
                        alter (set_prevSibling (Some node)) firstChild
                          (alter (set_nextSibling (Some firstChild)) node h0)
                    | [] => h0
                    end in
          pn' ← deref h1 parent;
          Ok (alter (set_children (node :: children pn')) parent h1)
      end;
  Ok (mkTree h (root t) (xref t) (<[ node := node ]> (nodeMap t))
             (S (nextId t)) q1 (q2Counter t) (objects t),
      node).

(** [appendChild] *)
Definition appendChild (t : DTree) (parent : ref) (data : dref)
  : outcome (DTree * ref) :=
  pn ← deref (heap t) parent;
  let lastChild := last (children pn) in
  addNode t parent data lastChild.

(** [recalculateQ2]: [traverse] threads the heap and the local [counter]. *)
Fixpoint traverse (fuel : nat) (node : ref) (st : gmap ref DTreeNode * Z)
  : outcome (gmap ref DTreeNode * Z) :=
  match fuel with
  | O => OutOfFuel
  | S fuel' =>
      n ← deref (fst st) node;
      st' ← (fix over (cs : list ref) (st : gmap ref DTreeNode * Z)
               : outcome (gmap ref DTreeNode * Z) :=
               match cs with
               | [] => Ok st
               | c :: cs' => st1 ← traverse fuel' c st; over cs' st1
               end) (children n) st;
      let counter := snd st' + INITIAL_SPACING in
      Ok (alter (set_q2 counter) node (fst st'), counter)
  end.

Definition recalculateQ2 (fuel : nat) (t : DTree) : outcome DTree :=
  st ← traverse fuel (root t) (heap t, 0);
  Ok (with_heap (fst st) t).

(** [removeNode] *)
Definition removeNode (fuel : nat) (t : DTree) (node : ref) : outcome DTree :=
  n ← deref (heap t) node;
  if isRoot n then Throw RootRemovalForbidden
  else
    subtree ← getSubtree fuel (heap t) node;
    '(xr, nm) ← (fix purge (ns : list ref)
                   (acc : gmap string (list ref) * gmap nat ref)
                   : outcome (gmap string (list ref) * gmap nat ref) :=
                   match ns with
                   | [] => Ok acc
                   | x :: ns' =>
                       xn ← deref (heap t) x;
                       purge ns' (TokenXref.removeNode (fst acc) x,
                                  delete (id xn) (snd acc))
                   end) subtree (xref t, nodeMap t);
    p ← match parent n with Some p => Ok p | None => Throw TypeError end;
    pn ← deref (heap t) p;
    let index := indexOf (children pn) node in
    let h1 := alter (set_children (splice (children pn) index 1 [])) p
                    (heap t) in
    n1 ← deref h1 node;
    let h2 := match prevSibling n1 with
              | Some pv => alter (set_nextSibling (nextSibling n1)) pv h1
              | None => h1
              end in
    n2 ← deref h2 node;
    let h3 := match nextSibling n2 with
              | Some nx => alter (set_prevSibling (prevSibling n2)) nx h2
              | None => h2
              end in
    Ok (mkTree h3 (root t) xr nm (nextId t) (q1Counter t) (q2Counter t)
               (objects t)).

(** [findNCD] *)
Definition findNCD (fuel : nat) (t : DTree) (nodeA nodeB : ref)
  : outcome ref :=
  a ← deref (heap t) nodeA;
  b ← deref (heap t) nodeB;
  if equals a b then Ok nodeA
  else if contains a b then Ok nodeA
  else if contains b a then Ok nodeB
  else
    ancestryA ← getAncestryPath fuel (heap t) nodeA;
    pathB ← getAncestryPath fuel (heap t) nodeB;
    let ancestryB : list nat :=
      omap (fun r => id <$> heap t !! r) pathB in
    match List.find (fun r => match heap t !! r with
                              | Some n => bool_decide (id n ∈ ancestryB)
                              | None => false
                              end) ancestryA with
    | Some ancestor => Ok ancestor
    | None => Ok (root t)
    end.

(** [findNCDMultiple] *)
Definition findNCDMultiple (fuel : nat) (t : DTree) (nodes : list ref)
  : outcome ref :=
  match nodes with
  | [] => Ok (root t)
  | [n] => Ok n
  | n :: rest =>
      fold_left (fun acc x => ncd ← acc; findNCD fuel t ncd x) rest (Ok n)
  end.

(** The result of [searchAND] and of [searchOR]. *)
Record ANDResult : Type := mkAND {
  context : ref;
  and_occurrences : list (string * list ref)
}.

Record ORResult : Type := mkOR {
  contexts : list ref;
  or_occurrences : list (string * list ref)
}.

(** [Map.prototype.set] on a map kept as the list of its entries in
    insertion order: an existing key keeps its place. *)
Fixpoint map_set (m : list (string * list ref)) (k : string) (v : list ref)
  : list (string * list ref) :=
  match m with
  | [] => [(k, v)]
  | (k', v') :: m' =>
      if decide (k' = k) then (k, v) :: m' else (k', v') :: map_set m' k v
  end.

(** The loop of [searchAND]; [None] is the early [return null]. *)
Fixpoint searchAND_loop (t : DTree) (tokens : list string)
  (occurrences : list (string * list ref)) (allNodes : list ref)
  : option (list (string * list ref) * list ref) :=
  match tokens with
  | [] => Some (occurrences, allNodes)
  | token :: tokens' =>
      let nodes := TokenXref.get (xref t) token in
      if bool_decide (length nodes = 0%nat) then None
      else searchAND_loop t tokens' (map_set occurrences token nodes)
                          (allNodes ++ nodes)
  end.

Definition searchAND (fuel : nat) (t : DTree) (tokens : list string)
  : outcome (option ANDResult) :=
  match searchAND_loop t tokens [] [] with
  | None => Ok None
  | Some (occurrences, allNodes) =>
      context ← findNCDMultiple fuel t allNodes;
      Ok (Some (mkAND context occurrences))
  end.

(** The loop of [searchOR]. *)
Fixpoint searchOR_loop (t : DTree) (tokens : list string)
  (occurrences : list (string * list ref)) (allNodes : list ref)
  : list (string * list ref) * list ref :=
  match tokens with
  | [] => (occurrences, allNodes)
  | token :: tokens' =>
      let nodes := TokenXref.get (xref t) token in
      searchOR_loop t tokens' (map_set occurrences token nodes)
                    (allNodes ++ nodes)
  end.

(** [n.isLeaf() ? n.parent || n : n] *)
Definition lift (h : gmap ref DTreeNode) (r : ref) : outcome ref :=
  n ← deref h r;
  Ok (if isLeaf n then match parent n with Some p => p | None => r end
      else r).

Fixpoint lift_all (h : gmap ref DTreeNode) (rs : list ref)
  : outcome (list ref) :=
  match rs with
  | [] => Ok []
  | r :: rs' => c ← lift h r; cs ← lift_all h rs'; Ok (c :: cs)
  end.

Definition searchOR (t : DTree) (tokens : list string) : outcome ORResult :=
  let '(occurrences, allNodes) := searchOR_loop t tokens [] [] in
  lifted ← lift_all (heap t) allNodes;
  Ok (mkOR (set_of_array lifted) occurrences).

(** [indexContent] *)
Definition tokenize (content : string) : list string :=
  filter (fun tok => (0 <? String.length tok)%nat = true)
         (map strip_non_word (split_blanks (toLowerCase content))).

Definition indexContent (t : DTree) (node : ref) (content : string)
  : outcome DTree :=
  let tokens := tokenize content in
  let xr := TokenXref.addMany (xref t) tokens node in
  n ← deref (heap t) node;
  let d := dataOf (objects t) (data n) in
  Ok (mkTree (heap t) (root t) xr (nodeMap t) (nextId t) (q1Counter t)
             (q2Counter t)
             (<[ data n := mkData (type d) (Some content) ]> (objects t))).

(** [DTreeNode.isContainedBy] *)
Definition isContainedBy (a b : DTreeNode) : bool := contains b a.

(** [DTreeNode.getDepth]: the loop follows [current] and counts. *)
Fixpoint getDepth_loop (fuel : nat) (h : gmap ref DTreeNode)
  (current : option ref) (depth : Z) : outcome Z :=
  match fuel with
  | O => OutOfFuel
  | S fuel' =>
      match current with
      | None => Ok depth
      | Some c =>
          cn ← deref h c;
          getDepth_loop fuel' h (parent cn) (depth + 1)
      end
  end.

Definition getDepth (fuel : nat) (h : gmap ref DTreeNode) (node : ref)
  : outcome Z :=
  n ← deref h node;
  getDepth_loop fuel h (parent n) 0.

(** [getNode]: the id [node_k] is the number [k]. *)
Definition getNode (t : DTree) (id : nat) : option ref := nodeMap t !! id.

(** [liftToLevel]: the loop follows [current]; [None] is its end, where the
    method returns the root. *)
Fixpoint liftToLevel_loop (fuel : nat) (t : DTree) (current : option ref)
  (targetType : NodeType) : outcome ref :=
  match fuel with
  | O => OutOfFuel
  | S fuel' =>
      match current with
      | None => Ok (root t)
      | Some c =>
          cn ← deref (heap t) c;
          if bool_decide (type (dataOf (objects t) (data cn)) = targetType)
          then Ok c
          else liftToLevel_loop fuel' t (parent cn) targetType
      end
  end.

Definition liftToLevel (fuel : nat) (t : DTree) (node : ref)
  (targetType : NodeType) : outcome ref :=
  liftToLevel_loop fuel t (Some node) targetType.

(** [DTree.getStats]: [calculateDepth] updates the variable [maxDepth],
    which is threaded through; [tokenCount] is the [tokenCount] of
    [TokenXref.getStats], the size of the index. *)
Record TreeStats : Type := mkStats {
  nodeCount : nat;
  maxDepth : Z;
  tokenCount : nat
}.

Fixpoint calculateDepth (fuel : nat) (h : gmap ref DTreeNode) (node : ref)
  (depth : Z) (maxDepth : Z) : outcome Z :=
  match fuel with
  | O => OutOfFuel
  | S fuel' =>
      n ← deref h node;
      (fix over (cs : list ref) (maxDepth : Z) : outcome Z :=
         match cs with
         | [] => Ok maxDepth
         | c :: cs' =>
             m ← calculateDepth fuel' h c (depth + 1) maxDepth;
             over cs' m
         end) (children n) (Z.max maxDepth depth)
  end.

Definition getStats (fuel : nat) (t : DTree) : outcome TreeStats :=
  maxDepth ← calculateDepth fuel (heap t) (root t) 0 0;
  Ok (mkStats (size (nodeMap t)) maxDepth (size (xref t))).

(** [copySubtreeRecursive]: the heap, [nextId] and the store of the data
    objects are threaded.  The copy is allocated under the number that
    [generateId] gives it, with the coordinates of [node] and a new data
    object [{ ...node.data }]; the copies of the children are pushed to its
    [children] one by one. *)
Fixpoint copySubtreeRecursive (fuel : nat) (node : ref)
  (newParent : option ref)
  (st : gmap ref DTreeNode * nat * list DTreeNodeData)
  : outcome (gmap ref DTreeNode * nat * list DTreeNodeData * ref) :=
  match fuel with
  | O => OutOfFuel
  | S fuel' =>
      let '(h, next, os) := st in
      n ← deref h node;
      let copy := next in
      let h0 := <[ copy := mkNode copy (q1 n) (q2 n) (length os) newParent
                                  [] None None ]> h in
      let os0 := os ++ [dataOf os (data n)] in
      st' ← (fix over (cs : list ref)
               (st : gmap ref DTreeNode * nat * list DTreeNodeData)
               : outcome (gmap ref DTreeNode * nat * list DTreeNodeData) :=
               match cs with
               | [] => Ok st
               | child :: cs' =>
                   '(h1, next1, os1, childCopy) ←
                     copySubtreeRecursive fuel' child (Some copy) st;
                   over cs' (alter (fun c => set_children
                                               (children c ++ [childCopy]) c)
                                   copy h1, next1, os1)
               end) (children n) (h0, S copy, os0);
      let '(h', next', os') := st' in
      Ok (h', next', os', copy)
  end.

(** The loop of [copySubtree] over [node.children]. *)
Fixpoint copyChildren (fuel : nat) (cs : list ref) (copy : ref)
  (st : gmap ref DTreeNode * nat * list DTreeNodeData)
  : outcome (gmap ref DTreeNode * nat * list DTreeNodeData) :=
  match cs with
  | [] => Ok st
  | child :: cs' =>
      '(h1, next1, os1, childCopy) ←
        copySubtreeRecursive fuel child (Some copy) st;
      copyChildren fuel cs' copy
        (alter (fun c => set_children (children c ++ [childCopy]) c) copy h1,
         next1, os1)
  end.

(** One turn of the loop of [copySubtree] that links the children [cs] of
    the copy: [cs[i].prevSibling = cs[i - 1]] when [i > 0], and
    [cs[i].nextSibling = cs[i + 1]] when [i < cs.length - 1]. *)
Definition linkSibling (cs : list ref) (h : gmap ref DTreeNode) (i : nat)
  : gmap ref DTreeNode :=
  match cs !! i with
  | Some c =>
      let h1 := if (0 <? i)%nat
                then alter (set_prevSibling (cs !! (i - 1)%nat)) c h else h in
      if (i <? length cs - 1)%nat
      then alter (set_nextSibling (cs !! (i + 1)%nat)) c h1 else h1
  | None => h
  end.

(** [copySubtree]: the copy has no parent and is not entered in [nodeMap]. *)
Definition copySubtree (fuel : nat) (t : DTree) (node : ref)
  : outcome (DTree * ref) :=
  n ← deref (heap t) node;
  let copy := nextId t in
  let h0 := <[ copy := mkNode copy (q1 n) (q2 n) (length (objects t)) None
                              [] None None ]> (heap t) in
  let os0 := objects t ++ [dataOf (objects t) (data n)] in
  '(h1, next1, os1) ← copyChildren fuel (children n) copy (h0, S copy, os0);
  cn ← deref h1 copy;
  let h2 := foldl (linkSibling (children cn)) h1
                  (seq 0 (length (children cn))) in
  Ok (mkTree h2 (root t) (xref t) (nodeMap t) next1 (q1Counter t)
             (q2Counter t) os1,
      copy).

End WithStrings.

End DTree.


(** ** The parsers of [htmlParser.ts]: documents into trees

    [parseHTML] and [parsePlainText] read their input with regular
    expressions and build a [DTree] from what these match.  The matching is
    kept apart from the building: the section below takes as parameters the
    functions from a (trimmed) line to what the regular expressions capture
    in it, [splitIntoSentences], [tagToNodeType] and the split of a text into
    paragraphs, and it embeds the code that builds the tree.  What is proved
    of the parsers holds whatever these functions return.  ([tagToNodeType]
    looks the tag up in an object literal; for the tags [constructor] and
    [__proto__] the lookup yields a property that every object inherits,
    which is no node type and differs from ['generic']: a node is appended
    for them as for a known tag, and the parameter stands for a function
    that returns some type other than [NT_generic] there.)  The module
    [./dtree] that the parsers import is the [DTree] of [core/dtree.ts],
    whose [appendChild], [indexContent] and [recalculateQ2] they call; the
    [metadata] they pass is left out with the field. *)

Module HtmlParser.

Import JS DTree.

(** [html.split('\n')]; [cur] is the piece being read, in reverse. *)
Fixpoint split_lines (s : string) (cur : string) : list string :=
  match s with
  | EmptyString => [string_rev cur]
  | String c s' =>
      if Ascii.eqb c (ascii_of_nat 10) then
        string_rev cur :: split_lines s' EmptyString
      else split_lines s' (String c cur)
  end.

Section Parser.

Context `{string_ops : StringOps}.

(** [trimmed.match(/^<(\w+)[^>]*>/)]: the tag name captured. *)
Variable match_open : string -> option string.
(** [trimmed.match(/>([^<]+)</)]: the text captured. *)
Variable match_text : string -> option string.
(** [trimmed.match(/<\/(\w+)>/)]: whether there is a match. *)
Variable match_close : string -> bool.
Variable splitIntoSentences : string -> list string.
Variable tagToNodeType : string -> NodeType.
(** [text.split(/\n\s*\n/)] *)
Variable split_paragraphs : string -> list string.

(** The loop over the sentences of a text: each becomes a child of
    [parent], whose content is indexed. *)
Fixpoint appendSentences (t : DTree) (parent : ref) (sentences : list string)
  : outcome DTree :=
  match sentences with
  | [] => Ok t
  | sentence :: rest =>
      let '(t0, o) := newData t (mkData NT_sentence (Some sentence)) in
      '(t1, sentenceNode) ← appendChild t0 parent o;
      t2 ← indexContent t1 sentenceNode sentence;
      appendSentences t2 parent rest
  end.

(** One turn of the loop of [parseHTML] over the lines: the tree,
    [currentParent] and [parentStack] before and after.  The stack keeps
    the root, so the [undefined] that an empty stack would give as
    [currentParent] is not met; it is the [TypeError] of its first use. *)
Definition parseHTML_line (st : DTree * ref * list ref) (line : string)
  : outcome (DTree * ref * list ref) :=
  let '(t, currentParent, parentStack) := st in
  let trimmed := trim line in
  if bool_decide (trimmed = EmptyString) then Ok st
  else
    st1 ← match match_open trimmed with
          | Some tagName =>
              let nodeType := tagToNodeType tagName in
              '(t1, cur1, stack1) ←
                (if bool_decide (nodeType <> NT_generic) then
                   let '(t0, o) := newData t (mkData nodeType None) in
                   '(t1, newNode) ← appendChild t0 currentParent o;
                   Ok (t1, newNode, parentStack ++ [newNode])
                 else Ok (t, currentParent, parentStack));
              match match_text trimmed with
              | Some captured =>
                  let text := trim captured in
                  if bool_decide (text = EmptyString) then
                    Ok (t1, cur1, stack1)
                  else
                    t2 ← appendSentences t1 cur1 (splitIntoSentences text);
                    Ok (t2, cur1, stack1)
              | None => Ok (t1, cur1, stack1)
              end
          | None => Ok st
          end;
    let '(t1, cur1, stack1) := st1 in
    if match_close trimmed && (1 <? length stack1)%nat then
      let stack2 := removelast stack1 in
      match last stack2 with
      | Some c => Ok (t1, c, stack2)
      | None => Throw TypeError
      end
    else Ok st1.

Fixpoint parseHTML_lines (st : DTree * ref * list ref) (lines : list string)
  : outcome (DTree * ref * list ref) :=
  match lines with
  | [] => Ok st
  | line :: rest => st' ← parseHTML_line st line; parseHTML_lines st' rest
  end.

(** [parseHTML] *)
Definition parseHTML (fuel : nat) (html : string) : outcome DTree :=
  let tree := new (Some (mkData NT_document None)) in
  '(t, _, _) ← parseHTML_lines (tree, root tree, [root tree])
                               (split_lines html EmptyString);
  recalculateQ2 fuel t.

(** The loop of [parsePlainText] over the paragraphs. *)
Fixpoint parsePlainText_paragraphs (t : DTree) (paragraphs : list string)
  : outcome DTree :=
  match paragraphs with
  | [] => Ok t
  | para :: rest =>
      let trimmed := trim para in
      if bool_decide (trimmed = EmptyString) then
        parsePlainText_paragraphs t rest
      else
        let '(t0, o) := newData t (mkData NT_paragraph None) in
        '(t1, paraNode) ← appendChild t0 (root t) o;
        t2 ← appendSentences t1 paraNode (splitIntoSentences trimmed);
        parsePlainText_paragraphs t2 rest
  end.

(** [parsePlainText] *)
Definition parsePlainText (fuel : nat) (text : string) : outcome DTree :=
  let tree := new (Some (mkData NT_document None)) in
  t ← parsePlainText_paragraphs tree (split_paragraphs text);
  recalculateQ2 fuel t.

End Parser.

End HtmlParser.
(** * Notions used to state the properties *)

(** A call has finished when it returned or threw. *)
Definition finished {A : Type} (r : outcome A) : Prop := r <> OutOfFuel.

Module CTGSpec.

Import JS CTGEngine.

(** [p] is the parent the engine computes for [n]. *)
Definition parent_of (n p : Z) : Prop :=
  exists fuel, getParent fuel (Integer n) = Ok (Some p).

(** [walk n l]: [l] lists the successive parents of [n], the last of which
    is the root 1; [l] is empty when [n] is the root itself. *)
Inductive walk : Z -> list Z -> Prop :=
| walk_root : walk 1 []
| walk_step (n p : Z) (l : list Z) :
    n <> 1 -> parent_of n p -> walk p l -> walk n (p :: l).

(** The parent of the rules, in the words of the specification and of the
    documentation of [getParent]: none for 1, [n / 2] for an even [n], the
    odd part of [3n + 1] for an odd [n] other than 1; in exact integers. *)
Fixpoint oddPart_pos (p : positive) : positive :=
  match p with
  | xO q => oddPart_pos q
  | _ => p
  end.

Definition spec_oddPart (n : Z) : Z :=
  match n with
  | Zpos p => Zpos (oddPart_pos p)
  | _ => n
  end.

Definition spec_parent (n : Z) : option Z :=
  if n =? 1 then None
  else if Z.even n then Some (n / 2)
  else Some (spec_oddPart (3 * n + 1)).

(** [spec_walk n l]: [l] lists the successive parents of [n] by the rules,
    the last of which is the root 1. *)
Inductive spec_walk : Z -> list Z -> Prop :=
| spec_walk_root : spec_walk 1 []
| spec_walk_step (n p : Z) (l : list Z) :
    n <> 1 -> spec_parent n = Some p -> spec_walk p l ->
    spec_walk n (p :: l).

End CTGSpec.

Module DTreeSpec.

Import JS DTree.

Section WithStrings.

Context `{string_ops : StringOps}.

(** ** The tree the [children] arrays of a heap describe *)

(** The shape of the part of a heap below a node: the reference of the node
    and the shapes below its children, in the order of its [children]. *)
Inductive shape : Type :=
| Sh (r : ref) (kids : list shape).

Definition sroot (t : shape) : ref := match t with Sh r _ => r end.
Definition skids (t : shape) : list shape := match t with Sh _ kids => kids end.

(** The references of a shape in pre-order and in post-order. *)
Fixpoint pre (t : shape) : list ref :=
  match t with Sh r kids => r :: flat_map pre kids end.

Fixpoint post (t : shape) : list ref :=
  match t with Sh r kids => flat_map post kids ++ [r] end.

Inductive has_shape (h : gmap ref DTreeNode) : shape -> Prop :=
| has_shape_node (r : ref) (kids : list shape) (n : DTreeNode) :
    h !! r = Some n ->
    children n = map sroot kids ->
    Forall (has_shape h) kids ->
    has_shape h (Sh r kids).

(** The part of the heap below [r] is a tree: it has a shape, and no node
    occurs twice in it. *)
Definition is_tree (h : gmap ref DTreeNode) (r : ref) : Prop :=
  exists t, sroot t = r /\ has_shape h t /\ NoDup (pre t).

(** [c] is in the [children] array of [p]. *)
Definition child_of (h : gmap ref DTreeNode) (p c : ref) : Prop :=
  exists n, h !! p = Some n /\ c ∈ children n.

(** [a] is a proper ancestor of [b]: [b] is reached from [a] by one or more
    steps to a child. *)
Definition ancestor (h : gmap ref DTreeNode) (a b : ref) : Prop :=
  tc (child_of h) a b.

(** The nodes of a tree: what is reached from its root. *)
Definition in_tree (t : DTree) (a : ref) : Prop :=
  rtc (child_of (heap t)) (root t) a.

Definition q1_of (h : gmap ref DTreeNode) (r : ref) : Z :=
  from_option q1 0 (h !! r).

Definition q2_of (h : gmap ref DTreeNode) (r : ref) : Z :=
  from_option q2 0 (h !! r).

(** The inner loop of [traverse] over the children of a node. *)
Definition traverse_children (fuel : nat)
  : list ref -> gmap ref DTreeNode * Z -> outcome (gmap ref DTreeNode * Z) :=
  fix over (cs : list ref) (st : gmap ref DTreeNode * Z) :=
    match cs with
    | [] => Ok st
    | c :: cs' => st1 ← traverse fuel c st; over cs' st1
    end.

(** The inner loop of [getSubtree] over the children of a node. *)
Definition getSubtree_children (fuel : nat) (h : gmap ref DTreeNode)
  : list ref -> outcome (list ref) :=
  fix over (cs : list ref) :=
    match cs with
    | [] => Ok []
    | c :: cs' =>
        sub ← getSubtree fuel h c; more ← over cs'; Ok (sub ++ more)
    end.

(** Two heaps that differ in the [q2] of their nodes only. *)
Definition same_but_q2 (h h' : gmap ref DTreeNode) : Prop :=
  forall r, h' !! r = (fun n => set_q2 (q2_of h' r) n) <$> h !! r.

(** The outcome of numbering the nodes [l_pre] of a subtree from the counter
    [c]: [h'] and [c'] are the heap and the counter afterwards, and [l_post]
    lists the nodes in post-order. *)
Definition numbered (h : gmap ref DTreeNode) (c : Z) (l_pre l_post : list ref)
  (h' : gmap ref DTreeNode) (c' : Z) : Prop :=
  c' = c + INITIAL_SPACING * Z.of_nat (length l_pre) /\
  (forall r, r ∉ l_pre -> h' !! r = h !! r) /\
  same_but_q2 h h' /\
  StronglySorted (fun x y => q2_of h' x < q2_of h' y) l_post /\
  (forall r, r ∈ l_pre -> c < q2_of h' r <= c').

(** ** Building a tree in complete-subtree order *)

(** [p] lies on the path from [r] along last children: the nodes whose
    subtree is not complete yet when the tree is built depth first. *)
Inductive on_last_path (h : gmap ref DTreeNode) : ref -> ref -> Prop :=
| on_last_path_here (r : ref) : on_last_path h r r
| on_last_path_down (r c p : ref) (n : DTreeNode) :
    h !! r = Some n -> last (children n) = Some c ->
    on_last_path h c p -> on_last_path h r p.

(** The trees a caller obtains from [new DTree] by calls of [appendChild]
    whose parent is the root or the last child of the last parent so far (no
    node is appended below a node that already has a later sibling), making
    data objects, indexing contents and recomputing [q2] at will. *)
Inductive dfs_built : DTree -> Prop :=
| dfs_new (rootData : option DTreeNodeData) : dfs_built (new rootData)
| dfs_newData (t : DTree) (d : DTreeNodeData) :
    dfs_built t -> dfs_built (fst (newData t d))
| dfs_appendChild (t t' : DTree) (p r : ref) (d : dref) :
    dfs_built t -> on_last_path (heap t) (root t) p ->
    appendChild t p d = Ok (t', r) -> dfs_built t'
| dfs_indexContent (t t' : DTree) (node : ref) (content : string) :
    dfs_built t -> indexContent t node content = Ok t' -> dfs_built t'
| dfs_recalculateQ2 (t t' : DTree) (fuel : nat) :
    dfs_built t -> recalculateQ2 fuel t = Ok t' -> dfs_built t'.

(** [t'] is [t] with the leaf [new] added as the last child of [p], where
    [p] lies on the path of last children of [t]. *)
Inductive grafted (p new : ref) : shape -> shape -> Prop :=
| grafted_here (kids : list shape) :
    grafted p new (Sh p kids) (Sh p (kids ++ [Sh new []]))
| grafted_down (r : ref) (kids : list shape) (k k' : shape) :
    grafted p new k k' ->
    grafted p new (Sh r (kids ++ [k])) (Sh r (kids ++ [k'])).

(** What the shape and the pre-order of a tree depend on in a node. *)
Definition view (n : DTreeNode) : Z * list ref := (q1 n, children n).

(** The invariant of the trees built in complete-subtree order: along the
    pre-order of the tree the [q1] increase strictly, none exceeds
    [q1Counter], and the references from [nextId] on are unused. *)
Definition dfs_inv (T : DTree) (t : shape) : Prop :=
  sroot t = root T /\ has_shape (heap T) t /\
  StronglySorted (fun x y => q1_of (heap T) x < q1_of (heap T) y) (pre t) /\
  (forall x, x ∈ pre t -> q1_of (heap T) x <= q1Counter T) /\
  (forall x, (nextId T <= x)%nat -> heap T !! x = None).

(** ** Sibling links *)

(** The [prevSibling] and [nextSibling] of the nodes of an array of children
    link each node to its neighbours; [prev] is what precedes the array. *)
Fixpoint linked (h : gmap ref DTreeNode) (prev : option ref) (cs : list ref)
  : Prop :=
  match cs with
  | [] => True
  | c :: cs' =>
      (exists n, h !! c = Some n /\ prevSibling n = prev
                 /\ nextSibling n = head cs')
      /\ linked h (Some c) cs'
  end.

(** [node] is attached below [p], whose record is [pn]: it occurs once in
    the [children] of [p], whose members are linked to their neighbours. *)
Definition attached (h : gmap ref DTreeNode) (p : ref) (pn : DTreeNode)
  (node : ref) : Prop :=
  h !! p = Some pn /\ node ∈ children pn /\
  NoDup (children pn) /\ linked h None (children pn).

(** The loop of [removeNode] over the nodes of the subtree. *)
Definition purge_loop (h : gmap ref DTreeNode)
  : list ref -> gmap string (list ref) * gmap nat ref ->
    outcome (gmap string (list ref) * gmap nat ref) :=
  fix purge (ns : list ref) (acc : gmap string (list ref) * gmap nat ref) :=
    match ns with
    | [] => Ok acc
    | x :: ns' =>
        xn ← deref h x;
        purge ns' (TokenXref.removeNode (fst acc) x, delete (id xn) (snd acc))
    end.

(** The sibling links of a node. *)
Definition sview (n : DTreeNode) : option ref * option ref :=
  (prevSibling n, nextSibling n).

(** ** Search results *)

(** [Map.prototype.get] on a map kept as the list of its entries. *)
Fixpoint map_get (m : list (string * list ref)) (k : string)
  : option (list ref) :=
  match m with
  | [] => None
  | (k', v) :: m' => if decide (k' = k) then Some v else map_get m' k
  end.

(** The context [searchOR] takes for an occurrence node [x]: the parent of a
    leaf that has one, the node itself otherwise. *)
Definition lifted (h : gmap ref DTreeNode) (x c : ref) : Prop :=
  exists n, h !! x = Some n /\
    c = (if isLeaf n then from_option (fun p => p) x (parent n) else x).

(** The [id] and the [parent] of a node. *)
Definition idp (n : DTreeNode) : nat * option ref := (id n, parent n).

(** ** Links

    What the links of a tree consist of in a node: its [id], its [parent],
    its [children] and its two siblings. *)
Definition links (n : DTreeNode)
  : nat * option ref * list ref * (option ref * option ref) :=
  (id n, parent n, children n, (prevSibling n, nextSibling n)).

(** The links of a tree are consistent: the references from [nextId] on are
    unused; the root has no parent and is the only such node; the [id] of a
    node is the reference it is stored at; a node is in the [children] of
    its [parent], which was created before it; and the [children] of a node
    are distinct, linked to their neighbours, and have the node as
    [parent]. *)
Definition links_wf (T : DTree) : Prop :=
  (forall x, (nextId T <= x)%nat -> heap T !! x = None) /\
  (exists rn, heap T !! root T = Some rn /\ parent rn = None) /\
  (forall x n, heap T !! x = Some n ->
     id n = x /\
     (parent n = None -> x = root T) /\
     (forall p, parent n = Some p ->
        (p < x)%nat /\
        exists pn, heap T !! p = Some pn /\ x ∈ children pn) /\
     NoDup (children n) /\
     linked (heap T) None (children n) /\
     (forall c cn, c ∈ children n -> heap T !! c = Some cn ->
                   parent cn = Some x)).

(** ** Ancestry paths and dominators

    The path that follows [parent] from [cur] until there is none. *)
Inductive up_path (h : gmap ref DTreeNode) : option ref -> list ref -> Prop :=
| up_path_nil : up_path h None []
| up_path_cons (c : ref) (cn : DTreeNode) (l : list ref) :
    h !! c = Some cn -> up_path h (parent cn) l -> up_path h (Some c) (c :: l).

(** [c] is [x] or an ancestor of [x]. *)
Definition dominates (h : gmap ref DTreeNode) (c x : ref) : Prop :=
  rtc (child_of h) c x.

(** [c] is the nearest common dominator of [nodes]: it dominates each of
    them, and every node that does dominates [c]. *)
Definition is_ncd (h : gmap ref DTreeNode) (nodes : list ref) (c : ref)
  : Prop :=
  (forall x, x ∈ nodes -> dominates h c x) /\
  (forall c', (forall x, x ∈ nodes -> dominates h c' x) -> dominates h c' c).

(** The coordinates of a tree are accurate for [contains]: one node
    contains another only if it is an ancestor of it. *)
Definition contains_sound (T : DTree) : Prop :=
  forall a b na nb,
    heap T !! a = Some na -> heap T !! b = Some nb ->
    contains na nb = true -> ancestor (heap T) a b.

(** The cross-reference lists nodes of the heap only. *)
Definition xref_wf (T : DTree) : Prop :=
  forall k l x, xref T !! k = Some l -> x ∈ l -> is_Some (heap T !! x).

(** ** Lifts, statistics and insertions

    The node [c] has the type [ty]. *)
Definition has_type (T : DTree) (ty : NodeType) (c : ref) : Prop :=
  exists cn, heap T !! c = Some cn /\
             type (dataOf (objects T) (data cn)) = ty.

(** The inner loop of [calculateDepth] over the children of a node. *)
Definition calculateDepth_children (fuel : nat) (h : gmap ref DTreeNode)
  (depth : Z) : list ref -> Z -> outcome Z :=
  fix over (cs : list ref) (maxDepth : Z) :=
    match cs with
    | [] => Ok maxDepth
    | c :: cs' =>
        m ← calculateDepth fuel h c (depth + 1) maxDepth; over cs' m
    end.

(** The node map holds the nodes of the heap, each under its id. *)
Definition nodeMap_wf (T : DTree) : Prop :=
  forall k x, getNode T k = Some x <-> k = x /\ is_Some (heap T !! x).

(** The siblings of [x] after [r] has been inserted between [l1] and [l2]
    in an array of children: the node after [r] gets [r] as previous
    sibling, the node before [r] gets it as next sibling. *)
Definition inserted_sview (l1 l2 : list ref) (r x : ref) (xn : DTreeNode)
  : option ref * option ref :=
  (if decide (head l2 = Some x) then Some r else prevSibling xn,
   if decide (last l1 = Some x) then Some r else nextSibling xn).

(** ** Copies

    The shape [s'] of the heap [h'] is a copy of the shape [s] of the heap
    [h]: node by node and in the same order, the copy of a node has the
    reference of the shape as its [id], the [q1] and the [q2] of the node,
    the copy of the parent as [parent] ([par] at the top), the copies of the
    children as [children], and as [data] an object of the store [os'] that
    was not in the store [os] and has the type and the content of the data
    object of the node. *)
#[warning="-register-all"]
Inductive copy_of (h h' : gmap ref DTreeNode) (os os' : list DTreeNodeData)
  : option ref -> shape -> shape -> Prop :=
| copy_of_node (par : option ref) (x x' : ref) (kids kids' : list shape)
    (n n' : DTreeNode) :
    h !! x = Some n -> h' !! x' = Some n' ->
    id n' = x' -> q1 n' = q1 n -> q2 n' = q2 n ->
    (length os <= data n')%nat ->
    os' !! data n' = Some (dataOf os (data n)) ->
    parent n' = par -> children n' = map sroot kids' ->
    Forall2 (copy_of h h' os os' (Some x')) kids kids' ->
    copy_of h h' os os' par (Sh x kids) (Sh x' kids').

(** A node without its sibling links. *)
Definition body (n : DTreeNode)
  : nat * Z * Z * dref * option ref * list ref :=
  (id n, q1 n, q2 n, data n, parent n, children n).

(** ** Parsing

    The [parentStack] of the parsers, below its first entry [s]: each entry
    lies on the path of last children of the entry before it. *)
Fixpoint chain (h : gmap ref DTreeNode) (s : ref) (stack : list ref) : Prop :=
  match stack with
  | [] => True
  | s' :: rest => on_last_path h s s' /\ chain h s' rest
  end.

(** The invariant of the loop of [parseHTML] over the lines: the tree is
    built in complete-subtree order, the stack starts at the root and
    descends along last children, and [currentParent] is its last entry. *)
Definition parser_inv (st : DTree * ref * list ref) : Prop :=
  let '(t, cur, stack) := st in
  dfs_built t /\
  exists rest, stack = root t :: rest /\ chain (heap t) (root t) rest /\
               last stack = Some cur.

End WithStrings.

End DTreeSpec.

(** * Example trees *)

Module Examples.

Import JS DTree.

(** ** The string operations on ASCII text

    On strings of ASCII characters the operations of the library are the
    ones below; the examples contain no other text. *)

Definition lower_char (c : ascii) : ascii :=
  let n := nat_of_ascii c in
  if ((65 <=? n) && (n <=? 90))%nat then ascii_of_nat (n + 32) else c.

Fixpoint ascii_toLowerCase (s : string) : string :=
  match s with
  | EmptyString => EmptyString
  | String c s' => String (lower_char c) (ascii_toLowerCase s')
  end.

Definition is_space (c : ascii) : bool :=
  let n := nat_of_ascii c in
  ((9 <=? n) && (n <=? 13) || (n =? 32))%nat.

Fixpoint ascii_trimStart (s : string) : string :=
  match s with
  | EmptyString => EmptyString
  | String c s' => if is_space c then ascii_trimStart s' else s
  end.

Definition ascii_trim (s : string) : string :=
  string_rev (ascii_trimStart (string_rev (ascii_trimStart s))).

(** [\w] of a JavaScript regular expression. *)
Definition is_word_char (c : ascii) : bool :=
  let n := nat_of_ascii c in
  ((48 <=? n) && (n <=? 57) || (65 <=? n) && (n <=? 90)
   || (97 <=? n) && (n <=? 122) || (n =? 95))%nat.

Fixpoint ascii_strip_non_word (s : string) : string :=
  match s with
  | EmptyString => EmptyString
  | String c s' =>
      if is_word_char c then String c (ascii_strip_non_word s')
      else ascii_strip_non_word s'
  end.

(** [s.split(/\s+/)]: [cur] is the piece being read, in reverse. *)
Fixpoint ascii_split (s : string) (cur : string) (in_gap : bool)
  : list string :=
  match s with
  | EmptyString => [string_rev cur]
  | String c s' =>
      if is_space c then
        if in_gap then ascii_split s' cur true
        else string_rev cur :: ascii_split s' EmptyString true
      else ascii_split s' (String c cur) false
  end.

#[export] Instance ascii_ops : StringOps := {|
  toLowerCase := ascii_toLowerCase;
  trim := ascii_trim;
  split_blanks := fun s => ascii_split s EmptyString false;
  strip_non_word := ascii_strip_non_word
|}.

(** [appendChild] with an object literal, where it returns: the tree
    afterwards. *)
Definition appended (t : DTree) (p : ref) (d : DTreeNodeData) : DTree :=
  let '(t0, o) := newData t d in
  match appendChild t0 p o with
  | Ok (t', _) => t'
  | _ => t
  end.

(** [indexContent] where it returns: the tree afterwards. *)
Definition indexed (t : DTree) (node : ref) (content : string) : DTree :=
  match indexContent t node content with
  | Ok t' => t'
  | _ => t
  end.

Definition section_data : DTreeNodeData := mkData NT_section None.
Definition sentence_data : DTreeNodeData := mkData NT_sentence None.

(** A document built depth first: section 2 with the sentences 3 and 4,
    then section 5 with the sentence 6. *)
Definition document : DTree :=
  let t1 := appended (new None) 1%nat section_data in
  let t2 := appended t1 2%nat sentence_data in
  let t3 := appended t2 2%nat sentence_data in
  let t4 := appended t3 1%nat section_data in
  appended t4 5%nat sentence_data.

(** The example document after the caller has made a data object for one
    more sentence: the object 6. *)
Definition document_with_object : DTree :=
  fst (newData document sentence_data).

(** Two sentences made with one data object, the object 1, below the
    root; the first of them is indexed. *)
Definition shared_data : DTree :=
  let t0 := fst (newData (new None) sentence_data) in
  let t1 := match appendChild t0 1%nat 1%nat with
            | Ok (t', _) => t'
            | _ => t0
            end in
  let t2 := match appendChild t1 1%nat 1%nat with
            | Ok (t', _) => t'
            | _ => t1
            end in
  indexed t2 2%nat "Shared content.".

(** The example document with the contents of its sentences indexed. *)
Definition indexed_document : DTree :=
  indexed (indexed (indexed document 3%nat "Data privacy matters.")
                   4%nat "We protect users data.")
          6%nat "Security audits are performed.".

(** The example document with the sentence 4 and the section 5 indexed,
    and no [recalculateQ2] pass since the nodes were appended. *)
Definition stale_document : DTree :=
  indexed (indexed document 4%nat "privacy") 5%nat "security".

(** A tree with its root only, whose content is indexed. *)
Definition lone_root : DTree := indexed (new None) 1%nat "hello".

(** The sections 2 and 3 are appended first, then the sentence 4 below
    the section 2: not the complete-subtree order. *)
Definition interleaved : DTree :=
  let t1 := appended (new None) 1%nat section_data in
  let t2 := appended t1 1%nat section_data in
  appended t2 2%nat sentence_data.

(** The tree built in interleaved order with the section 3 and the
    sentence 4 indexed. *)
Definition interleaved_indexed : DTree :=
  indexed (indexed interleaved 3%nat "terms") 4%nat "privacy".

End Examples.

(** * Properties of the addressing engine *)

Module CTGEngineProps.

Import JS CTGEngine.

(** ** Fuel: a call that has finished keeps its result with more fuel *)

Lemma bind_Ok {A B : Type} (m : outcome A) (k : A -> outcome B) (b : B) :
  m ≫= k = Ok b -> exists a, m = Ok a /\ k a = Ok b.
Proof. destruct m; simpl; intros H; try discriminate; eauto. Qed.

Lemma bind_finished {A B : Type} (m : outcome A) (k : A -> outcome B) :
  finished (m ≫= k) -> finished m.
Proof. destruct m; simpl; unfold finished; congruence. Qed.

Lemma getOddPart_loop_mono (fuel fuel' : nat) (n : Z) :
  (fuel <= fuel')%nat -> finished (getOddPart_loop fuel n) ->
  getOddPart_loop fuel' n = getOddPart_loop fuel n.
Proof.
  revert fuel' n. induction fuel as [|fuel IH]; intros fuel' n Hle Hfin.
  - exfalso. apply Hfin. reflexivity.
  - destruct fuel' as [|fuel']; [lia|]. simpl in *.
    destruct (bitand n 1 =? 0); [|reflexivity].
    apply IH; [lia|assumption].
Qed.

Lemma getOddPart_mono (fuel fuel' : nat) (n : number) :
  (fuel <= fuel')%nat -> finished (getOddPart fuel n) ->
  getOddPart fuel' n = getOddPart fuel n.
Proof.
  unfold getOddPart. intros Hle Hfin.
  destruct (validatePositiveInteger n); simpl in *; try reflexivity.
  now apply getOddPart_loop_mono.
Qed.

Lemma getParent_mono (fuel fuel' : nat) (n : number) :
  (fuel <= fuel')%nat -> finished (getParent fuel n) ->
  getParent fuel' n = getParent fuel n.
Proof.
  unfold getParent. intros Hle Hfin.
  destruct (validatePositiveInteger n) as [z| |]; simpl in *; try reflexivity.
  destruct (z =? 1); [reflexivity|].
  destruct (bitand z 1 =? 0); [reflexivity|].
  rewrite (getOddPart_mono fuel fuel'); [reflexivity|assumption|].
  now apply bind_finished in Hfin.
Qed.

Lemma getAncestryChain_loop_mono (fuel fuel' : nat) (cur : Z) (chain : list Z) :
  (fuel <= fuel')%nat -> finished (getAncestryChain_loop fuel cur chain) ->
  getAncestryChain_loop fuel' cur chain = getAncestryChain_loop fuel cur chain.
Proof.
  revert fuel' cur chain.
  induction fuel as [|fuel IH]; intros fuel' cur chain Hle Hfin.
  - exfalso. apply Hfin. reflexivity.
  - destruct fuel' as [|fuel']; [lia|]. simpl in *.
    destruct (cur =? 1); [reflexivity|].
    assert (Hp : finished (getParent fuel (Integer cur)))
      by now apply bind_finished in Hfin.
    rewrite (getParent_mono fuel fuel') by (lia || assumption).
    destruct (getParent fuel (Integer cur)) as [[p|]| |]; simpl in *;
      try reflexivity.
    apply IH; [lia|assumption].
Qed.

(** ** What the engine throws *)

Lemma validatePositiveInteger_Ok (n : number) (z : Z) :
  validatePositiveInteger n = Ok z <-> n = Integer z /\ 1 <= z.
Proof.
  destruct n as [x|]; simpl.
  - destruct (Z.ltb_spec x 1); split.
    + discriminate.
    + intros [[= ->] ?]. lia.
    + intros [= ->]. split; [reflexivity|lia].
    + intros [[= ->] ?]. reflexivity.
  - split; [discriminate|]. intros [[=] _].
Qed.

Lemma validatePositiveInteger_Throw (n : number) (e : error) :
  validatePositiveInteger n = Throw e ->
  e = InvalidId /\ (n = NonInteger \/ exists z, n = Integer z /\ z < 1).
Proof.
  destruct n as [x|]; simpl.
  - destruct (Z.ltb_spec x 1); [|discriminate].
    intros [= <-]. split; [reflexivity|]. right. eauto.
  - intros [= <-]. split; [reflexivity|]. now left.
Qed.

Lemma validatePositiveInteger_finished (n : number) :
  finished (validatePositiveInteger n).
Proof. destruct n as [x|]; simpl; [destruct (x <? 1)|]; discriminate. Qed.

Lemma getOddPart_loop_no_throw (fuel : nat) (n : Z) (e : error) :
  getOddPart_loop fuel n <> Throw e.
Proof.
  revert n. induction fuel as [|fuel IH]; intros n; simpl; [discriminate|].
  destruct (bitand n 1 =? 0); [apply IH|discriminate].
Qed.

Lemma getOddPart_Throw (fuel : nat) (n : number) (e : error) :
  getOddPart fuel n = Throw e -> validatePositiveInteger n = Throw e.
Proof.
  unfold getOddPart.
  destruct (validatePositiveInteger n) as [z| |]; simpl; try tauto.
  intros H. now apply getOddPart_loop_no_throw in H.
Qed.

Lemma getParent_Throw (fuel : nat) (n : number) (e : error) :
  getParent fuel n = Throw e -> e = InvalidId.
Proof.
  unfold getParent.
  destruct (validatePositiveInteger n) as [z| |] eqn:Hv; simpl.
  - destruct (z =? 1); [discriminate|].
    destruct (bitand z 1 =? 0); [discriminate|].
    destruct (getOddPart fuel _) as [p| |] eqn:Ho; simpl; try discriminate.
    intros [= <-]. apply getOddPart_Throw in Ho.
    now apply validatePositiveInteger_Throw in Ho.
  - intros [= <-]. now apply validatePositiveInteger_Throw in Hv.
  - discriminate.
Qed.

Lemma getParent_None (fuel : nat) (n : Z) :
  getParent fuel (Integer n) = Ok None -> n = 1.
Proof.
  unfold getParent.
  destruct (validatePositiveInteger (Integer n)) as [z| |] eqn:Hv; simpl;
    try discriminate.
  apply validatePositiveInteger_Ok in Hv as [[= <-] _].
  destruct (Z.eqb_spec n 1); [tauto|].
  destruct (bitand n 1 =? 0); [discriminate|].
  destruct (getOddPart fuel _); discriminate.
Qed.

Lemma getAncestryChain_loop_Throw (fuel : nat) (cur : Z) (chain : list Z)
  (e : error) :
  getAncestryChain_loop fuel cur chain = Throw e -> e = InvalidId.
Proof.
  revert cur chain. induction fuel as [|fuel IH]; intros cur chain; simpl;
    [discriminate|].
  destruct (cur =? 1); [discriminate|].
  destruct (getParent fuel (Integer cur)) as [[p|]| |] eqn:Hp; simpl;
    try discriminate.
  - apply IH.
  - intros [= <-]. now apply getParent_Throw in Hp.
Qed.

(** ** The ancestry walk *)

Import CTGSpec.

Lemma walk_last (n : Z) (l : list Z) : walk n l -> last (n :: l) = Some 1.
Proof.
  induction 1 as [|n p l Hn Hp Hw IH]; [reflexivity|].
  rewrite last_cons, IH. reflexivity.
Qed.

Lemma getAncestryChain_loop_complete (n : Z) (l : list Z) :
  walk n l ->
  exists fuel0, forall fuel chain, (fuel0 <= fuel)%nat ->
    getAncestryChain_loop fuel n chain = Ok (chain ++ l).
Proof.
  induction 1 as [|n p l Hn [fuel1 Hp] Hw [fuel2 IH]].
  - exists 1%nat. intros [|fuel] chain Hle; [lia|]. simpl.
    now rewrite app_nil_r.
  - exists (S (Nat.max fuel1 fuel2)). intros [|fuel] chain Hle; [lia|].
    simpl. destruct (Z.eqb_spec n 1); [tauto|].
    rewrite (getParent_mono fuel1 fuel), Hp; [simpl| lia | congruence].
    rewrite IH by lia. now rewrite <- app_assoc.
Qed.

Lemma getAncestryChain_loop_sound (fuel : nat) (n : Z) (chain r : list Z) :
  getAncestryChain_loop fuel n chain = Ok r ->
  exists l, r = chain ++ l /\ walk n l.
Proof.
  revert n chain. induction fuel as [|fuel IH]; intros n chain; simpl;
    [discriminate|].
  destruct (Z.eqb_spec n 1) as [->|Hn].
  - intros [= <-]. exists []. split; [now rewrite app_nil_r|constructor].
  - destruct (getParent fuel (Integer n)) as [[p|]| |] eqn:Hp; simpl;
      try discriminate.
    + intros H. apply IH in H as (l & -> & Hw). exists (p :: l). split.
      * now rewrite <- app_assoc.
      * econstructor; [assumption|now exists fuel|assumption].
    + now apply getParent_None in Hp.
Qed.

Lemma walk_3 : walk 3 [5; 1].
Proof.
  apply walk_step; [lia|now exists 10%nat|].
  apply walk_step; [lia|now exists 10%nat|].
  constructor.
Qed.

(** ** Where the 32-bit operators leave the integers *)

Lemma getOddPart_loop_zero (fuel : nat) : getOddPart_loop fuel 0 = OutOfFuel.
Proof. induction fuel as [|fuel IH]; [reflexivity|]. simpl. exact IH. Qed.

Lemma getOddPart_loop_pow32 (fuel : nat) :
  getOddPart_loop fuel 4294967296 = OutOfFuel.
Proof. destruct fuel; [reflexivity|]. apply getOddPart_loop_zero. Qed.

Lemma getParent_1431655765 (fuel : nat) :
  getParent fuel (Integer 1431655765) = OutOfFuel.
Proof.
  unfold getParent, getOddPart. simpl.
  change (add (mul 3 1431655765) 1) with 4294967296.
  now rewrite getOddPart_loop_pow32.
Qed.

(** The walk from 1431655765 runs for ever, since
    [3 * 1431655765 + 1 = 2^32] and [getOddPart] never leaves its loop on
    it, where the chain of the rules is [1431655765, 1]: the 32-bit
    operators again (C4, C6, C7, C10). *)
Lemma getAncestryChain_unbounded :
  Diverges (fun fuel => getAncestryChain fuel (Integer 1431655765)).
Proof.
  constructor. intros [|fuel]; [reflexivity|].
  unfold getAncestryChain. simpl.
  now rewrite getParent_1431655765.
Qed.

(** C7 (the engine at a failing input): on [2^31 = 2^31 * 1] the loop of
    [getOddPart] shifts the 32-bit value [-2^31] down to [-1] and returns
    [-1], where the odd part is 1. *)
Theorem getOddPart_pow31 (fuel : nat) :
  getOddPart (32 + fuel) (Integer (2 ^ 31 * 1)) = Ok (-1).
Proof. vm_compute. reflexivity. Qed.

(** On [2^32 = 2^32 * 1] the loop never ends: the 32-bit value is 0. *)
Lemma getOddPart_pow32_diverges :
  Diverges (fun fuel => getOddPart fuel (Integer (2 ^ 32 * 1))).
Proof. constructor. intros fuel. apply getOddPart_loop_pow32. Qed.

(** C4 (the engine at a failing input): the parent computed for the even
    number [2^31] is [-2^30], not [2^30]. *)
Theorem getParent_pow31 (fuel : nat) :
  getParent fuel (Integer 2147483648) = Ok (Some (-1073741824)).
Proof. reflexivity. Qed.

(** C10 (the engine at a failing input): the next version of [2^30] is
    [2^31], whose computed parent is [-2^30] and not [2^30]. *)
Theorem mintNextVersion_parent_pow30 (fuel : nat) :
  (z ← mintNextVersion (Integer 1073741824); getParent fuel (Integer z))
  = Ok (Some (-1073741824)).
Proof. reflexivity. Qed.

(** ** The search for children *)

Lemma round_double_pos (x : Z) : 0 < x -> 0 < round_double x.
Proof.
  intros Hx. unfold round_double.
  rewrite (Z.abs_eq x) by lia.
  destruct (Z.ltb_spec x (2 ^ 53)) as [|Hbig]; [assumption|].
  rewrite (Z.sgn_pos x) by lia.
  set (e := Z.log2 x - 52).
  assert (Hlog : 53 <= Z.log2 x) by (apply Z.log2_le_pow2; lia).
  assert (He : 0 < 2 ^ e) by (apply Z.pow_pos_nonneg; lia).
  assert (Hq : 1 <= x / 2 ^ e).
  { apply Z.div_le_lower_bound; [assumption|].
    transitivity (2 ^ Z.log2 x); [|apply Z.log2_spec; lia].
    rewrite Z.mul_1_r. apply Z.pow_le_mono_r; lia. }
  destruct (x mod 2 ^ e <? 2 ^ (e - 1)); [nia|].
  destruct (2 ^ (e - 1) <? x mod 2 ^ e); [nia|].
  destruct (Z.even (x / 2 ^ e)); nia.
Qed.

Lemma getParent_positive_no_throw (fuel : nat) (n : Z) (e : error) :
  1 <= n -> getParent fuel (Integer n) <> Throw e.
Proof.
  intros Hn. unfold getParent.
  replace (validatePositiveInteger (Integer n)) with (Ok (A := Z) n)
    by (symmetry; apply validatePositiveInteger_Ok; auto).
  simpl. destruct (n =? 1); [discriminate|].
  destruct (bitand n 1 =? 0); [discriminate|].
  destruct (getOddPart fuel _) as [p| |] eqn:Ho; simpl; try discriminate.
  apply getOddPart_Throw, validatePositiveInteger_Throw in Ho
    as [_ [[=]|(z & [= <-] & Hz)]].
  assert (0 < mul 3 n) by (apply round_double_pos; lia).
  assert (0 < add (mul 3 n) 1) by (apply round_double_pos; lia).
  lia.
Qed.

Lemma associate_at_no_throw (fuel : nat) (parentID k : Z) (e : error) :
  associate_at fuel parentID k <> Throw e.
Proof.
  unfold associate_at. cbv zeta.
  destruct (rem _ 3 =? 0); [|discriminate].
  destruct (Z.ltb_spec 0 (sub (mul (pow2 k) parentID) 1 ÷ 3)); simpl;
    [|discriminate].
  destruct (bitand _ 1 =? 1); [|discriminate].
  destruct (getParent fuel _) as [p| |] eqn:Hp; simpl; try discriminate.
  now apply getParent_positive_no_throw in Hp; [|lia].
Qed.

Lemma findAdmissibleAssociates_loop_stuck (fuel : nat) (parentID : Z)
  (ks1 : list Z) (k : Z) (ks2 children : list Z) :
  associate_at fuel parentID k = OutOfFuel ->
  findAdmissibleAssociates_loop fuel parentID (ks1 ++ k :: ks2) children
  = OutOfFuel.
Proof.
  intros Hk. revert children.
  induction ks1 as [|k1 ks1 IH]; intros children; simpl.
  - now rewrite Hk.
  - destruct (associate_at fuel parentID k1) as [c| |] eqn:H1; simpl.
    + apply IH.
    + now apply associate_at_no_throw in H1.
    + reflexivity.
Qed.

Lemma associate_at_4_30 (fuel : nat) : associate_at fuel 4 30 = OutOfFuel.
Proof.
  unfold associate_at. cbv zeta.
  change (sub (mul (pow2 30) 4) 1) with 4294967295.
  change (4294967295 ÷ 3) with 1431655765.
  change (rem 4294967295 3 =? 0) with true.
  change ((0 <? 1431655765) && (bitand 1431655765 1 =? 1)) with true.
  cbv iota. now rewrite getParent_1431655765.
Qed.

Lemma findAdmissibleAssociates_4_30 (fuel : nat) :
  findAdmissibleAssociates fuel (Integer 4) 30 = OutOfFuel.
Proof.
  unfold findAdmissibleAssociates.
  change (validatePositiveInteger (Integer 4)) with (Ok (A := Z) 4).
  change (map Z.of_nat (seq 1 30))
    with (map Z.of_nat (seq 1 29) ++ 30 :: []).
  unfold mbind, outcome_bind.
  rewrite findAdmissibleAssociates_loop_stuck by apply associate_at_4_30.
  reflexivity.
Qed.

(** C6 (the engine at a failing input): for the parent 4 the search reaches
    the exponent 30 and the candidate [(2^30 * 4 - 1) / 3 = 1431655765],
    whose parent is never computed ([3 * 1431655765 + 1 = 2^32]): the call
    neither returns a child nor throws, whatever the used ids. *)
Theorem mintNextChild_4_diverges (currentChildren : list Z) :
  Diverges (fun fuel => mintNextChild fuel (Integer 4) currentChildren).
Proof.
  constructor. intros fuel. unfold mintNextChild.
  change (validatePositiveInteger (Integer 4)) with (Ok (A := Z) 4).
  unfold mbind, outcome_bind. cbv zeta.
  rewrite findAdmissibleAssociates_4_30. reflexivity.
Qed.
(** ** The engine below [2^31], where the 32-bit operators are exact *)

Lemma ToInt32_small (x : Z) : - 2 ^ 31 <= x < 2 ^ 31 -> ToInt32 x = x.
Proof.
  intros H. unfold ToInt32. rewrite Z.mod_small; lia.
Qed.

Lemma bitand_1_small (x : Z) : 0 <= x < 2 ^ 31 -> bitand x 1 = x mod 2.
Proof.
  intros H. unfold bitand. rewrite (ToInt32_small x) by lia.
  change (ToInt32 1) with (Z.ones 1). now rewrite Z.land_ones by lia.
Qed.

Lemma sar_1_small (x : Z) : 0 <= x < 2 ^ 31 -> sar x 1 = x / 2.
Proof.
  intros H. unfold sar. rewrite (ToInt32_small x) by lia.
  change (Z.land (ToInt32 1) 31) with 1.
  now rewrite Z.shiftr_div_pow2 by lia.
Qed.

Lemma round_double_small (x : Z) : Z.abs x < 2 ^ 53 -> round_double x = x.
Proof.
  intros H. unfold round_double.
  destruct (Z.ltb_spec (Z.abs x) (2 ^ 53)); [reflexivity|lia].
Qed.

Lemma getOddPart_loop_exact (k : nat) (m : Z) (fuel : nat) :
  Z.odd m = true -> 1 <= m -> 2 ^ Z.of_nat k * m < 2 ^ 31 ->
  (k < fuel)%nat ->
  getOddPart_loop fuel (2 ^ Z.of_nat k * m) = Ok m.
Proof.
  intros Hodd Hm. revert fuel. induction k as [|k IH]; intros fuel Hlt Hfuel;
    (destruct fuel as [|fuel]; [lia|]); simpl getOddPart_loop.
  - change (2 ^ Z.of_nat 0) with 1 in *. rewrite Z.mul_1_l in *.
    rewrite bitand_1_small by lia.
    rewrite Zmod_odd, Hodd. reflexivity.
  - assert (E : 2 ^ Z.of_nat (S k) * m = 2 * (2 ^ Z.of_nat k * m)).
    { rewrite Nat2Z.inj_succ, Z.pow_succ_r by lia. ring. }
    assert (0 < 2 ^ Z.of_nat k) by (apply Z.pow_pos_nonneg; lia).
    rewrite E in *.
    rewrite bitand_1_small by nia.
    rewrite Z.mul_comm, Z_mod_mult. simpl.
    rewrite sar_1_small by nia. rewrite Z.div_mul by lia.
    apply IH; [nia|lia].
Qed.

Lemma getOddPart_of_loop (fuel : nat) (n : Z) :
  1 <= n -> getOddPart fuel (Integer n) = getOddPart_loop fuel n.
Proof.
  intros Hn. unfold getOddPart.
  replace (validatePositiveInteger (Integer n)) with (Ok (A := Z) n)
    by (symmetry; apply validatePositiveInteger_Ok; split; [reflexivity|lia]).
  reflexivity.
Qed.

Lemma getParent_even (n : Z) (fuel : nat) :
  1 <= n < 2 ^ 31 -> Z.even n = true ->
  getParent fuel (Integer n) = Ok (Some (n / 2)).
Proof.
  intros Hn He. unfold getParent.
  replace (validatePositiveInteger (Integer n)) with (Ok (A := Z) n)
    by (symmetry; apply validatePositiveInteger_Ok; split; [reflexivity|lia]).
  simpl. destruct (Z.eqb_spec n 1) as [->|_]; [discriminate|].
  rewrite bitand_1_small, Zmod_even, He by lia. simpl.
  now rewrite sar_1_small by lia.
Qed.

(** X1: for an odd [m >= 1] and [2^k * m < 2^31], [getOddPart] returns [m]
    (with fuel for its [k + 1] turns). *)
Theorem getOddPart_exact (k : nat) (m : Z) (fuel : nat) :
  Z.odd m = true -> 1 <= m -> 2 ^ Z.of_nat k * m < 2 ^ 31 ->
  (k < fuel)%nat ->
  getOddPart fuel (Integer (2 ^ Z.of_nat k * m)) = Ok m.
Proof.
  intros Hodd Hm Hlt Hfuel.
  assert (0 < 2 ^ Z.of_nat k) by (apply Z.pow_pos_nonneg; lia).
  rewrite getOddPart_of_loop by nia.
  now apply getOddPart_loop_exact.
Qed.

Lemma getOddPart_exact_witness :
  getOddPart 3 (Integer (2 ^ Z.of_nat 2 * 3)) = Ok 3.
Proof.
  apply (getOddPart_exact 2 3 3); [reflexivity|lia|reflexivity|lia].
Defined.

(** X2: [getOddPart] throws exactly when its argument is not a positive
    integer, and what it throws is [InvalidId]. *)
Theorem getOddPart_InvalidId (fuel : nat) (n : number) :
  ((exists e, getOddPart fuel n = Throw e) <->
   (n = NonInteger \/ exists z, n = Integer z /\ z < 1)) /\
  (forall e, getOddPart fuel n = Throw e -> e = InvalidId).
Proof.
  split; [split|].
  - intros [e He]. apply getOddPart_Throw in He.
    now apply validatePositiveInteger_Throw in He.
  - intros [->|(z & -> & Hz)]; exists InvalidId; unfold getOddPart; simpl;
      [reflexivity|].
    destruct (Z.ltb_spec z 1); [reflexivity|lia].
  - intros e He. apply getOddPart_Throw in He.
    now apply validatePositiveInteger_Throw in He.
Qed.

(** X3: below [2^31], [getParent] is [null] on 1 and [n / 2] on an even
    [n]; on an odd [n <> 1] it is the odd part of [3n + 1], whenever
    [3n + 1 = 2^k * m < 2^31] with [m] odd. *)
Theorem getParent_exact (n : Z) (fuel : nat) :
  1 <= n < 2 ^ 31 ->
  (n = 1 -> getParent fuel (Integer n) = Ok None) /\
  (Z.even n = true -> getParent fuel (Integer n) = Ok (Some (n / 2))) /\
  (forall (k : nat) (m : Z),
     Z.odd n = true -> n <> 1 -> 3 * n + 1 = 2 ^ Z.of_nat k * m ->
     Z.odd m = true -> 3 * n + 1 < 2 ^ 31 -> (k < fuel)%nat ->
     getParent fuel (Integer n) = Ok (Some m)).
Proof.
  intros Hn. unfold getParent.
  replace (validatePositiveInteger (Integer n)) with (Ok (A := Z) n)
    by (symmetry; apply validatePositiveInteger_Ok; split; [reflexivity|lia]).
  simpl. split; [|split].
  - intros ->. reflexivity.
  - intros He. pose proof (getParent_even n fuel Hn He) as E.
    unfold getParent in E.
    replace (validatePositiveInteger (Integer n)) with (Ok (A := Z) n) in E
      by (symmetry; apply validatePositiveInteger_Ok; split;
          [reflexivity|lia]).
    exact E.
  - intros k m Ho Hn1 E Hm Hlt Hfuel.
    destruct (Z.eqb_spec n 1) as [|_]; [tauto|].
    rewrite bitand_1_small, Zmod_odd, Ho by lia. simpl.
    unfold mul, add. rewrite (round_double_small (3 * n)) by lia.
    rewrite round_double_small by lia.
    assert (0 < 2 ^ Z.of_nat k) by (apply Z.pow_pos_nonneg; lia).
    assert (1 <= m) by (destruct (Z.le_gt_cases 1 m); [assumption|nia]).
    rewrite getOddPart_of_loop, E by lia.
    rewrite getOddPart_loop_exact; try assumption; [reflexivity|lia].
Qed.

Lemma getParent_exact_witness :
  getParent 5 (Integer 59) = Ok (Some 89).
Proof.
  refine (proj2 (proj2 (getParent_exact 59 5 _)) 1%nat 89 _ _ _ _ _ _);
    (reflexivity || lia).
Defined.

(** X4: for [1 <= n < 2^30], [mintNextVersion] returns [2n], and the
    parent of [2n] is [n]. *)
Theorem mintNextVersion_exact (n : Z) (fuel : nat) :
  1 <= n < 2 ^ 30 ->
  mintNextVersion (Integer n) = Ok (2 * n) /\
  getParent fuel (Integer (2 * n)) = Ok (Some n).
Proof.
  intros Hn. split.
  - unfold mintNextVersion.
    replace (validatePositiveInteger (Integer n)) with (Ok (A := Z) n)
      by (symmetry; apply validatePositiveInteger_Ok; split;
          [reflexivity|lia]).
    simpl. unfold mul. rewrite round_double_small by lia. f_equal. lia.
  - rewrite getParent_even by (try rewrite Z.even_mul; (reflexivity || lia)).
    now rewrite Z.mul_comm, Z.div_mul by lia.
Qed.

Lemma mintNextVersion_exact_witness :
  mintNextVersion (Integer 59) = Ok (2 * 59) /\
  getParent 0 (Integer (2 * 59)) = Ok (Some 59).
Proof. apply (mintNextVersion_exact 59 0). lia. Defined.

Lemma getPowerOfTwo_loop_exact (k : nat) (m c : Z) (fuel : nat) :
  Z.odd m = true -> 1 <= m -> 2 ^ Z.of_nat k * m < 2 ^ 31 ->
  (k < fuel)%nat ->
  getPowerOfTwo_loop fuel c (2 ^ Z.of_nat k * m) = Ok (c + Z.of_nat k).
Proof.
  intros Hodd Hm. revert fuel c.
  induction k as [|k IH]; intros fuel c Hlt Hfuel;
    (destruct fuel as [|fuel]; [lia|]); simpl getPowerOfTwo_loop.
  - change (2 ^ Z.of_nat 0) with 1 in *. rewrite Z.mul_1_l in *.
    rewrite bitand_1_small by lia.
    rewrite Zmod_odd, Hodd. simpl. f_equal. lia.
  - assert (E : 2 ^ Z.of_nat (S k) * m = 2 * (2 ^ Z.of_nat k * m)).
    { rewrite Nat2Z.inj_succ, Z.pow_succ_r by lia. ring. }
    assert (0 < 2 ^ Z.of_nat k) by (apply Z.pow_pos_nonneg; lia).
    rewrite E in *.
    rewrite bitand_1_small by nia.
    rewrite Z.mul_comm, Z_mod_mult. simpl.
    rewrite sar_1_small by nia. rewrite Z.div_mul by lia.
    rewrite IH by (nia || lia). f_equal. lia.
Qed.

(** X14: for an odd [m >= 1] and [2^k * m < 2^31], [getPowerOfTwo] returns
    [k] (with fuel for its [k + 1] turns). *)
Theorem getPowerOfTwo_exact (k : nat) (m : Z) (fuel : nat) :
  Z.odd m = true -> 1 <= m -> 2 ^ Z.of_nat k * m < 2 ^ 31 ->
  (k < fuel)%nat ->
  getPowerOfTwo fuel (Integer (2 ^ Z.of_nat k * m)) = Ok (Z.of_nat k).
Proof.
  intros Hodd Hm Hlt Hfuel. unfold getPowerOfTwo.
  assert (0 < 2 ^ Z.of_nat k) by (apply Z.pow_pos_nonneg; lia).
  replace (validatePositiveInteger (Integer (2 ^ Z.of_nat k * m)))
    with (Ok (A := Z) (2 ^ Z.of_nat k * m))
    by (symmetry; apply validatePositiveInteger_Ok; split; [reflexivity|nia]).
  simpl. now rewrite getPowerOfTwo_loop_exact.
Qed.

Lemma getPowerOfTwo_exact_witness :
  getPowerOfTwo 3 (Integer (2 ^ Z.of_nat 1 * 59)) = Ok (Z.of_nat 1).
Proof.
  apply (getPowerOfTwo_exact 1 59 3); [reflexivity|lia|reflexivity|lia].
Defined.

(** X15: for an odd [m >= 1], [2^k * m < 2^31] and
    [m * 2^maxVersions <= 2^53], the pillar of [2^k * m] is
    [m, 2m, 4m, ...]: its entry [i] is [m * 2^i], for [i < maxVersions]. *)
Theorem getPillar_exact (k : nat) (m : Z) (fuel maxVersions : nat) :
  Z.odd m = true -> 1 <= m -> 2 ^ Z.of_nat k * m < 2 ^ 31 ->
  (k < fuel)%nat -> m * 2 ^ Z.of_nat maxVersions <= 2 ^ 53 ->
  getPillar fuel (Integer (2 ^ Z.of_nat k * m)) maxVersions
  = Ok (map (fun i => m * 2 ^ Z.of_nat i) (seq 0 maxVersions)).
Proof.
  intros Hodd Hm Hlt Hfuel Hmax. unfold getPillar.
  assert (0 < 2 ^ Z.of_nat k) by (apply Z.pow_pos_nonneg; lia).
  replace (validatePositiveInteger (Integer (2 ^ Z.of_nat k * m)))
    with (Ok (A := Z) (2 ^ Z.of_nat k * m))
    by (symmetry; apply validatePositiveInteger_Ok; split; [reflexivity|nia]).
  unfold mbind at 1, outcome_bind.
  rewrite getOddPart_of_loop by nia.
  rewrite getOddPart_loop_exact by assumption.
  simpl. f_equal. apply map_ext_in. intros i Hi.
  apply in_seq in Hi. unfold mul, pow2.
  apply round_double_small.
  assert (0 < 2 ^ Z.of_nat i) by (apply Z.pow_pos_nonneg; lia).
  assert (2 * 2 ^ Z.of_nat i <= 2 ^ Z.of_nat maxVersions).
  { rewrite <- Z.pow_succ_r by lia. apply Z.pow_le_mono_r; lia. }
  rewrite Z.abs_eq by nia. nia.
Qed.

Lemma getPillar_exact_witness :
  getPillar 3 (Integer (2 ^ Z.of_nat 1 * 59)) 4
  = Ok (map (fun i => 59 * 2 ^ Z.of_nat i) (seq 0 4)).
Proof.
  apply (getPillar_exact 1 59 3 4); [reflexivity|lia|reflexivity|lia|].
  vm_compute. discriminate.
Defined.

(** The parents that the documentation of the engine lists. *)
Example getParent_documented :
  getParent 10 (Integer 1) = Ok None /\
  getParent 10 (Integer 118) = Ok (Some 59) /\
  getParent 10 (Integer 5) = Ok (Some 1) /\
  getParent 10 (Integer 3) = Ok (Some 5) /\
  getParent 10 (Integer 59) = Ok (Some 89).
Proof. vm_compute. repeat split. Qed.

(** ** The search for children, where it returns *)

Lemma bitand_1_mod (x : Z) : bitand x 1 = x mod 2.
Proof.
  unfold bitand. change (ToInt32 1) with (Z.ones 1).
  rewrite Z.land_ones by lia. change (2 ^ 1) with 2. unfold ToInt32.
  rewrite Zminus_mod, Z.mod_mod_divide by (exists (2 ^ 31); reflexivity).
  change (2 ^ 31 mod 2) with 0. rewrite Z.sub_0_r, Zmod_mod.
  rewrite Zplus_mod. change (2 ^ 31 mod 2) with 0.
  now rewrite Z.add_0_r, Zmod_mod.
Qed.

Lemma associate_at_Some (fuel : nat) (parentID k c : Z) :
  associate_at fuel parentID k = Ok (Some c) ->
  0 < c /\ Z.odd c = true /\
  getParent fuel (Integer c) = Ok (Some parentID) /\
  3 * c = sub (mul (pow2 k) parentID) 1.
Proof.
  unfold associate_at. cbv zeta.
  set (numerator := sub (mul (pow2 k) parentID) 1).
  unfold rem. destruct (Z.eqb_spec (Z.rem numerator 3) 0) as [Hr|];
    [|discriminate].
  destruct (Z.ltb_spec 0 (numerator ÷ 3)); simpl; [|discriminate].
  destruct (Z.eqb_spec (bitand (numerator ÷ 3) 1) 1) as [Hb|]; [|discriminate].
  destruct (getParent fuel _) as [p| |] eqn:Hp; simpl; try discriminate.
  case_decide as Hd; [|discriminate]. intros [= <-]. subst p.
  repeat split; try assumption.
  - rewrite bitand_1_mod, Zmod_odd in Hb.
    destruct (Z.odd (numerator ÷ 3)); [reflexivity|discriminate].
  - pose proof (Z.quot_rem' numerator 3). lia.
Qed.

Lemma findAdmissibleAssociates_loop_elem (fuel : nat) (parentID : Z)
  (ks children l : list Z) :
  findAdmissibleAssociates_loop fuel parentID ks children = Ok l ->
  forall c, c ∈ l ->
    c ∈ children \/
    exists k, k ∈ ks /\ associate_at fuel parentID k = Ok (Some c).
Proof.
  revert children. induction ks as [|k ks IH]; intros children; simpl.
  - intros [= <-] c Hc. now left.
  - destruct (associate_at fuel parentID k) as [o| |] eqn:Ha; simpl;
      try discriminate.
    intros H c Hc. destruct (IH _ H c Hc) as [Hin|(k' & Hk' & Hc')].
    + destruct o as [c0|]; [|now left].
      apply elem_of_app in Hin as [Hin|Hin]; [now left|].
      apply list_elem_of_singleton in Hin as ->. right. exists k.
      split; [now left|assumption].
    + right. exists k'. split; [now right|assumption].
Qed.

Lemma findAdmissibleAssociates_no_throw (fuel : nat) (parentID : Z)
  (maxSearch : nat) (e : error) :
  1 <= parentID ->
  findAdmissibleAssociates fuel (Integer parentID) maxSearch <> Throw e.
Proof.
  intros Hp. unfold findAdmissibleAssociates.
  replace (validatePositiveInteger (Integer parentID))
    with (Ok (A := Z) parentID)
    by (symmetry; apply validatePositiveInteger_Ok; auto).
  simpl. generalize (map Z.of_nat (seq 1 maxSearch)).
  generalize (@nil Z). intros children ks.
  assert (H : findAdmissibleAssociates_loop fuel parentID ks children
              <> Throw e).
  { revert children. induction ks as [|k ks IH]; intros children; simpl;
      [discriminate|].
    destruct (associate_at fuel parentID k) as [c| |] eqn:Ha; simpl;
      [apply IH| |discriminate].
    now apply associate_at_no_throw in Ha. }
  destruct (findAdmissibleAssociates_loop fuel parentID ks children);
    simpl; congruence.
Qed.

#[local] Instance Zle_total : Total Z.le.
Proof. intros x y. lia. Qed.

Lemma findAdmissibleAssociates_inv (fuel : nat) (parentID : Z)
  (maxSearch : nat) (l : list Z) :
  findAdmissibleAssociates fuel (Integer parentID) maxSearch = Ok l ->
  StronglySorted Z.le l /\
  forall c, c ∈ l ->
    exists k, 1 <= k <= Z.of_nat maxSearch /\
              associate_at fuel parentID k = Ok (Some c).
Proof.
  unfold findAdmissibleAssociates.
  destruct (validatePositiveInteger (Integer parentID)) as [p| |] eqn:Hv;
    simpl; try discriminate.
  apply validatePositiveInteger_Ok in Hv as [[= <-] Hp].
  destruct (findAdmissibleAssociates_loop fuel parentID _ [])
    as [children| |] eqn:Hl; simpl; try discriminate.
  intros [= <-]. split.
  - apply StronglySorted_merge_sort; apply _.
  - intros c Hc. rewrite merge_sort_Permutation in Hc.
    destruct (findAdmissibleAssociates_loop_elem _ _ _ _ _ Hl c Hc)
      as [Hin|(k & Hk & Ha)]; [inversion Hin|].
    exists k. split; [|assumption].
    apply list_elem_of_fmap in Hk as (i & -> & Hi).
    apply elem_of_seq in Hi. lia.
Qed.

(** X5: when [findAdmissibleAssociates] returns, every candidate it returns
    is a positive odd integer whose parent, as [getParent] computes it, is
    [parentID], and it was found at an exponent [k] of the search, from 1
    to [maxSearch]; the candidates are returned in ascending order. *)
Theorem findAdmissibleAssociates_sound (fuel : nat) (parentID : Z)
  (maxSearch : nat) (l : list Z) :
  findAdmissibleAssociates fuel (Integer parentID) maxSearch = Ok l ->
  StronglySorted Z.le l /\
  forall c, c ∈ l ->
    0 < c /\ Z.odd c = true /\
    getParent fuel (Integer c) = Ok (Some parentID) /\
    exists k, 1 <= k <= Z.of_nat maxSearch /\
              3 * c = sub (mul (pow2 k) parentID) 1.
Proof.
  intros Hl. destruct (findAdmissibleAssociates_inv _ _ _ _ Hl) as [Hso Hel].
  split; [assumption|]. intros c Hc. destruct (Hel c Hc) as (k & Hk & Ha).
  apply associate_at_Some in Ha as (H1 & H2 & H3 & H4). eauto 10.
Qed.

Lemma findAdmissibleAssociates_sound_witness :
  StronglySorted Z.le [5; 21; 85] /\
  forall c, c ∈ [5; 21; 85] ->
    0 < c /\ Z.odd c = true /\ getParent 10 (Integer c) = Ok (Some 1) /\
    exists k, 1 <= k <= Z.of_nat 8 /\ 3 * c = sub (mul (pow2 k) 1) 1.
Proof.
  apply (findAdmissibleAssociates_sound 10 1 8). vm_compute. reflexivity.
Defined.

Lemma find_first_sorted (P : Z -> bool) (l : list Z) (c : Z) :
  StronglySorted Z.le l -> List.find P l = Some c ->
  c ∈ l /\ P c = true /\ forall c', c' ∈ l -> P c' = true -> c <= c'.
Proof.
  induction 1 as [|x l Hs IH Hx]; simpl; [discriminate|].
  destruct (P x) eqn:Px.
  - intros [= <-]. split; [now left|]. split; [assumption|].
    intros c' Hc' _. apply elem_of_cons in Hc' as [->|Hc']; [lia|].
    rewrite Forall_forall in Hx. now apply Hx.
  - intros Hf. destruct (IH Hf) as (H1 & H2 & H3).
    split; [now right|]. split; [assumption|].
    intros c' Hc' Pc'. apply elem_of_cons in Hc' as [->|Hc']; [congruence|].
    now apply H3.
Qed.

Lemma mintNextChild_inv (fuel : nat) (parentID : Z)
  (currentChildren : list Z) (c : Z) :
  1 <= parentID ->
  mintNextChild fuel (Integer parentID) currentChildren = Ok c ->
  exists admissible,
    findAdmissibleAssociates fuel (Integer parentID) 30 = Ok admissible /\
    c ∈ admissible /\ (c ∉ currentChildren) /\
    forall c', c' ∈ admissible -> c' ∉ currentChildren -> c <= c'.
Proof.
  intros Hp. unfold mintNextChild.
  replace (validatePositiveInteger (Integer parentID))
    with (Ok (A := Z) parentID)
    by (symmetry; apply validatePositiveInteger_Ok; auto).
  unfold mbind at 1, outcome_bind. cbv zeta.
  destruct (findAdmissibleAssociates fuel (Integer parentID) 30)
    as [admissible| |] eqn:Ha; try discriminate.
  destruct (findAdmissibleAssociates_inv _ _ _ _ Ha) as [Hso _].
  simpl. intros Hc.
  destruct (List.find _ admissible) as [c0|] eqn:Hf; [|discriminate].
  injection Hc as ->.
  destruct (find_first_sorted _ _ _ Hso Hf) as (H1 & H2 & H3).
  apply bool_decide_eq_true in H2. rewrite elem_of_list_to_set in H2.
  exists admissible. repeat split; try assumption.
  intros c' Hc' Hn. apply H3; [assumption|].
  apply bool_decide_eq_true. now rewrite elem_of_list_to_set.
Qed.

(** X6: when [mintNextChild] returns [c], then [c] is not among the used
    ids, it is a positive odd integer whose computed parent is [parentID],
    and it is the smallest of the candidates of the bounded search (depth
    30) that is not used; and when it throws for a positive [parentID], it
    throws [NoAvailableChild] and every candidate of the search is used. *)
Theorem mintNextChild_sound (fuel : nat) (parentID : Z)
  (currentChildren : list Z) :
  1 <= parentID ->
  (forall c, mintNextChild fuel (Integer parentID) currentChildren = Ok c ->
     (c ∉ currentChildren) /\ 0 < c /\ Z.odd c = true /\
     getParent fuel (Integer c) = Ok (Some parentID) /\
     exists admissible,
       findAdmissibleAssociates fuel (Integer parentID) 30 = Ok admissible /\
       c ∈ admissible /\
       forall c', c' ∈ admissible -> c' ∉ currentChildren -> c <= c') /\
  (forall e, mintNextChild fuel (Integer parentID) currentChildren = Throw e ->
     e = NoAvailableChild /\
     exists admissible,
       findAdmissibleAssociates fuel (Integer parentID) 30 = Ok admissible /\
       forall c, c ∈ admissible -> c ∈ currentChildren).
Proof.
  intros Hp. split.
  - intros c Hc.
    destruct (mintNextChild_inv _ _ _ _ Hp Hc) as (adm & Ha & Hin & Hn & Hmin).
    destruct (findAdmissibleAssociates_inv _ _ _ _ Ha) as [_ Hel].
    destruct (Hel c Hin) as (k & _ & Hk).
    apply associate_at_Some in Hk as (H1 & H2 & H3 & _).
    repeat split; try assumption. exists adm. auto.
  - unfold mintNextChild.
    replace (validatePositiveInteger (Integer parentID))
      with (Ok (A := Z) parentID)
      by (symmetry; apply validatePositiveInteger_Ok; auto).
    unfold mbind at 1, outcome_bind. cbv zeta.
    destruct (findAdmissibleAssociates fuel (Integer parentID) 30)
      as [admissible| |] eqn:Ha.
    + simpl. intros e He.
      destruct (List.find _ admissible) as [c0|] eqn:Hf; [discriminate|].
      injection He as <-. split; [reflexivity|].
      exists admissible. split; [reflexivity|]. intros c Hc.
      apply find_none with (x := c) in Hf; [|now apply list_elem_of_In].
      apply bool_decide_eq_false in Hf.
      rewrite elem_of_list_to_set in Hf.
      destruct (decide (c ∈ currentChildren)); tauto.
    + now apply findAdmissibleAssociates_no_throw in Ha.
    + simpl. discriminate.
Qed.

Lemma mintNextChild_sound_witness :
  (forall c, mintNextChild 40 (Integer 1) [5] = Ok c ->
     (c ∉ [5]) /\ 0 < c /\ Z.odd c = true /\
     getParent 40 (Integer c) = Ok (Some 1) /\
     exists admissible,
       findAdmissibleAssociates 40 (Integer 1) 30 = Ok admissible /\
       c ∈ admissible /\
       forall c', c' ∈ admissible -> c' ∉ [5] -> c <= c') /\
  (forall e, mintNextChild 40 (Integer 1) [5] = Throw e ->
     e = NoAvailableChild /\
     exists admissible,
       findAdmissibleAssociates 40 (Integer 1) 30 = Ok admissible /\
       forall c, c ∈ admissible -> c ∈ [5]).
Proof. apply (mintNextChild_sound 40 1 [5]). lia. Defined.

(** X16: two calls of [mintNextChild] for one positive parent, the second
    with the child that the first has returned added to the used ids, return
    distinct children: the second is the greater, and it is not among the
    used ids either. *)
Theorem mintNextChild_distinct (fuel : nat) (parentID : Z)
  (currentChildren : list Z) (c1 c2 : Z) :
  1 <= parentID ->
  mintNextChild fuel (Integer parentID) currentChildren = Ok c1 ->
  mintNextChild fuel (Integer parentID) (c1 :: currentChildren) = Ok c2 ->
  c1 < c2 /\ (c2 ∉ currentChildren).
Proof.
  intros Hp H1 H2.
  destruct (mintNextChild_inv _ _ _ _ Hp H1) as (a1 & Ha1 & _ & _ & Hmin).
  destruct (mintNextChild_inv _ _ _ _ Hp H2) as (a2 & Ha2 & Hin & Hn & _).
  rewrite Ha1 in Ha2. injection Ha2 as <-.
  apply not_elem_of_cons in Hn as [Hne Hn]. split; [|assumption].
  specialize (Hmin c2 Hin Hn). lia.
Qed.

Lemma mintNextChild_distinct_witness : 5 < 21 /\ (21 ∉ @nil Z).
Proof.
  apply (mintNextChild_distinct 40 1 [] 5 21); [lia| |]; vm_compute;
    reflexivity.
Defined.

(** The children minted for the root, as in the documentation of the
    repository: 5, then 21. *)
Example mintNextChild_root :
  mintNextChild 40 (Integer 1) [] = Ok 5 /\
  mintNextChild 40 (Integer 1) [5] = Ok 21.
Proof. split; vm_compute; reflexivity. Qed.

(** ** Decomposition, node information and the verification of links *)

Lemma isOddNode_exact (n : Z) :
  1 <= n -> isOddNode (Integer n) = Ok (Z.odd n).
Proof.
  intros Hn. unfold isOddNode.
  replace (validatePositiveInteger (Integer n)) with (Ok (A := Z) n)
    by (symmetry; apply validatePositiveInteger_Ok; auto).
  simpl. rewrite bitand_1_mod, Zmod_odd. now destruct (Z.odd n).
Qed.

Lemma loops_decompose (fuel fuel' : nat) (n c m r : Z) :
  1 <= n < 2 ^ 31 ->
  getOddPart_loop fuel n = Ok m -> getPowerOfTwo_loop fuel' c n = Ok r ->
  Z.odd m = true /\ c <= r /\ m * 2 ^ (r - c) = n.
Proof.
  revert fuel' n c. induction fuel as [|fuel IH]; intros fuel' n c Hn;
    [discriminate|].
  destruct fuel' as [|fuel']; [discriminate|]. simpl.
  rewrite bitand_1_small by lia.
  destruct (Z.eqb_spec (n mod 2) 0) as [E|E].
  - rewrite sar_1_small by lia. intros H1 H2.
    assert (Hn2 : n = 2 * (n / 2)) by (rewrite (Z_div_mod_eq_full n 2) at 1; lia).
    destruct (IH fuel' (n / 2) (c + 1) ltac:(lia) H1 H2) as (Ho & Hc & Hm).
    split; [assumption|]. split; [lia|].
    replace (r - c) with (Z.succ (r - (c + 1))) by lia.
    rewrite Z.pow_succ_r by lia. lia.
  - intros [= <-] [= <-]. rewrite Z.sub_diag. simpl.
    split; [|lia]. rewrite Zmod_odd in E. now destruct (Z.odd n).
Qed.

Lemma loops_return (fuel : nat) (n c : Z) :
  1 <= n < 2 ^ Z.of_nat fuel -> n < 2 ^ 31 ->
  exists m r, getOddPart_loop fuel n = Ok m /\
              getPowerOfTwo_loop fuel c n = Ok r.
Proof.
  revert n c. induction fuel as [|fuel IH]; intros n c Hn H31.
  - simpl in Hn. lia.
  - simpl getOddPart_loop. simpl getPowerOfTwo_loop.
    rewrite bitand_1_small by lia.
    destruct (Z.eqb_spec (n mod 2) 0) as [E|E]; [|eauto].
    rewrite sar_1_small by lia.
    rewrite Nat2Z.inj_succ, Z.pow_succ_r in Hn by lia.
    assert (Hn2 : n = 2 * (n / 2)) by (rewrite (Z_div_mod_eq_full n 2) at 1; lia).
    apply IH; lia.
Qed.

Lemma getPowerOfTwo_of_loop (fuel : nat) (n : Z) :
  1 <= n -> getPowerOfTwo fuel (Integer n) = getPowerOfTwo_loop fuel 0 n.
Proof.
  intros Hn. unfold getPowerOfTwo.
  replace (validatePositiveInteger (Integer n)) with (Ok (A := Z) n)
    by (symmetry; apply validatePositiveInteger_Ok; split; [reflexivity|lia]).
  reflexivity.
Qed.

(** X19: every [n] from 1 below [2^31] is put together again from what
    [getOddPart] and [getPowerOfTwo] return for it (with fuel for the 31
    turns of their loops): [getOddPart] returns an odd [m], [getPowerOfTwo]
    a [k >= 0], and [m * 2^k = n]; and [isOddNode] tells whether [k = 0]. *)
Theorem oddPart_powerOfTwo_decompose (n : Z) (fuel : nat) :
  1 <= n < 2 ^ 31 -> (31 <= fuel)%nat ->
  exists m k,
    getOddPart fuel (Integer n) = Ok m /\
    getPowerOfTwo fuel (Integer n) = Ok k /\
    Z.odd m = true /\ 0 <= k /\ m * 2 ^ k = n /\
    isOddNode (Integer n) = Ok (k =? 0).
Proof.
  intros Hn Hfuel.
  rewrite getOddPart_of_loop, getPowerOfTwo_of_loop by lia.
  destruct (loops_return fuel n 0) as (m & k & Hm & Hk); [|lia|].
  { split; [lia|]. apply Z.lt_le_trans with (2 ^ 31); [lia|].
    apply Z.pow_le_mono_r; lia. }
  destruct (loops_decompose _ _ _ _ _ _ Hn Hm Hk) as (Ho & H0 & E).
  rewrite Z.sub_0_r in E.
  exists m, k. repeat split; try assumption.
  rewrite isOddNode_exact by lia. f_equal.
  destruct (Z.eqb_spec k 0) as [->|Hk0].
  - rewrite Z.mul_1_r in E. now subst.
  - rewrite <- E, Z.odd_mul, Z.odd_pow by lia. apply andb_false_r.
Qed.

Lemma oddPart_powerOfTwo_decompose_witness :
  exists m k,
    getOddPart 31 (Integer 118) = Ok m /\
    getPowerOfTwo 31 (Integer 118) = Ok k /\
    Z.odd m = true /\ 0 <= k /\ m * 2 ^ k = 118 /\
    isOddNode (Integer 118) = Ok (k =? 0).
Proof. apply (oddPart_powerOfTwo_decompose 118 31); lia. Defined.

(** X20: [getNodeInfo] on [n] from 1 below [2^31].  What it returns has
    [id = n], an odd [oddBase] and a [pillarLevel >= 0] with
    [oddBase * 2^pillarLevel = n], the [type] root for 1, odd for the other
    odd numbers and even for the even ones, the [parent] that [getParent]
    computes, which is [null] only for 1, and as [ancestryDepth] the number
    of parent steps of the walk from [n] to the root 1.  It returns, given
    enough fuel, whenever that walk reaches 1. *)
Theorem getNodeInfo_spec (n : Z) :
  1 <= n < 2 ^ 31 ->
  (forall fuel info, getNodeInfo fuel (Integer n) = Ok info ->
     info_id info = n /\
     Z.odd (info_oddBase info) = true /\ 0 <= info_pillarLevel info /\
     info_oddBase info * 2 ^ info_pillarLevel info = n /\
     info_type info
     = (if n =? 1 then IT_root else if Z.odd n then IT_odd else IT_even) /\
     getParent fuel (Integer n) = Ok (info_parent info) /\
     (info_parent info = None <-> n = 1) /\
     exists l, walk n l /\ info_ancestryDepth info = Z.of_nat (length l)) /\
  (forall l, walk n l ->
     exists fuel0, forall fuel, (fuel0 <= fuel)%nat ->
       exists info, getNodeInfo fuel (Integer n) = Ok info /\
                    info_ancestryDepth info = Z.of_nat (length l)).
Proof.
  intros Hn.
  assert (Hv : validatePositiveInteger (Integer n) = Ok n)
    by (apply validatePositiveInteger_Ok; split; [reflexivity|lia]).
  assert (Hty : (if n =? 1 then Ok IT_root
                 else b ← isOddNode (Integer n);
                      Ok (if b : bool then IT_odd else IT_even))
                = Ok (if n =? 1 then IT_root
                      else if Z.odd n then IT_odd else IT_even)).
  { destruct (n =? 1); [reflexivity|]. now rewrite isOddNode_exact by lia. }
  split.
  - intros fuel info. unfold getNodeInfo. rewrite Hv. simpl.
    rewrite getOddPart_of_loop, getPowerOfTwo_of_loop by lia.
    destruct (getOddPart_loop fuel n) as [m| |] eqn:Hm; try discriminate.
    destruct (getPowerOfTwo_loop fuel 0 n) as [k| |] eqn:Hk;
      try discriminate.
    simpl. destruct (getParent fuel (Integer n)) as [p| |] eqn:Hp;
      try discriminate.
    simpl. unfold getAncestryChain. rewrite Hv. simpl.
    destruct (getAncestryChain_loop fuel n [n]) as [chain| |] eqn:Hc;
      try discriminate.
    simpl. rewrite Hty. simpl. intros [= <-]. simpl.
    destruct (loops_decompose _ _ _ _ _ _ Hn Hm Hk) as (Ho & H0 & E).
    rewrite Z.sub_0_r in E.
    apply getAncestryChain_loop_sound in Hc as (l & -> & Hw).
    repeat split; try assumption.
    + intros ->. now apply getParent_None in Hp.
    + intros ->. cbv in Hp. congruence.
    + exists l. split; [assumption|]. simpl. lia.
  - intros l Hw.
    destruct (getAncestryChain_loop_complete n l Hw) as [f1 Hc].
    assert (Hp : exists f2 p, forall fuel, (f2 <= fuel)%nat ->
                   getParent fuel (Integer n) = Ok p).
    { destruct Hw as [|n p l Hn1 [f2 Hp] _].
      - exists 0%nat, None. reflexivity.
      - exists f2, (Some p). intros fuel Hle.
        rewrite (getParent_mono f2 fuel), Hp; [reflexivity|lia|congruence]. }
    destruct Hp as (f2 & p & Hp).
    exists (Nat.max 31 (Nat.max f1 f2)). intros fuel Hfuel.
    destruct (loops_return fuel n 0) as (m & k & Hm & Hk); [|lia|].
    { split; [lia|]. apply Z.lt_le_trans with (2 ^ 31); [lia|].
      apply Z.pow_le_mono_r; lia. }
    unfold getNodeInfo. rewrite Hv. simpl.
    rewrite getOddPart_of_loop, getPowerOfTwo_of_loop, Hm, Hk by lia.
    simpl. rewrite Hp by lia. simpl.
    unfold getAncestryChain. rewrite Hv. simpl. rewrite Hc by lia. simpl.
    rewrite Hty. simpl. eexists. split; [reflexivity|]. simpl.
    lia.
Qed.

Lemma getNodeInfo_spec_witness :
  exists fuel0, forall fuel, (fuel0 <= fuel)%nat ->
    exists info, getNodeInfo fuel (Integer 3) = Ok info /\
                 info_ancestryDepth info = Z.of_nat (length [5; 1]).
Proof.
  exact (proj2 (getNodeInfo_spec 3 ltac:(lia)) [5; 1] walk_3).
Defined.

Lemma parent_of_det (n p q : Z) : parent_of n p -> parent_of n q -> p = q.
Proof.
  intros [f1 H1] [f2 H2].
  assert (E : getParent (Nat.max f1 f2) (Integer n) = Ok (Some p))
    by (rewrite (getParent_mono f1), H1; [reflexivity|lia|congruence]).
  rewrite (getParent_mono f2), H2 in E; [congruence|lia|congruence].
Qed.

Lemma walk_det (n : Z) (l l' : list Z) : walk n l -> walk n l' -> l = l'.
Proof.
  intros Hw. revert l'. induction Hw as [|n p l Hn Hp Hw IH]; intros l' Hw'.
  - inversion Hw'; subst; [reflexivity|congruence].
  - inversion Hw' as [|n' q l0 Hn' Hq Hw0]; subst; [congruence|].
    rewrite (parent_of_det _ _ _ Hq Hp) in *. f_equal. now apply IH.
Qed.

Lemma walk_suffix (n b : Z) (l : list Z) :
  walk n l -> b ∈ n :: l ->
  exists l1 lb, n :: l = l1 ++ b :: lb /\ walk b lb.
Proof.
  induction 1 as [|n p l Hn Hp Hw IH]; intros Hb.
  - apply list_elem_of_singleton in Hb as ->. exists [], []. split;
      [reflexivity|constructor].
  - apply elem_of_cons in Hb as [->|Hb].
    + exists [], (p :: l). split; [reflexivity|]. now constructor.
    + destruct (IH Hb) as (l1 & lb & E & Hwb). exists (n :: l1), lb.
      split; [|assumption]. simpl. now rewrite E.
Qed.

Lemma verifyAncestry_true (fuel : nat) (a d : Z) :
  verifyAncestry fuel (Integer a) (Integer d) = Ok true <->
  1 <= a /\ 1 <= d /\
  exists l, getAncestryChain fuel (Integer d) = Ok (d :: l) /\ walk d l /\
            a ∈ d :: l.
Proof.
  unfold verifyAncestry. split.
  - destruct (validatePositiveInteger (Integer a)) as [a'| |] eqn:Ha,
      (validatePositiveInteger (Integer d)) as [d'| |] eqn:Hd,
      (getAncestryChain fuel (Integer d)) as [chain| |] eqn:Hc;
      simpl; try discriminate.
    apply validatePositiveInteger_Ok in Ha as [[= <-] Ha].
    pose proof Hd as Hd'.
    apply validatePositiveInteger_Ok in Hd as [[= <-] Hd].
    intros [= E]. apply bool_decide_eq_true in E.
    unfold getAncestryChain in Hc. rewrite Hd' in Hc. simpl in Hc.
    apply getAncestryChain_loop_sound in Hc as (l & -> & Hw).
    repeat split; try assumption. exists l. auto.
  - intros (Ha & Hd & l & Hc & _ & Hin).
    replace (validatePositiveInteger (Integer a)) with (Ok (A := Z) a)
      by (symmetry; apply validatePositiveInteger_Ok; auto).
    replace (validatePositiveInteger (Integer d)) with (Ok (A := Z) d)
      by (symmetry; apply validatePositiveInteger_Ok; auto).
    simpl. rewrite Hc. simpl. now rewrite bool_decide_eq_true_2.
Qed.

(** X22: [verifyAncestry] is transitive, and every node whose chain is
    computed has itself and the root 1 among its ancestors: when [a] is
    verified as an ancestor of [b] and [b] as one of [c], then [a] is
    verified as an ancestor of [c], and so are [c] itself and 1. *)
Theorem verifyAncestry_trans (f1 f2 : nat) (a b c : Z) :
  verifyAncestry f1 (Integer a) (Integer b) = Ok true ->
  verifyAncestry f2 (Integer b) (Integer c) = Ok true ->
  verifyAncestry f2 (Integer a) (Integer c) = Ok true /\
  verifyAncestry f2 (Integer c) (Integer c) = Ok true /\
  verifyAncestry f2 (Integer 1) (Integer c) = Ok true.
Proof.
  intros H1 H2.
  apply verifyAncestry_true in H1 as (Ha & Hb & lb & _ & Hwb & Hin1).
  apply verifyAncestry_true in H2 as (_ & Hc & lc & Hchain & Hwc & Hin2).
  destruct (walk_suffix _ _ _ Hwc Hin2) as (l1 & lb' & E & Hwb').
  rewrite (walk_det _ _ _ Hwb' Hwb) in E.
  repeat split; apply verifyAncestry_true; repeat split; try lia;
    exists lc; repeat split; try assumption.
  - rewrite E, elem_of_app. now right.
  - left.
  - apply walk_last in Hwc. now apply last_Some_elem_of.
Qed.

Lemma verifyAncestry_trans_witness :
  verifyAncestry 10 (Integer 1) (Integer 3) = Ok true /\
  verifyAncestry 10 (Integer 3) (Integer 3) = Ok true /\
  verifyAncestry 10 (Integer 1) (Integer 3) = Ok true.
Proof.
  apply (verifyAncestry_trans 10 10 1 5 3); vm_compute; reflexivity.
Defined.

Lemma verifyParenthood_of_getParent (fuel : nat) (p c : Z) :
  1 <= p -> 1 <= c ->
  verifyParenthood fuel (Integer p) (Integer c)
  = (q ← getParent fuel (Integer c); Ok (bool_decide (q = Some p))).
Proof.
  intros Hp Hc. unfold verifyParenthood.
  replace (validatePositiveInteger (Integer p)) with (Ok (A := Z) p)
    by (symmetry; apply validatePositiveInteger_Ok; auto).
  replace (validatePositiveInteger (Integer c)) with (Ok (A := Z) c)
    by (symmetry; apply validatePositiveInteger_Ok; auto).
  reflexivity.
Qed.

(** X21: [verifyParenthood] accepts what the engine mints for a positive
    parent [p]: every child that [mintNextChild] returns for [p], whatever
    the used ids, and, for [p < 2^30], the version that [mintNextVersion]
    returns; and it rejects the root 1 as a child of [p]. *)
Theorem verifyParenthood_minted (fuel : nat) (p : Z) :
  1 <= p ->
  (forall used c, mintNextChild fuel (Integer p) used = Ok c ->
     verifyParenthood fuel (Integer p) (Integer c) = Ok true) /\
  (p < 2 ^ 30 ->
   forall v, mintNextVersion (Integer p) = Ok v ->
     verifyParenthood fuel (Integer p) (Integer v) = Ok true) /\
  verifyParenthood fuel (Integer p) (Integer 1) = Ok false.
Proof.
  intros Hp. split; [|split].
  - intros used c Hc.
    destruct (mintNextChild_inv _ _ _ _ Hp Hc) as (adm & Ha & Hin & _).
    destruct (findAdmissibleAssociates_inv _ _ _ _ Ha) as [_ Hel].
    destruct (Hel c Hin) as (k & _ & Hk).
    apply associate_at_Some in Hk as (H1 & _ & H3 & _).
    rewrite verifyParenthood_of_getParent, H3 by lia.
    simpl. now rewrite bool_decide_eq_true_2.
  - intros H30 v. unfold mintNextVersion.
    replace (validatePositiveInteger (Integer p)) with (Ok (A := Z) p)
      by (symmetry; apply validatePositiveInteger_Ok; auto).
    simpl. unfold mul. rewrite round_double_small by lia. intros [= <-].
    rewrite verifyParenthood_of_getParent by lia.
    rewrite getParent_even
      by (try (rewrite Z.even_mul, orb_comm); (reflexivity || lia)).
    simpl. rewrite Z.div_mul by lia. now rewrite bool_decide_eq_true_2.
  - now rewrite verifyParenthood_of_getParent by lia.
Qed.

Lemma verifyParenthood_minted_witness :
  (forall used c, mintNextChild 40 (Integer 59) used = Ok c ->
     verifyParenthood 40 (Integer 59) (Integer c) = Ok true) /\
  (59 < 2 ^ 30 ->
   forall v, mintNextVersion (Integer 59) = Ok v ->
     verifyParenthood 40 (Integer 59) (Integer v) = Ok true) /\
  verifyParenthood 40 (Integer 59) (Integer 1) = Ok false.
Proof. apply (verifyParenthood_minted 40 59). lia. Defined.

Example mintNextChild_59 :
  mintNextChild 40 (Integer 59) [] = Ok 39 /\
  mintNextChild 40 (Integer 59) [39] = Ok 157.
Proof. vm_compute. split; reflexivity. Qed.

(** ** The ancestry chain and the walk of the rules *)

Lemma oddPart_pos_decompose (p : positive) :
  exists k : nat,
    Z.pos p = 2 ^ Z.of_nat k * Z.pos (oddPart_pos p) /\
    Z.odd (Z.pos (oddPart_pos p)) = true.
Proof.
  induction p as [p _|p [k [E Ho]]|].
  - exists 0%nat. split; [simpl; lia|reflexivity].
  - exists (S k). split; [|exact Ho]. simpl oddPart_pos.
    rewrite Nat2Z.inj_succ, Z.pow_succ_r by lia.
    change (Z.pos p~0) with (2 * Z.pos p). rewrite E at 1. lia.
  - exists 0%nat. split; reflexivity.
Qed.

Lemma spec_parent_engine (n p : Z) :
  1 <= n -> 3 * n + 1 < 2 ^ 31 -> n <> 1 -> spec_parent n = Some p ->
  parent_of n p /\ 1 <= p.
Proof.
  intros Hn Hlt Hn1. unfold spec_parent.
  destruct (Z.eqb_spec n 1) as [|_]; [tauto|].
  destruct (Z.even n) eqn:He; intros [= <-].
  - split.
    + exists 0%nat. apply getParent_even; [lia|assumption].
    + apply Z.even_spec in He as [m ->].
      rewrite Z.mul_comm, Z.div_mul by lia. lia.
  - destruct (3 * n + 1) as [|q|q] eqn:E; try lia.
    destruct (oddPart_pos_decompose q) as (k & Ek & Ho).
    simpl spec_oddPart. set (m := Z.pos (oddPart_pos q)) in *.
    split; [|lia].
    exists (S k). unfold getParent.
    replace (validatePositiveInteger (Integer n)) with (Ok (A := Z) n)
      by (symmetry; apply validatePositiveInteger_Ok; split;
          [reflexivity|lia]).
    simpl. destruct (Z.eqb_spec n 1) as [|_]; [tauto|].
    assert (Hodd : Z.odd n = true) by (rewrite <- Z.negb_even, He; reflexivity).
    rewrite bitand_1_small, Zmod_odd, Hodd by lia. simpl.
    unfold mul, add. rewrite (round_double_small (3 * n)) by lia.
    rewrite round_double_small by lia.
    rewrite getOddPart_of_loop, E, Ek by lia.
    rewrite getOddPart_loop_exact; try assumption; try reflexivity; lia.
Qed.

Lemma spec_walk_engine (n : Z) (l : list Z) :
  spec_walk n l -> 1 <= n ->
  Forall (fun m => 3 * m + 1 < 2 ^ 31) (n :: l) -> walk n l.
Proof.
  induction 1 as [|n p l Hn1 Hp Hw IH]; intros Hn Hsafe; [constructor|].
  apply Forall_cons in Hsafe as [Hs Hsafe].
  destruct (spec_parent_engine n p Hn Hs Hn1 Hp) as [Hpo Hp1].
  apply walk_step; auto.
Qed.

Lemma getAncestryChain_no_divergence (fuel : nat) (v : number) :
  getAncestryChain fuel v <> Throw AddressingDivergence.
Proof.
  unfold getAncestryChain.
  destruct (validatePositiveInteger v) as [z|e|] eqn:Ev; simpl;
    [|intros [= ->]|discriminate].
  - intros H. apply getAncestryChain_loop_Throw in H. discriminate.
  - apply validatePositiveInteger_Throw in Ev as [Ev _]. discriminate.
Qed.

Lemma spec_walk_last (n : Z) (l : list Z) :
  spec_walk n l -> last (n :: l) = Some 1.
Proof.
  induction 1 as [|n p l _ _ _ IH]; [reflexivity|].
  now rewrite last_cons_cons.
Qed.

(** C5 (amended): [getAncestryChain] on a positive [n] returns, given
    enough fuel, the chain [n, ..., 1] of the walk that applies the parent
    of the rules until it reaches 1, whatever the length of that walk: no
    maximum of steps stops it.  The call never fails with
    [AddressingDivergence], on no argument.  This is stated for the walks
    whose numbers [m] all have [3m + 1 < 2^31]; what the 32-bit operators of
    [getParent] and [getOddPart] do beyond (C4, C7) is neither promised nor
    denied here. *)
Theorem getAncestryChain_walk (n : Z) (l : list Z) :
  1 <= n -> spec_walk n l ->
  Forall (fun m => 3 * m + 1 < 2 ^ 31) (n :: l) ->
  (exists fuel0, forall fuel, (fuel0 <= fuel)%nat ->
     getAncestryChain fuel (Integer n) = Ok (n :: l)) /\
  last (n :: l) = Some 1 /\
  (forall fuel v, getAncestryChain fuel v <> Throw AddressingDivergence).
Proof.
  intros Hn Hw Hsafe. split; [|split].
  - pose proof (spec_walk_engine n l Hw Hn Hsafe) as Hwalk.
    destruct (getAncestryChain_loop_complete n l Hwalk) as [f0 H].
    exists f0. intros fuel Hle. unfold getAncestryChain.
    replace (validatePositiveInteger (Integer n)) with (Ok (A := Z) n)
      by (symmetry; apply validatePositiveInteger_Ok; auto).
    simpl. now rewrite H.
  - now apply spec_walk_last.
  - apply getAncestryChain_no_divergence.
Qed.

(** The chain of 3 is [3, 5, 1], as in the tests of the engine. *)
Lemma spec_walk_3 : spec_walk 3 [5; 1].
Proof. repeat (eapply spec_walk_step; [lia|reflexivity|]). constructor. Qed.

Lemma getAncestryChain_walk_witness :
  (exists fuel0, forall fuel, (fuel0 <= fuel)%nat ->
     getAncestryChain fuel (Integer 3) = Ok [3; 5; 1]) /\
  last [3; 5; 1] = Some 1 /\
  (forall fuel v, getAncestryChain fuel v <> Throw AddressingDivergence).
Proof.
  apply (getAncestryChain_walk 3 [5; 1]); [lia|exact spec_walk_3|].
  repeat constructor.
Defined.

(** C5 (as stated, refuted): no guard bounds the walk, and
    [AddressingDivergence] is never thrown.  The walk from 27 takes 41 steps
    to the parent, through numbers below 10000.  The call returns its chain;
    the fuel stands for the time the loops are given, and where it does not
    suffice the loops are still running ([OutOfFuel] is no error of the
    program); no amount of it, on no argument, makes the call fail with
    [AddressingDivergence]. *)
Lemma getAncestryChain_no_guard :
  getAncestryChain 46 (Integer 27)
  = Ok [27; 41; 31; 47; 71; 107; 161; 121; 91; 137; 103; 155; 233; 175;
        263; 395; 593; 445; 167; 251; 377; 283; 425; 319; 479; 719; 1079;
        1619; 2429; 911; 1367; 2051; 3077; 577; 433; 325; 61; 23; 35; 53;
        5; 1] /\
  (forall fuel, (fuel < 46)%nat ->
     getAncestryChain fuel (Integer 27) = OutOfFuel) /\
  (forall fuel v, getAncestryChain fuel v <> Throw AddressingDivergence).
Proof.
  split; [vm_compute; reflexivity|]. split.
  - intros fuel Hf.
    do 46 (destruct fuel as [|fuel]; [vm_compute; reflexivity|]). lia.
  - apply getAncestryChain_no_divergence.
Qed.

End CTGEngineProps.

(** * Properties of the tree *)

Module DTreeProps.

Import JS DTree DTreeSpec.

Section WithStrings.

Context `{string_ops : StringOps}.

(** ** Lists *)

Lemma elem_of_flat_map {A B : Type} (f : A -> list B) (l : list A) (x : B) :
  x ∈ flat_map f l <-> exists y, y ∈ l /\ x ∈ f y.
Proof.
  rewrite list_elem_of_In, in_flat_map. split; intros (y & H1 & H2); exists y.
  - now rewrite !list_elem_of_In.
  - now rewrite <- !list_elem_of_In.
Qed.

Lemma StronglySorted_weaken {A : Type} (R R' : relation A) (l : list A) :
  (forall x y, x ∈ l -> y ∈ l -> R x y -> R' x y) ->
  StronglySorted R l -> StronglySorted R' l.
Proof.
  intros H Hs. induction Hs as [|x l Hs IH Hx]; constructor.
  - apply IH. intros y z Hy Hz. apply H; now right.
  - rewrite Forall_forall in *. intros y Hy. apply H; [left|right|]; auto.
Qed.

Lemma StronglySorted_lt_NoDup (f : ref -> Z) (l : list ref) :
  StronglySorted (fun x y => f x < f y) l -> NoDup l.
Proof.
  induction 1 as [|x l Hs IH Hx]; constructor; [|assumption].
  intros Hin. rewrite Forall_forall in Hx. specialize (Hx x Hin). lia.
Qed.

(** ** Shapes *)

Lemma shape_ind' (P : shape -> Prop) :
  (forall r kids, Forall P kids -> P (Sh r kids)) -> forall t, P t.
Proof.
  intros H. fix IH 1. intros [r kids]. apply H.
  induction kids as [|k kids IHk]; constructor; [apply IH|exact IHk].
Qed.

Lemma has_shape_inv (h : gmap ref DTreeNode) (r : ref) (kids : list shape) :
  has_shape h (Sh r kids) ->
  exists n, h !! r = Some n /\ children n = map sroot kids
            /\ Forall (has_shape h) kids.
Proof. inversion 1; subst. eauto. Qed.

Lemma sroot_in_pre (t : shape) : sroot t ∈ pre t.
Proof. destruct t. simpl. left. Qed.

Lemma elem_of_post (t : shape) (x : ref) : x ∈ post t <-> x ∈ pre t.
Proof.
  revert x. induction t as [r kids IH] using shape_ind'. intros x. simpl.
  rewrite elem_of_app, list_elem_of_singleton, elem_of_cons, !elem_of_flat_map.
  rewrite Forall_forall in IH. split.
  - intros [(k & Hk & Hx)| ->]; [right|now left]. exists k. split; [done|].
    now apply IH.
  - intros [-> |(k & Hk & Hx)]; [now right|left]. exists k. split; [done|].
    now apply IH.
Qed.

Lemma elem_of_flat_map_post (kids : list shape) (x : ref) :
  x ∈ flat_map post kids <-> x ∈ flat_map pre kids.
Proof.
  rewrite !elem_of_flat_map. split; intros (k & Hk & Hx); exists k;
    (split; [done|]); now apply elem_of_post.
Qed.

Lemma length_post (t : shape) : length (post t) = length (pre t).
Proof.
  induction t as [r kids IH] using shape_ind'. simpl.
  rewrite length_app. simpl.
  assert (length (flat_map post kids) = length (flat_map pre kids)) as ->.
  { induction IH as [|k kids Hk _ IHk]; [reflexivity|]. simpl.
    rewrite !length_app. congruence. }
  lia.
Qed.

(** A shape of a heap stays one when the [children] of its nodes stay. *)
Lemma has_shape_ext (h h' : gmap ref DTreeNode) (t : shape) :
  (forall r, r ∈ pre t -> children <$> h' !! r = children <$> h !! r) ->
  has_shape h t -> has_shape h' t.
Proof.
  induction t as [r kids IH] using shape_ind'. intros Hc Hs.
  apply has_shape_inv in Hs as (n & Hn & Hk & Hkids).
  specialize (Hc r (sroot_in_pre (Sh r kids))) as Hr. rewrite Hn in Hr.
  destruct (h' !! r) as [n'|] eqn:Hn'; [|discriminate].
  injection Hr as Hr.
  apply has_shape_node with n'; [assumption|congruence|].
  rewrite Forall_forall in *. intros k Hin.
  apply IH; [assumption| |now apply Hkids].
  intros x Hx. apply Hc. simpl. right. apply elem_of_flat_map. eauto.
Qed.

Lemma same_but_q2_children (h h' : gmap ref DTreeNode) (r : ref) :
  same_but_q2 h h' -> children <$> h' !! r = children <$> h !! r.
Proof. intros H. rewrite (H r). now destruct (h !! r). Qed.

Lemma same_but_q2_q1 (h h' : gmap ref DTreeNode) (r : ref) :
  same_but_q2 h h' -> q1_of h' r = q1_of h r.
Proof. intros H. unfold q1_of. rewrite (H r). now destruct (h !! r). Qed.

Lemma same_but_q2_refl (h : gmap ref DTreeNode) : same_but_q2 h h.
Proof.
  intros r. unfold q2_of. destruct (h !! r) as [[]|]; reflexivity.
Qed.

Lemma same_but_q2_trans (h1 h2 h3 : gmap ref DTreeNode) :
  same_but_q2 h1 h2 -> same_but_q2 h2 h3 -> same_but_q2 h1 h3.
Proof.
  intros H12 H23 r. rewrite (H23 r), (H12 r).
  now destruct (h1 !! r).
Qed.

Lemma has_shape_same_but_q2 (h h' : gmap ref DTreeNode) (t : shape) :
  same_but_q2 h h' -> has_shape h t -> has_shape h' t.
Proof.
  intros H. apply has_shape_ext. intros r _. now apply same_but_q2_children.
Qed.

(** Every node of a shape is reached from its root. *)
Lemma has_shape_reach (h : gmap ref DTreeNode) (t : shape) (x : ref) :
  has_shape h t -> x ∈ pre t -> rtc (child_of h) (sroot t) x.
Proof.
  revert x. induction t as [r kids IH] using shape_ind'. intros x Hs Hx.
  apply has_shape_inv in Hs as (n & Hn & Hk & Hkids). simpl in *.
  apply elem_of_cons in Hx as [-> |Hx]; [constructor|].
  apply elem_of_flat_map in Hx as (k & Hin & Hx).
  rewrite Forall_forall in *.
  apply rtc_l with (sroot k); [|now apply IH; auto].
  exists n. split; [assumption|]. rewrite Hk.
  apply list_elem_of_fmap. eauto.
Qed.

(** The nodes of a shape are closed under the step to a child. *)
Lemma has_shape_child (h : gmap ref DTreeNode) (t : shape) (p c : ref) :
  has_shape h t -> p ∈ pre t -> child_of h p c -> c ∈ pre t.
Proof.
  induction t as [r kids IH] using shape_ind'. intros Hs Hp Hc.
  apply has_shape_inv in Hs as (n & Hn & Hk & Hkids). simpl in *.
  rewrite Forall_forall in *. right. apply elem_of_flat_map.
  apply elem_of_cons in Hp as [-> |Hp].
  - destruct Hc as (n' & Hn' & Hc). rewrite Hn in Hn'. injection Hn' as <-.
    rewrite Hk in Hc. apply list_elem_of_fmap in Hc as (k & -> & Hin).
    exists k. split; [assumption|apply sroot_in_pre].
  - apply elem_of_flat_map in Hp as (k & Hin & Hp). exists k.
    split; [assumption|]. apply IH; auto.
Qed.

Lemma has_shape_rtc (h : gmap ref DTreeNode) (t : shape) (a x : ref) :
  has_shape h t -> a ∈ pre t -> rtc (child_of h) a x -> x ∈ pre t.
Proof.
  intros Hs Ha Hr. induction Hr as [|a b c Hab Hbc IH]; [assumption|].
  apply IH. eapply has_shape_child; eauto.
Qed.

(** ** [recalculateQ2]: the post-order numbering *)

Lemma traverse_S (fuel : nat) (node : ref) (st : gmap ref DTreeNode * Z) :
  traverse (S fuel) node st =
  (n ← deref (fst st) node;
   st' ← traverse_children fuel (children n) st;
   Ok (alter (set_q2 (snd st' + INITIAL_SPACING)) node (fst st'),
       snd st' + INITIAL_SPACING)).
Proof. reflexivity. Qed.

Lemma q2_of_eq (h h' : gmap ref DTreeNode) (r : ref) :
  h' !! r = h !! r -> q2_of h' r = q2_of h r.
Proof. unfold q2_of. now intros ->. Qed.

Ltac split_numbered :=
  unfold numbered, INITIAL_SPACING in *; split; [|split; [|split; [|split]]].

Lemma numbered_nil (h : gmap ref DTreeNode) (c : Z) : numbered h c [] [] h c.
Proof.
  split_numbered.
  - simpl. lia.
  - reflexivity.
  - apply same_but_q2_refl.
  - constructor.
  - intros r Hr. inversion Hr.
Qed.

Lemma numbered_app (h h1 h2 : gmap ref DTreeNode) (c c1 c2 : Z)
  (l1 p1 l2 p2 : list ref) :
  numbered h c l1 p1 h1 c1 -> numbered h1 c1 l2 p2 h2 c2 ->
  (forall x, x ∈ l1 -> x ∉ l2) ->
  (forall x, x ∈ p1 -> x ∈ l1) -> (forall x, x ∈ p2 -> x ∈ l2) ->
  numbered h c (l1 ++ l2) (p1 ++ p2) h2 c2.
Proof.
  intros (Hc1 & Hf1 & Hs1 & Ho1 & Hr1) (Hc2 & Hf2 & Hs2 & Ho2 & Hr2)
    Hdisj Hp1 Hp2.
  unfold INITIAL_SPACING in *.
  assert (Hkeep : forall x, x ∈ l1 -> q2_of h2 x = q2_of h1 x).
  { intros x Hx. apply q2_of_eq, Hf2. auto. }
  split_numbered.
  - rewrite length_app. lia.
  - intros r Hr. rewrite elem_of_app in Hr.
    rewrite Hf2, Hf1; tauto.
  - now apply same_but_q2_trans with h1.
  - apply StronglySorted_app_2; [| |assumption].
    + intros x1 x2 H1 H2. rewrite Hkeep by auto.
      specialize (Hr1 x1 (Hp1 x1 H1)). specialize (Hr2 x2 (Hp2 x2 H2)). lia.
    + apply StronglySorted_weaken with (2 := Ho1).
      intros x y Hx Hy. rewrite !Hkeep by auto. tauto.
  - intros r Hr. assert (0 <= Z.of_nat (length l1)) by lia.
    assert (0 <= Z.of_nat (length l2)) by lia.
    apply elem_of_app in Hr as [Hx|Hx].
    + rewrite Hkeep by assumption. specialize (Hr1 r Hx). lia.
    + specialize (Hr2 r Hx). lia.
Qed.

Lemma numbered_root (h h1 : gmap ref DTreeNode) (c c1 : Z) (l p : list ref)
  (r : ref) :
  numbered h c l p h1 c1 -> r ∉ l -> (forall x, x ∈ p -> x ∈ l) ->
  is_Some (h !! r) ->
  numbered h c (r :: l) (p ++ [r])
           (alter (set_q2 (c1 + INITIAL_SPACING)) r h1) (c1 + INITIAL_SPACING).
Proof.
  intros (Hc1 & Hf1 & Hs1 & Ho1 & Hr1) Hr Hp [n Hn].
  set (h' := alter (set_q2 (c1 + INITIAL_SPACING)) r h1).
  unfold INITIAL_SPACING in *.
  assert (Hkeep : forall x, x ≠ r -> h' !! x = h1 !! x).
  { intros x Hx. unfold h'. now rewrite lookup_alter_ne. }
  assert (Hq : q2_of h' r = c1 + 1000).
  { unfold q2_of, h'. rewrite lookup_alter_eq, (Hs1 r), Hn. reflexivity. }
  assert (Hne : forall x, x ∈ l -> x ≠ r) by (intros x Hx ->; tauto).
  split_numbered.
  - simpl length. lia.
  - intros x Hx. rewrite not_elem_of_cons in Hx. destruct Hx as [Hx1 Hx2].
    rewrite Hkeep by assumption. now apply Hf1.
  - intros x. destruct (decide (x = r)) as [->|Hx].
    + rewrite Hq. unfold h'. rewrite lookup_alter_eq, (Hs1 r), Hn.
      reflexivity.
    + rewrite (q2_of_eq h1 h') by now apply Hkeep.
      rewrite Hkeep by assumption. apply Hs1.
  - apply StronglySorted_app_2.
    + intros x1 x2 H1 H2. apply list_elem_of_singleton in H2 as ->.
      rewrite Hq, (q2_of_eq h1 h') by (apply Hkeep; auto).
      specialize (Hr1 x1 (Hp x1 H1)). lia.
    + apply StronglySorted_weaken with (2 := Ho1).
      intros x y Hx Hy.
      rewrite !(q2_of_eq h1 h') by (apply Hkeep; auto). tauto.
    + repeat constructor.
  - intros x Hx. assert (0 <= Z.of_nat (length l)) by lia.
    apply elem_of_cons in Hx as [->|Hx].
    + rewrite Hq. lia.
    + rewrite (q2_of_eq h1 h') by (apply Hkeep; auto).
      specialize (Hr1 x Hx). lia.
Qed.

Lemma traverse_children_spec (kids : list shape) :
  Forall (fun k => forall h c fuel,
            has_shape h k -> NoDup (pre k) -> (length (pre k) <= fuel)%nat ->
            exists h' c', traverse fuel (sroot k) (h, c) = Ok (h', c') /\
                          numbered h c (pre k) (post k) h' c') kids ->
  forall h c fuel,
    Forall (has_shape h) kids -> NoDup (flat_map pre kids) ->
    (length (flat_map pre kids) <= fuel)%nat ->
    exists h' c',
      traverse_children fuel (map sroot kids) (h, c) = Ok (h', c') /\
      numbered h c (flat_map pre kids) (flat_map post kids) h' c'.
Proof.
  induction 1 as [|k kids Hk _ IH]; intros h c fuel Hs Hnd Hfuel.
  - exists h, c. split; [reflexivity|apply numbered_nil].
  - simpl in *. apply Forall_cons in Hs as [Hsk Hs].
    apply NoDup_app in Hnd as (Hnd1 & Hdisj & Hnd2).
    rewrite length_app in Hfuel.
    destruct (Hk h c fuel Hsk Hnd1 ltac:(lia)) as (h1 & c1 & Ht & Hn1).
    rewrite Ht. simpl.
    destruct (IH h1 c1 fuel) as (h2 & c2 & Ht2 & Hn2); [|assumption|lia|].
    { eapply Forall_impl; [exact Hs|]. intros t.
      apply has_shape_same_but_q2, Hn1. }
    exists h2, c2. split; [exact Ht2|].
    eapply numbered_app; eauto.
    + intros x. apply elem_of_post.
    + intros x. apply elem_of_flat_map_post.
Qed.

Lemma traverse_spec (t : shape) (h : gmap ref DTreeNode) (c : Z) (fuel : nat) :
  has_shape h t -> NoDup (pre t) -> (length (pre t) <= fuel)%nat ->
  exists h' c', traverse fuel (sroot t) (h, c) = Ok (h', c') /\
                numbered h c (pre t) (post t) h' c'.
Proof.
  revert h c fuel. induction t as [r kids IH] using shape_ind'.
  intros h c fuel Hs Hnd Hfuel.
  apply has_shape_inv in Hs as (n & Hn & Hk & Hkids). simpl in *.
  apply NoDup_cons in Hnd as [Hr Hnd].
  destruct fuel as [|fuel]; [lia|].
  rewrite traverse_S. unfold deref. simpl fst. rewrite Hn. simpl.
  destruct (traverse_children_spec kids IH h c fuel Hkids Hnd ltac:(lia))
    as (h1 & c1 & Ht & Hn1).
  rewrite Hk, Ht. simpl. eexists _, _. split; [reflexivity|].
  apply numbered_root; eauto.
  intros x. apply elem_of_flat_map_post.
Qed.

(** In post-order every child comes before its parent, in pre-order after. *)
Lemma post_sorted_child (h : gmap ref DTreeNode) (f : ref -> Z) (t : shape)
  (p c : ref) :
  has_shape h t -> StronglySorted (fun x y => f x < f y) (post t) ->
  p ∈ pre t -> child_of h p c -> f c < f p.
Proof.
  induction t as [r kids IH] using shape_ind'. intros Hs Hso Hp Hc.
  apply has_shape_inv in Hs as (n & Hn & Hk & Hkids). simpl in *.
  rewrite Forall_forall in *.
  apply elem_of_cons in Hp as [->|Hp].
  - destruct Hc as (n' & Hn' & Hc). rewrite Hn in Hn'. injection Hn' as <-.
    rewrite Hk in Hc. apply list_elem_of_fmap in Hc as (k & -> & Hin).
    eapply (StronglySorted_app_1_elem_of _ _ _ _ _ Hso).
    + apply elem_of_flat_map_post, elem_of_flat_map.
      exists k. split; [assumption|apply sroot_in_pre].
    + now left.
  - apply elem_of_flat_map in Hp as (k & Hin & Hp).
    apply (IH k Hin); auto.
    apply StronglySorted_app_1_l in Hso. clear -Hso Hin.
    induction kids as [|k' kids IHk]; [inversion Hin|]. simpl in Hso.
    apply elem_of_cons in Hin as [->|Hin].
    + now apply StronglySorted_app_1_l in Hso.
    + apply IHk; [|assumption]. now apply StronglySorted_app_1_r in Hso.
Qed.

Lemma pre_sorted_child (h : gmap ref DTreeNode) (f : ref -> Z) (t : shape)
  (p c : ref) :
  has_shape h t -> StronglySorted (fun x y => f x < f y) (pre t) ->
  p ∈ pre t -> child_of h p c -> f p < f c.
Proof.
  induction t as [r kids IH] using shape_ind'. intros Hs Hso Hp Hc.
  apply has_shape_inv in Hs as (n & Hn & Hk & Hkids). simpl in *.
  rewrite Forall_forall in *.
  apply StronglySorted_cons in Hso as [Hr Hso]. rewrite Forall_forall in Hr.
  apply elem_of_cons in Hp as [->|Hp].
  - destruct Hc as (n' & Hn' & Hc). rewrite Hn in Hn'. injection Hn' as <-.
    rewrite Hk in Hc. apply list_elem_of_fmap in Hc as (k & -> & Hin).
    apply Hr, elem_of_flat_map.
    exists k. split; [assumption|apply sroot_in_pre].
  - apply elem_of_flat_map in Hp as (k & Hin & Hp).
    apply (IH k Hin); auto. clear -Hso Hin.
    induction kids as [|k' kids IHk]; [inversion Hin|]. simpl in Hso.
    apply elem_of_cons in Hin as [->|Hin].
    + now apply StronglySorted_app_1_l in Hso.
    + apply IHk; [|assumption]. now apply StronglySorted_app_1_r in Hso.
Qed.

Lemma post_sorted_ancestor (h : gmap ref DTreeNode) (f : ref -> Z) (t : shape)
  (a b : ref) :
  has_shape h t -> StronglySorted (fun x y => f x < f y) (post t) ->
  a ∈ pre t -> ancestor h a b -> f b < f a.
Proof.
  intros Hs Hso Ha Hab. induction Hab as [a b Hab|a y b Hay Hyb IH].
  - eapply post_sorted_child; eauto.
  - assert (f y < f a) by (eapply post_sorted_child; eauto).
    assert (f b < f y); [|lia].
    apply IH. eapply has_shape_child; eauto.
Qed.

Lemma pre_sorted_ancestor (h : gmap ref DTreeNode) (f : ref -> Z) (t : shape)
  (a b : ref) :
  has_shape h t -> StronglySorted (fun x y => f x < f y) (pre t) ->
  a ∈ pre t -> ancestor h a b -> f a < f b.
Proof.
  intros Hs Hso Ha Hab. induction Hab as [a b Hab|a y b Hay Hyb IH].
  - eapply pre_sorted_child; eauto.
  - assert (f a < f y) by (eapply pre_sorted_child; eauto).
    assert (f y < f b); [|lia].
    apply IH. eapply has_shape_child; eauto.
Qed.

(** The pass on a tree: it returns, changes no field but [q2], and numbers
    the nodes in post-order. *)
Lemma recalculateQ2_spec (T : DTree) (t : shape) (fuel : nat) :
  sroot t = root T -> has_shape (heap T) t -> NoDup (pre t) ->
  (length (pre t) <= fuel)%nat ->
  exists h', recalculateQ2 fuel T = Ok (with_heap h' T) /\
             same_but_q2 (heap T) h' /\ has_shape h' t /\
             StronglySorted (fun x y => q2_of h' x < q2_of h' y) (post t).
Proof.
  intros Hroot Hs Hnd Hfuel.
  destruct (traverse_spec t (heap T) 0 fuel Hs Hnd Hfuel)
    as (h' & c' & Ht & (_ & _ & Hsame & Hso & _)).
  exists h'. unfold recalculateQ2. rewrite <- Hroot, Ht. simpl.
  repeat split; try assumption.
  now apply has_shape_same_but_q2 with (heap T).
Qed.

(** C2: on every tree [recalculateQ2] returns (given enough fuel); the pass
    changes nothing but the [q2] of the nodes, and afterwards the [q2] of
    every node of the tree is strictly greater than the [q2] of each of its
    descendants and strictly less than the [q2] of each of its ancestors.
    Nothing is assumed on the order in which the nodes were inserted. *)
Theorem recalculateQ2_post_order (T : DTree) :
  is_tree (heap T) (root T) ->
  exists fuel0, forall fuel, (fuel0 <= fuel)%nat ->
    exists T', recalculateQ2 fuel T = Ok T' /\
      same_but_q2 (heap T) (heap T') /\
      (root T' = root T /\ xref T' = xref T /\ nodeMap T' = nodeMap T) /\
      forall x, in_tree T' x ->
        (forall d, ancestor (heap T') x d ->
                   q2_of (heap T') d < q2_of (heap T') x) /\
        (forall a, in_tree T' a -> ancestor (heap T') a x ->
                   q2_of (heap T') x < q2_of (heap T') a).
Proof.
  intros (t & Hroot & Hs & Hnd). exists (length (pre t)). intros fuel Hfuel.
  destruct (recalculateQ2_spec T t fuel Hroot Hs Hnd Hfuel)
    as (h' & -> & Hsame & Hs' & Hso).
  exists (with_heap h' T). split; [reflexivity|]. split; [assumption|].
  split; [now repeat split|]. simpl. unfold in_tree. simpl.
  assert (Hin : forall x, rtc (child_of h') (root T) x -> x ∈ pre t).
  { intros x Hx. eapply has_shape_rtc; eauto.
    rewrite <- Hroot. apply sroot_in_pre. }
  intros x Hx. split.
  - intros d Hd. eapply (post_sorted_ancestor h'); eauto.
  - intros a Ha Hax. eapply (post_sorted_ancestor h'); eauto.
Qed.

(** ** [appendChild] *)

Lemma indexOf_last (l : list ref) (a : ref) :
  NoDup l -> last l = Some a -> indexOf l a = Z.of_nat (length l) - 1.
Proof.
  induction l as [|y l IH]; [discriminate|]. intros Hnd Hl.
  apply NoDup_cons in Hnd as [Hy Hnd]. simpl indexOf.
  destruct l as [|z l].
  - simpl in Hl. injection Hl as ->. rewrite decide_True by reflexivity.
    reflexivity.
  - rewrite last_cons_cons in Hl.
    assert (a ∈ z :: l) by now apply last_Some_elem_of.
    rewrite decide_False by (intros ->; tauto).
    rewrite IH by assumption.
    assert (H1 : (Z.of_nat (length (z :: l)) - 1 <? 0) = false).
    { apply Z.ltb_ge. simpl length. lia. }
    rewrite H1. simpl length. lia.
Qed.

Lemma splice_end {A : Type} (l : list A) (x : A) :
  splice l (Z.of_nat (length l) - 1 + 1) 0 [x] = l ++ [x].
Proof.
  unfold splice.
  replace (Z.of_nat (length l) - 1 + 1) with (Z.of_nat (length l)) by lia.
  destruct (Z.ltb_spec (Z.of_nat (length l)) 0); [lia|].
  rewrite Z.min_id, Nat2Z.id, Nat.add_0_r, take_ge, drop_ge by lia.
  reflexivity.
Qed.

Lemma lookup_alter_view {B : Type} (g : DTreeNode -> B)
  (f : DTreeNode -> DTreeNode) (k x : ref) (h : gmap ref DTreeNode) :
  (forall n, g (f n) = g n) -> g <$> alter f k h !! x = g <$> h !! x.
Proof.
  intros Hg. destruct (decide (k = x)) as [->|Hne].
  - rewrite lookup_alter_eq. destruct (h !! x); simpl; [now rewrite Hg|done].
  - now rewrite lookup_alter_ne.
Qed.

Lemma appendChild_spec (T T' : DTree) (p r : ref) (d : dref)
  (pn : DTreeNode) :
  appendChild T p d = Ok (T', r) ->
  heap T !! p = Some pn -> NoDup (children pn) ->
  heap T !! nextId T = None ->
  r = nextId T /\ nextId T' = S r /\
  q1Counter T' = q1Counter T + INITIAL_SPACING /\
  root T' = root T /\ xref T' = xref T /\
  view <$> heap T' !! r = Some (q1Counter T + INITIAL_SPACING, []) /\
  view <$> heap T' !! p = Some (q1 pn, children pn ++ [r]) /\
  (forall x, x <> r -> x <> p -> view <$> heap T' !! x = view <$> heap T !! x).
Proof.
  intros Happ Hp Hnd Hfresh.
  assert (Hpr : p <> nextId T) by (intros ->; rewrite Hfresh in Hp; discriminate).
  unfold appendChild, addNode, calculateChildIndices, deref in Happ.
  rewrite Hp in Happ. simpl in Happ.
  set (mk := fun a b => mkNode (nextId T) a b d (Some p) [] None None) in *.
  destruct (last (children pn)) as [a|] eqn:Hlast.
  - assert (Hne : children pn <> []) by (intros E; now rewrite E in Hlast).
    rewrite bool_decide_eq_false_2 in Happ
      by (intros E; now apply nil_length_inv in E).
    destruct (heap T !! a) as [an|] eqn:Ha; [|discriminate].
    simpl in Happ.
    assert (Har : nextId T <> a)
      by (intros E; rewrite <- E, Hfresh in Ha; discriminate).
    rewrite lookup_insert_ne, Ha in Happ by assumption. simpl in Happ.
    match type of Happ with
    | context [alter (set_nextSibling (Some (nextId T))) a ?H] =>
        set (H3 := alter (set_nextSibling (Some (nextId T))) a H) in *;
        assert (Hv : forall x, view <$> H3 !! x
          = view <$> <[nextId T := mk (q1Counter T + INITIAL_SPACING)
                                      (add (q2 an) INITIAL_SPACING)]>
                       (heap T) !! x)
    end.
    { intros x. unfold H3. rewrite lookup_alter_view by reflexivity.
      destruct (nextSibling an);
        rewrite ?lookup_alter_view by reflexivity; reflexivity. }
    clearbody H3.
    pose proof (Hv p) as Hvp. rewrite lookup_insert_ne, Hp in Hvp by auto.
    destruct (H3 !! p) as [pn3|] eqn:Hp3; [|discriminate].
    simpl in Hvp, Happ. injection Hvp as Hq Hc. injection Happ as <- <-.
    simpl. rewrite Hc, indexOf_last, splice_end by assumption.
    split; [reflexivity|]. split; [reflexivity|]. split; [reflexivity|].
    split; [reflexivity|]. split; [reflexivity|]. split; [|split].
    + rewrite lookup_alter_ne, Hv, lookup_insert_eq by auto. reflexivity.
    + rewrite lookup_alter_eq, Hp3. simpl. unfold view. simpl.
      now rewrite Hq.
    + intros x Hxr Hxp.
      rewrite lookup_alter_ne, Hv, lookup_insert_ne by auto. reflexivity.
  - apply last_None in Hlast. unfold mbind, outcome_bind in Happ.
    rewrite lookup_insert_ne, Hp in Happ by auto. simpl in Happ.
    rewrite Hlast in Happ.
    rewrite lookup_insert_ne, Hp in Happ by auto. simpl in Happ.
    injection Happ as <- <-. simpl. rewrite Hlast.
    split; [reflexivity|]. split; [reflexivity|]. split; [reflexivity|].
    split; [reflexivity|]. split; [reflexivity|]. split; [|split].
    + rewrite lookup_alter_ne, lookup_insert_eq by auto. reflexivity.
    + rewrite lookup_alter_eq, lookup_insert_ne, Hp by auto. reflexivity.
    + intros x Hxr Hxp.
      rewrite lookup_alter_ne, lookup_insert_ne by auto. reflexivity.
Qed.

(** ** Grafting a leaf on the path of last children *)

Lemma last_map {A B : Type} (f : A -> B) (l : list A) :
  last (map f l) = f <$> last l.
Proof. exact (fmap_last f l). Qed.

Lemma has_shape_lookup (h : gmap ref DTreeNode) (t : shape) (x : ref) :
  has_shape h t -> x ∈ pre t -> is_Some (h !! x).
Proof.
  induction t as [r kids IH] using shape_ind'. intros Hs Hx.
  apply has_shape_inv in Hs as (n & Hn & Hk & Hkids). simpl in *.
  rewrite Forall_forall in *.
  apply elem_of_cons in Hx as [->|Hx]; [eauto|].
  apply elem_of_flat_map in Hx as (k & Hin & Hx). eapply IH; eauto.
Qed.

Lemma NoDup_kid (kids : list shape) (k : shape) :
  NoDup (flat_map pre kids) -> k ∈ kids -> NoDup (pre k).
Proof.
  induction kids as [|k' kids IH]; intros Hnd Hin; [inversion Hin|].
  simpl in Hnd. apply NoDup_app in Hnd as (H1 & _ & H2).
  apply elem_of_cons in Hin as [->|Hin]; auto.
Qed.

Lemma NoDup_map_sroot (kids : list shape) :
  NoDup (flat_map pre kids) -> NoDup (map sroot kids).
Proof.
  induction kids as [|k kids IH]; intros Hnd; [constructor|].
  simpl in *. apply NoDup_app in Hnd as (H1 & Hd & H2).
  apply NoDup_cons. split; [|auto].
  intros Hin. apply list_elem_of_fmap in Hin as (k' & He & Hin).
  apply (Hd (sroot k)); [apply sroot_in_pre|].
  apply elem_of_flat_map. exists k'. split; [assumption|].
  rewrite He. apply sroot_in_pre.
Qed.

Lemma has_shape_children_NoDup (h : gmap ref DTreeNode) (t : shape)
  (p : ref) (pn : DTreeNode) :
  has_shape h t -> NoDup (pre t) -> p ∈ pre t -> h !! p = Some pn ->
  NoDup (children pn).
Proof.
  induction t as [r kids IH] using shape_ind'. intros Hs Hnd Hp Hpn.
  apply has_shape_inv in Hs as (n & Hn & Hk & Hkids). simpl in *.
  rewrite Forall_forall in *. apply NoDup_cons in Hnd as [Hr Hnd].
  apply elem_of_cons in Hp as [->|Hp].
  - rewrite Hn in Hpn. injection Hpn as <-. rewrite Hk.
    now apply NoDup_map_sroot.
  - apply elem_of_flat_map in Hp as (k & Hin & Hp).
    apply (IH k Hin); auto. eapply NoDup_kid; eauto.
Qed.

Lemma grafted_exists (h : gmap ref DTreeNode) (t : shape) (p new : ref) :
  has_shape h t -> on_last_path h (sroot t) p ->
  exists t', grafted p new t t'.
Proof.
  intros Hs Hp. remember (sroot t) as r eqn:Hr. revert t Hs Hr.
  induction Hp as [r|r c p n Hn Hlast Hp IH]; intros [r' kids] Hs Hr;
    simpl in Hr; subst r'.
  - eexists. constructor.
  - apply has_shape_inv in Hs as (n' & Hn' & Hk & Hkids).
    rewrite Hn in Hn'. injection Hn' as <-.
    rewrite Hk, last_map in Hlast.
    destruct (last kids) as [k|] eqn:Hkl; [|discriminate].
    injection Hlast as Hc. apply last_Some in Hkl as [kids' ->].
    apply Forall_app in Hkids as [_ Hkk]. apply Forall_inv in Hkk.
    destruct (IH k Hkk (eq_sym Hc)) as [k' Hg].
    eexists. apply grafted_down. exact Hg.
Qed.

Lemma grafted_sroot (p new : ref) (t t' : shape) :
  grafted p new t t' -> sroot t' = sroot t.
Proof. now destruct 1. Qed.

Lemma flat_map_snoc {A B : Type} (f : A -> list B) (l : list A) (x : A) :
  flat_map f (l ++ [x]) = flat_map f l ++ f x.
Proof. rewrite flat_map_app. simpl. now rewrite app_nil_r. Qed.

Lemma grafted_pre (p new : ref) (t t' : shape) :
  grafted p new t t' -> pre t' = pre t ++ [new].
Proof.
  induction 1 as [kids|r kids k k' Hg IH]; simpl.
  - now rewrite flat_map_snoc.
  - rewrite !flat_map_snoc, IH. now rewrite app_assoc.
Qed.

Lemma grafted_in (p new : ref) (t t' : shape) :
  grafted p new t t' -> p ∈ pre t.
Proof.
  induction 1 as [kids|r kids k k' Hg IH]; simpl; [left|right].
  rewrite flat_map_snoc, elem_of_app. now right.
Qed.

Lemma grafted_has_shape (h h' : gmap ref DTreeNode) (p new : ref)
  (t t' : shape) :
  grafted p new t t' -> has_shape h t -> NoDup (pre t) -> new ∉ pre t ->
  children <$> h' !! new = Some [] ->
  (forall pn, h !! p = Some pn ->
              children <$> h' !! p = Some (children pn ++ [new])) ->
  (forall x, x <> new -> x <> p ->
             children <$> h' !! x = children <$> h !! x) ->
  has_shape h' t'.
Proof.
  intros Hg Hs Hnd Hnew Hleaf Hp Hrest.
  assert (Hl : has_shape h' (Sh new [])).
  { destruct (h' !! new) as [nn|] eqn:E; [|discriminate].
    injection Hleaf as Hleaf. now apply has_shape_node with nn. }
  induction Hg as [kids|r kids k k' Hg IH].
  - apply has_shape_inv in Hs as (n & Hn & Hk & Hkids). simpl in *.
    apply NoDup_cons in Hnd as [Hpk Hnd].
    specialize (Hp n Hn).
    destruct (h' !! p) as [n'|] eqn:E; [|discriminate]. injection Hp as Hp.
    apply has_shape_node with n'; [assumption| |].
    + rewrite Hp, Hk, map_app. reflexivity.
    + apply Forall_app. split; [|now apply Forall_singleton].
      rewrite Forall_forall in *. intros k Hin.
      apply has_shape_ext with h; [|auto]. intros x Hx.
      assert (x ∈ flat_map pre kids) by (apply elem_of_flat_map; eauto).
      apply Hrest; intros ->; [apply Hnew; now right|tauto].
  - apply has_shape_inv in Hs as (n & Hn & Hk & Hkids). simpl in *.
    apply NoDup_cons in Hnd as [Hrk Hnd].
    rewrite flat_map_snoc in *. apply NoDup_app in Hnd as (Hnd1 & Hd & Hnd2).
    apply Forall_app in Hkids as [Hkids Hkk]. apply Forall_inv in Hkk.
    pose proof (grafted_in _ _ _ _ Hg) as Hpin.
    assert (Hrp : r <> p).
    { intros ->. apply Hrk, elem_of_app. now right. }
    assert (Hrn : r <> new) by (intros ->; apply Hnew; now left).
    pose proof (Hrest r Hrn Hrp) as Hr'. rewrite Hn in Hr'.
    destruct (h' !! r) as [n'|] eqn:E; [|discriminate].
    injection Hr' as Hr'.
    apply has_shape_node with n'; [assumption| |].
    + rewrite Hr', Hk, !map_app. simpl.
      now rewrite (grafted_sroot _ _ _ _ Hg).
    + apply Forall_app. split.
      * rewrite Forall_forall in *. intros k0 Hin.
        apply has_shape_ext with h; [|auto]. intros x Hx.
        assert (x ∈ flat_map pre kids) by (apply elem_of_flat_map; eauto).
        apply Hrest.
        -- intros ->. apply Hnew. right. apply elem_of_app. now left.
        -- intros ->. now apply (Hd p).
      * apply Forall_singleton. apply IH; auto.
        intros Hin. apply Hnew. right. apply elem_of_app. now right.
Qed.

(** ** The invariant of the trees built depth first *)

Lemma set_q2_q2 (n : DTreeNode) : set_q2 (q2 n) n = n.
Proof. now destruct n. Qed.

Lemma same_but_q2_alter (h : gmap ref DTreeNode) (r : ref) (v : Z) :
  same_but_q2 h (alter (set_q2 v) r h).
Proof.
  intros x. unfold q2_of. destruct (decide (r = x)) as [->|Hne].
  - rewrite lookup_alter_eq. now destruct (h !! x).
  - rewrite lookup_alter_ne by assumption.
    destruct (h !! x) as [n|]; simpl; [now rewrite set_q2_q2|reflexivity].
Qed.

Lemma traverse_same_but_q2 (fuel : nat) (node : ref)
  (h h' : gmap ref DTreeNode) (c c' : Z) :
  traverse fuel node (h, c) = Ok (h', c') -> same_but_q2 h h'.
Proof.
  revert node h h' c c'. induction fuel as [|fuel IH];
    intros node h h' c c'; [discriminate|].
  rewrite traverse_S. unfold deref. simpl fst.
  destruct (h !! node) as [n|]; [simpl|discriminate].
  assert (Hkids : forall cs h0 c0 h1 c1,
    traverse_children fuel cs (h0, c0) = Ok (h1, c1) -> same_but_q2 h0 h1).
  { induction cs as [|k cs IHcs]; intros h0 c0 h1 c1; simpl.
    - intros [= <- <-]. apply same_but_q2_refl.
    - destruct (traverse fuel k (h0, c0)) as [[h2 c2]| |] eqn:E;
        simpl; try discriminate.
      intros H. apply same_but_q2_trans with h2; eauto. }
  destruct (traverse_children fuel (children n) (h, c)) as [[h1 c1]| |] eqn:E;
    simpl; try discriminate.
  intros [= <- <-]. apply same_but_q2_trans with h1; [eauto|].
  apply same_but_q2_alter.
Qed.

Lemma q1_of_view (h h' : gmap ref DTreeNode) (x : ref) :
  view <$> h' !! x = view <$> h !! x -> q1_of h' x = q1_of h x.
Proof.
  unfold q1_of. destruct (h' !! x), (h !! x); simpl; try discriminate;
    [|reflexivity]. now intros [= -> _].
Qed.

Lemma children_view (h h' : gmap ref DTreeNode) (x : ref) :
  view <$> h' !! x = view <$> h !! x ->
  children <$> h' !! x = children <$> h !! x.
Proof.
  destruct (h' !! x), (h !! x); simpl; try discriminate; [|reflexivity].
  now intros [= _ ->].
Qed.

Lemma dfs_inv_view (T T' : DTree) (t : shape) :
  dfs_inv T t ->
  (forall x, view <$> heap T' !! x = view <$> heap T !! x) ->
  root T' = root T -> nextId T' = nextId T -> q1Counter T' = q1Counter T ->
  dfs_inv T' t.
Proof.
  intros (Hroot & Hs & Hso & Hle & Hfresh) Hv Hr Hn Hq.
  split; [congruence|]. split; [|split; [|split]].
  - apply has_shape_ext with (heap T); [|assumption].
    intros x _. apply children_view, Hv.
  - apply StronglySorted_weaken with (2 := Hso). intros x y _ _.
    now rewrite !(q1_of_view _ _ _ (Hv _)).
  - intros x Hx. rewrite (q1_of_view _ _ _ (Hv x)), Hq. auto.
  - intros x Hx. rewrite Hn in Hx. specialize (Hfresh x Hx).
    specialize (Hv x). rewrite Hfresh in Hv. now destruct (heap T' !! x).
Qed.

Lemma dfs_built_inv (T : DTree) : dfs_built T -> exists t, dfs_inv T t.
Proof.
  induction 1 as [rootData|T d0 Hb IHd|T T' p r d Hb [t Hinv] Hpath Happ
                 |T T' node content Hb [t Hinv] Hix
                 |T T' fuel Hb [t Hinv] Hre];
    [ |exact IHd| | | ].
  - exists (Sh 1%nat []). split; [reflexivity|]. split; [|split; [|split]].
    + eapply has_shape_node; [apply lookup_singleton_eq|reflexivity|constructor].
    + repeat constructor.
    + intros x Hx. apply list_elem_of_singleton in Hx as ->.
      unfold q1_of. simpl. rewrite lookup_singleton_eq. simpl. lia.
    + intros x Hx. simpl in *. apply lookup_singleton_ne. lia.
  - destruct Hinv as (Hroot & Hs & Hso & Hle & Hfresh).
    rewrite <- Hroot in Hpath.
    destruct (grafted_exists _ _ _ r Hs Hpath) as [t' Hg].
    pose proof (StronglySorted_lt_NoDup _ _ Hso) as Hnd.
    pose proof (grafted_in _ _ _ _ Hg) as Hpin.
    destruct (has_shape_lookup _ _ _ Hs Hpin) as [pn Hpn].
    pose proof (has_shape_children_NoDup _ _ _ _ Hs Hnd Hpin Hpn) as Hndc.
    destruct (appendChild_spec _ _ _ _ _ _ Happ Hpn Hndc (Hfresh _ (le_n _)))
      as (-> & Hnext & Hq & Hr & _ & Hvr & Hvp & Hvx).
    assert (Hnew : nextId T ∉ pre t).
    { intros Hin. apply (has_shape_lookup _ _ _ Hs) in Hin as [? Hin].
      rewrite (Hfresh _ (le_n _)) in Hin. discriminate. }
    assert (Hq1 : forall x, x ∈ pre t ->
                            q1_of (heap T') x = q1_of (heap T) x).
    { intros x Hx. destruct (decide (x = p)) as [->|Hxp].
      - unfold q1_of. rewrite Hpn.
        destruct (heap T' !! p); [|discriminate].
        injection Hvp as E1 E2. simpl. exact E1.
      - apply q1_of_view, Hvx; [|assumption]. intros ->. tauto. }
    exists t'. split; [rewrite (grafted_sroot _ _ _ _ Hg); congruence|].
    split; [|split; [|split]].
    + eapply grafted_has_shape; eauto.
      * destruct (heap T' !! nextId T); [|discriminate].
        injection Hvr as E1 E2. simpl. now rewrite E2.
      * intros pn' Hpn'. rewrite Hpn in Hpn'. injection Hpn' as <-.
        destruct (heap T' !! p); [|discriminate].
        injection Hvp as E1 E2. simpl. now rewrite E2.
      * intros x Hx1 Hx2. apply children_view. auto.
    + rewrite (grafted_pre _ _ _ _ Hg). apply StronglySorted_app_2.
      * intros x y Hx Hy. apply list_elem_of_singleton in Hy as ->.
        rewrite Hq1 by assumption. specialize (Hle x Hx).
        unfold q1_of at 2. destruct (heap T' !! nextId T); [|discriminate].
        injection Hvr as E1 E2. simpl. unfold INITIAL_SPACING in *. lia.
      * apply StronglySorted_weaken with (2 := Hso). intros x y Hx Hy.
        now rewrite !Hq1.
      * repeat constructor.
    + intros x. rewrite (grafted_pre _ _ _ _ Hg), elem_of_app.
      rewrite Hq. unfold INITIAL_SPACING. intros [Hx|Hx].
      * rewrite Hq1 by assumption. specialize (Hle x Hx). lia.
      * apply list_elem_of_singleton in Hx as ->. unfold q1_of.
        destruct (heap T' !! nextId T); [|discriminate].
        injection Hvr as E1 E2. simpl. unfold INITIAL_SPACING in *. lia.
    + intros x Hx. rewrite Hnext in Hx.
      assert (Hxp : x <> p).
      { intros ->. rewrite (Hfresh p) in Hpn; [discriminate|lia]. }
      specialize (Hvx x ltac:(lia) Hxp). rewrite (Hfresh x) in Hvx by lia.
      now destruct (heap T' !! x).
  - exists t. unfold indexContent, deref in Hix.
    destruct (heap T !! node) as [n|] eqn:Hn; [|discriminate].
    simpl in Hix. injection Hix as <-.
    apply dfs_inv_view with T; try reflexivity; assumption.
  - exists t. unfold recalculateQ2 in Hre.
    destruct (traverse fuel (root T) (heap T, 0)) as [[h' c']| |] eqn:E;
      try discriminate.
    simpl in Hre. injection Hre as <-.
    apply traverse_same_but_q2 in E.
    apply dfs_inv_view with T; try reflexivity; [assumption|].
    intros x. simpl. rewrite (E x). now destruct (heap T !! x).
Qed.

(** ** Containment by coordinates *)

Lemma coords_ancestor_kids (h : gmap ref DTreeNode) (f1 f2 : ref -> Z)
  (kids : list shape) (a b : ref) :
  Forall (fun k => has_shape h k ->
            StronglySorted (fun x y => f1 x < f1 y) (pre k) ->
            StronglySorted (fun x y => f2 x < f2 y) (post k) ->
            a ∈ pre k -> b ∈ pre k -> f1 a < f1 b -> f2 b < f2 a ->
            ancestor h a b) kids ->
  Forall (has_shape h) kids ->
  StronglySorted (fun x y => f1 x < f1 y) (flat_map pre kids) ->
  StronglySorted (fun x y => f2 x < f2 y) (flat_map post kids) ->
  a ∈ flat_map pre kids -> b ∈ flat_map pre kids ->
  f1 a < f1 b -> f2 b < f2 a -> ancestor h a b.
Proof.
  induction 1 as [|k kids Hk _ IH]; intros Hs H1 H2 Ha Hb Hlt1 Hlt2;
    [inversion Ha|].
  simpl in *. apply Forall_cons in Hs as [Hsk Hs].
  apply StronglySorted_app in H1 as (Hx1 & H1k & H1r).
  apply StronglySorted_app in H2 as (Hx2 & H2k & H2r).
  apply elem_of_app in Ha as [Ha|Ha], Hb as [Hb|Hb].
  - now apply Hk.
  - assert (f2 a < f2 b); [|lia].
    apply Hx2; [now apply elem_of_post|now apply elem_of_flat_map_post].
  - assert (f1 b < f1 a); [|lia]. now apply Hx1.
  - now apply IH.
Qed.

Lemma coords_ancestor (h : gmap ref DTreeNode) (f1 f2 : ref -> Z) (t : shape)
  (a b : ref) :
  has_shape h t ->
  StronglySorted (fun x y => f1 x < f1 y) (pre t) ->
  StronglySorted (fun x y => f2 x < f2 y) (post t) ->
  a ∈ pre t -> b ∈ pre t -> f1 a < f1 b -> f2 b < f2 a -> ancestor h a b.
Proof.
  revert a b. induction t as [r kids IH] using shape_ind'.
  intros a b Hs H1 H2 Ha Hb Hlt1 Hlt2.
  pose proof Hs as Hs'.
  apply has_shape_inv in Hs as (n & Hn & Hk & Hkids). simpl in *.
  apply StronglySorted_cons in H1 as [Hr1 H1]. rewrite Forall_forall in Hr1.
  apply StronglySorted_app_1_l in H2.
  apply elem_of_cons in Ha as [->|Ha], Hb as [->|Hb].
  - lia.
  - apply elem_of_flat_map in Hb as (k & Hin & Hb).
    apply tc_rtc_r with (sroot k).
    + apply tc_once. exists n. split; [assumption|]. rewrite Hk.
      apply list_elem_of_fmap. eauto.
    + rewrite Forall_forall in Hkids. apply has_shape_reach; auto.
  - specialize (Hr1 a Ha). lia.
  - apply (coords_ancestor_kids h f1 f2 kids a b); auto.
    eapply Forall_impl; [exact IH|]. simpl. intros k Hkk. apply Hkk.
Qed.

Lemma contains_true (a b : DTreeNode) :
  contains a b = true <-> q1 a < q1 b /\ q2 b < q2 a.
Proof.
  unfold contains. rewrite andb_true_iff, !Z.ltb_lt. reflexivity.
Qed.

Lemma shape_contains (h : gmap ref DTreeNode) (t : shape) (a b : ref)
  (na nb : DTreeNode) :
  has_shape h t ->
  StronglySorted (fun x y => q1_of h x < q1_of h y) (pre t) ->
  StronglySorted (fun x y => q2_of h x < q2_of h y) (post t) ->
  a ∈ pre t -> b ∈ pre t -> h !! a = Some na -> h !! b = Some nb ->
  (ancestor h a b <-> contains na nb = true).
Proof.
  intros Hs Hso1 Hso2 Ha Hb Hna Hnb.
  assert (E1 : forall x n, h !! x = Some n -> q1_of h x = q1 n)
    by (intros x n E; unfold q1_of; now rewrite E).
  assert (E2 : forall x n, h !! x = Some n -> q2_of h x = q2 n)
    by (intros x n E; unfold q2_of; now rewrite E).
  rewrite contains_true, <- (E1 a na), <- (E1 b nb), <- (E2 a na),
    <- (E2 b nb) by assumption.
  split.
  - intros Hab. split.
    + eapply (pre_sorted_ancestor h); eauto.
    + eapply (post_sorted_ancestor h); eauto.
  - intros [H1 H2]. eapply (coords_ancestor h); eauto.
Qed.

Lemma same_but_q2_child_of (h h' : gmap ref DTreeNode) (p c : ref) :
  same_but_q2 h h' -> (child_of h' p c <-> child_of h p c).
Proof.
  intros Hsame. pose proof (same_but_q2_children h h' p Hsame) as E.
  unfold child_of. split; intros (n & Hn & Hc); rewrite Hn in E.
  - destruct (h !! p) as [m|]; [|discriminate]. injection E as E.
    exists m. split; [reflexivity|]. now rewrite <- E.
  - destruct (h' !! p) as [m|]; [|discriminate]. injection E as E.
    exists m. split; [reflexivity|]. now rewrite E.
Qed.

Lemma same_but_q2_ancestor (h h' : gmap ref DTreeNode) (a b : ref) :
  same_but_q2 h h' -> (ancestor h' a b <-> ancestor h a b).
Proof.
  intros Hsame. unfold ancestor. split;
    (induction 1 as [x y Hxy|x y z Hxy _ IH];
     [apply tc_once|eapply tc_l; [|exact IH]];
     now apply (same_but_q2_child_of h h')).
Qed.

Lemma same_but_q2_rtc (h h' : gmap ref DTreeNode) (a b : ref) :
  same_but_q2 h h' -> (rtc (child_of h') a b <-> rtc (child_of h) a b).
Proof.
  intros Hsame. split; apply rtc_subrel; intros x y;
    apply (same_but_q2_child_of h h'); assumption.
Qed.

(** C1: in a tree built in complete-subtree order, right after a
    [recalculateQ2] pass (which returns, given enough fuel, and changes
    nothing but the [q2] of the nodes: the nodes, their [q1] and their
    children, the root, the cross-reference and [nodeMap] are those of the
    tree before, and so are the tree's nodes and its ancestries), for any two
    nodes [a] and [b] of the tree: [a] is an ancestor of [b] exactly when
    [a.contains(b)], that is when [a.q1 < b.q1] and [a.q2 > b.q2]. *)
Theorem contains_iff_ancestor (T : DTree) :
  dfs_built T ->
  exists fuel0, forall fuel, (fuel0 <= fuel)%nat ->
    exists T', recalculateQ2 fuel T = Ok T' /\
      same_but_q2 (heap T) (heap T') /\
      (root T' = root T /\ xref T' = xref T /\ nodeMap T' = nodeMap T) /\
      (forall x, in_tree T' x <-> in_tree T x) /\
      (forall a b, ancestor (heap T') a b <-> ancestor (heap T) a b) /\
      forall a b na nb,
        in_tree T' a -> in_tree T' b ->
        heap T' !! a = Some na -> heap T' !! b = Some nb ->
        (ancestor (heap T') a b <-> contains na nb = true).
Proof.
  intros Hb. destruct (dfs_built_inv T Hb) as (t & Hroot & Hs & Hso & _ & _).
  pose proof (StronglySorted_lt_NoDup _ _ Hso) as Hnd.
  exists (length (pre t)). intros fuel Hfuel.
  destruct (recalculateQ2_spec T t fuel Hroot Hs Hnd Hfuel)
    as (h' & -> & Hsame & Hs' & Hso2).
  exists (with_heap h' T). split; [reflexivity|].
  split; [exact Hsame|]. split; [now repeat split|].
  split; [intros x; apply (same_but_q2_rtc (heap T) h'), Hsame|].
  split; [intros a b; apply (same_but_q2_ancestor (heap T) h'), Hsame|].
  unfold in_tree. simpl.
  assert (Hso1 : StronglySorted (fun x y => q1_of h' x < q1_of h' y) (pre t)).
  { apply StronglySorted_weaken with (2 := Hso). intros x y _ _.
    now rewrite !(same_but_q2_q1 _ _ _ Hsame). }
  assert (Hin : forall x, rtc (child_of h') (root T) x -> x ∈ pre t).
  { intros x Hx. eapply has_shape_rtc; eauto.
    rewrite <- Hroot. apply sroot_in_pre. }
  intros a b na nb Ha Hb' Hna Hnb. apply Hin in Ha, Hb'.
  now apply (shape_contains h' t).
Qed.

(** ** [removeNode] *)

Lemma getSubtree_S (fuel : nat) (h : gmap ref DTreeNode) (node : ref) :
  getSubtree (S fuel) h node =
  (n ← deref h node;
   rest ← getSubtree_children fuel h (children n);
   Ok (node :: rest)).
Proof. reflexivity. Qed.

Lemma getSubtree_spec (h : gmap ref DTreeNode) (t : shape) (fuel : nat) :
  has_shape h t -> (length (pre t) <= fuel)%nat ->
  getSubtree fuel h (sroot t) = Ok (pre t).
Proof.
  revert fuel. induction t as [r kids IH] using shape_ind'.
  intros fuel Hs Hfuel.
  apply has_shape_inv in Hs as (n & Hn & Hk & Hkids). simpl in *.
  destruct fuel as [|fuel]; [lia|].
  rewrite getSubtree_S. unfold deref. rewrite Hn. simpl. rewrite Hk.
  assert (getSubtree_children fuel h (map sroot kids)
          = Ok (flat_map pre kids)) as ->; [|reflexivity].
  assert (Hf : (length (flat_map pre kids) <= fuel)%nat) by lia.
  clear Hfuel Hk Hn. induction IH as [|k kids Hk _ IHk]; [reflexivity|].
  simpl in *. apply Forall_cons in Hkids as [Hsk Hkids].
  rewrite length_app in Hf.
  rewrite Hk, IHk by (assumption || lia). reflexivity.
Qed.

Lemma removeNode_unfold (fuel : nat) (t : DTree) (node : ref) :
  removeNode fuel t node =
  (n ← deref (heap t) node;
   if isRoot n then Throw RootRemovalForbidden
   else
     subtree ← getSubtree fuel (heap t) node;
     '(xr, nm) ← purge_loop (heap t) subtree (xref t, nodeMap t);
     p ← match parent n with Some p => Ok p | None => Throw TypeError end;
     pn ← deref (heap t) p;
     let index := indexOf (children pn) node in
     let h1 := alter (set_children (splice (children pn) index 1 [])) p
                     (heap t) in
     n1 ← deref h1 node;
     let h2 := match prevSibling n1 with
               | Some pv => alter (set_nextSibling (nextSibling n1)) pv h1
               | None => h1
               end in
     n2 ← deref h2 node;
     let h3 := match nextSibling n2 with
               | Some nx => alter (set_prevSibling (prevSibling n2)) nx h2
               | None => h2
               end in
     Ok (mkTree h3 (root t) xr nm (nextId t) (q1Counter t) (q2Counter t)
                (objects t))).
Proof. reflexivity. Qed.

(** The cross-reference after the purge of a list of nodes. *)
Lemma get_removeNode (xr : gmap string (list ref)) (x : ref) (token : string) :
  TokenXref.get (TokenXref.removeNode xr x) token
  = set_delete (TokenXref.get xr token) x.
Proof.
  unfold TokenXref.get, TokenXref.removeNode. rewrite lookup_fmap.
  now destruct (xr !! _).
Qed.

Lemma elem_of_set_delete (s : list ref) (x y : ref) :
  y ∈ set_delete s x <-> y ∈ s /\ y <> x.
Proof. unfold set_delete. rewrite list_elem_of_filter. tauto. Qed.

Lemma get_purged (ns : list ref) (xr : gmap string (list ref))
  (token : string) (y : ref) :
  y ∈ TokenXref.get (fold_left TokenXref.removeNode ns xr) token
  <-> y ∈ TokenXref.get xr token /\ y ∉ ns.
Proof.
  revert xr. induction ns as [|x ns IH]; intros xr; simpl.
  - split; [intros H; split; [assumption|inversion 1]|tauto].
  - rewrite IH, get_removeNode, elem_of_set_delete, not_elem_of_cons. tauto.
Qed.

Lemma purge_loop_spec (h : gmap ref DTreeNode) (ns : list ref)
  (xr : gmap string (list ref)) (nm : gmap nat ref) :
  (forall x, x ∈ ns -> is_Some (h !! x)) ->
  exists nm', purge_loop h ns (xr, nm)
              = Ok (fold_left TokenXref.removeNode ns xr, nm') /\
    (forall x n, x ∈ ns -> h !! x = Some n -> nm' !! id n = None) /\
    (forall k, nm' !! k = None \/ nm' !! k = nm !! k).
Proof.
  revert xr nm. induction ns as [|x ns IH]; intros xr nm Hin; simpl.
  - eexists. split; [reflexivity|]. split; [|now right].
    intros x n Hx. inversion Hx.
  - destruct (Hin x) as [n Hn]; [now left|].
    unfold deref. rewrite Hn. simpl.
    destruct (IH (TokenXref.removeNode xr x) (delete (id n) nm))
      as (nm' & -> & Hnm & Hmono); [intros y Hy; apply Hin; now right|].
    exists nm'. split; [reflexivity|]. split.
    + intros y ny Hy Hny. apply elem_of_cons in Hy as [->|Hy]; [|eauto].
      rewrite Hn in Hny. injection Hny as <-.
      destruct (Hmono (id n)) as [E|E]; [assumption|].
      now rewrite E, lookup_delete_eq.
    + intros k. destruct (Hmono k) as [E|E]; [now left|].
      rewrite E. destruct (decide (id n = k)) as [<-|Hne].
      * left. apply lookup_delete_eq.
      * right. now apply lookup_delete_ne.
Qed.

(** Sibling links after a node is taken out of its array. *)
Lemma linked_ext (h h' : gmap ref DTreeNode) (prev : option ref)
  (cs : list ref) :
  (forall x, x ∈ cs -> sview <$> h' !! x = sview <$> h !! x) ->
  linked h prev cs -> linked h' prev cs.
Proof.
  revert prev. induction cs as [|c cs IH]; intros prev Hv; [done|].
  simpl. intros [(n & Hn & Hp & Hnx) Hl]. split.
  - specialize (Hv c ltac:(left)). rewrite Hn in Hv.
    destruct (h' !! c) as [n'|]; [|discriminate].
    injection Hv as E1 E2. exists n'. repeat split; congruence.
  - apply IH; [|assumption]. intros x Hx. apply Hv. now right.
Qed.

Lemma linked_lookup (h : gmap ref DTreeNode) (prev : option ref)
  (cs : list ref) (x : ref) :
  linked h prev cs -> x ∈ cs -> is_Some (h !! x).
Proof.
  revert prev. induction cs as [|c cs IH]; intros prev Hl Hx;
    [inversion Hx|].
  destruct Hl as [(n & Hn & _) Hl].
  apply elem_of_cons in Hx as [->|Hx]; eauto.
Qed.

Lemma linked_at (h : gmap ref DTreeNode) (prev : option ref)
  (l1 l2 : list ref) (node : ref) (n : DTreeNode) :
  linked h prev (l1 ++ node :: l2) -> h !! node = Some n ->
  prevSibling n = match last l1 with Some x => Some x | None => prev end /\
  nextSibling n = head l2.
Proof.
  revert prev. induction l1 as [|c l1 IH]; intros prev Hl Hn; simpl in *.
  - destruct Hl as [(n' & Hn' & Hp & Hnx) _].
    rewrite Hn in Hn'. injection Hn' as <-. auto.
  - destruct Hl as [_ Hl]. destruct (IH (Some c) Hl Hn) as [E1 E2].
    split; [|assumption]. rewrite E1.
    destruct l1 as [|d l1]; [reflexivity|].
    rewrite last_cons_cons.
    destruct (last (d :: l1)) eqn:E; [reflexivity|].
    apply last_None in E. discriminate.
Qed.

Lemma linked_unlink (h h' : gmap ref DTreeNode) (prev : option ref)
  (l1 l2 : list ref) (node : ref) (n : DTreeNode) :
  NoDup (l1 ++ node :: l2) ->
  linked h prev (l1 ++ node :: l2) ->
  h !! node = Some n ->
  (forall x nx, x ∈ l1 ++ l2 -> h !! x = Some nx ->
     sview <$> h' !! x
     = Some (if decide (nextSibling n = Some x) then prevSibling n
             else prevSibling nx,
             if decide (prevSibling n = Some x) then nextSibling n
             else nextSibling nx)) ->
  (forall p, prev = Some p -> p ∉ l1 ++ node :: l2) ->
  linked h' prev (l1 ++ l2).
Proof.
  revert prev. induction l1 as [|c l1 IH]; intros prev Hnd Hl Hn Hv Hprev.
  - simpl in *. destruct Hl as [(n' & Hn' & Hp & Hnx) Hl].
    rewrite Hn in Hn'. injection Hn' as <-.
    apply NoDup_cons in Hnd as [Hnode Hnd].
    destruct l2 as [|c l2]; [done|]. simpl in *.
    destruct Hl as [(nc & Hnc & Hpc & Hnxc) Hl].
    apply NoDup_cons in Hnd as [Hc Hnd].
    split.
    + specialize (Hv c nc ltac:(left) Hnc).
      destruct (h' !! c) as [nc'|]; [|discriminate].
      injection Hv as E1 E2. exists nc'. split; [reflexivity|].
      rewrite E1, E2, Hnx, Hp. rewrite decide_True by reflexivity.
      split; [reflexivity|].
      destruct (decide (prev = Some c)) as [E|_]; [|assumption].
      exfalso. apply (Hprev c E). right. now left.
    + apply linked_ext with h; [|assumption].
      intros x Hx.
      destruct (linked_lookup _ _ _ x Hl Hx) as [nx Hnx'].
      rewrite (Hv x nx) by (try right; assumption). rewrite Hnx'.
      simpl. unfold sview.
      rewrite Hnx, decide_False by (intros [= ->]; tauto).
      rewrite decide_False; [reflexivity|].
      rewrite Hp. intros E. apply (Hprev x E). right. now right.
  - simpl in *. destruct Hl as [(nc & Hnc & Hpc & Hnxc) Hl].
    apply NoDup_cons in Hnd as [Hc Hnd].
    assert (Hcn : c <> node).
    { intros ->. apply Hc, elem_of_app. right. now left. }
    split.
    + specialize (Hv c nc ltac:(left) Hnc).
      destruct (h' !! c) as [nc'|]; [|discriminate].
      injection Hv as E1 E2. exists nc'. split; [reflexivity|].
      destruct (linked_at _ _ _ _ _ _ Hl Hn) as [Ep En].
      rewrite E1, E2, Ep, En. split.
      * rewrite decide_False; [assumption|].
        intros E. apply Hc, elem_of_app. right. right.
        destruct l2 as [|z l2]; simpl in E; [discriminate|].
        injection E as ->. now left.
      * rewrite Hnxc. destruct l1 as [|d l1]; simpl.
        -- now rewrite decide_True.
        -- rewrite decide_False; [reflexivity|].
           destruct (last (d :: l1)) as [z|] eqn:Ez;
             [|apply last_None in Ez; discriminate].
           intros [= ->]. apply Hc, elem_of_app. left.
           now apply last_Some_elem_of.
    + apply IH; auto.
      * intros x nx Hx. apply Hv. now right.
      * intros p [= <-]. exact Hc.
Qed.

Lemma indexOf_app (l1 l2 : list ref) (x : ref) :
  x ∉ l1 -> indexOf (l1 ++ x :: l2) x = Z.of_nat (length l1).
Proof.
  induction l1 as [|y l1 IH]; intros Hx; simpl indexOf.
  - now rewrite decide_True.
  - apply not_elem_of_cons in Hx as [Hxy Hx].
    rewrite decide_False by auto. rewrite IH by assumption.
    destruct (Z.ltb_spec (Z.of_nat (length l1)) 0); [lia|].
    simpl length. lia.
Qed.

Lemma splice_delete {A : Type} (l1 l2 : list A) (x : A) :
  splice (l1 ++ x :: l2) (Z.of_nat (length l1)) 1 [] = l1 ++ l2.
Proof.
  unfold splice. destruct (Z.ltb_spec (Z.of_nat (length l1)) 0); [lia|].
  rewrite length_app. simpl length.
  rewrite Z.min_l, Nat2Z.id by lia. simpl.
  rewrite take_app_length. f_equal. clear.
  induction l1 as [|y l1 IH]; simpl; [reflexivity|exact IH].
Qed.

Lemma sview_alter_prev (h : gmap ref DTreeNode) (v : option ref) (k x : ref) :
  sview <$> alter (set_prevSibling v) k h !! x
  = (fun ab => (if decide (k = x) then v else fst ab, snd ab))
      <$> (sview <$> h !! x).
Proof.
  destruct (decide (k = x)) as [->|Hne].
  - rewrite lookup_alter_eq. now destruct (h !! x).
  - rewrite lookup_alter_ne by assumption. now destruct (h !! x) as [[]|].
Qed.

Lemma sview_alter_next (h : gmap ref DTreeNode) (v : option ref) (k x : ref) :
  sview <$> alter (set_nextSibling v) k h !! x
  = (fun ab => (fst ab, if decide (k = x) then v else snd ab))
      <$> (sview <$> h !! x).
Proof.
  destruct (decide (k = x)) as [->|Hne].
  - rewrite lookup_alter_eq. now destruct (h !! x).
  - rewrite lookup_alter_ne by assumption. now destruct (h !! x) as [[]|].
Qed.

Lemma removeNode_attached (T : DTree) (node : ref) (n : DTreeNode)
  (p : ref) (pn : DTreeNode) (s : shape) :
  heap T !! node = Some n ->
  parent n = Some p -> attached (heap T) p pn node ->
  sroot s = node -> has_shape (heap T) s ->
  exists fuel0, forall fuel, (fuel0 <= fuel)%nat ->
    exists T', removeNode fuel T node = Ok T' /\
      (exists pn' l1 l2,
         heap T' !! p = Some pn' /\ children pn = l1 ++ node :: l2 /\
         children pn' = l1 ++ l2 /\ (node ∉ children pn') /\
         linked (heap T') None (children pn')) /\
      (forall token x, x ∈ pre s -> x ∉ TokenXref.get (xref T') token) /\
      (forall token x, x ∉ pre s ->
         ((x ∈ TokenXref.get (xref T') token)
          <-> (x ∈ TokenXref.get (xref T) token))) /\
      (forall x nx, x ∈ pre s -> heap T !! x = Some nx ->
                    nodeMap T' !! id nx = None).
Proof.
  intros Hn Hp (Hpn & Hin & Hnd & Hl) Hroot Hs.
  exists (length (pre s)). intros fuel Hfuel.
  rewrite removeNode_unfold. unfold deref. rewrite Hn. simpl.
  unfold isRoot. rewrite Hp. rewrite bool_decide_eq_false_2 by discriminate.
  rewrite <- Hroot, (getSubtree_spec _ _ _ Hs Hfuel). simpl.
  destruct (purge_loop_spec (heap T) (pre s) (xref T) (nodeMap T))
    as (nm' & -> & Hnm & _).
  { intros x. now apply has_shape_lookup. }
  simpl. rewrite Hpn. simpl.
  apply list_elem_of_split in Hin as (l1 & l2 & Hc).
  rewrite Hc in Hnd, Hl |- *.
  assert (Hn1 : node ∉ l1).
  { apply NoDup_app in Hnd as (_ & Hd & _). intros Hx.
    apply (Hd node Hx). now left. }
  assert (Hn2 : node ∉ l2).
  { apply NoDup_app in Hnd as (_ & _ & Hd).
    now apply NoDup_cons in Hd as [? _]. }
  rewrite Hroot, indexOf_app, splice_delete by assumption.
  set (h1 := alter (set_children (l1 ++ l2)) p (heap T)).
  assert (Hs1 : forall x, sview <$> h1 !! x = sview <$> heap T !! x).
  { intros x. now apply lookup_alter_view. }
  pose proof (Hs1 node) as Hs1n. rewrite Hn in Hs1n.
  destruct (h1 !! node) as [n1|] eqn:Hn1'; [|discriminate].
  injection Hs1n as Ep1 En1. simpl. rewrite Ep1, En1.
  set (h2 := match prevSibling n with
             | Some pv => alter (set_nextSibling (nextSibling n)) pv h1
             | None => h1
             end).
  destruct (linked_at _ _ _ _ _ _ Hl Hn) as [Ep En].
  assert (Hs2n : sview <$> h2 !! node = Some (sview n)).
  { unfold h2. destruct (prevSibling n) as [pv|] eqn:Epv.
    - rewrite sview_alter_next, Hs1, Hn. simpl.
      rewrite decide_False; [unfold sview; now rewrite Epv|].
      intros ->. destruct (last l1) as [z|] eqn:Ez; [|discriminate].
      injection Ep as ->. apply Hn1. now apply last_Some_elem_of.
    - now rewrite Hs1, Hn. }
  destruct (h2 !! node) as [n2|] eqn:Hn2'; [|discriminate].
  injection Hs2n as Ep2 En2. simpl. rewrite Ep2, En2.
  set (h3 := match nextSibling n with
             | Some nx => alter (set_prevSibling (prevSibling n)) nx h2
             | None => h2
             end).
  eexists. split; [reflexivity|]. simpl.
  assert (Hc3 : children <$> h3 !! p = Some (l1 ++ l2)).
  { unfold h3, h2. destruct (nextSibling n), (prevSibling n);
      rewrite ?lookup_alter_view by reflexivity;
      unfold h1; rewrite lookup_alter_eq, Hpn; reflexivity. }
  destruct (h3 !! p) as [pn'|] eqn:Hpn'; [|discriminate].
  injection Hc3 as Hc3.
  split; [|split; [|split]].
  + exists pn', l1, l2. rewrite Hc3. repeat split; try reflexivity.
    * rewrite elem_of_app. tauto.
    * apply (linked_unlink (heap T) h3 None l1 l2 node n); auto;
        [|discriminate].
      intros x nx Hx Hnx. unfold h3, h2.
      destruct (nextSibling n) as [nx0|], (prevSibling n) as [pv0|];
        rewrite ?sview_alter_prev, ?sview_alter_next, Hs1, Hnx; simpl;
        unfold sview; simpl; repeat case_decide; simplify_eq;
        reflexivity.
  + intros token x Hx. rewrite get_purged. tauto.
  + intros token x Hx. rewrite get_purged. tauto.
  + exact Hnm.
Qed.

(** ** [searchAND] and [searchOR] *)

Lemma map_get_map_set (m : list (string * list ref)) (k k' : string)
  (v : list ref) :
  map_get (map_set m k v) k'
  = if decide (k = k') then Some v else map_get m k'.
Proof.
  induction m as [|[k0 v0] m IH]; simpl.
  - repeat case_decide; simplify_eq; reflexivity.
  - destruct (decide (k0 = k)) as [->|Hne]; simpl.
    + repeat case_decide; simplify_eq; reflexivity.
    + rewrite IH. repeat case_decide; simplify_eq; reflexivity.
Qed.

Lemma searchOR_loop_spec (t : DTree) (tokens : list string)
  (occ : list (string * list ref)) (allNodes : list ref) :
  snd (searchOR_loop t tokens occ allNodes)
  = allNodes ++ flat_map (TokenXref.get (xref t)) tokens /\
  forall token,
    map_get (fst (searchOR_loop t tokens occ allNodes)) token
    = if decide (token ∈ tokens) then Some (TokenXref.get (xref t) token)
      else map_get occ token.
Proof.
  revert occ allNodes. induction tokens as [|tk tokens IH];
    intros occ allNodes; cbn [searchOR_loop flat_map].
  - rewrite app_nil_r. split; [reflexivity|]. intros token.
    rewrite decide_False; [reflexivity|inversion 1].
  - destruct (IH (map_set occ tk (TokenXref.get (xref t) tk))
                 (allNodes ++ TokenXref.get (xref t) tk)) as [E1 E2].
    split; [now rewrite E1, <- app_assoc|].
    intros token. rewrite E2, map_get_map_set.
    repeat case_decide; simplify_eq; try reflexivity.
    + exfalso. match goal with H : _ ∉ _ :: _ |- _ => apply H end.
      now right.
    + exfalso. match goal with H : _ ∉ _ :: _ |- _ => apply H end.
      now left.
    + match goal with H : _ ∈ _ :: _ |- _ =>
        apply elem_of_cons in H as [?|?] end; [congruence|tauto].
Qed.

Lemma searchAND_loop_None (t : DTree) (tokens : list string)
  (occ : list (string * list ref)) (allNodes : list ref) :
  (exists token, token ∈ tokens /\ TokenXref.get (xref t) token = []) ->
  searchAND_loop t tokens occ allNodes = None.
Proof.
  revert occ allNodes. induction tokens as [|tk tokens IH];
    intros occ allNodes (token & Hin & He); [inversion Hin|].
  simpl. destruct (TokenXref.get (xref t) tk) as [|x l] eqn:E;
    [reflexivity|].
  rewrite bool_decide_eq_false_2 by discriminate.
  apply IH. exists token. split; [|assumption].
  apply elem_of_cons in Hin as [->|Hin]; [congruence|assumption].
Qed.

Lemma searchAND_loop_Some (t : DTree) (tokens : list string)
  (occ : list (string * list ref)) (allNodes : list ref) :
  (forall token, token ∈ tokens -> TokenXref.get (xref t) token <> []) ->
  searchAND_loop t tokens occ allNodes
  = Some (searchOR_loop t tokens occ allNodes).
Proof.
  revert occ allNodes. induction tokens as [|tk tokens IH];
    intros occ allNodes Hne; [reflexivity|].
  simpl. rewrite bool_decide_eq_false_2.
  - apply IH. intros token Hin. apply Hne. now right.
  - intros E. apply nil_length_inv in E. revert E. apply Hne. now left.
Qed.

Lemma lift_all_spec (h : gmap ref DTreeNode) (rs : list ref) :
  (forall x, x ∈ rs -> is_Some (h !! x)) ->
  exists cs, lift_all h rs = Ok cs /\
    forall c, c ∈ cs <-> exists x, x ∈ rs /\ lifted h x c.
Proof.
  induction rs as [|r rs IH]; intros Hin; simpl.
  - exists []. split; [reflexivity|]. intros c. split; [inversion 1|].
    intros (x & Hx & _). inversion Hx.
  - destruct (Hin r) as [n Hn]; [now left|].
    destruct IH as (cs & -> & Hcs); [intros x Hx; apply Hin; now right|].
    unfold lift, deref. rewrite Hn. simpl. eexists. split; [reflexivity|].
    intros c. rewrite elem_of_cons, Hcs. split.
    + intros [->|(x & Hx & Hl)].
      * exists r. split; [now left|]. exists n. split; [assumption|].
        destruct (isLeaf n); [now destruct (parent n)|reflexivity].
      * exists x. split; [now right|assumption].
    + intros (x & Hx & Hl). apply elem_of_cons in Hx as [->|Hx].
      * left. destruct Hl as (n' & Hn' & ->). rewrite Hn in Hn'.
        injection Hn' as <-.
        destruct (isLeaf n); [now destruct (parent n)|reflexivity].
      * right. eauto.
Qed.

Lemma set_of_array_spec (l : list ref) :
  NoDup (set_of_array l) /\ forall x, x ∈ set_of_array l <-> x ∈ l.
Proof.
  unfold set_of_array.
  assert (H : forall acc, NoDup acc ->
    NoDup (fold_left set_add l acc) /\
    forall x, x ∈ fold_left set_add l acc <-> x ∈ acc \/ x ∈ l).
  { induction l as [|y l IH]; intros acc Hacc; simpl.
    - split; [assumption|]. intros x. split; [tauto|].
      intros [?|Hx]; [assumption|inversion Hx].
    - destruct (IH (set_add acc y)) as [H1 H2].
      + unfold set_add. case_decide; [assumption|].
        apply NoDup_app. repeat split; [assumption| |apply NoDup_singleton].
        intros x Hx Hy. apply list_elem_of_singleton in Hy as ->. tauto.
      + split; [assumption|]. intros x. rewrite H2, elem_of_cons.
        unfold set_add. case_decide.
        * split; [tauto|]. intros [?|[->|?]]; tauto.
        * rewrite elem_of_app, list_elem_of_singleton. tauto. }
  destruct (H [] (NoDup_nil_2)) as [H1 H2]. split; [assumption|].
  intros x. rewrite H2. split; [intros [Hx|?]; [inversion Hx|assumption]|tauto].
Qed.

(** C9 (amended): [searchOR] returns (when the occurrence nodes are objects
    of the heap, as they always are) the set, without repetition, of the
    contexts of the occurrence nodes of the given tokens, where the context
    of a leaf that has a parent is its parent, and the context of a leaf
    without parent (the root of a tree that has no other node) and of every
    node that is not a leaf is the node itself; with it the occurrence set of
    each token. *)
Theorem searchOR_spec (t : DTree) (tokens : list string) :
  (forall token x, token ∈ tokens -> x ∈ TokenXref.get (xref t) token ->
                   is_Some (heap t !! x)) ->
  exists res, searchOR t tokens = Ok res /\
    NoDup (contexts res) /\
    (forall c, c ∈ contexts res <->
       exists token x, token ∈ tokens /\ x ∈ TokenXref.get (xref t) token /\
                       lifted (heap t) x c) /\
    (forall token, token ∈ tokens ->
       map_get (or_occurrences res) token
       = Some (TokenXref.get (xref t) token)) /\
    (forall token, token ∉ tokens ->
       map_get (or_occurrences res) token = None).
Proof.
  intros Hin. unfold searchOR.
  destruct (searchOR_loop_spec t tokens [] []) as [E1 E2].
  destruct (searchOR_loop t tokens [] []) as [occ allNodes]. simpl in *.
  destruct (lift_all_spec (heap t) allNodes) as (cs & -> & Hcs).
  { intros x. rewrite E1. intros Hx.
    apply elem_of_flat_map in Hx as (token & H1 & H2). eauto. }
  simpl. eexists. split; [reflexivity|]. simpl.
  destruct (set_of_array_spec cs) as [Hnd Hel].
  split; [assumption|]. split; [|split].
  - intros c. rewrite Hel, Hcs. split.
    + intros (x & Hx & Hl). rewrite E1 in Hx.
      apply elem_of_flat_map in Hx as (token & H1 & H2). eauto.
    + intros (token & x & H1 & H2 & Hl). exists x. split; [|assumption].
      rewrite E1. apply elem_of_flat_map. eauto.
  - intros token Ht. now rewrite E2, decide_True.
  - intros token Ht. now rewrite E2, decide_False.
Qed.

(** ** Parent links, ids and sibling links of the trees built depth first *)

Lemma linked_snoc (h h' : gmap ref DTreeNode) (prev : option ref)
  (cs : list ref) (a r : ref) (na : DTreeNode) :
  linked h prev (cs ++ [a]) -> NoDup (cs ++ [a]) -> r ∉ cs ++ [a] ->
  h !! a = Some na ->
  sview <$> h' !! r = Some (Some a, None) ->
  sview <$> h' !! a = Some (prevSibling na, Some r) ->
  (forall x, x ∈ cs -> sview <$> h' !! x = sview <$> h !! x) ->
  linked h' prev (cs ++ [a; r]).
Proof.
  revert prev. induction cs as [|c cs IH];
    intros prev Hl Hnd Hr Ha Hvr Hva Hv; simpl in *.
  - destruct Hl as [(n & Hn & Hp & _) _].
    rewrite Ha in Hn. injection Hn as <-.
    destruct (h' !! a) as [na'|]; [|discriminate].
    destruct (h' !! r) as [nr'|]; [|discriminate].
    injection Hva as E1 E2. injection Hvr as E3 E4.
    repeat split; eauto. exists na'. repeat split; congruence.
  - destruct Hl as [(n & Hn & Hp & Hnx) Hl].
    apply NoDup_cons in Hnd as [Hc Hnd].
    apply not_elem_of_cons in Hr as [Hrc Hr].
    split.
    + pose proof (Hv c ltac:(left)) as Hvc. rewrite Hn in Hvc.
      destruct (h' !! c) as [n'|]; [|discriminate].
      injection Hvc as E1 E2. exists n'. split; [reflexivity|].
      split; [congruence|]. rewrite E2, Hnx. now destruct cs.
    + apply IH; auto. intros x Hx. apply Hv. now right.
Qed.

Lemma appendChild_links (T T' : DTree) (p r : ref) (d : dref)
  (pn : DTreeNode) :
  appendChild T p d = Ok (T', r) ->
  heap T !! p = Some pn -> NoDup (children pn) ->
  heap T !! nextId T = None ->
  linked (heap T) None (children pn) ->
  idp <$> heap T' !! r = Some (r, Some p) /\
  (forall x, x <> r -> idp <$> heap T' !! x = idp <$> heap T !! x) /\
  linked (heap T') None (children pn ++ [r]) /\
  (forall x, x <> r -> x ∉ children pn ->
             sview <$> heap T' !! x = sview <$> heap T !! x).
Proof.
  intros Happ Hp Hnd Hfresh Hl.
  assert (Hpr : p <> nextId T)
    by (intros ->; rewrite Hfresh in Hp; discriminate).
  assert (Hrc : nextId T ∉ children pn).
  { intros Hin. apply (linked_lookup _ _ _ _ Hl) in Hin as [? Hin].
    rewrite Hfresh in Hin. discriminate. }
  unfold appendChild, addNode, calculateChildIndices, deref in Happ.
  rewrite Hp in Happ. simpl in Happ.
  destruct (last (children pn)) as [a|] eqn:Hlast.
  - rewrite bool_decide_eq_false_2 in Happ
      by (intros E; apply nil_length_inv in E; now rewrite E in Hlast).
    destruct (heap T !! a) as [an|] eqn:Ha; [|discriminate].
    simpl in Happ.
    assert (Har : nextId T <> a)
      by (intros E; rewrite <- E, Hfresh in Ha; discriminate).
    rewrite lookup_insert_ne, Ha in Happ by assumption. simpl in Happ.
    apply last_Some in Hlast as [cs Hcs]. rewrite Hcs in *.
    destruct (linked_at _ _ _ _ _ _ Hl Ha) as [_ Enx]. simpl in Enx.
    rewrite Enx in Happ.
    match type of Happ with
    | context [alter (set_nextSibling (Some (nextId T))) a ?H] =>
        set (H3 := alter (set_nextSibling (Some (nextId T))) a H) in *
    end.
    assert (Hp3 : is_Some (H3 !! p)).
    { unfold H3. rewrite !lookup_alter_is_Some, lookup_insert_ne by auto.
      eauto. }
    destruct Hp3 as [pn3 Hp3]. rewrite Hp3 in Happ. simpl in Happ.
    injection Happ as <- <-. simpl.
    assert (Hsv : forall x, sview <$>
        alter (set_children (splice (children pn3)
                 (indexOf (children pn3) a + 1) 0 [nextId T])) p H3 !! x
        = sview <$> H3 !! x) by (intros x; now apply lookup_alter_view).
    split; [|split; [|split]].
    + rewrite lookup_alter_ne by auto. unfold H3.
      rewrite lookup_alter_ne, lookup_alter_eq, lookup_insert_eq by auto.
      reflexivity.
    + intros x Hx. rewrite lookup_alter_view by reflexivity. unfold H3.
      rewrite !lookup_alter_view by reflexivity.
      now rewrite lookup_insert_ne by auto.
    + replace (cs ++ [a] ++ [nextId T]) with (cs ++ [a; nextId T])
        by reflexivity.
      rewrite <- app_assoc.
      apply (linked_snoc (heap T) _ None cs a (nextId T) an); auto.
      * rewrite Hsv. unfold H3.
        rewrite lookup_alter_ne, lookup_alter_eq, lookup_insert_eq by auto.
        reflexivity.
      * rewrite Hsv. unfold H3.
        rewrite lookup_alter_eq, lookup_alter_ne, lookup_insert_ne, Ha
          by auto. reflexivity.
      * intros x Hx. rewrite Hsv. unfold H3.
        assert (x <> a).
        { intros ->. apply NoDup_app in Hnd as (_ & Hd & _).
          apply (Hd a Hx). now left. }
        assert (x <> nextId T).
        { intros ->. apply Hrc, elem_of_app. now left. }
        now rewrite !lookup_alter_ne, lookup_insert_ne by auto.
    + intros x Hxr Hxc. rewrite Hsv. unfold H3.
      assert (x <> a).
      { intros ->. apply Hxc, elem_of_app. right. now left. }
      now rewrite !lookup_alter_ne, lookup_insert_ne by auto.
  - apply last_None in Hlast. unfold mbind, outcome_bind in Happ.
    rewrite lookup_insert_ne, Hp in Happ by auto. simpl in Happ.
    rewrite Hlast in Happ.
    rewrite lookup_insert_ne, Hp in Happ by auto. simpl in Happ.
    injection Happ as <- <-. simpl. rewrite Hlast.
    split; [|split; [|split]].
    + rewrite lookup_alter_ne, lookup_insert_eq by auto. reflexivity.
    + intros x Hx. rewrite lookup_alter_view by reflexivity.
      now rewrite lookup_insert_ne by auto.
    + simpl. split; [|exact I]. eexists. split.
      * rewrite lookup_alter_ne, lookup_insert_eq by auto. reflexivity.
      * split; reflexivity.
    + intros x Hxr _. rewrite lookup_alter_view by reflexivity.
      now rewrite lookup_insert_ne by auto.
Qed.

Lemma fmap_lookup_inv {B : Type} (g : DTreeNode -> B)
  (h h' : gmap ref DTreeNode) (x : ref) (n' : DTreeNode) :
  g <$> h' !! x = g <$> h !! x -> h' !! x = Some n' ->
  exists n, h !! x = Some n /\ g n' = g n.
Proof.
  intros E Hn'. rewrite Hn' in E. destruct (h !! x) as [n|]; [|discriminate].
  injection E as E. eauto.
Qed.

Lemma links_wf_ext (T T' : DTree) :
  (forall x, links <$> heap T' !! x = links <$> heap T !! x) ->
  root T' = root T -> nextId T' = nextId T ->
  links_wf T -> links_wf T'.
Proof.
  intros Hv Hr Hn (Hfresh & (rn & Hrn & Hrp) & Hall).
  assert (Hsv : forall x, sview <$> heap T' !! x = sview <$> heap T !! x).
  { intros x. specialize (Hv x).
    destruct (heap T' !! x), (heap T !! x); try discriminate; [|done].
    injection Hv as E1 E2 E3 E4 E5. unfold sview. simpl. congruence. }
  split; [|split].
  - intros x Hx. rewrite Hn in Hx. specialize (Hv x).
    rewrite (Hfresh x Hx) in Hv. now destruct (heap T' !! x).
  - rewrite Hr. specialize (Hv (root T)). rewrite Hrn in Hv.
    destruct (heap T' !! root T) as [rn'|]; [|discriminate].
    injection Hv as E1 E2 E3 E4 E5. exists rn'. split; congruence.
  - intros x n' Hn'.
    destruct (fmap_lookup_inv _ _ _ _ _ (Hv x) Hn') as (n & Hx & E).
    injection E as E1 E2 E3 E4 E5.
    destruct (Hall x n Hx) as (Hid & Hp0 & Hpp & Hnd & Hl & Hch).
    rewrite E1, E2, E3, Hr. split; [assumption|]. split; [assumption|].
    split; [|split; [assumption|split]].
    + intros p Hp. destruct (Hpp p Hp) as (Hlt & pn & Hpn & Hin).
      specialize (Hv p). rewrite Hpn in Hv.
      destruct (heap T' !! p) as [pn'|]; [|discriminate].
      injection Hv as F1 F2 F3 F4 F5.
      split; [assumption|]. exists pn'. split; congruence.
    + apply linked_ext with (heap T); auto.
    + intros c cn' Hc Hcn'.
      destruct (fmap_lookup_inv _ _ _ _ _ (Hv c) Hcn') as (cn & Hcn & F).
      injection F as F1 F2 F3 F4 F5. rewrite F2. eauto.
Qed.

Lemma appendChild_parent (T T' : DTree) (p r : ref) (d : dref) :
  appendChild T p d = Ok (T', r) -> is_Some (heap T !! p).
Proof.
  unfold appendChild, deref. destruct (heap T !! p); [eauto|discriminate].
Qed.

Lemma links_wf_appendChild (T T' : DTree) (p r : ref) (d : dref) :
  links_wf T -> appendChild T p d = Ok (T', r) -> links_wf T'.
Proof.
  intros (Hfresh & (rn & Hrn & Hrp) & Hall) Happ.
  destruct (appendChild_parent _ _ _ _ _ Happ) as [pn Hpn].
  destruct (Hall p pn Hpn) as (Hid & _ & Hpp & Hnd & Hl & Hch).
  pose proof (Hfresh _ (le_n _)) as Hnew.
  destruct (appendChild_spec _ _ _ _ _ _ Happ Hpn Hnd Hnew)
    as (Er & Hnext & _ & Hroot & _ & Hvr & Hvp & Hvx).
  destruct (appendChild_links _ _ _ _ _ _ Happ Hpn Hnd Hnew Hl)
    as (Hir & Hix & Hl' & Hsx).
  subst r.
  assert (Hold : forall x, is_Some (heap T !! x) -> x <> nextId T).
  { intros x [? Hx] ->. rewrite Hnew in Hx. discriminate. }
  assert (Hrc : nextId T ∉ children pn).
  { intros Hin. apply (linked_lookup _ _ _ _ Hl) in Hin.
    now apply Hold in Hin. }
  assert (Hkids : forall x n' , x <> nextId T -> heap T' !! x = Some n' ->
            exists n, heap T !! x = Some n /\ id n' = id n /\
                      parent n' = parent n /\
                      (x <> p -> children n' = children n)).
  { intros x n' Hx Hn'.
    destruct (fmap_lookup_inv _ _ _ _ _ (Hix x Hx) Hn') as (n & Hn & E).
    injection E as E1 E2. exists n. repeat split; auto.
    intros Hxp. specialize (Hvx x Hx Hxp). rewrite Hn', Hn in Hvx.
    now injection Hvx. }
  destruct (heap T' !! p) as [pn'|] eqn:Hpn'; [|discriminate].
  injection Hvp as _ Hpc.
  split; [|split].
  - intros x Hx. rewrite Hnext in Hx.
    assert (Hxr : x <> nextId T) by lia.
    specialize (Hix x Hxr). rewrite (Hfresh x) in Hix by lia.
    now destruct (heap T' !! x).
  - rewrite Hroot.
    specialize (Hix (root T) (Hold _ (mk_is_Some _ _ Hrn))).
    rewrite Hrn in Hix.
    destruct (heap T' !! root T) as [rn'|]; [|discriminate].
    injection Hix as E1 E2. exists rn'. split; congruence.
  - intros x n' Hn'. rewrite Hroot.
    destruct (decide (x = nextId T)) as [->|Hxr].
    + rewrite Hn' in Hir, Hvr. injection Hir as E1 E2.
      injection Hvr as _ E3. rewrite E1, E2, E3.
      split; [reflexivity|]. split; [discriminate|]. split.
      * intros ? [= <-]. split.
        { destruct (le_lt_dec (nextId T) p) as [Hle|]; [|assumption].
          rewrite (Hfresh p Hle) in Hpn. discriminate. }
        exists pn'. split; [assumption|].
        rewrite Hpc, elem_of_app. right. now left.
      * split; [constructor|]. split; [exact I|].
        intros c cn Hc. inversion Hc.
    + destruct (Hkids x n' Hxr Hn') as (n & Hn & E1 & E2 & E3).
      destruct (Hall x n Hn) as (Hid' & Hp0 & Hpp' & Hnd' & Hl0 & Hch').
      rewrite E1, E2. split; [assumption|]. split; [assumption|]. split.
      * intros q Hq. destruct (Hpp' q Hq) as (Hlt & qn & Hqn & Hin).
        split; [assumption|].
        destruct (decide (q = p)) as [->|Hqp].
        -- exists pn'. split; [assumption|]. rewrite Hpc, elem_of_app.
           left. congruence.
        -- assert (Hqr : q <> nextId T) by (apply Hold; eauto).
           specialize (Hvx q Hqr Hqp). rewrite Hqn in Hvx.
           destruct (heap T' !! q) as [qn'|]; [|discriminate].
           injection Hvx as _ F. exists qn'. split; congruence.
      * destruct (decide (x = p)) as [->|Hxp].
        -- rewrite Hpn' in Hn'. injection Hn' as <-. rewrite Hpc.
           split; [|split; [assumption|]].
           { apply NoDup_app. split; [assumption|]. split.
             - intros y Hy Hy'. apply list_elem_of_singleton in Hy' as ->.
               tauto.
             - apply NoDup_singleton. }
           intros c cn' Hc Hcn'. apply elem_of_app in Hc as [Hc|Hc].
           ++ assert (Hcr : c <> nextId T)
                by (apply Hold, (linked_lookup _ _ _ _ Hl Hc)).
              destruct (Hkids c cn' Hcr Hcn') as (cn & Hcn & _ & F & _).
              rewrite F. eauto.
           ++ apply list_elem_of_singleton in Hc as ->.
              rewrite Hcn' in Hir. now injection Hir.
        -- rewrite (E3 Hxp). split; [assumption|]. split.
           ++ apply linked_ext with (heap T); [|assumption].
              intros c Hc. apply Hsx.
              ** apply Hold, (linked_lookup _ _ _ _ Hl0 Hc).
              ** intros Hc'.
                 destruct (linked_lookup _ _ _ _ Hl0 Hc) as [cn Hcn].
                 pose proof (Hch' c cn Hc Hcn) as F1.
                 pose proof (Hch c cn Hc' Hcn) as F2. congruence.
           ++ intros c cn' Hc Hcn'.
              assert (Hcr : c <> nextId T)
                by (apply Hold, (linked_lookup _ _ _ _ Hl0 Hc)).
              destruct (Hkids c cn' Hcr Hcn') as (cn & Hcn & _ & F & _).
              rewrite F. eauto.
Qed.

Lemma dfs_built_links (T : DTree) : dfs_built T -> links_wf T.
Proof.
  induction 1 as [rootData|T d0 Hb IHd|T T' p r d Hb IH Hpath Happ
                 |T T' node content Hb IH Hix
                 |T T' fuel Hb IH Hre];
    [ |exact IHd| | | ].
  - split; [|split].
    + intros x Hx. simpl in *. apply lookup_singleton_ne. lia.
    + eexists. split; [apply lookup_singleton_eq|reflexivity].
    + intros x n Hn. simpl in Hn.
      apply lookup_singleton_Some in Hn as [<- <-]. simpl.
      repeat split; try constructor; try discriminate.
      intros c cn Hc. inversion Hc.
  - eapply links_wf_appendChild; eauto.
  - unfold indexContent, deref in Hix.
    destruct (heap T !! node) as [n|] eqn:Hn; [|discriminate].
    simpl in Hix. injection Hix as <-.
    apply links_wf_ext with T; try reflexivity; assumption.
  - unfold recalculateQ2 in Hre.
    destruct (traverse fuel (root T) (heap T, 0)) as [[h' c']| |] eqn:E;
      try discriminate.
    simpl in Hre. injection Hre as <-.
    apply traverse_same_but_q2 in E.
    apply links_wf_ext with T; try reflexivity; [|assumption].
    intros x. simpl. rewrite (E x). now destruct (heap T !! x).
Qed.

Lemma links_wf_in_tree (T : DTree) (x : ref) :
  links_wf T -> is_Some (heap T !! x) -> in_tree T x.
Proof.
  intros (_ & _ & Hall). unfold in_tree.
  induction x as [x IH] using lt_wf_ind. intros [n Hn].
  destruct (Hall x n Hn) as (_ & Hp0 & Hpp & _).
  destruct (parent n) as [p|] eqn:Hp.
  - destruct (Hpp p eq_refl) as (Hlt & pn & Hpn & Hin).
    apply rtc_r with p; [apply IH; eauto|]. exists pn. auto.
  - rewrite (Hp0 eq_refl). constructor.
Qed.

Lemma links_wf_cover (T : DTree) (t : shape) (x : ref) :
  links_wf T -> sroot t = root T -> has_shape (heap T) t ->
  is_Some (heap T !! x) -> x ∈ pre t.
Proof.
  intros Hwf Hroot Hs Hx. apply (links_wf_in_tree _ _ Hwf) in Hx.
  eapply has_shape_rtc; eauto. rewrite <- Hroot. apply sroot_in_pre.
Qed.

(** ** Ancestry paths and the nearest common dominator *)

Lemma getAncestryPath_loop_spec (T : DTree) (fuel : nat)
  (cur : option ref) (path : list ref) :
  links_wf T ->
  match cur with
  | Some c => is_Some (heap T !! c) /\ (c + 1 < fuel)%nat
  | None => (0 < fuel)%nat
  end ->
  exists l, up_path (heap T) cur l /\
            getAncestryPath_loop fuel (heap T) cur path = Ok (path ++ l).
Proof.
  intros (_ & _ & Hall). revert cur path.
  induction fuel as [|fuel IH]; intros cur path Hc.
  - destruct cur as [c|]; [destruct Hc|]; lia.
  - destruct cur as [c|]; simpl.
    + destruct Hc as [[cn Hcn] Hlt]. unfold deref. rewrite Hcn. simpl.
      destruct (Hall c cn Hcn) as (_ & _ & Hpp & _).
      destruct (IH (parent cn) (path ++ [c])) as (l & Hl & ->).
      { destruct (parent cn) as [p|]; [|lia].
        destruct (Hpp p eq_refl) as (Hp & pn & Hpn & _). split; [eauto|lia]. }
      exists (c :: l). split; [econstructor; eauto|].
      now rewrite <- app_assoc.
    + exists []. split; [constructor|]. now rewrite app_nil_r.
Qed.

Lemma getAncestryPath_spec (T : DTree) (fuel : nat) (x : ref) :
  links_wf T -> is_Some (heap T !! x) -> (x + 1 < fuel)%nat ->
  exists l, up_path (heap T) (Some x) l /\
            getAncestryPath fuel (heap T) x = Ok l.
Proof.
  intros Hwf [n Hn] Hlt. unfold getAncestryPath, deref. rewrite Hn. simpl.
  pose proof Hwf as (_ & _ & Hall).
  destruct (Hall x n Hn) as (_ & _ & Hpp & _).
  destruct (getAncestryPath_loop_spec T fuel (parent n) [x] Hwf)
    as (l & Hl & ->).
  { destruct (parent n) as [p|]; [|lia].
    destruct (Hpp p eq_refl) as (Hp & pn & Hpn & _). split; [eauto|lia]. }
  exists (x :: l). split; [econstructor; eauto|reflexivity].
Qed.

Lemma up_path_dominates (T : DTree) (cur : option ref) (l : list ref) :
  links_wf T -> up_path (heap T) cur l ->
  forall x, cur = Some x ->
    forall c, c ∈ l <-> dominates (heap T) c x.
Proof.
  intros (_ & _ & Hall) Hup. unfold dominates.
  induction Hup as [|x xn l Hxn Hup IH]; [discriminate|].
  intros ? [= <-] c.
  destruct (Hall x xn Hxn) as (_ & _ & Hpp & _).
  assert (Hinv : rtc (child_of (heap T)) c x ->
                 c = x \/ exists p, parent xn = Some p /\
                                    rtc (child_of (heap T)) c p).
  { intros Hr. apply rtc_inv_r in Hr as [->|(q & Hcq & qn & Hqn & Hin)];
      [now left|right].
    destruct (Hall q qn Hqn) as (_ & _ & _ & _ & _ & Hch).
    exists q. split; [eapply Hch; eauto|assumption]. }
  rewrite elem_of_cons. split.
  - intros [->|Hc]; [constructor|].
    destruct (parent xn) as [p|]; [|inversion Hup; subst; inversion Hc].
    destruct (Hpp p eq_refl) as (_ & pn & Hpn & Hin).
    apply rtc_r with p; [now apply (IH p eq_refl)|]. exists pn. auto.
  - intros Hr. apply Hinv in Hr as [->|(p & Hp & Hr)]; [now left|right].
    now apply (IH p Hp).
Qed.

Lemma up_path_suffix (h : gmap ref DTreeNode) (cur : option ref)
  (l1 l2 : list ref) (c : ref) :
  up_path h cur (l1 ++ c :: l2) -> up_path h (Some c) (c :: l2).
Proof.
  revert cur. induction l1 as [|y l1 IH]; intros cur Hup; simpl in *.
  - inversion Hup; subst. econstructor; eauto.
  - inversion Hup; subst. eauto.
Qed.

Lemma up_path_lookup (h : gmap ref DTreeNode) (cur : option ref)
  (l : list ref) (x : ref) :
  up_path h cur l -> x ∈ l -> is_Some (h !! x).
Proof.
  induction 1 as [|c cn l Hc Hup IH]; intros Hx; [inversion Hx|].
  apply elem_of_cons in Hx as [->|Hx]; eauto.
Qed.

Lemma find_first {A : Type} (f : A -> bool) (l : list A) (c : A) :
  List.find f l = Some c ->
  exists l1 l2, l = l1 ++ c :: l2 /\ f c = true /\
                forall y, y ∈ l1 -> f y = false.
Proof.
  induction l as [|y l IH]; [discriminate|]. simpl.
  destruct (f y) eqn:Hy.
  - intros [= ->]. exists [], l. repeat split; auto. intros ? H. inversion H.
  - intros Hf. destruct (IH Hf) as (l1 & l2 & -> & Hc & Hl1).
    exists (y :: l1), l2. repeat split; auto.
    intros z Hz. apply elem_of_cons in Hz as [->|Hz]; auto.
Qed.

Lemma omap_ids (h : gmap ref DTreeNode) (l : list ref) :
  (forall x, x ∈ l -> exists n, h !! x = Some n /\ id n = x) ->
  omap (fun r => id <$> h !! r) l = l.
Proof.
  induction l as [|y l IH]; intros Hl; [reflexivity|]. simpl.
  destruct (Hl y ltac:(left)) as (n & -> & Hid). simpl. rewrite Hid.
  f_equal. apply IH. intros x Hx. apply Hl. now right.
Qed.

Lemma dominates_lookup (h : gmap ref DTreeNode) (c x : ref) :
  dominates h c x -> is_Some (h !! x) -> is_Some (h !! c).
Proof.
  intros Hd Hx. apply rtc_inv in Hd as [->|(y & (n & Hn & _) & _)]; eauto.
Qed.

Lemma is_ncd_pair (h : gmap ref DTreeNode) (a b c : ref) :
  dominates h c a -> dominates h c b ->
  (forall c', dominates h c' a -> dominates h c' b -> dominates h c' c) ->
  is_ncd h [a; b] c.
Proof.
  intros Ha Hb Hn. split.
  - intros x Hx. apply elem_of_cons in Hx as [->|Hx]; [assumption|].
    apply list_elem_of_singleton in Hx as ->. assumption.
  - intros c' Hc'. apply Hn; apply Hc'; [left|right; left].
Qed.

Lemma findNCD_spec (T : DTree) (fuel : nat) (a b : ref) :
  links_wf T -> contains_sound T ->
  is_Some (heap T !! a) -> is_Some (heap T !! b) ->
  (nextId T < fuel)%nat ->
  exists c, findNCD fuel T a b = Ok c /\ is_ncd (heap T) [a; b] c.
Proof.
  intros Hwf Hcs [na Hna] [nb Hnb] Hfuel.
  pose proof Hwf as (Hfresh & _ & Hall).
  assert (Hlt : forall x, is_Some (heap T !! x) -> (x + 1 < fuel)%nat).
  { intros x [n Hx]. destruct (le_lt_dec (nextId T) x) as [Hle|]; [|lia].
    rewrite (Hfresh x Hle) in Hx. discriminate. }
  unfold findNCD, deref. rewrite Hna, Hnb. simpl.
  destruct (equals na nb) eqn:Eeq.
  { exists a. split; [reflexivity|].
    unfold equals in Eeq. apply bool_decide_eq_true in Eeq.
    destruct (Hall a na Hna) as (Ha & _), (Hall b nb Hnb) as (Hb & _).
    assert (a = b) as <- by congruence.
    apply is_ncd_pair; [constructor|constructor|auto]. }
  destruct (contains na nb) eqn:Eab.
  { exists a. split; [reflexivity|].
    apply is_ncd_pair; [constructor| |auto].
    apply tc_rtc. eapply Hcs; eauto. }
  destruct (contains nb na) eqn:Eba.
  { exists b. split; [reflexivity|].
    apply is_ncd_pair; [|constructor|auto].
    apply tc_rtc. eapply Hcs; eauto. }
  destruct (getAncestryPath_spec T fuel a Hwf) as (lA & HlA & ->);
    [eauto|apply Hlt; eauto|].
  destruct (getAncestryPath_spec T fuel b Hwf) as (lB & HlB & ->);
    [eauto|apply Hlt; eauto|].
  simpl. rewrite omap_ids.
  2:{ intros x Hx. destruct (up_path_lookup _ _ _ _ HlB Hx) as [n Hn].
      exists n. split; [assumption|]. now apply Hall. }
  pose proof (up_path_dominates T _ _ Hwf HlA a eq_refl) as HdA.
  pose proof (up_path_dominates T _ _ Hwf HlB b eq_refl) as HdB.
  match goal with |- context [List.find ?g lA] => set (f := g) end.
  assert (Hf : forall y, y ∈ lA -> f y = true <-> y ∈ lB).
  { intros y Hy. destruct (up_path_lookup _ _ _ _ HlA Hy) as [n Hn].
    unfold f. rewrite Hn. destruct (Hall y n Hn) as (-> & _).
    apply bool_decide_eq_true. }
  destruct (List.find f lA) as [c|] eqn:Hfind.
  - exists c. split; [reflexivity|].
    destruct (find_first _ _ _ Hfind) as (l1 & l2 & El & Hc & Hl1).
    assert (HcA : c ∈ lA).
    { rewrite El, elem_of_app. right. left. }
    apply is_ncd_pair.
    + now apply HdA.
    + now apply HdB, Hf.
    + intros c' Ha Hb. apply HdA in Ha. apply HdB in Hb.
      rewrite El in HlA. apply up_path_suffix in HlA.
      apply (up_path_dominates T _ _ Hwf HlA c eq_refl).
      rewrite El in Ha. apply elem_of_app in Ha as [Ha|Ha]; [|assumption].
      pose proof (Hl1 c' Ha) as Hfalse.
      assert (f c' = true); [|congruence].
      apply Hf; [|assumption]. rewrite El, elem_of_app. now left.
  - exfalso.
    assert (HrA : root T ∈ lA)
      by (apply HdA, links_wf_in_tree; eauto).
    assert (HrB : root T ∈ lB)
      by (apply HdB, links_wf_in_tree; eauto).
    apply (Hf _ HrA) in HrB.
    apply list_elem_of_In in HrA.
    pose proof (find_none _ _ Hfind _ HrA). congruence.
Qed.

Lemma is_ncd_snoc (h : gmap ref DTreeNode) (seen : list ref)
  (c0 x c1 : ref) :
  is_ncd h seen c0 -> is_ncd h [c0; x] c1 -> is_ncd h (seen ++ [x]) c1.
Proof.
  intros [Hd Hn] [Hd1 Hn1]. split.
  - intros y Hy. apply elem_of_app in Hy as [Hy|Hy].
    + apply rtc_trans with c0; [apply Hd1; left|now apply Hd].
    + apply list_elem_of_singleton in Hy as ->. apply Hd1. right. left.
  - intros c' Hc'. apply Hn1. intros y Hy.
    apply elem_of_cons in Hy as [->|Hy].
    + apply Hn. intros z Hz. apply Hc', elem_of_app. now left.
    + apply list_elem_of_singleton in Hy as ->.
      apply Hc', elem_of_app. right. left.
Qed.

Lemma findNCD_fold_spec (T : DTree) (fuel : nat) (rest seen : list ref)
  (c0 : ref) :
  links_wf T -> contains_sound T -> (nextId T < fuel)%nat ->
  is_Some (heap T !! c0) -> is_ncd (heap T) seen c0 ->
  (forall x, x ∈ rest -> is_Some (heap T !! x)) ->
  exists c,
    fold_left (fun acc x => ncd ← acc; findNCD fuel T ncd x) rest (Ok c0)
    = Ok c /\ is_ncd (heap T) (seen ++ rest) c.
Proof.
  intros Hwf Hcs Hfuel. revert seen c0.
  induction rest as [|x rest IH]; intros seen c0 Hc0 Hncd Hrest; simpl.
  - exists c0. now rewrite app_nil_r.
  - destruct (findNCD_spec T fuel c0 x Hwf Hcs Hc0) as (c1 & -> & H1);
      [apply Hrest; left|assumption|].
    destruct (IH (seen ++ [x]) c1) as (c & Hc & Hfin).
    + destruct H1 as [Hd _]. eapply dominates_lookup; [apply Hd; left|].
      assumption.
    + eapply is_ncd_snoc; eauto.
    + intros y Hy. apply Hrest. now right.
    + exists c. split; [assumption|]. now rewrite <- app_assoc in Hfin.
Qed.

Lemma findNCDMultiple_spec (T : DTree) (fuel : nat) (nodes : list ref) :
  links_wf T -> contains_sound T -> (nextId T < fuel)%nat ->
  nodes <> [] -> (forall x, x ∈ nodes -> is_Some (heap T !! x)) ->
  exists c, findNCDMultiple fuel T nodes = Ok c /\ is_ncd (heap T) nodes c.
Proof.
  intros Hwf Hcs Hfuel Hne Hin.
  assert (H1 : forall n, is_ncd (heap T) [n] n).
  { intros n. split.
    - intros x Hx. apply list_elem_of_singleton in Hx as ->. constructor.
    - intros c' Hc'. apply Hc'. left. }
  destruct nodes as [|n [|x rest]]; [done| |].
  - exists n. split; [reflexivity|apply H1].
  - unfold findNCDMultiple.
    apply (findNCD_fold_spec T fuel (x :: rest) [n] n); auto.
    + apply Hin. left.
    + intros y Hy. apply Hin. now right.
Qed.

Lemma has_shape_sub (h : gmap ref DTreeNode) (t : shape) (x : ref) :
  has_shape h t -> x ∈ pre t ->
  exists s, sroot s = x /\ has_shape h s.
Proof.
  induction t as [r kids IH] using shape_ind'. intros Hs Hx.
  pose proof Hs as Hs'.
  apply has_shape_inv in Hs as (n & Hn & Hk & Hkids). simpl in *.
  rewrite Forall_forall in *.
  apply elem_of_cons in Hx as [->|Hx]; [exists (Sh r kids); auto|].
  apply elem_of_flat_map in Hx as (k & Hin & Hx). eapply IH; eauto.
Qed.

Lemma add_elem (ix : gmap string (list ref)) (token : string)
  (node : ref) (k : string) (l : list ref) (x : ref) :
  TokenXref.add ix token node !! k = Some l -> x ∈ l ->
  x = node \/ exists l0, ix !! k = Some l0 /\ x ∈ l0.
Proof.
  unfold TokenXref.add. set (nt := trim (toLowerCase token)).
  intros Hl Hx. destruct (decide (nt = k)) as [<-|Hne].
  - rewrite lookup_alter_eq in Hl.
    destruct (ix !! nt) as [l0|] eqn:E.
    + rewrite E in Hl. simpl in Hl. injection Hl as <-.
      unfold set_add in Hx. destruct (decide (node ∈ l0)); [right; eauto|].
      apply elem_of_app in Hx as [Hx|Hx]; [right; eauto|left].
      now apply list_elem_of_singleton in Hx.
    + rewrite lookup_insert_eq in Hl. simpl in Hl. injection Hl as <-.
      left. unfold set_add in Hx.
      destruct (decide (node ∈ [])) as [Hin|_]; [inversion Hin|].
      now apply list_elem_of_singleton in Hx.
  - rewrite lookup_alter_ne in Hl by assumption. right. exists l.
    split; [|assumption].
    destruct (ix !! nt); [assumption|].
    now rewrite lookup_insert_ne in Hl.
Qed.

Lemma addMany_elem (tokens : list string) (ix : gmap string (list ref))
  (node : ref) (k : string) (l : list ref) (x : ref) :
  TokenXref.addMany ix tokens node !! k = Some l -> x ∈ l ->
  x = node \/ exists l0, ix !! k = Some l0 /\ x ∈ l0.
Proof.
  unfold TokenXref.addMany. revert ix l.
  induction tokens as [|tk tokens IH]; intros ix l Hl Hx; simpl in Hl.
  - right. eauto.
  - destruct (IH _ _ Hl Hx) as [->|(l0 & Hl0 & Hx0)]; [now left|].
    eapply add_elem; eauto.
Qed.

Lemma dfs_built_xref (T : DTree) : dfs_built T -> xref_wf T.
Proof.
  induction 1 as [rootData|T d0 Hb IHd|T T' p r d Hb IH Hpath Happ
                 |T T' node content Hb IH Hix
                 |T T' fuel Hb IH Hre];
    [ |exact IHd| | | ]; intros k l x Hl Hx.
  - simpl in Hl. rewrite lookup_empty in Hl. discriminate.
  - destruct (dfs_built_links T Hb) as (Hfresh & _ & Hall).
    destruct (appendChild_parent _ _ _ _ _ Happ) as [pn Hpn].
    destruct (Hall p pn Hpn) as (_ & _ & _ & Hnd & Hl0 & _).
    pose proof (Hfresh _ (le_n _)) as Hnew.
    destruct (appendChild_spec _ _ _ _ _ _ Happ Hpn Hnd Hnew)
      as (_ & _ & _ & _ & Hxr & _).
    destruct (appendChild_links _ _ _ _ _ _ Happ Hpn Hnd Hnew Hl0)
      as (Hir & Hix & _).
    rewrite Hxr in Hl. destruct (IH k l x Hl Hx) as [n Hn].
    destruct (decide (x = r)) as [->|Hne].
    + destruct (heap T' !! r); [eauto|discriminate].
    + specialize (Hix x Hne). rewrite Hn in Hix.
      destruct (heap T' !! x); [eauto|discriminate].
  - unfold indexContent, deref in Hix.
    destruct (heap T !! node) as [n|] eqn:Hn; [|discriminate].
    simpl in Hix. injection Hix as <-. simpl in *.
    destruct (addMany_elem _ _ _ _ _ _ Hl Hx) as [->|(l0 & Hl0 & Hx0)];
      eauto.
  - unfold recalculateQ2 in Hre.
    destruct (traverse fuel (root T) (heap T, 0)) as [[h' c']| |] eqn:E;
      try discriminate.
    simpl in Hre. injection Hre as <-. simpl in *.
    apply traverse_same_but_q2 in E. rewrite (E x).
    destruct (IH k l x Hl Hx) as [n ->]. simpl. eauto.
Qed.

Lemma get_lookup (T : DTree) (token : string) (x : ref) :
  xref_wf T -> x ∈ TokenXref.get (xref T) token -> is_Some (heap T !! x).
Proof.
  intros Hwf. unfold TokenXref.get.
  destruct (xref T !! trim (toLowerCase token)) as [l|] eqn:E.
  - eauto.
  - intros Hx. inversion Hx.
Qed.

Lemma dfs_built_recalculate_same (T : DTree) :
  dfs_built T ->
  exists fuel0, forall fuel, (fuel0 <= fuel)%nat ->
    exists T', recalculateQ2 fuel T = Ok T' /\
               same_but_q2 (heap T) (heap T') /\ dfs_built T' /\
               contains_sound T' /\ (nextId T' < fuel)%nat /\
               xref T' = xref T.
Proof.
  intros Hb. destruct (dfs_built_inv T Hb) as (t & Hroot & Hs & Hso & _ & _).
  pose proof (StronglySorted_lt_NoDup _ _ Hso) as Hnd.
  exists (Nat.max (length (pre t)) (S (nextId T))). intros fuel Hfuel.
  destruct (recalculateQ2_spec T t fuel Hroot Hs Hnd ltac:(lia))
    as (h' & Hre & Hsame & Hs' & Hso2).
  exists (with_heap h' T). split; [assumption|]. split; [exact Hsame|].
  assert (Hb' : dfs_built (with_heap h' T))
    by (eapply dfs_recalculateQ2; eauto).
  split; [assumption|]. split; [|simpl; split; [lia|reflexivity]].
  assert (Hso1 : StronglySorted (fun x y => q1_of h' x < q1_of h' y) (pre t)).
  { apply StronglySorted_weaken with (2 := Hso). intros x y _ _.
    now rewrite !(same_but_q2_q1 _ _ _ Hsame). }
  pose proof (dfs_built_links _ Hb') as Hwf.
  intros a b na nb Hna Hnb Hc. simpl in *.
  apply (shape_contains h' t a b na nb); auto.
  - apply (links_wf_cover (with_heap h' T)); simpl; eauto.
  - apply (links_wf_cover (with_heap h' T)); simpl; eauto.
Qed.

Lemma dfs_built_recalculate (T : DTree) :
  dfs_built T ->
  exists fuel0, forall fuel, (fuel0 <= fuel)%nat ->
    exists T', recalculateQ2 fuel T = Ok T' /\ dfs_built T' /\
               contains_sound T' /\ (nextId T' < fuel)%nat /\
               xref T' = xref T.
Proof.
  intros Hb. destruct (dfs_built_recalculate_same T Hb) as [fuel0 H0].
  exists fuel0. intros fuel Hfuel.
  destruct (H0 fuel Hfuel) as (T' & HT' & _ & Hrest). eauto.
Qed.

(** ** Trees built depth first: well-formedness and its consequences *)

Lemma links_wf_lookup (T : DTree) (x : ref) :
  links_wf T -> in_tree T x -> is_Some (heap T !! x).
Proof.
  intros (_ & (rn & Hrn & _) & Hall). unfold in_tree.
  intros Hx. apply rtc_inv_r in Hx as [<-|(p & _ & pn & Hpn & Hin)]; [eauto|].
  destruct (Hall p pn Hpn) as (_ & _ & _ & _ & Hl & _).
  eapply linked_lookup; eauto.
Qed.

Lemma links_wf_root_dominated (T : DTree) (c : ref) :
  links_wf T -> dominates (heap T) c (root T) -> c = root T.
Proof.
  intros (_ & (rn & Hrn & Hp) & Hall) Hd.
  apply rtc_inv_r in Hd as [->|(q & _ & qn & Hqn & Hin)]; [reflexivity|].
  destruct (Hall q qn Hqn) as (_ & _ & _ & _ & _ & Hch).
  rewrite (Hch _ _ Hin Hrn) in Hp. discriminate.
Qed.

Lemma dfs_built_attached (T : DTree) (node : ref) (n : DTreeNode) :
  dfs_built T -> heap T !! node = Some n ->
  (node = root T <-> parent n = None) /\
  (node <> root T ->
   exists p pn s, parent n = Some p /\ attached (heap T) p pn node /\
                  sroot s = node /\ has_shape (heap T) s).
Proof.
  intros Hb Hn. pose proof (dfs_built_links T Hb) as Hwf.
  pose proof Hwf as (_ & (rn & Hrn & Hrp) & Hall).
  destruct (Hall node n Hn) as (_ & Hp0 & Hpp & _). split.
  - split; [|assumption]. intros ->. congruence.
  - intros Hne. destruct (parent n) as [p|] eqn:Hp; [|now destruct Hne; auto].
    destruct (Hpp p eq_refl) as (_ & pn & Hpn & Hin).
    destruct (Hall p pn Hpn) as (_ & _ & _ & Hnd & Hl & _).
    destruct (dfs_built_inv T Hb) as (t & Hroot & Hs & _).
    destruct (has_shape_sub (heap T) t node Hs) as (s & Hsr & Hss).
    { eapply links_wf_cover; eauto. }
    exists p, pn, s. repeat split; assumption.
Qed.

(** C8: [removeNode] on a node without parent, which is what the root of a
    tree is, throws [RootRemovalForbidden] (nothing has been changed when it
    does).  On a node attached below a parent [p] it returns, given enough
    fuel: the node is taken out of the [children] of [p], whose remaining
    members keep their order and are linked to their new neighbours; no
    token of the cross-reference is mapped to a node of the removed subtree
    any more, the other occurrences stay; and the ids of the removed nodes
    are deleted from the node map.  In a tree built depth first the node
    without parent is the root, and every other node is attached below its
    parent and has a subtree. *)
Theorem removeNode_spec (T : DTree) (node : ref) (n : DTreeNode) :
  heap T !! node = Some n ->
  (parent n = None ->
   forall fuel, removeNode fuel T node = Throw RootRemovalForbidden) /\
  (forall p pn s,
     parent n = Some p -> attached (heap T) p pn node ->
     sroot s = node -> has_shape (heap T) s ->
     exists fuel0, forall fuel, (fuel0 <= fuel)%nat ->
       exists T', removeNode fuel T node = Ok T' /\
         (exists pn' l1 l2,
            heap T' !! p = Some pn' /\ children pn = l1 ++ node :: l2 /\
            children pn' = l1 ++ l2 /\ (node ∉ children pn') /\
            linked (heap T') None (children pn')) /\
         (forall token x, x ∈ pre s -> x ∉ TokenXref.get (xref T') token) /\
         (forall token x, x ∉ pre s ->
            ((x ∈ TokenXref.get (xref T') token)
             <-> (x ∈ TokenXref.get (xref T) token))) /\
         (forall x nx, x ∈ pre s -> heap T !! x = Some nx ->
                       nodeMap T' !! id nx = None)) /\
  (dfs_built T ->
   (node = root T <-> parent n = None) /\
   (node <> root T ->
    exists p pn s, parent n = Some p /\ attached (heap T) p pn node /\
                   sroot s = node /\ has_shape (heap T) s)).
Proof.
  intros Hn. split; [|split].
  - intros Hp fuel. rewrite removeNode_unfold. unfold deref. rewrite Hn.
    simpl. unfold isRoot. now rewrite Hp.
  - intros p pn s Hp Hatt Hroot Hs.
    now apply (removeNode_attached T node n p pn s).
  - intros Hb. now apply dfs_built_attached.
Qed.

(** C3 (amended): [searchAND] returns [null], which is no error, as soon
    as one token has no occurrence, and it does so without computing a
    dominator (the fuel of the dominator computation plays no role).  When
    every token has an occurrence it returns what [findNCDMultiple] computes
    on the occurrence nodes of all the tokens, whose members are the union
    of the occurrence sets, together with the occurrence set of each token.
    For a tree built in complete-subtree order, right after a
    [recalculateQ2] pass (which changes nothing but the [q2] of the nodes
    and keeps the cross-reference), and for at least one token, what it
    returns for tokens that all occur is, given enough fuel, the nearest
    common dominator of the occurrence nodes of all the tokens. *)
Theorem searchAND_spec (t : DTree) (tokens : list string) :
  (forall fuel,
     (exists token, token ∈ tokens /\ TokenXref.get (xref t) token = []) ->
     searchAND fuel t tokens = Ok None) /\
  (forall fuel,
     (forall token, token ∈ tokens -> TokenXref.get (xref t) token <> []) ->
     exists occurrences allNodes,
       searchAND fuel t tokens
       = (context ← findNCDMultiple fuel t allNodes;
          Ok (Some (mkAND context occurrences))) /\
       allNodes = flat_map (TokenXref.get (xref t)) tokens /\
       (forall x, x ∈ allNodes <->
                  exists token, token ∈ tokens /\
                                x ∈ TokenXref.get (xref t) token) /\
       (forall token, token ∈ tokens ->
          map_get occurrences token = Some (TokenXref.get (xref t) token)) /\
       (forall token, token ∉ tokens -> map_get occurrences token = None)) /\
  (dfs_built t -> tokens <> [] ->
   (forall token, token ∈ tokens -> TokenXref.get (xref t) token <> []) ->
   exists fuel0, forall fuel, (fuel0 <= fuel)%nat ->
     exists T' res,
       recalculateQ2 fuel t = Ok T' /\
       same_but_q2 (heap t) (heap T') /\ xref T' = xref t /\
       searchAND fuel T' tokens = Ok (Some res) /\
       is_ncd (heap T') (flat_map (TokenXref.get (xref t)) tokens)
              (context res) /\
       (forall token, token ∈ tokens ->
          map_get (and_occurrences res) token
          = Some (TokenXref.get (xref t) token))).
Proof.
  split; [|split].
  - intros fuel H. unfold searchAND. now rewrite searchAND_loop_None.
  - intros fuel H. unfold searchAND.
    rewrite searchAND_loop_Some by assumption.
    destruct (searchOR_loop_spec t tokens [] []) as [E1 E2].
    destruct (searchOR_loop t tokens [] []) as [occ allNodes].
    simpl in *. exists occ, allNodes. split; [reflexivity|].
    split; [assumption|]. split; [|split].
    + intros x. rewrite E1. apply elem_of_flat_map.
    + intros token Hin. now rewrite E2, decide_True.
    + intros token Hin. now rewrite E2, decide_False.
  - intros Hb Hne Hocc.
    destruct (dfs_built_recalculate_same t Hb) as [fuel0 Hre].
    exists fuel0. intros fuel Hfuel.
    destruct (Hre fuel Hfuel) as (T' & HT' & Hsame & Hb' & Hcs & Hlt & Hxr).
    pose proof (dfs_built_links T' Hb') as Hwf.
    pose proof (dfs_built_xref T' Hb') as Hxw.
    rewrite <- Hxr in Hocc.
    destruct (searchOR_loop_spec T' tokens [] []) as [E1 E2].
    destruct (searchOR_loop T' tokens [] []) as [occ allNodes] eqn:Eloop.
    simpl in E1, E2. subst allNodes.
    destruct (findNCDMultiple_spec T' fuel
                (flat_map (TokenXref.get (xref T')) tokens) Hwf Hcs Hlt)
      as (c & Hc & Hncd).
    + destruct tokens as [|tk tokens]; [done|]. simpl.
      specialize (Hocc tk ltac:(left)).
      destruct (TokenXref.get (xref T') tk); [done|discriminate].
    + intros x Hx. apply elem_of_flat_map in Hx as (tk & _ & Hx).
      eapply get_lookup; eauto.
    + exists T', (mkAND c occ). rewrite <- Hxr. simpl.
      split; [assumption|]. split; [assumption|]. split; [reflexivity|].
      split.
      { unfold searchAND.
        rewrite searchAND_loop_Some, Eloop by assumption. now rewrite Hc. }
      split; [assumption|].
      intros token Hin. now rewrite E2, decide_True.
Qed.

(** X7: a tree built by [new DTree], [appendChild] in complete-subtree
    order, [indexContent] and [recalculateQ2] is well formed.  Its links are
    consistent: the root has no parent and is the only such node, the [id]
    of a node is its reference, every other node is in the [children] of its
    [parent], and the [children] of a node are distinct, have the node as
    [parent], and are linked to their neighbours by [prevSibling] and
    [nextSibling].  The cross-reference only lists nodes of the tree, and
    the nodes stored are those reached from the root. *)
Theorem dfs_built_well_formed (T : DTree) :
  dfs_built T ->
  links_wf T /\ xref_wf T /\
  (forall x, is_Some (heap T !! x) <-> in_tree T x).
Proof.
  intros Hb. pose proof (dfs_built_links T Hb) as Hwf.
  split; [assumption|]. split; [now apply dfs_built_xref|].
  intros x. split.
  - now apply links_wf_in_tree.
  - now apply links_wf_lookup.
Qed.

(** X8: in a tree built depth first [removeNode] is total.  On the root it
    throws [RootRemovalForbidden].  On any other node it returns, given
    enough fuel: the node has a parent, from whose [children] it is taken
    out, the other children keeping their order, and no token of the
    cross-reference lists the node afterwards. *)
Theorem removeNode_built (T : DTree) (node : ref) (n : DTreeNode) :
  dfs_built T -> heap T !! node = Some n ->
  (node = root T ->
   forall fuel, removeNode fuel T node = Throw RootRemovalForbidden) /\
  (node <> root T ->
   exists p pn, parent n = Some p /\ heap T !! p = Some pn /\
     exists fuel0, forall fuel, (fuel0 <= fuel)%nat ->
       exists T' pn' l1 l2,
         removeNode fuel T node = Ok T' /\ heap T' !! p = Some pn' /\
         children pn = l1 ++ node :: l2 /\ children pn' = l1 ++ l2 /\
         (node ∉ l1 ++ l2) /\
         forall token, node ∉ TokenXref.get (xref T') token).
Proof.
  intros Hb Hn. destruct (dfs_built_attached T node n Hb Hn) as [Hr Hatt].
  split.
  - intros Hroot fuel. apply Hr in Hroot.
    rewrite removeNode_unfold. unfold deref. rewrite Hn. simpl.
    unfold isRoot. now rewrite Hroot.
  - intros Hne. destruct (Hatt Hne) as (p & pn & s & Hp & Ha & Hsr & Hss).
    exists p, pn. split; [assumption|]. split; [apply Ha|].
    destruct (removeNode_attached T node n p pn s Hn Hp Ha Hsr Hss)
      as [fuel0 Hrm].
    exists fuel0. intros fuel Hfuel.
    destruct (Hrm fuel Hfuel)
      as (T' & Hre & (pn' & l1 & l2 & Hpn' & E1 & E2 & Hnot & _) & Hx & _).
    exists T', pn', l1, l2. rewrite E2 in Hnot. repeat split; auto.
    intros token. apply Hx. rewrite <- Hsr. apply sroot_in_pre.
Qed.

(** X9: in a tree built depth first, after a [recalculateQ2] pass, [findNCD]
    returns, given enough fuel, the nearest common dominator of its two
    arguments: a node that is each of them or an ancestor of it, and that
    every other such node dominates. *)
Theorem findNCD_nearest (T : DTree) :
  dfs_built T ->
  exists fuel0, forall fuel, (fuel0 <= fuel)%nat ->
    exists T', recalculateQ2 fuel T = Ok T' /\
      forall a b, in_tree T' a -> in_tree T' b ->
        exists c, findNCD fuel T' a b = Ok c /\ is_ncd (heap T') [a; b] c.
Proof.
  intros Hb. destruct (dfs_built_recalculate T Hb) as [fuel0 Hre].
  exists fuel0. intros fuel Hfuel.
  destruct (Hre fuel Hfuel) as (T' & HT' & Hb' & Hcs & Hlt & _).
  exists T'. split; [assumption|]. intros a b Ha Hb0.
  pose proof (dfs_built_links T' Hb') as Hwf.
  apply findNCD_spec; auto using links_wf_lookup.
Qed.

(** X10: in a tree built depth first, after a [recalculateQ2] pass,
    [findNCDMultiple] returns, given enough fuel, the nearest common
    dominator of a non-empty array of nodes of the tree. *)
Theorem findNCDMultiple_nearest (T : DTree) :
  dfs_built T ->
  exists fuel0, forall fuel, (fuel0 <= fuel)%nat ->
    exists T', recalculateQ2 fuel T = Ok T' /\
      forall nodes, nodes <> [] -> (forall x, x ∈ nodes -> in_tree T' x) ->
        exists c, findNCDMultiple fuel T' nodes = Ok c /\
                  is_ncd (heap T') nodes c.
Proof.
  intros Hb. destruct (dfs_built_recalculate T Hb) as [fuel0 Hre].
  exists fuel0. intros fuel Hfuel.
  destruct (Hre fuel Hfuel) as (T' & HT' & Hb' & Hcs & Hlt & _).
  exists T'. split; [assumption|]. intros nodes Hne Hin.
  pose proof (dfs_built_links T' Hb') as Hwf.
  apply findNCDMultiple_spec; auto using links_wf_lookup.
Qed.

(** X11: in a tree built depth first, after a [recalculateQ2] pass,
    [findNCDMultiple] on nodes of the tree among which is the root returns
    the root. *)
Theorem findNCDMultiple_root (T : DTree) :
  dfs_built T ->
  exists fuel0, forall fuel, (fuel0 <= fuel)%nat ->
    exists T', recalculateQ2 fuel T = Ok T' /\
      forall nodes, (root T' ∈ nodes) -> (forall x, x ∈ nodes -> in_tree T' x) ->
        findNCDMultiple fuel T' nodes = Ok (root T').
Proof.
  intros Hb. destruct (dfs_built_recalculate T Hb) as [fuel0 Hre].
  exists fuel0. intros fuel Hfuel.
  destruct (Hre fuel Hfuel) as (T' & HT' & Hb' & Hcs & Hlt & _).
  exists T'. split; [assumption|]. intros nodes Hr Hin.
  pose proof (dfs_built_links T' Hb') as Hwf.
  destruct (findNCDMultiple_spec T' fuel nodes Hwf Hcs Hlt)
    as (c & -> & Hd & _); auto using links_wf_lookup.
  { intros ->. inversion Hr. }
  f_equal. apply links_wf_root_dominated; auto.
Qed.

(** X12: [contains] is a strict partial order on nodes, whatever their
    coordinates: no node contains itself, two nodes never contain each
    other, and containment is transitive. *)
Theorem contains_strict_order :
  (forall a, contains a a = false) /\
  (forall a b, contains a b = true -> contains b a = false) /\
  (forall a b c, contains a b = true -> contains b c = true ->
                 contains a c = true).
Proof.
  split; [|split].
  - intros a. unfold contains. apply andb_false_iff. left.
    apply Z.ltb_irrefl.
  - intros a b Hab. apply contains_true in Hab as [H1 H2].
    unfold contains. apply andb_false_iff. left. apply Z.ltb_ge. lia.
  - intros a b c Hab Hbc. apply contains_true in Hab as [H1 H2].
    apply contains_true in Hbc as [H3 H4]. apply contains_true. lia.
Qed.

(** [findNCD] of a node and itself is the node, in any tree and without
    any walk. *)
Lemma findNCD_same (T : DTree) (a : ref) (n : DTreeNode) :
  heap T !! a = Some n -> forall fuel, findNCD fuel T a a = Ok a.
Proof.
  intros Hn fuel. unfold findNCD, deref. rewrite Hn. simpl.
  unfold equals. now rewrite bool_decide_eq_true_2.
Qed.

(** ** [appendChild] and [indexContent] on the trees built depth first *)

Lemma appendChild_total (T : DTree) (p : ref) (d : dref)
  (pn : DTreeNode) :
  links_wf T -> heap T !! p = Some pn ->
  exists T' r, appendChild T p d = Ok (T', r).
Proof.
  intros (Hfresh & _ & Hall) Hp.
  destruct (Hall p pn Hp) as (_ & _ & _ & _ & Hl & _).
  pose proof (Hfresh _ (le_n _)) as Hnew.
  assert (Hpr : nextId T <> p) by (intros E; rewrite E, Hp in Hnew; discriminate).
  unfold appendChild, addNode, calculateChildIndices, deref.
  rewrite Hp. simpl.
  destruct (last (children pn)) as [a|] eqn:Hlast.
  - rewrite bool_decide_eq_false_2
      by (intros E; apply nil_length_inv in E; now rewrite E in Hlast).
    destruct (linked_lookup _ _ _ a Hl) as [an Ha];
      [now apply last_Some_elem_of|].
    assert (Har : nextId T <> a)
      by (intros E; rewrite E, Ha in Hnew; discriminate).
    rewrite Ha. simpl. rewrite lookup_insert_ne, Ha by assumption. simpl.
    match goal with
    | |- context [alter (set_nextSibling (Some (nextId T))) a ?H] =>
        set (H3 := alter (set_nextSibling (Some (nextId T))) a H)
    end.
    assert (Hp3 : is_Some (H3 !! p)).
    { unfold H3. destruct (nextSibling an);
        rewrite !lookup_alter_is_Some, lookup_insert_ne by auto; eauto. }
    destruct Hp3 as [pn3 ->]. simpl. eauto.
  - unfold mbind, outcome_bind.
    rewrite lookup_insert_ne, Hp by auto. simpl.
    apply last_None in Hlast. rewrite Hlast.
    rewrite lookup_insert_ne, Hp by auto. simpl. eauto.
Qed.

(** X17: in a tree built depth first [appendChild] below any node of the
    tree returns.  The new node has a fresh reference, which is its [id]; it
    is the last of the [children] of its parent, before which the former
    [children] keep their order; its [parent] is the node it was appended
    to, it has no children and no next sibling, and its previous sibling is
    the former last child; and its [q1] is the new [q1Counter], greater than
    the [q1] of every node that the tree had. *)
Theorem appendChild_built (T : DTree) (p : ref) (d : dref)
  (pn : DTreeNode) :
  dfs_built T -> heap T !! p = Some pn ->
  exists T' r pn' rn,
    appendChild T p d = Ok (T', r) /\
    heap T !! r = None /\ heap T' !! r = Some rn /\
    heap T' !! p = Some pn' /\ children pn' = children pn ++ [r] /\
    id rn = r /\ parent rn = Some p /\ children rn = [] /\
    prevSibling rn = last (children pn) /\ nextSibling rn = None /\
    q1 rn = q1Counter T' /\
    (forall x n, heap T !! x = Some n -> q1 n < q1 rn).
Proof.
  intros Hb Hp. pose proof (dfs_built_links T Hb) as Hwf.
  destruct (appendChild_total T p d pn Hwf Hp) as (T' & r & Happ).
  pose proof Hwf as (Hfresh & _ & Hall).
  destruct (Hall p pn Hp) as (_ & _ & _ & Hnd & Hl & _).
  pose proof (Hfresh _ (le_n _)) as Hnew.
  destruct (appendChild_spec _ _ _ _ _ _ Happ Hp Hnd Hnew)
    as (Er & _ & Hq & _ & _ & Hvr & Hvp & _).
  destruct (appendChild_links _ _ _ _ _ _ Happ Hp Hnd Hnew Hl)
    as (Hir & _ & Hl' & _).
  subst r.
  destruct (heap T' !! nextId T) as [rn|] eqn:Hrn; [|discriminate].
  destruct (heap T' !! p) as [pn'|] eqn:Hpn'; [|discriminate].
  injection Hvr as E1 E2. injection Hvp as _ E3. injection Hir as E4 E5.
  exists T', (nextId T), pn', rn.
  assert (Hat : prevSibling rn = last (children pn) /\ nextSibling rn = None).
  { rewrite <- (app_nil_r (children pn ++ [nextId T])) in Hl'.
    rewrite <- app_assoc in Hl'.
    destruct (linked_at _ _ _ _ _ _ Hl' Hrn) as [F1 F2].
    split; [|exact F2]. rewrite F1. now destruct (last (children pn)). }
  destruct Hat as [F1 F2].
  repeat split; try assumption; try congruence.
  intros x n Hn. rewrite E1.
  destruct (dfs_built_inv T Hb) as (t & Hroot & Hs & _ & Hle & _).
  assert (Hx : x ∈ pre t) by (eapply links_wf_cover; eauto).
  specialize (Hle x Hx). unfold q1_of in Hle. rewrite Hn in Hle.
  simpl in Hle. unfold INITIAL_SPACING. lia.
Qed.

Lemma get_add (ix : gmap string (list ref)) (token token' : string)
  (node x : ref) :
  x ∈ TokenXref.get (TokenXref.add ix token node) token' <->
  x ∈ TokenXref.get ix token' \/
  (x = node /\ trim (toLowerCase token) = trim (toLowerCase token')).
Proof.
  unfold TokenXref.get, TokenXref.add.
  set (nt := trim (toLowerCase token)).
  set (nt' := trim (toLowerCase token')).
  destruct (decide (nt = nt')) as [<-|Hne].
  - rewrite lookup_alter_eq. destruct (ix !! nt) as [l0|] eqn:E.
    + rewrite E. simpl. unfold set_add.
      destruct (decide (node ∈ l0)).
      * split; [now left|]. intros [?|[-> _]]; assumption.
      * rewrite elem_of_app, list_elem_of_singleton. tauto.
    + rewrite lookup_insert_eq. simpl. unfold set_add.
      destruct (decide (node ∈ [])) as [Hin|_]; [inversion Hin|].
      simpl. rewrite list_elem_of_singleton. split; [tauto|].
      intros [Hx|[-> _]]; [inversion Hx|reflexivity].
  - rewrite lookup_alter_ne by assumption.
    assert (E : (match ix !! nt with
                 | Some _ => ix
                 | None => <[nt:=[]]> ix
                 end) !! nt' = ix !! nt').
    { destruct (ix !! nt); [reflexivity|]. now rewrite lookup_insert_ne. }
    rewrite E. split; [now left|]. intros [?|[_ ?]]; [assumption|done].
Qed.

Lemma get_addMany (tokens : list string) (ix : gmap string (list ref))
  (token' : string) (node x : ref) :
  x ∈ TokenXref.get (TokenXref.addMany ix tokens node) token' <->
  x ∈ TokenXref.get ix token' \/
  (x = node /\ exists tk, tk ∈ tokens /\
                trim (toLowerCase tk) = trim (toLowerCase token')).
Proof.
  unfold TokenXref.addMany. revert ix.
  induction tokens as [|tk tokens IH]; intros ix; simpl.
  - split; [now left|]. intros [?|(_ & tk & Hin & _)]; [assumption|].
    inversion Hin.
  - rewrite IH, get_add. split.
    + intros [[?|[-> E]]|(-> & tk' & Hin & E)]; [now left|right..].
      * split; [reflexivity|]. exists tk. split; [left|assumption].
      * split; [reflexivity|]. exists tk'. split; [now right|assumption].
    + intros [?|(-> & tk' & Hin & E)]; [now left; left|].
      apply elem_of_cons in Hin as [->|Hin].
      * left. right. auto.
      * right. eauto.
Qed.

(** X18: [indexContent] on a node returns.  Afterwards a lookup of a token
    lists the node exactly when it listed it before or the token is equal,
    after [toLowerCase] and [trim], to one of the tokens of the content; and
    every token of the content lists the node.  The content is stored in
    the data object of the node, whose type stays; so every node that
    shares this data object shows the new content, and no other data object
    changes.  The nodes, the root, [nodeMap], [nextId] and [q1Counter] stay
    as they are.  This holds whatever [toLowerCase], [trim] and the regular
    expressions of the tokenisation do. *)
Theorem indexContent_spec (T : DTree) (node : ref) (content : string)
  (n : DTreeNode) :
  heap T !! node = Some n ->
  exists T', indexContent T node content = Ok T' /\
    (forall token x,
       x ∈ TokenXref.get (xref T') token <->
       x ∈ TokenXref.get (xref T) token \/
       (x = node /\ exists tk, tk ∈ tokenize content /\
                     trim (toLowerCase tk) = trim (toLowerCase token))) /\
    (forall tk, tk ∈ tokenize content ->
                node ∈ TokenXref.get (xref T') tk) /\
    heap T' = heap T /\
    objects T'
    = <[data n := mkData (type (dataOf (objects T) (data n))) (Some content)]>
        (objects T) /\
    (forall x m, heap T !! x = Some m -> data m = data n ->
                 (data n < length (objects T))%nat ->
       dataOf (objects T') (data m)
       = mkData (type (dataOf (objects T) (data n))) (Some content)) /\
    (forall r, r <> data n -> objects T' !! r = objects T !! r) /\
    root T' = root T /\ nodeMap T' = nodeMap T /\ nextId T' = nextId T /\
    q1Counter T' = q1Counter T.
Proof.
  intros Hn. unfold indexContent, deref. rewrite Hn. simpl.
  eexists. split; [reflexivity|]. simpl.
  split; [|split; [|split; [reflexivity|split; [reflexivity|split;
    [|split; [|auto]]]]]].
  - intros token x. apply get_addMany.
  - intros tk Htk. apply get_addMany. right. eauto.
  - intros x m _ -> Hlt. unfold dataOf at 1.
    now rewrite list_lookup_insert_eq.
  - intros r Hr. now apply list_lookup_insert_ne.
Qed.

(** ** Ancestry paths, depths and lifts *)

Lemma StronglySorted_gt_NoDup (l : list ref) :
  StronglySorted (fun a b => (b < a)%nat) l -> NoDup l.
Proof.
  induction 1 as [|x l Hs IH Hx]; constructor; [|assumption].
  intros Hin. rewrite Forall_forall in Hx. specialize (Hx x Hin). lia.
Qed.

Lemma up_path_bound (T : DTree) (cur : option ref) (l : list ref) :
  links_wf T -> up_path (heap T) cur l ->
  match cur with
  | Some x => head l = Some x /\ Forall (fun y => (y <= x)%nat) l
  | None => l = []
  end /\
  StronglySorted (fun a b => (b < a)%nat) l /\
  (length l <= match cur with Some x => S x | None => 0 end)%nat.
Proof.
  intros (_ & _ & Hall). induction 1 as [|x xn l Hxn Hup IH];
    [split; [reflexivity|split; [constructor|simpl; lia]]|].
  destruct (Hall x xn Hxn) as (_ & _ & Hpp & _).
  destruct IH as (Hcur & Hso & Hlen).
  destruct (parent xn) as [p|] eqn:Hp.
  - destruct (Hpp p eq_refl) as [Hlt _]. destruct Hcur as [Hh Hf].
    split; [split; [reflexivity|]|split].
    + constructor; [lia|]. eapply Forall_impl; [exact Hf|].
      simpl. intros. lia.
    + constructor; [assumption|]. eapply Forall_impl; [exact Hf|].
      simpl. intros. lia.
    + simpl. lia.
  - subst l. split; [split; [reflexivity|]|split].
    + constructor; [lia|constructor].
    + repeat constructor.
    + simpl. lia.
Qed.

Lemma up_path_last (T : DTree) (x : ref) (l : list ref) :
  links_wf T -> up_path (heap T) (Some x) l -> last l = Some (root T).
Proof.
  intros (_ & _ & Hall) Hup. remember (Some x) as cur eqn:E. revert x E.
  induction Hup as [|c cn l Hcn Hup IH]; intros x E; [discriminate|].
  destruct (Hall c cn Hcn) as (_ & Hp0 & _).
  destruct (parent cn) as [p|] eqn:Hp.
  - rewrite last_cons, (IH p eq_refl). reflexivity.
  - inversion Hup; subst. simpl. f_equal. auto.
Qed.

Lemma getDepth_loop_up (h : gmap ref DTreeNode) (cur : option ref)
  (l : list ref) (fuel : nat) (d : Z) :
  up_path h cur l -> (length l < fuel)%nat ->
  getDepth_loop fuel h cur d = Ok (d + Z.of_nat (length l)).
Proof.
  intros Hup. revert fuel d.
  induction Hup as [|c cn l Hcn Hup IH]; intros fuel d Hlen;
    (destruct fuel as [|fuel]; [simpl in Hlen; lia|]); simpl.
  - f_equal. lia.
  - unfold deref. rewrite Hcn. simpl. rewrite IH by (simpl in Hlen; lia).
    f_equal. lia.
Qed.

Lemma up_path_det (h : gmap ref DTreeNode) (cur : option ref)
  (l l' : list ref) : up_path h cur l -> up_path h cur l' -> l = l'.
Proof.
  intros Hup. revert l'. induction Hup as [|c cn l Hcn Hup IH];
    intros l' Hup'; inversion Hup'; subst; [reflexivity|].
  f_equal. apply IH. congruence.
Qed.

(** X23: in a tree built depth first [getAncestryPath] on a node returns
    (with fuel beyond [nextId]) the node followed by its parent, the parent
    of that, and so on up to the root, which comes last; no node occurs
    twice, and the members of the path are the node and its ancestors.
    [getDepth] returns the number of nodes after the first, which is one more
    than the depth of the parent. *)
Theorem getAncestryPath_built (T : DTree) (x : ref) (n : DTreeNode)
  (fuel : nat) :
  dfs_built T -> heap T !! x = Some n -> (nextId T < fuel)%nat ->
  exists l,
    getAncestryPath fuel (heap T) x = Ok (x :: l) /\
    up_path (heap T) (parent n) l /\
    last (x :: l) = Some (root T) /\ NoDup (x :: l) /\
    (forall c, c ∈ x :: l <-> dominates (heap T) c x) /\
    getDepth fuel (heap T) x = Ok (Z.of_nat (length l)) /\
    (forall p, parent n = Some p ->
               getDepth fuel (heap T) p = Ok (Z.of_nat (length l) - 1)).
Proof.
  intros Hb Hn Hfuel. pose proof (dfs_built_links T Hb) as Hwf.
  pose proof Hwf as (Hfresh & _ & Hall).
  assert (Hx : (x < nextId T)%nat).
  { destruct (le_lt_dec (nextId T) x) as [Hle|]; [|assumption].
    rewrite (Hfresh x Hle) in Hn. discriminate. }
  destruct (getAncestryPath_spec T fuel x Hwf) as (l0 & Hup & Hpath);
    [eauto|lia|].
  inversion Hup as [|c cn l Hcn Hupl]; subst. rewrite Hn in Hcn.
  injection Hcn as <-.
  destruct (up_path_bound T _ _ Hwf Hup) as (_ & Hso & Hlen).
  simpl in Hlen.
  exists l. split; [assumption|]. split; [assumption|].
  split; [now apply (up_path_last T x)|]. split.
  { now apply StronglySorted_gt_NoDup. }
  split; [now apply (up_path_dominates T _ _ Hwf Hup x)|].
  unfold getDepth, deref. rewrite Hn. simpl. split.
  - rewrite (getDepth_loop_up _ _ l) by (assumption || lia). f_equal.
  - intros p Hp. rewrite Hp in Hupl.
    inversion Hupl as [|c pn l' Hpn Hupl']; subst.
    rewrite Hpn. simpl.
    rewrite (getDepth_loop_up _ _ l') by (assumption || simpl in *; lia).
    f_equal. simpl. lia.
Qed.

Lemma liftToLevel_loop_up (T : DTree) (cur : option ref) (l : list ref)
  (fuel : nat) (ty : NodeType) :
  up_path (heap T) cur l -> (length l < fuel)%nat ->
  liftToLevel_loop fuel T cur ty
  = Ok (match List.find (fun c => match heap T !! c with
                                  | Some cn =>
                                      bool_decide
                                        (type (dataOf (objects T) (data cn))
                                         = ty)
                                  | None => false
                                  end) l with
        | Some c => c
        | None => root T
        end).
Proof.
  intros Hup. revert fuel.
  induction Hup as [|c cn l Hcn Hup IH]; intros fuel Hlen;
    (destruct fuel as [|fuel]; [simpl in Hlen; lia|]); simpl; [reflexivity|].
  unfold deref. rewrite Hcn. simpl.
  destruct (bool_decide (type (dataOf (objects T) (data cn)) = ty));
    [reflexivity|].
  apply IH. simpl in Hlen. lia.
Qed.

(** X24: in a tree built depth first [liftToLevel] returns (with fuel
    beyond [nextId]) the nearest node of the target type among the node and
    its ancestors: it has the type, and every other such node dominates it.
    When neither the node nor an ancestor has the type, it returns the
    root. *)
Theorem liftToLevel_built (T : DTree) (x : ref) (n : DTreeNode)
  (ty : NodeType) (fuel : nat) :
  dfs_built T -> heap T !! x = Some n -> (S (nextId T) < fuel)%nat ->
  exists c,
    liftToLevel fuel T x ty = Ok c /\
    ((dominates (heap T) c x /\ has_type T ty c /\
      forall c', dominates (heap T) c' x -> has_type T ty c' ->
                 dominates (heap T) c' c) \/
     (c = root T /\
      forall c', dominates (heap T) c' x -> ~ has_type T ty c')).
Proof.
  intros Hb Hn Hfuel. pose proof (dfs_built_links T Hb) as Hwf.
  pose proof Hwf as (Hfresh & _ & Hall).
  assert (Hx : (x < nextId T)%nat).
  { destruct (le_lt_dec (nextId T) x) as [Hle|]; [|assumption].
    rewrite (Hfresh x Hle) in Hn. discriminate. }
  destruct (getAncestryPath_spec T fuel x Hwf) as (l & Hup & _);
    [eauto|lia|].
  destruct (up_path_bound T _ _ Hwf Hup) as (_ & _ & Hlen).
  pose proof (up_path_dominates T _ _ Hwf Hup x eq_refl) as Hd.
  unfold liftToLevel. rewrite (liftToLevel_loop_up T _ l) by (assumption || lia).
  match goal with |- context [List.find ?g l] => set (f := g) end.
  assert (Hf : forall y, f y = true <-> has_type T ty y).
  { intros y. unfold f, has_type. destruct (heap T !! y) as [yn|].
    - rewrite bool_decide_eq_true. split; [eauto|].
      now intros (? & [= <-] & ?).
    - split; [discriminate|]. now intros (? & ? & _). }
  eexists. split; [reflexivity|].
  destruct (List.find f l) as [c|] eqn:Hfind.
  - left. destruct (find_first _ _ _ Hfind) as (l1 & l2 & El & Hc & Hl1).
    split; [|split].
    + apply Hd. rewrite El, elem_of_app. right. left.
    + now apply Hf.
    + intros c' Hc' Hty. apply Hd in Hc'. apply Hf in Hty.
      rewrite El in Hup. apply up_path_suffix in Hup.
      apply (up_path_dominates T _ _ Hwf Hup c eq_refl).
      rewrite El in Hc'. apply elem_of_app in Hc' as [Hc'|Hc'];
        [|assumption].
      rewrite (Hl1 c' Hc') in Hty. discriminate.
  - right. split; [reflexivity|]. intros c' Hc' Hty.
    apply Hd, list_elem_of_In in Hc'. apply Hf in Hty.
    rewrite (find_none _ _ Hfind _ Hc') in Hty. discriminate.
Qed.

(** ** Subtrees *)

Lemma has_shape_sub_pre (h : gmap ref DTreeNode) (t : shape) (x : ref) :
  has_shape h t -> x ∈ pre t ->
  exists s l1 l2, sroot s = x /\ has_shape h s /\
                  pre t = l1 ++ pre s ++ l2.
Proof.
  induction t as [r kids IH] using shape_ind'. intros Hs Hx.
  pose proof Hs as Hs'.
  apply has_shape_inv in Hs as (n & Hn & Hk & Hkids). simpl in *.
  rewrite Forall_forall in *.
  apply elem_of_cons in Hx as [->|Hx].
  - exists (Sh r kids), [], []. simpl. now rewrite app_nil_r.
  - apply elem_of_flat_map in Hx as (k & Hin & Hx).
    destruct (IH k Hin (Hkids k Hin) Hx) as (s & l1 & l2 & Hr & Hss & E).
    apply list_elem_of_split in Hin as (ks1 & ks2 & ->).
    exists s, (r :: flat_map pre ks1 ++ l1), (l2 ++ flat_map pre ks2).
    split; [assumption|]. split; [assumption|].
    rewrite flat_map_app. simpl. rewrite E.
    now rewrite <- !app_assoc.
Qed.

(** X25: in a tree built depth first [getSubtree] on a node returns, given
    enough fuel, the node followed by its descendants and nothing else, each
    once, in the order of their [q1]. *)
Theorem getSubtree_built (T : DTree) (x : ref) (n : DTreeNode) :
  dfs_built T -> heap T !! x = Some n ->
  exists fuel0, forall fuel, (fuel0 <= fuel)%nat ->
    exists l,
      getSubtree fuel (heap T) x = Ok (x :: l) /\
      NoDup (x :: l) /\
      (forall y, y ∈ x :: l <-> dominates (heap T) x y) /\
      StronglySorted (fun a b => q1_of (heap T) a < q1_of (heap T) b)
                     (x :: l).
Proof.
  intros Hb Hn. pose proof (dfs_built_links T Hb) as Hwf.
  destruct (dfs_built_inv T Hb) as (t & Hroot & Hs & Hso & _).
  destruct (has_shape_sub_pre (heap T) t x Hs)
    as (s & l1 & l2 & Hsr & Hss & E).
  { eapply links_wf_cover; eauto. }
  rewrite E in Hso. apply StronglySorted_app_1_r in Hso.
  apply StronglySorted_app_1_l in Hso.
  exists (length (pre s)). intros fuel Hfuel.
  pose proof (getSubtree_spec _ _ _ Hss Hfuel) as Hsub. rewrite Hsr in Hsub.
  destruct s as [r kids]. simpl in *. subst r.
  exists (flat_map pre kids). split; [assumption|].
  split; [now apply StronglySorted_lt_NoDup in Hso|]. split; [|assumption].
  intros y. split.
  - intros Hy. apply (has_shape_reach (heap T) (Sh x kids)); assumption.
  - intros Hy.
    apply (has_shape_rtc (heap T) (Sh x kids) x); [assumption|left|].
    exact Hy.
Qed.

(** ** The node map and the statistics *)

Lemma calculateDepth_S (fuel : nat) (h : gmap ref DTreeNode) (node : ref)
  (depth maxDepth : Z) :
  calculateDepth (S fuel) h node depth maxDepth =
  (n ← deref h node;
   calculateDepth_children fuel h depth (children n) (Z.max maxDepth depth)).
Proof. reflexivity. Qed.

Lemma appendChild_nodeMap (T T' : DTree) (p r : ref) (d : dref) :
  appendChild T p d = Ok (T', r) -> nodeMap T' = <[r := r]> (nodeMap T).
Proof.
  unfold appendChild. intros H.
  apply CTGEngineProps.bind_Ok in H as (pn & _ & H). unfold addNode in H.
  apply CTGEngineProps.bind_Ok in H as ([q1 q2] & _ & H).
  apply CTGEngineProps.bind_Ok in H as (h & _ & H).
  now injection H as <- <-.
Qed.

Lemma dfs_built_nodeMap (T : DTree) : dfs_built T -> nodeMap_wf T.
Proof.
  unfold nodeMap_wf, getNode.
  induction 1 as [rootData|T d0 Hb IHd|T T' p r d Hb IH Hpath Happ
                 |T T' node content Hb IH Hix
                 |T T' fuel Hb IH Hre];
    [ |exact IHd| | | ]; intros k x.
  - simpl. rewrite lookup_singleton_Some. split.
    + intros [<- <-]. split; [reflexivity|]. rewrite lookup_singleton_eq.
      eauto.
    + intros [-> [n Hn]]. apply lookup_singleton_Some in Hn as [<- _]. auto.
  - pose proof (dfs_built_links T Hb) as Hwf.
    pose proof Hwf as (Hfresh & _ & Hall).
    destruct (appendChild_parent _ _ _ _ _ Happ) as [pn Hpn].
    destruct (Hall p pn Hpn) as (_ & _ & _ & Hnd & Hl0 & _).
    pose proof (Hfresh _ (le_n _)) as Hnew.
    destruct (appendChild_spec _ _ _ _ _ _ Happ Hpn Hnd Hnew)
      as (-> & _).
    destruct (appendChild_links _ _ _ _ _ _ Happ Hpn Hnd Hnew Hl0)
      as (Hir & Hix & _).
    rewrite (appendChild_nodeMap _ _ _ _ _ Happ).
    destruct (decide (k = nextId T)) as [->|Hk].
    + rewrite lookup_insert_eq. split.
      * intros [= <-]. split; [reflexivity|].
        destruct (heap T' !! nextId T); [eauto|discriminate].
      * now intros [<- _].
    + rewrite lookup_insert_ne by auto. rewrite IH. split.
      * intros [-> Hx]. split; [reflexivity|].
        specialize (Hix x Hk). destruct Hx as [n Hn]. rewrite Hn in Hix.
        destruct (heap T' !! x); [eauto|discriminate].
      * intros [-> Hx]. split; [reflexivity|].
        specialize (Hix x Hk). destruct Hx as [n Hn]. rewrite Hn in Hix.
        destruct (heap T !! x); [eauto|discriminate].
  - unfold indexContent, deref in Hix.
    destruct (heap T !! node) as [n|] eqn:Hn; [|discriminate].
    simpl in Hix. injection Hix as <-. simpl. apply IH.
  - unfold recalculateQ2 in Hre.
    destruct (traverse fuel (root T) (heap T, 0)) as [[h' c']| |] eqn:E;
      try discriminate.
    simpl in Hre. injection Hre as <-. simpl.
    apply traverse_same_but_q2 in E. rewrite IH, (E x).
    now rewrite fmap_is_Some.
Qed.

Lemma getDepth_child (T : DTree) (fuel : nat) (x c : ref) (d : Z) :
  links_wf T -> (nextId T < fuel)%nat -> child_of (heap T) x c ->
  getDepth fuel (heap T) x = Ok d ->
  getDepth fuel (heap T) c = Ok (d + 1).
Proof.
  intros Hwf Hfuel (xn & Hxn & Hin) Hd.
  pose proof Hwf as (Hfresh & _ & Hall).
  destruct (Hall x xn Hxn) as (_ & _ & _ & _ & Hl & Hch).
  destruct (linked_lookup _ _ _ _ Hl Hin) as [cn Hcn].
  pose proof (Hch c cn Hin Hcn) as Hp.
  assert (Hx : (x < nextId T)%nat).
  { destruct (le_lt_dec (nextId T) x) as [Hle|]; [|assumption].
    rewrite (Hfresh x Hle) in Hxn. discriminate. }
  destruct (getAncestryPath_spec T fuel x Hwf) as (l & Hup & _);
    [eauto|lia|].
  destruct (up_path_bound T _ _ Hwf Hup) as (_ & _ & Hlen).
  inversion Hup as [|? xn' lx Hxn' Hupx]; subst.
  rewrite Hxn in Hxn'. injection Hxn' as <-. simpl in Hlen.
  unfold getDepth, deref in *. rewrite Hxn in Hd. rewrite Hcn. simpl in *.
  rewrite (getDepth_loop_up _ _ lx) in Hd by (assumption || lia).
  rewrite Hp, (getDepth_loop_up _ _ (x :: lx)) by (assumption || simpl; lia).
  injection Hd as <-. f_equal. simpl length. lia.
Qed.

Lemma calculateDepth_spec (T : DTree) (F : nat) (s : shape) :
  links_wf T -> (nextId T < F)%nat -> has_shape (heap T) s ->
  forall (fuel : nat) (d m : Z),
    (length (pre s) <= fuel)%nat ->
    getDepth F (heap T) (sroot s) = Ok d ->
    exists m',
      calculateDepth fuel (heap T) (sroot s) d m = Ok m' /\ m <= m' /\
      (forall x dx, x ∈ pre s -> getDepth F (heap T) x = Ok dx ->
                    dx <= m') /\
      (m' = m \/ exists x, x ∈ pre s /\ getDepth F (heap T) x = Ok m').
Proof.
  intros Hwf HF. induction s as [r kids IH] using shape_ind'.
  intros Hs fuel d m Hfuel Hd.
  apply has_shape_inv in Hs as (n & Hn & Hk & Hkids). simpl in *.
  destruct fuel as [|fuel]; [lia|].
  rewrite calculateDepth_S. unfold deref. rewrite Hn. simpl. rewrite Hk.
  assert (Hf : (length (flat_map pre kids) <= fuel)%nat) by lia.
  assert (Hkd : forall k, k ∈ kids ->
                  getDepth F (heap T) (sroot k) = Ok (d + 1)).
  { intros k Hin. eapply getDepth_child; eauto. exists n.
    split; [assumption|]. rewrite Hk. now apply list_elem_of_fmap_2. }
  assert (Hloop : forall m0, exists m',
    calculateDepth_children fuel (heap T) d (map sroot kids) m0 = Ok m' /\
    m0 <= m' /\
    (forall x dx, x ∈ flat_map pre kids ->
                  getDepth F (heap T) x = Ok dx -> dx <= m') /\
    (m' = m0 \/ exists x, x ∈ flat_map pre kids /\
                          getDepth F (heap T) x = Ok m')).
  { clear Hfuel Hk Hn Hd. induction IH as [|k kids Hkk _ IHk]; intros m0.
    - exists m0. simpl. split; [reflexivity|]. split; [lia|].
      split; [|now left]. intros x dx Hx. inversion Hx.
    - cbn [flat_map] in *. apply Forall_cons in Hkids as [Hsk Hkids].
      rewrite length_app in Hf.
      destruct (Hkk Hsk fuel (d + 1) m0 ltac:(lia) (Hkd k ltac:(left)))
        as (m1 & E1 & H01 & Hub1 & Hw1).
      destruct (IHk Hkids ltac:(lia)
                  (fun k' Hin => Hkd k' ltac:(now right)) m1)
        as (m2 & E2 & H12 & Hub2 & Hw2).
      exists m2. split; [|split; [lia|split]].
      { change (calculateDepth_children fuel (heap T) d
                  (map sroot (k :: kids)) m0)
          with (m ← calculateDepth fuel (heap T) (sroot k) (d + 1) m0;
                calculateDepth_children fuel (heap T) d (map sroot kids) m).
        rewrite E1. exact E2. }
      + intros x dx Hx Hdx. apply elem_of_app in Hx as [Hx|Hx].
        * specialize (Hub1 x dx Hx Hdx). lia.
        * eauto.
      + destruct Hw2 as [->|(x & Hx & Hdx)].
        * destruct Hw1 as [->|(x & Hx & Hdx)]; [now left|right].
          exists x. split; [|assumption]. apply elem_of_app. now left.
        * right. exists x. split; [|assumption]. apply elem_of_app.
          now right. }
  destruct (Hloop (Z.max m d)) as (m' & -> & Hle & Hub & Hw).
  exists m'. split; [reflexivity|]. split; [lia|]. split.
  - intros x dx Hx Hdx. apply elem_of_cons in Hx as [->|Hx].
    + rewrite Hd in Hdx. injection Hdx as <-. lia.
    + eauto.
  - destruct Hw as [->|(x & Hx & Hdx)].
    + destruct (Z.max_spec m d) as [[_ ->]|[_ ->]]; [right|now left].
      exists r. split; [left|assumption].
    + right. exists x. split; [now right|assumption].
Qed.

(** X26: in a tree built depth first [getNode] finds under an id the node
    that has this id, and no other; and [getStats] returns, given enough
    fuel: its [nodeCount] is the number of nodes that [getSubtree] lists from
    the root, which are the nodes of the tree, and its [maxDepth] is the
    greatest [getDepth] of a node. *)
Theorem getStats_built (T : DTree) :
  dfs_built T ->
  (forall k x, getNode T k = Some x <->
               exists n, heap T !! x = Some n /\ id n = k) /\
  exists fuel0, forall fuel, (fuel0 <= fuel)%nat ->
    exists st l,
      getStats fuel T = Ok st /\
      getSubtree fuel (heap T) (root T) = Ok l /\
      (forall x, x ∈ l <-> is_Some (heap T !! x)) /\
      nodeCount st = length l /\
      (forall x d, x ∈ l -> getDepth fuel (heap T) x = Ok d ->
                   d <= maxDepth st) /\
      (exists x, x ∈ l /\ getDepth fuel (heap T) x = Ok (maxDepth st)).
Proof.
  intros Hb. pose proof (dfs_built_links T Hb) as Hwf.
  pose proof (dfs_built_nodeMap T Hb) as Hnm.
  pose proof Hwf as (_ & (rn & Hrn & Hrp) & Hall).
  destruct (dfs_built_inv T Hb) as (t & Hroot & Hs & Hso & _).
  pose proof (StronglySorted_lt_NoDup _ _ Hso) as Hnd.
  assert (Hdom : forall x, x ∈ pre t <-> is_Some (heap T !! x)).
  { intros x. split; [now apply has_shape_lookup|].
    intros Hx. eapply links_wf_cover; eauto. }
  split.
  - intros k x. rewrite (Hnm k x). split.
    + intros [-> [n Hn]]. exists n. split; [assumption|]. now apply Hall.
    + intros (n & Hn & <-). split; [|eauto]. now apply Hall.
  - exists (Nat.max (length (pre t)) (S (nextId T))). intros fuel Hfuel.
    assert (Hd0 : getDepth fuel (heap T) (sroot t) = Ok 0).
    { rewrite Hroot. unfold getDepth, deref. rewrite Hrn. simpl.
      rewrite Hrp. destruct fuel; [lia|reflexivity]. }
    destruct (calculateDepth_spec T fuel t Hwf ltac:(lia) Hs fuel 0 0
                ltac:(lia) Hd0) as (m' & Hc & H0 & Hub & Hw).
    exists (mkStats (size (nodeMap T)) m' (size (xref T))), (pre t).
    unfold getStats. rewrite <- Hroot, Hc. simpl.
    split; [reflexivity|].
    split; [apply getSubtree_spec; [assumption|lia]|].
    split; [assumption|]. split; [|split; [assumption|]].
    + rewrite <- size_dom, <- (size_list_to_set (C := gset nat)) by assumption.
      f_equal. apply set_eq. intros k.
      rewrite elem_of_dom, elem_of_list_to_set, Hdom.
      unfold is_Some. split.
      * intros [x Hx]. apply Hnm in Hx as [<- ?]. assumption.
      * intros Hk. exists k. now apply Hnm.
    + destruct Hw as [->|Hw]; [|assumption].
      exists (sroot t). split; [apply sroot_in_pre|assumption].
Qed.

(** ** [addNode]: insertion after a sibling and at the front *)

Lemma linked_insert (h h' : gmap ref DTreeNode) (prev : option ref)
  (l1 l2 : list ref) (r : ref) :
  linked h prev (l1 ++ l2) -> NoDup (l1 ++ l2) -> r ∉ l1 ++ l2 ->
  sview <$> h' !! r
  = Some (match last l1 with Some a => Some a | None => prev end, head l2) ->
  (forall x, x ∈ l1 ++ l2 ->
     sview <$> h' !! x = inserted_sview l1 l2 r x <$> h !! x) ->
  linked h' prev (l1 ++ r :: l2).
Proof.
  revert prev. induction l1 as [|c l1 IH]; intros prev Hl Hnd Hr Hvr Hv.
  - simpl in Hl, Hnd, Hr, Hvr |- *.
    destruct (h' !! r) as [rn|] eqn:Hrn; [|discriminate].
    injection Hvr as E1 E2. split; [eauto|].
    destruct l2 as [|nx l2]; [exact I|].
    destruct Hl as [(nxn & Hnx & Hp & Hnxt) Hl].
    apply NoDup_cons in Hnd as [Hnx2 Hnd].
    assert (Ei : inserted_sview [] (nx :: l2) r nx nxn
                 = (Some r, nextSibling nxn)).
    { unfold inserted_sview. cbn [head last].
      rewrite decide_True by reflexivity.
      now rewrite decide_False by discriminate. }
    pose proof (Hv nx ltac:(left)) as Hvn. rewrite Hnx in Hvn.
    cbn [fmap option_fmap option_map] in Hvn. rewrite Ei in Hvn.
    destruct (h' !! nx) as [nxn'|] eqn:Hnx'; [|discriminate].
    injection Hvn as F1 F2. split.
    { exists nxn'. split; [assumption|]. split; congruence. }
    apply linked_ext with h; [|assumption].
    intros x Hx. rewrite Hv by now right.
    destruct (h !! x) as [xn|]; [|reflexivity].
    cbn [fmap option_fmap option_map]. f_equal.
    unfold inserted_sview, sview. cbn [head last].
    rewrite decide_False by (intros [= ->]; tauto).
    now rewrite decide_False by discriminate.
  - simpl in Hl, Hnd, Hr |- *. destruct Hl as [(cn & Hc & Hp & Hnxt) Hl].
    apply NoDup_cons in Hnd as [Hc2 Hnd].
    apply not_elem_of_cons in Hr as [Hrc Hr].
    assert (Hh : head l2 <> Some c).
    { intros E. apply Hc2, elem_of_app. right.
      destruct l2; [discriminate|]. injection E as ->. left. }
    assert (Ei : inserted_sview (c :: l1) l2 r c cn
                 = (prevSibling cn, head (l1 ++ r :: l2))).
    { unfold inserted_sview. rewrite decide_False by assumption. f_equal.
      destruct l1 as [|z l1].
      - cbn [last]. now rewrite decide_True.
      - rewrite last_cons_cons. rewrite decide_False.
        + rewrite Hnxt. reflexivity.
        + intros E. apply Hc2, elem_of_app. left.
          now apply last_Some_elem_of. }
    pose proof (Hv c ltac:(left)) as Hvc. rewrite Hc in Hvc.
    cbn [fmap option_fmap option_map] in Hvc. rewrite Ei in Hvc.
    destruct (h' !! c) as [cn'|] eqn:Hc'; [|discriminate].
    injection Hvc as F1 F2. split.
    + exists cn'. split; [reflexivity|]. split; congruence.
    + apply IH; try assumption.
      * rewrite Hvr. f_equal. f_equal. destruct l1 as [|z l1];
          [reflexivity|]. rewrite last_cons_cons.
        destruct (last (z :: l1)) eqn:E; [reflexivity|].
        apply last_None in E. discriminate.
      * intros x Hx. rewrite Hv by now right.
        destruct (h !! x) as [xn|]; [|reflexivity].
        cbn [fmap option_fmap option_map]. f_equal.
        unfold inserted_sview. f_equal.
        destruct l1 as [|z l1]; [|reflexivity]. cbn [last].
        rewrite decide_False by (intros [= ->]; tauto).
        now rewrite decide_False by discriminate.
Qed.

Lemma splice_insert {A : Type} (l1 l2 : list A) (x : A) :
  splice (l1 ++ l2) (Z.of_nat (length l1)) 0 [x] = l1 ++ x :: l2.
Proof.
  unfold splice. destruct (Z.ltb_spec (Z.of_nat (length l1)) 0); [lia|].
  rewrite length_app, Z.min_l, Nat2Z.id, Nat.add_0_r by lia.
  now rewrite take_app_length, drop_app_length.
Qed.

Lemma inserted_sview_after (l1 l2 : list ref) (a r x : ref)
  (ab : option ref * option ref) (xn : DTreeNode) :
  sview xn = ab ->
  (fun ab => (fst ab, if decide (a = x) then Some r else snd ab))
    (match head l2 with
     | Some nx => (if decide (nx = x) then Some r else fst ab, snd ab)
     | None => ab
     end)
  = inserted_sview (l1 ++ [a]) l2 r x xn.
Proof.
  intros <-. unfold inserted_sview, sview. rewrite last_snoc.
  destruct (head l2) as [nx|]; simpl; repeat case_decide; simplify_eq;
    reflexivity.
Qed.

Lemma addNode_after (T : DTree) (p : ref) (d : dref)
  (pn : DTreeNode) (l1 l2 : list ref) (a : ref) :
  heap T !! p = Some pn -> children pn = (l1 ++ [a]) ++ l2 ->
  NoDup (children pn) -> linked (heap T) None (children pn) ->
  heap T !! nextId T = None ->
  exists T',
    addNode T p d (Some a) = Ok (T', nextId T) /\
    nextId T' = S (nextId T) /\ root T' = root T /\ xref T' = xref T /\
    links <$> heap T' !! nextId T
    = Some (nextId T, Some p, [], (Some a, head l2)) /\
    children <$> heap T' !! p = Some ((l1 ++ [a]) ++ nextId T :: l2) /\
    (forall x, x <> nextId T ->
               idp <$> heap T' !! x = idp <$> heap T !! x) /\
    (forall x, x <> nextId T -> x <> p ->
               children <$> heap T' !! x = children <$> heap T !! x) /\
    (forall x, x <> nextId T ->
       sview <$> heap T' !! x
       = inserted_sview (l1 ++ [a]) l2 (nextId T) x <$> heap T !! x).
Proof.
  intros Hp Hc Hnd Hl Hnew. set (r := nextId T) in *.
  assert (Hpr : r <> p) by (intros E; rewrite E, Hp in Hnew; discriminate).
  rewrite Hc in Hl, Hnd. rewrite <- app_assoc in Hl, Hnd. simpl in Hl, Hnd.
  destruct (linked_lookup _ _ _ a Hl) as [an Ha].
  { rewrite elem_of_app. right. left. }
  assert (Har : r <> a) by (intros E; rewrite E, Ha in Hnew; discriminate).
  destruct (linked_at _ _ _ _ _ _ Hl Ha) as [_ Enx].
  assert (Ha1 : a ∉ l1).
  { apply NoDup_app in Hnd as (_ & Hd & _). intros Hx.
    apply (Hd a Hx). left. }
  unfold addNode, calculateChildIndices, deref. rewrite Hp. simpl.
  rewrite bool_decide_eq_false_2
    by (rewrite Hc, !length_app; simpl; lia).
  rewrite Ha. simpl. fold r.
  rewrite lookup_insert_ne, Ha by assumption. simpl. rewrite Enx.
  match goal with
  | |- context [alter (set_nextSibling (Some r)) a ?H] =>
      set (h2 := H); set (h3 := alter (set_nextSibling (Some r)) a h2)
  end.
  assert (Hnxr : forall nx, head l2 = Some nx -> nx <> r).
  { intros nx E Enr. destruct l2 as [|z l2]; [discriminate|].
    injection E as ->.
    destruct (linked_lookup _ _ _ nx Hl) as [? Hr];
      [rewrite elem_of_app; right; right; left|].
    rewrite Enr in Hr. congruence. }
  assert (Hv3 : forall {B : Type} (g : DTreeNode -> B) x,
            (forall v n, g (set_nextSibling v n) = g n) ->
            (forall v n, g (set_prevSibling v n) = g n) ->
            x <> r -> g <$> h3 !! x = g <$> heap T !! x).
  { intros B g x G1 G2 Hx. unfold h3, h2.
    rewrite lookup_alter_view by auto.
    destruct (head l2) as [nx|].
    - rewrite lookup_alter_view by auto.
      now rewrite lookup_alter_ne, lookup_insert_ne by auto.
    - now rewrite lookup_alter_ne, lookup_insert_ne by auto. }
  assert (Hp3 : children <$> h3 !! p = Some (children pn)).
  { rewrite (Hv3 _ children) by auto. now rewrite Hp. }
  destruct (h3 !! p) as [pn3|] eqn:Hpn3; [|discriminate].
  injection Hp3 as Hp3. simpl. rewrite Hp3, Hc.
  rewrite <- app_assoc. simpl.
  rewrite indexOf_app by assumption.
  replace (l1 ++ a :: l2) with ((l1 ++ [a]) ++ l2)
    by now rewrite <- app_assoc.
  replace (Z.of_nat (length l1) + 1) with (Z.of_nat (length (l1 ++ [a])))
    by (rewrite length_app; simpl; lia).
  rewrite splice_insert.
  eexists. split; [reflexivity|]. simpl.
  split; [reflexivity|]. split; [reflexivity|]. split; [reflexivity|].
  split; [|split; [|split; [|split]]].
  - rewrite lookup_alter_ne by auto. unfold h3.
    rewrite lookup_alter_ne by auto. unfold h2.
    destruct (head l2) as [nx|] eqn:Eh.
    + rewrite lookup_alter_ne by (apply Hnxr; reflexivity).
      now rewrite lookup_alter_eq, lookup_insert_eq.
    + now rewrite lookup_alter_eq, lookup_insert_eq.
  - now rewrite lookup_alter_eq, Hpn3.
  - intros x Hx. rewrite lookup_alter_view by reflexivity.
    now apply (Hv3 _ idp).
  - intros x Hx Hxp. rewrite lookup_alter_ne by auto.
    now apply (Hv3 _ children).
  - intros x Hx. rewrite lookup_alter_view by reflexivity. unfold h3, h2.
    rewrite sview_alter_next.
    destruct (head l2) as [nx|] eqn:Eh.
    + rewrite sview_alter_prev.
      rewrite lookup_alter_ne, lookup_insert_ne by auto.
      destruct (heap T !! x) as [xn|]; [|reflexivity]. simpl. f_equal.
      rewrite <- (inserted_sview_after l1 l2 a r x (sview xn) xn eq_refl).
      now rewrite Eh.
    + rewrite lookup_alter_ne, lookup_insert_ne by auto.
      destruct (heap T !! x) as [xn|]; [|reflexivity]. simpl. f_equal.
      rewrite <- (inserted_sview_after l1 l2 a r x (sview xn) xn eq_refl).
      now rewrite Eh.
Qed.

Lemma addNode_front (T : DTree) (p : ref) (d : dref)
  (pn : DTreeNode) :
  heap T !! p = Some pn ->
  linked (heap T) None (children pn) ->
  heap T !! nextId T = None ->
  exists T',
    addNode T p d None = Ok (T', nextId T) /\
    nextId T' = S (nextId T) /\ root T' = root T /\ xref T' = xref T /\
    links <$> heap T' !! nextId T
    = Some (nextId T, Some p, [], (None, head (children pn))) /\
    children <$> heap T' !! p = Some ([] ++ nextId T :: children pn) /\
    (forall x, x <> nextId T ->
               idp <$> heap T' !! x = idp <$> heap T !! x) /\
    (forall x, x <> nextId T -> x <> p ->
               children <$> heap T' !! x = children <$> heap T !! x) /\
    (forall x, x <> nextId T ->
       sview <$> heap T' !! x
       = inserted_sview [] (children pn) (nextId T) x <$> heap T !! x).
Proof.
  intros Hp Hl Hnew. set (r := nextId T) in *.
  assert (Hpr : r <> p) by (intros E; rewrite E, Hp in Hnew; discriminate).
  unfold addNode, calculateChildIndices, deref. rewrite Hp. simpl. fold r.
  rewrite lookup_insert_ne, Hp by assumption. simpl.
  match goal with
  | |- context [match children pn with
                | [] => ?H0
                | firstChild :: _ => @?H1 firstChild
                end] =>
      set (h1 := match children pn with
                 | [] => H0
                 | firstChild :: _ => H1 firstChild
                 end)
  end.
  assert (Hfr : forall fc, head (children pn) = Some fc -> fc <> r).
  { intros fc E Efr. destruct (children pn) as [|z cs]; [discriminate|].
    injection E as ->.
    destruct (linked_lookup _ _ _ fc Hl) as [? Hr]; [left|].
    rewrite Efr in Hr. congruence. }
  assert (Hv1 : forall {B : Type} (g : DTreeNode -> B) x,
            (forall v n, g (set_nextSibling v n) = g n) ->
            (forall v n, g (set_prevSibling v n) = g n) ->
            x <> r -> g <$> h1 !! x = g <$> heap T !! x).
  { intros B g x G1 G2 Hx. unfold h1.
    destruct (children pn) as [|fc cs].
    - now rewrite lookup_insert_ne by auto.
    - rewrite !lookup_alter_view by auto.
      now rewrite lookup_insert_ne by auto. }
  assert (Hp1 : children <$> h1 !! p = Some (children pn)).
  { rewrite (Hv1 _ children) by auto. now rewrite Hp. }
  destruct (h1 !! p) as [pn1|] eqn:Hpn1; [|discriminate].
  injection Hp1 as Hp1. simpl. rewrite Hp1.
  eexists. split; [reflexivity|]. simpl.
  split; [reflexivity|]. split; [reflexivity|]. split; [reflexivity|].
  split; [|split; [|split; [|split]]].
  - rewrite lookup_alter_ne by auto. unfold h1.
    destruct (children pn) as [|fc cs] eqn:Ec.
    + now rewrite lookup_insert_eq.
    + rewrite lookup_alter_ne by (apply Hfr; reflexivity).
      now rewrite lookup_alter_eq, lookup_insert_eq.
  - now rewrite lookup_alter_eq, Hpn1.
  - intros x Hx. rewrite lookup_alter_view by reflexivity.
    now apply (Hv1 _ idp).
  - intros x Hx Hxp. rewrite lookup_alter_ne by auto.
    now apply (Hv1 _ children).
  - intros x Hx. rewrite lookup_alter_view by reflexivity. unfold h1.
    destruct (children pn) as [|fc cs] eqn:Ec.
    + rewrite lookup_insert_ne by auto.
      destruct (heap T !! x) as [xn|]; [|reflexivity]. simpl.
      f_equal; unfold inserted_sview, sview; simpl;
        repeat case_decide; simplify_eq; reflexivity.
    + rewrite sview_alter_prev.
      rewrite lookup_alter_ne, lookup_insert_ne by auto.
      destruct (heap T !! x) as [xn|]; [|reflexivity]. simpl.
      f_equal; unfold inserted_sview, sview; simpl;
        repeat case_decide; simplify_eq; reflexivity.
Qed.

Lemma links_wf_insert (T T' : DTree) (p : ref) (pn : DTreeNode)
  (l1 l2 : list ref) :
  links_wf T -> heap T !! p = Some pn -> children pn = l1 ++ l2 ->
  nextId T' = S (nextId T) -> root T' = root T ->
  links <$> heap T' !! nextId T
  = Some (nextId T, Some p, [], (last l1, head l2)) ->
  children <$> heap T' !! p = Some (l1 ++ nextId T :: l2) ->
  (forall x, x <> nextId T -> idp <$> heap T' !! x = idp <$> heap T !! x) ->
  (forall x, x <> nextId T -> x <> p ->
             children <$> heap T' !! x = children <$> heap T !! x) ->
  (forall x, x <> nextId T ->
     sview <$> heap T' !! x
     = inserted_sview l1 l2 (nextId T) x <$> heap T !! x) ->
  links_wf T' /\ linked (heap T') None (l1 ++ nextId T :: l2).
Proof.
  intros (Hfresh & (rn & Hrn & Hrp) & Hall) Hpn Hc Hnext Hroot
    Hlr Hcp Hix Hcx Hsx.
  set (r := nextId T) in *.
  destruct (Hall p pn Hpn) as (Hid & _ & Hpp & Hnd & Hl & Hch).
  pose proof (Hfresh _ (le_n _)) as Hnew. fold r in Hnew.
  assert (Hold : forall x, is_Some (heap T !! x) -> x <> r).
  { intros x [? Hx] ->. rewrite Hnew in Hx. discriminate. }
  assert (Hrc : r ∉ children pn).
  { intros Hin. apply (linked_lookup _ _ _ _ Hl) in Hin.
    now apply Hold in Hin. }
  assert (Hl' : linked (heap T') None (l1 ++ r :: l2)).
  { rewrite Hc in Hl, Hnd, Hrc.
    apply (linked_insert (heap T)); try assumption.
    - destruct (heap T' !! r) as [rn'|]; [|discriminate].
      injection Hlr as _ _ _ E1 E2. simpl. unfold sview.
      rewrite E1, E2. now destruct (last l1).
    - intros x Hx. apply Hsx.
      intros ->. tauto. }
  split; [|assumption].
  assert (Hsame : forall x, x <> r -> x ∉ children pn ->
            sview <$> heap T' !! x = sview <$> heap T !! x).
  { intros x Hx Hxc. rewrite Hsx by assumption.
    destruct (heap T !! x) as [xn|]; [|reflexivity]. simpl. f_equal.
    unfold inserted_sview, sview. rewrite Hc in Hxc.
    rewrite !decide_False; [reflexivity| |].
    - intros E. apply Hxc, elem_of_app. left. now apply last_Some_elem_of.
    - intros E. apply Hxc, elem_of_app. right.
      destruct l2; [discriminate|]. injection E as ->. left. }
  assert (Hkids : forall x n', x <> r -> heap T' !! x = Some n' ->
            exists n, heap T !! x = Some n /\ id n' = id n /\
                      parent n' = parent n /\
                      (x <> p -> children n' = children n)).
  { intros x n' Hx Hn'.
    destruct (fmap_lookup_inv _ _ _ _ _ (Hix x Hx) Hn') as (n & Hn & E).
    injection E as E1 E2. exists n. repeat split; auto.
    intros Hxp. specialize (Hcx x Hx Hxp). rewrite Hn', Hn in Hcx.
    now injection Hcx. }
  destruct (heap T' !! p) as [pn'|] eqn:Hpn'; [|discriminate].
  injection Hcp as Hpc.
  assert (Hin' : forall x, x ∈ l1 ++ r :: l2 <-> x = r \/ x ∈ children pn).
  { intros x. rewrite Hc, !elem_of_app, elem_of_cons. tauto. }
  split; [|split].
  - intros x Hx. rewrite Hnext in Hx.
    assert (Hxr : x <> r) by (unfold r; lia).
    specialize (Hix x Hxr). rewrite (Hfresh x) in Hix by lia.
    now destruct (heap T' !! x).
  - rewrite Hroot.
    specialize (Hix (root T) (Hold _ (mk_is_Some _ _ Hrn))).
    rewrite Hrn in Hix.
    destruct (heap T' !! root T) as [rn'|]; [|discriminate].
    injection Hix as E1 E2. exists rn'. split; congruence.
  - intros x n' Hn'. rewrite Hroot.
    destruct (decide (x = r)) as [->|Hxr].
    + rewrite Hn' in Hlr. injection Hlr as E1 E2 E3 _ _.
      rewrite E1, E2, E3.
      split; [reflexivity|]. split; [discriminate|]. split.
      * intros ? [= <-]. split.
        { destruct (le_lt_dec (nextId T) p) as [Hle|]; [|assumption].
          rewrite (Hfresh p Hle) in Hpn. discriminate. }
        exists pn'. split; [assumption|].
        rewrite Hpc. apply Hin'. now left.
      * split; [constructor|]. split; [exact I|].
        intros c cn Hc0. inversion Hc0.
    + destruct (Hkids x n' Hxr Hn') as (n & Hn & E1 & E2 & E3).
      destruct (Hall x n Hn) as (Hid' & Hp0 & Hpp' & Hnd' & Hl0 & Hch').
      rewrite E1, E2. split; [assumption|]. split; [assumption|]. split.
      * intros q Hq. destruct (Hpp' q Hq) as (Hlt & qn & Hqn & Hin).
        split; [assumption|].
        destruct (decide (q = p)) as [->|Hqp].
        -- exists pn'. split; [assumption|]. rewrite Hpc. apply Hin'.
           right. congruence.
        -- assert (Hqr : q <> r) by (apply Hold; eauto).
           specialize (Hcx q Hqr Hqp). rewrite Hqn in Hcx.
           destruct (heap T' !! q) as [qn'|]; [|discriminate].
           injection Hcx as F. exists qn'. split; congruence.
      * destruct (decide (x = p)) as [->|Hxp].
        -- rewrite Hpn' in Hn'. injection Hn' as <-. rewrite Hpc.
           split; [|split; [assumption|]].
           { rewrite Hc in Hnd, Hrc. apply NoDup_app in Hnd as (N1 & N2 & N3).
             apply NoDup_app. split; [assumption|]. split.
             - intros y Hy Hy'. apply elem_of_cons in Hy' as [->|Hy'].
               + apply Hrc, elem_of_app. now left.
               + now apply (N2 y).
             - constructor; [|assumption]. intros Hy.
               apply Hrc, elem_of_app. now right. }
           intros c cn' Hc0 Hcn'. apply Hin' in Hc0 as [->|Hc0].
           ++ rewrite Hcn' in Hlr. now injection Hlr.
           ++ assert (Hcr : c <> r)
                by (apply Hold, (linked_lookup _ _ _ _ Hl Hc0)).
              destruct (Hkids c cn' Hcr Hcn') as (cn & Hcn & _ & F & _).
              rewrite F. eauto.
        -- rewrite (E3 Hxp). split; [assumption|]. split.
           ++ apply linked_ext with (heap T); [|assumption].
              intros c Hc0. apply Hsame.
              ** apply Hold, (linked_lookup _ _ _ _ Hl0 Hc0).
              ** intros Hc'.
                 destruct (linked_lookup _ _ _ _ Hl0 Hc0) as [cn Hcn].
                 pose proof (Hch' c cn Hc0 Hcn) as F1.
                 pose proof (Hch c cn Hc' Hcn) as F2. congruence.
           ++ intros c cn' Hc0 Hcn'.
              assert (Hcr : c <> r)
                by (apply Hold, (linked_lookup _ _ _ _ Hl0 Hc0)).
              destruct (Hkids c cn' Hcr Hcn') as (cn & Hcn & _ & F & _).
              rewrite F. eauto.
Qed.

Lemma NoDup_split_eq (l1 l2 la lb : list ref) (x : ref) :
  NoDup (l1 ++ x :: l2) -> l1 ++ x :: l2 = la ++ x :: lb ->
  l1 = la /\ l2 = lb.
Proof.
  revert la. induction l1 as [|y l1 IH]; intros la Hnd E.
  - destruct la as [|z la]; simpl in E.
    + injection E as ->. auto.
    + injection E as <- ->. apply NoDup_cons in Hnd as [Hx _].
      exfalso. apply Hx, elem_of_app. right. left.
  - destruct la as [|z la]; simpl in E.
    + injection E as -> <-. apply NoDup_cons in Hnd as [Hx _].
      exfalso. apply Hx, elem_of_app. right. left.
    + injection E as <- E. apply NoDup_cons in Hnd as [_ Hnd].
      destruct (IH la Hnd E) as [-> ->]. auto.
Qed.

(** X27: [addNode] in a tree with consistent links, where the [children] of
    the parent are [l1 ++ l2] and [afterSibling] is the last of [l1]
    ([undefined] when [l1] is empty, which inserts at the front): it
    returns a fresh node, which stands between [l1] and [l2] in the
    [children] of the parent, with the parent as [parent], no children, the
    last of [l1] as previous and the first of [l2] as next sibling; the links
    of the tree are consistent again.  [removeNode] on the new node then
    gives the parent its former [children] back, linked as siblings. *)
Theorem addNode_links (T : DTree) (p : ref) (d : dref)
  (pn : DTreeNode) (l1 l2 : list ref) :
  links_wf T -> heap T !! p = Some pn -> children pn = l1 ++ l2 ->
  exists T' r pn' rn,
    addNode T p d (last l1) = Ok (T', r) /\
    heap T !! r = None /\ links_wf T' /\
    heap T' !! p = Some pn' /\ children pn' = l1 ++ r :: l2 /\
    heap T' !! r = Some rn /\ parent rn = Some p /\ children rn = [] /\
    prevSibling rn = last l1 /\ nextSibling rn = head l2 /\
    exists fuel0, forall fuel, (fuel0 <= fuel)%nat ->
      exists T'' pn'',
        removeNode fuel T' r = Ok T'' /\ heap T'' !! p = Some pn'' /\
        children pn'' = children pn /\
        linked (heap T'') None (children pn).
Proof.
  intros Hwf Hp Hc. pose proof Hwf as (Hfresh & _ & Hall).
  destruct (Hall p pn Hp) as (_ & _ & _ & Hnd & Hl & _).
  pose proof (Hfresh _ (le_n _)) as Hnew.
  assert (Hadd : exists T',
    addNode T p d (last l1) = Ok (T', nextId T) /\
    nextId T' = S (nextId T) /\ root T' = root T /\ xref T' = xref T /\
    links <$> heap T' !! nextId T
    = Some (nextId T, Some p, [], (last l1, head l2)) /\
    children <$> heap T' !! p = Some (l1 ++ nextId T :: l2) /\
    (forall x, x <> nextId T ->
               idp <$> heap T' !! x = idp <$> heap T !! x) /\
    (forall x, x <> nextId T -> x <> p ->
               children <$> heap T' !! x = children <$> heap T !! x) /\
    (forall x, x <> nextId T ->
       sview <$> heap T' !! x
       = inserted_sview l1 l2 (nextId T) x <$> heap T !! x)).
  { destruct (last l1) as [a|] eqn:Hlast.
    - apply last_Some in Hlast as [l1' ->].
      now apply addNode_after with pn.
    - apply last_None in Hlast as ->. simpl in Hc. rewrite <- Hc.
      now apply addNode_front. }
  destruct Hadd as (T' & Hadd & Hnext & Hroot & _ & Hlr & Hcp & Hix & Hcx
                    & Hsx).
  destruct (links_wf_insert T T' p pn l1 l2 Hwf Hp Hc Hnext Hroot Hlr Hcp
              Hix Hcx Hsx) as [Hwf' Hl'].
  destruct (heap T' !! p) as [pn'|] eqn:Hpn'; [|discriminate].
  destruct (heap T' !! nextId T) as [rn|] eqn:Hrn; [|discriminate].
  injection Hcp as Hcp. injection Hlr as E1 E2 E3 E4 E5.
  exists T', (nextId T), pn', rn. repeat (split; [assumption|]).
  pose proof Hwf' as (_ & _ & Hall').
  destruct (Hall' p pn' Hpn') as (_ & _ & _ & Hnd' & Hlp' & _).
  destruct (removeNode_attached T' (nextId T) rn p pn' (Sh (nextId T) []))
    as [fuel0 Hrm]; try assumption; try reflexivity.
  { repeat split; try assumption. rewrite Hcp, elem_of_app. right. left. }
  { eapply has_shape_node; [eassumption|now rewrite E3|constructor]. }
  exists fuel0. intros fuel Hfuel.
  destruct (Hrm fuel Hfuel)
    as (T'' & Hre & (pn'' & la & lb & Hpn'' & F1 & F2 & _ & Hl'') & _).
  exists T'', pn''. split; [assumption|]. split; [assumption|].
  rewrite Hcp in F1, Hnd'.
  destruct (NoDup_split_eq _ _ _ _ _ Hnd' F1) as [<- <-].
  rewrite Hc, <- F2. auto.
Qed.

(** ** The cross-reference *)

Lemma set_add_elem (s : list ref) (x y : ref) :
  y ∈ set_add s x <-> y ∈ s \/ y = x.
Proof.
  unfold set_add. destruct (decide (x ∈ s)) as [Hin|Hin].
  - split; [now left|]. intros [?| ->]; assumption.
  - rewrite elem_of_app, list_elem_of_singleton. tauto.
Qed.

Lemma set_add_NoDup (s : list ref) (x : ref) :
  NoDup s -> NoDup (set_add s x).
Proof.
  intros Hnd. unfold set_add. destruct (decide (x ∈ s)) as [Hin|Hin];
    [assumption|].
  apply NoDup_app. split; [assumption|]. split; [|apply NoDup_singleton].
  intros y Hy Hy'. apply list_elem_of_singleton in Hy' as ->. tauto.
Qed.

Lemma add_lookup (ix : gmap string (list ref)) (token : string)
  (node : ref) :
  TokenXref.add ix token node !! trim (toLowerCase token)
  = Some (set_add (TokenXref.get ix token) node).
Proof.
  unfold TokenXref.add, TokenXref.get. rewrite lookup_alter_eq.
  destruct (ix !! trim (toLowerCase token)) as [l|] eqn:E.
  - now rewrite E.
  - now rewrite lookup_insert_eq.
Qed.

(** X28: the cross-reference, whatever [toLowerCase] and [trim] do.  After
    [add] of a node under a token, [has] holds for the token and [get]
    lists, under every token that [toLowerCase] and [trim] send to the same
    string, the node next to what it listed before; [get] lists no node
    twice when it did not before; adding the node again changes nothing;
    [removeNode] of the node takes it out of every list and leaves the
    other nodes; and [removeNode] never removes a token: [has] is as
    before. *)
Theorem TokenXref_laws (ix : gmap string (list ref)) (token : string)
  (node : ref) :
  TokenXref.has (TokenXref.add ix token node) token = true /\
  (forall token' x,
     x ∈ TokenXref.get (TokenXref.add ix token node) token' <->
     x ∈ TokenXref.get ix token' \/
     (x = node /\ trim (toLowerCase token) = trim (toLowerCase token'))) /\
  (forall token', NoDup (TokenXref.get ix token') ->
     NoDup (TokenXref.get (TokenXref.add ix token node) token')) /\
  TokenXref.add (TokenXref.add ix token node) token node
  = TokenXref.add ix token node /\
  (forall token' x,
     x ∈ TokenXref.get
           (TokenXref.removeNode (TokenXref.add ix token node) node) token'
     <-> x ∈ TokenXref.get ix token' /\ x <> node) /\
  (forall token',
     TokenXref.has (TokenXref.removeNode (TokenXref.add ix token node) node)
                   token'
     = TokenXref.has (TokenXref.add ix token node) token').
Proof.
  split; [|split; [|split; [|split; [|split]]]].
  - unfold TokenXref.has. rewrite add_lookup.
    now apply bool_decide_eq_true.
  - intros token' x. apply get_add.
  - intros token' Hnd.
    destruct (decide (trim (toLowerCase token) = trim (toLowerCase token')))
      as [E|E].
    + unfold TokenXref.get at 1. rewrite <- E, add_lookup.
      apply set_add_NoDup. unfold TokenXref.get in *. now rewrite E.
    + unfold TokenXref.get at 1. unfold TokenXref.add.
      rewrite lookup_alter_ne by assumption.
      destruct (ix !! trim (toLowerCase token)).
      * exact Hnd.
      * rewrite lookup_insert_ne by assumption. exact Hnd.
  - apply map_eq. intros k.
    destruct (decide (trim (toLowerCase token) = k)) as [<-|E].
    + rewrite !add_lookup. f_equal. unfold TokenXref.get at 1.
      rewrite add_lookup. unfold set_add at 1.
      rewrite decide_True; [reflexivity|]. apply set_add_elem. now right.
    + unfold TokenXref.add at 1. rewrite lookup_alter_ne by assumption.
      now rewrite add_lookup.
  - intros token' x. rewrite get_removeNode, elem_of_set_delete, get_add.
    split; [|tauto]. intros [[?|[? _]] ?]; [tauto|contradiction].
  - intros token'. unfold TokenXref.has, TokenXref.removeNode.
    rewrite lookup_fmap. apply bool_decide_ext. apply fmap_is_Some.
Qed.

(** ** The parsers build in complete-subtree order *)

Import HtmlParser.

Lemma on_last_path_trans (h : gmap ref DTreeNode) (x y z : ref) :
  on_last_path h x y -> on_last_path h y z -> on_last_path h x z.
Proof.
  induction 1 as [|x c y n Hn Hlast Hp IH]; [auto|].
  intros Hz. eapply on_last_path_down; eauto.
Qed.

Lemma on_last_path_lookup (T : DTree) (x p : ref) :
  links_wf T -> on_last_path (heap T) x p -> is_Some (heap T !! x) ->
  is_Some (heap T !! p) /\ (x <= p)%nat.
Proof.
  intros (_ & _ & Hall). induction 1 as [|x c p n Hn Hlast Hp IH];
    [auto|]. intros _.
  destruct (Hall x n Hn) as (_ & _ & _ & _ & Hl & Hch).
  assert (Hc : c ∈ children n) by now apply last_Some_elem_of.
  destruct (linked_lookup _ _ _ _ Hl Hc) as [cn Hcn].
  destruct (IH (mk_is_Some _ _ Hcn)) as [Hp' Hle]. split; [assumption|].
  destruct (Hall c cn Hcn) as (_ & _ & Hpp & _).
  destruct (Hpp x (Hch c cn Hc Hcn)) as [Hlt _]. lia.
Qed.

Lemma on_last_path_frame (T : DTree) (h' : gmap ref DTreeNode)
  (x y p : ref) :
  links_wf T ->
  (forall z, z <> p -> is_Some (heap T !! z) ->
             children <$> h' !! z = children <$> heap T !! z) ->
  is_Some (heap T !! x) ->
  on_last_path (heap T) x y -> on_last_path (heap T) y p ->
  on_last_path h' x y.
Proof.
  intros Hwf Hv Hx Hxy Hyp. pose proof Hwf as (_ & _ & Hall).
  induction Hxy as [|x c y n Hn Hlast Hcy IH]; [constructor|].
  destruct (Hall x n Hn) as (_ & _ & _ & _ & Hl & Hch).
  assert (Hc : c ∈ children n) by now apply last_Some_elem_of.
  destruct (linked_lookup _ _ _ _ Hl Hc) as [cn Hcn].
  destruct (Hall c cn Hcn) as (_ & _ & Hpp & _).
  destruct (Hpp x (Hch c cn Hc Hcn)) as [Hlt _].
  destruct (on_last_path_lookup T c y Hwf Hcy) as [Hy Hle1]; [eauto|].
  destruct (on_last_path_lookup T y p Hwf Hyp Hy) as [_ Hle2].
  assert (Hxp : x <> p) by lia.
  specialize (Hv x Hxp Hx). rewrite Hn in Hv.
  destruct (h' !! x) as [n'|] eqn:Hn'; [|discriminate].
  injection Hv as Hv.
  apply on_last_path_down with c n'; [assumption|congruence|].
  apply IH; eauto.
Qed.

Lemma chain_last (h : gmap ref DTreeNode) (s : ref) (stack : list ref)
  (cur : ref) :
  chain h s stack -> last (s :: stack) = Some cur -> on_last_path h s cur.
Proof.
  revert s. induction stack as [|s' stack IH]; intros s Hc Hl.
  - injection Hl as ->. constructor.
  - destruct Hc as [H1 H2]. rewrite last_cons_cons in Hl.
    eapply on_last_path_trans; eauto.
Qed.

Lemma chain_frame (T : DTree) (h' : gmap ref DTreeNode) (s : ref)
  (stack : list ref) (p : ref) :
  links_wf T ->
  (forall z, z <> p -> is_Some (heap T !! z) ->
             children <$> h' !! z = children <$> heap T !! z) ->
  is_Some (heap T !! s) ->
  chain (heap T) s stack -> last (s :: stack) = Some p ->
  chain h' s stack.
Proof.
  intros Hwf Hv. revert s. induction stack as [|s' stack IH];
    intros s Hs Hc Hl; [exact I|].
  destruct Hc as [H1 H2]. rewrite last_cons_cons in Hl.
  destruct (on_last_path_lookup T s s' Hwf H1 Hs) as [Hs' _].
  split.
  - eapply on_last_path_frame; eauto. eapply chain_last; eauto.
  - apply IH; assumption.
Qed.

Lemma chain_snoc (h : gmap ref DTreeNode) (s : ref) (stack : list ref)
  (p r : ref) :
  chain h s stack -> last (s :: stack) = Some p -> on_last_path h p r ->
  chain h s (stack ++ [r]).
Proof.
  revert s. induction stack as [|s' stack IH]; intros s Hc Hl Hr.
  - injection Hl as ->. simpl. auto.
  - destruct Hc as [H1 H2]. rewrite last_cons_cons in Hl.
    split; [assumption|]. now apply IH.
Qed.

Lemma chain_removelast (h : gmap ref DTreeNode) (s : ref)
  (stack : list ref) :
  chain h s stack -> chain h s (removelast stack).
Proof.
  revert s. induction stack as [|s' stack IH]; intros s Hc; [exact I|].
  destruct Hc as [H1 H2]. destruct stack as [|s'' stack]; [exact I|].
  split; [assumption|]. now apply IH.
Qed.

Lemma on_last_path_ext (h h' : gmap ref DTreeNode) (x y : ref) :
  (forall z, is_Some (h !! z) ->
             children <$> h' !! z = children <$> h !! z) ->
  on_last_path h x y -> on_last_path h' x y.
Proof.
  intros Hv. induction 1 as [|x c y n Hn Hlast Hcy IH]; [constructor|].
  specialize (Hv x (mk_is_Some _ _ Hn)). rewrite Hn in Hv.
  destruct (h' !! x) as [n'|] eqn:Hn'; [|discriminate].
  injection Hv as Hv.
  apply on_last_path_down with c n'; [assumption|congruence|assumption].
Qed.

Lemma chain_ext (h h' : gmap ref DTreeNode) (s : ref) (stack : list ref) :
  (forall z, is_Some (h !! z) ->
             children <$> h' !! z = children <$> h !! z) ->
  chain h s stack -> chain h' s stack.
Proof.
  intros Hv. revert s. induction stack as [|s' stack IH]; intros s Hc;
    [exact I|].
  destruct Hc as [H1 H2]. split; [eapply on_last_path_ext; eauto|auto].
Qed.

Lemma view_children (h h' : gmap ref DTreeNode) (x : ref) :
  view <$> h' !! x = view <$> h !! x ->
  children <$> h' !! x = children <$> h !! x.
Proof.
  destruct (h' !! x), (h !! x); simpl; try discriminate; [|reflexivity].
  unfold view. intros E. injection E as _ E. now rewrite E.
Qed.

Lemma parser_inv_cur (T : DTree) (cur : ref) (stack : list ref) :
  parser_inv (T, cur, stack) ->
  links_wf T /\ on_last_path (heap T) (root T) cur /\
  is_Some (heap T !! cur).
Proof.
  intros (Hb & rest & -> & Hc & Hl).
  pose proof (dfs_built_links T Hb) as Hwf.
  pose proof (chain_last _ _ _ _ Hc Hl) as Hp.
  split; [assumption|]. split; [assumption|].
  pose proof Hwf as (_ & (rn & Hrn & _) & _).
  apply (on_last_path_lookup T (root T) cur Hwf Hp). eauto.
Qed.

Lemma parser_append (T : DTree) (cur : ref) (stack : list ref)
  (d : dref) :
  parser_inv (T, cur, stack) ->
  exists T' r, appendChild T cur d = Ok (T', r) /\
               is_Some (heap T' !! r) /\
               parser_inv (T', r, stack ++ [r]) /\
               parser_inv (T', cur, stack).
Proof.
  intros Hinv. destruct (parser_inv_cur _ _ _ Hinv) as (Hwf & Hp & [pn Hpn]).
  destruct Hinv as (Hb & rest & -> & Hc & Hl).
  destruct (appendChild_total T cur d pn Hwf Hpn) as (T' & r & Happ).
  exists T', r. split; [assumption|].
  pose proof Hwf as (Hfresh & (rn & Hrn & _) & Hall).
  destruct (Hall cur pn Hpn) as (_ & _ & _ & Hnd & _).
  destruct (appendChild_spec _ _ _ _ _ _ Happ Hpn Hnd (Hfresh _ (le_n _)))
    as (Er & _ & _ & Hroot & _ & Hvr & Hvp & Hvx).
  assert (Hb' : dfs_built T') by (eapply dfs_appendChild; eauto).
  assert (Hc' : chain (heap T') (root T) rest).
  { apply (chain_frame T (heap T') (root T) rest cur); eauto.
    intros z Hz [zn Hzn]. apply view_children, Hvx; [|assumption].
    intros ->. rewrite Er, (Hfresh _ (le_n _)) in Hzn. discriminate. }
  assert (Hr : on_last_path (heap T') cur r).
  { destruct (heap T' !! cur) as [pn'|] eqn:Hpn'; [|discriminate].
    injection Hvp as _ Hch.
    apply on_last_path_down with r pn'; [assumption| |constructor].
    rewrite Hch. apply last_snoc. }
  split; [destruct (heap T' !! r); [eauto|discriminate]|].
  split; (split; [assumption|]).
  - exists (rest ++ [r]). rewrite Hroot. split; [reflexivity|].
    split; [eapply chain_snoc; eauto|].
    change (last ((root T :: rest) ++ [r]) = Some r). apply last_snoc.
  - exists rest. rewrite Hroot. auto.
Qed.

Lemma parser_index (T : DTree) (cur : ref) (stack : list ref) (node : ref)
  (content : string) :
  parser_inv (T, cur, stack) -> is_Some (heap T !! node) ->
  exists T', indexContent T node content = Ok T' /\
             parser_inv (T', cur, stack).
Proof.
  intros (Hb & rest & -> & Hc & Hl) [n Hn].
  destruct (indexContent T node content) as [T'| |] eqn:Hix;
    unfold indexContent, deref in Hix; rewrite Hn in Hix; simpl in Hix;
    try discriminate.
  exists T'. split; [reflexivity|].
  split; [eapply dfs_indexContent; eauto;
          unfold indexContent, deref; rewrite Hn; simpl; exact Hix|].
  injection Hix as <-. simpl. exists rest. split; [reflexivity|].
  split; assumption.
Qed.

Lemma parser_newData (T : DTree) (cur : ref) (stack : list ref)
  (d : DTreeNodeData) :
  parser_inv (T, cur, stack) -> parser_inv (fst (newData T d), cur, stack).
Proof.
  intros (Hb & Hrest). split; [now apply dfs_newData|exact Hrest].
Qed.

Lemma parser_pop (T : DTree) (cur : ref) (stack : list ref) :
  parser_inv (T, cur, stack) -> (1 < length stack)%nat ->
  exists c, last (removelast stack) = Some c /\
            parser_inv (T, c, removelast stack).
Proof.
  intros (Hb & rest & -> & Hc & Hl) Hlen.
  destruct rest as [|s rest]; [simpl in Hlen; lia|].
  change (removelast (root T :: s :: rest))
    with (root T :: removelast (s :: rest)).
  destruct (last (root T :: removelast (s :: rest))) as [c|] eqn:Hc'.
  - exists c. split; [reflexivity|]. split; [assumption|].
    exists (removelast (s :: rest)). split; [reflexivity|].
    split; [now apply chain_removelast|assumption].
  - apply last_None in Hc'. discriminate.
Qed.

Lemma parser_sentences (sentences : list string) (T : DTree) (cur : ref)
  (stack : list ref) :
  parser_inv (T, cur, stack) ->
  exists T', appendSentences T cur sentences = Ok T' /\
             parser_inv (T', cur, stack).
Proof.
  revert T. induction sentences as [|s sentences IH]; intros T Hinv.
  - exists T. auto.
  - pose proof (parser_newData T cur stack (mkData NT_sentence (Some s))
                  Hinv) as Hinv0.
    destruct (parser_append _ cur stack (length (objects T)) Hinv0)
      as (T1 & r & Happ & Hr & _ & Hinv1).
    destruct (parser_index T1 cur stack r s Hinv1 Hr) as (T2 & Hix & Hinv2).
    destruct (IH T2 Hinv2) as (T' & Hs & Hinv').
    exists T'. split; [|assumption].
    cbn [appendSentences newData]. cbn [newData fst] in Happ.
    rewrite Happ. cbn.
    rewrite Hix. cbn. exact Hs.
Qed.

Lemma dfs_built_recalculate_exact (T : DTree) :
  dfs_built T ->
  exists fuel0, forall fuel, (fuel0 <= fuel)%nat ->
    exists T', recalculateQ2 fuel T = Ok T' /\ dfs_built T' /\
      xref T' = xref T /\ (nextId T' < fuel)%nat /\
      forall a b na nb,
        heap T' !! a = Some na -> heap T' !! b = Some nb ->
        (ancestor (heap T') a b <-> contains na nb = true).
Proof.
  intros Hb. destruct (dfs_built_inv T Hb) as (t & Hroot & Hs & Hso & _ & _).
  pose proof (StronglySorted_lt_NoDup _ _ Hso) as Hnd.
  exists (Nat.max (length (pre t)) (S (nextId T))). intros fuel Hfuel.
  destruct (recalculateQ2_spec T t fuel Hroot Hs Hnd ltac:(lia))
    as (h' & Hre & Hsame & Hs' & Hso2).
  exists (with_heap h' T). split; [assumption|].
  assert (Hb' : dfs_built (with_heap h' T))
    by (eapply dfs_recalculateQ2; eauto).
  split; [assumption|]. split; [reflexivity|]. split; [simpl; lia|].
  assert (Hso1 : StronglySorted (fun x y => q1_of h' x < q1_of h' y) (pre t)).
  { apply StronglySorted_weaken with (2 := Hso). intros x y _ _.
    now rewrite !(same_but_q2_q1 _ _ _ Hsame). }
  pose proof (dfs_built_links _ Hb') as Hwf.
  intros a b na nb Hna Hnb. simpl in *.
  apply (shape_contains h' t a b na nb); auto.
  - apply (links_wf_cover (with_heap h' T)); simpl; eauto.
  - apply (links_wf_cover (with_heap h' T)); simpl; eauto.
Qed.

Section ParserProps.

Variable match_open : string -> option string.
Variable match_text : string -> option string.
Variable match_close : string -> bool.
Variable splitIntoSentences : string -> list string.
Variable tagToNodeType : string -> NodeType.
Variable split_paragraphs : string -> list string.

Lemma parseHTML_line_inv (st : DTree * ref * list ref) (line : string) :
  parser_inv st ->
  exists st', parseHTML_line match_open match_text match_close
                splitIntoSentences tagToNodeType st line = Ok st' /\
              parser_inv st'.
Proof.
  destruct st as [[T cur] stack]. intros Hinv. unfold parseHTML_line.
  case_bool_decide; [eauto|].
  assert (Hclose : forall st1, parser_inv st1 ->
    exists st', (let '(t1, cur1, stack1) := st1 in
                 if match_close (trim line) && (1 <? length stack1)%nat then
                   let stack2 := removelast stack1 in
                   match last stack2 with
                   | Some c => Ok (t1, c, stack2)
                   | None => Throw TypeError
                   end
                 else Ok st1) = Ok st' /\ parser_inv st').
  { intros [[t1 cur1] stack1] H1.
    destruct (match_close (trim line) && (1 <? length stack1)%nat) eqn:E;
      [|eauto].
    apply andb_true_iff in E as [_ E]. apply Nat.ltb_lt in E.
    destruct (parser_pop _ _ _ H1 E) as (c & Hl & Hc). cbn zeta.
    rewrite Hl. eauto. }
  assert (Htext : forall t1 cur1 stack1, parser_inv (t1, cur1, stack1) ->
    exists st1, match match_text (trim line) with
                | Some captured =>
                    let text := trim captured in
                    if bool_decide (text = EmptyString) then
                      Ok (t1, cur1, stack1)
                    else
                      t2 ← appendSentences t1 cur1 (splitIntoSentences text);
                      Ok (t2, cur1, stack1)
                | None => Ok (t1, cur1, stack1)
                end = Ok st1 /\ parser_inv st1).
  { intros t1 cur1 stack1 H1. destruct (match_text (trim line)); [|eauto].
    cbn zeta. case_bool_decide; [eauto|].
    destruct (parser_sentences (splitIntoSentences (trim s)) _ _ _ H1)
      as (t2 & -> & H2). cbn. eauto. }
  destruct (match_open (trim line)) as [tagName|].
  - cbn zeta. case_bool_decide.
    + pose proof (parser_newData T cur stack
                    (mkData (tagToNodeType tagName) None) Hinv) as Hinv0.
      cbn [newData]. cbn [newData fst] in Hinv0.
      destruct (parser_append _ cur stack (length (objects T)) Hinv0)
        as (T1 & r & -> & _ & H1 & _).
      unfold mbind, outcome_bind. cbn beta iota.
      destruct (Htext _ _ _ H1) as (st1 & E1 & Hst1).
      unfold mbind, outcome_bind in E1. rewrite E1.
      apply Hclose, Hst1.
    + unfold mbind, outcome_bind. cbn beta iota.
      destruct (Htext _ _ _ Hinv) as (st1 & E1 & Hst1).
      unfold mbind, outcome_bind in E1. rewrite E1.
      apply Hclose, Hst1.
  - unfold mbind, outcome_bind. apply (Hclose (T, cur, stack)), Hinv.
Qed.

Lemma parseHTML_lines_inv (lines : list string)
  (st : DTree * ref * list ref) :
  parser_inv st ->
  exists st', parseHTML_lines match_open match_text match_close
                splitIntoSentences tagToNodeType st lines = Ok st' /\
              parser_inv st'.
Proof.
  revert st. induction lines as [|line lines IH]; intros st Hinv; [eauto|].
  destruct (parseHTML_line_inv st line Hinv) as (st1 & E1 & H1).
  destruct (IH st1 H1) as (st' & E' & H').
  exists st'. split; [|assumption].
  cbn [parseHTML_lines]. rewrite E1. exact E'.
Qed.

Lemma parser_inv_new (rootData : option DTreeNodeData) :
  parser_inv (new rootData, root (new rootData), [root (new rootData)]).
Proof.
  split; [constructor|]. exists []. repeat split.
Qed.

Lemma parsePlainText_paragraphs_inv (paragraphs : list string) (T : DTree) :
  parser_inv (T, root T, [root T]) ->
  exists T', parsePlainText_paragraphs splitIntoSentences T paragraphs
             = Ok T' /\ dfs_built T'.
Proof.
  revert T. induction paragraphs as [|para paragraphs IH]; intros T Hinv.
  - exists T. split; [reflexivity|apply Hinv].
  - cbn [parsePlainText_paragraphs]. cbn zeta. case_bool_decide; [auto|].
    pose proof (parser_newData T (root T) [root T]
                  (mkData NT_paragraph None) Hinv) as Hinv0.
    cbn [newData]. cbn [newData fst] in Hinv0.
    destruct (parser_append _ (root T) [root T] (length (objects T)) Hinv0)
      as (T1 & r & -> & _ & H1 & _). cbn.
    destruct (parser_sentences (splitIntoSentences (trim para)) _ _ _ H1)
      as (T2 & -> & H2). cbn.
    destruct (parser_pop _ _ _ H2 ltac:(simpl; lia)) as (c & Hc & Hpop).
    pose proof H2 as (_ & rest & Hrest & _).
    injection Hrest as Hroot _. simpl in Hc, Hpop. injection Hc as <-.
    rewrite Hroot in Hpop. apply IH, Hpop.
Qed.

End ParserProps.

Lemma searchAND_exact (T : DTree) (fuel : nat) (tokens : list string) :
  dfs_built T -> contains_sound T -> (nextId T < fuel)%nat ->
  tokens <> [] ->
  (forall token, token ∈ tokens -> TokenXref.get (xref T) token <> []) ->
  exists res, searchAND fuel T tokens = Ok (Some res) /\
              is_ncd (heap T) (flat_map (TokenXref.get (xref T)) tokens)
                     (context res).
Proof.
  intros Hb Hcs Hlt Hne Hocc.
  pose proof (dfs_built_links T Hb) as Hwf.
  pose proof (dfs_built_xref T Hb) as Hxw.
  destruct (searchOR_loop_spec T tokens [] []) as [E1 E2].
  destruct (searchOR_loop T tokens [] []) as [occ allNodes] eqn:Eloop.
  simpl in E1, E2. subst allNodes.
  destruct (findNCDMultiple_spec T fuel
              (flat_map (TokenXref.get (xref T)) tokens) Hwf Hcs Hlt)
    as (c & Hc & Hncd).
  - destruct tokens as [|tk tokens]; [done|]. simpl.
    specialize (Hocc tk ltac:(left)).
    destruct (TokenXref.get (xref T) tk); [done|discriminate].
  - intros x Hx. apply elem_of_flat_map in Hx as (tk & _ & Hx).
    eapply get_lookup; eauto.
  - exists (mkAND c occ). split; [|assumption].
    unfold searchAND.
    rewrite searchAND_loop_Some, Eloop by assumption. now rewrite Hc.
Qed.

Lemma parsed_tree (T : DTree) :
  dfs_built T ->
  exists fuel0, forall fuel, (fuel0 <= fuel)%nat ->
    exists T', recalculateQ2 fuel T = Ok T' /\ dfs_built T' /\
      (forall a b na nb,
         heap T' !! a = Some na -> heap T' !! b = Some nb ->
         (ancestor (heap T') a b <-> contains na nb = true)) /\
      (forall tokens, tokens <> [] ->
         (forall token, token ∈ tokens ->
                        TokenXref.get (xref T') token <> []) ->
         exists res,
           searchAND fuel T' tokens = Ok (Some res) /\
           is_ncd (heap T') (flat_map (TokenXref.get (xref T')) tokens)
                  (context res)).
Proof.
  intros Hb. destruct (dfs_built_recalculate_exact T Hb) as [fuel0 Hre].
  exists fuel0. intros fuel Hfuel.
  destruct (Hre fuel Hfuel) as (T' & HT' & Hb' & _ & Hlt & Hc).
  exists T'. split; [assumption|]. split; [assumption|].
  split; [assumption|]. intros tokens Hne Hocc.
  apply searchAND_exact; try assumption.
  intros a b na nb Hna Hnb Hab. now apply (Hc a b na nb).
Qed.

(** X29: [parseHTML] and [parsePlainText] return a tree for every input,
    whatever the regular expressions match and whatever the sentences and
    the node types are (they throw no error, and the fuel of the final
    [recalculateQ2] pass suffices from some amount on).  The tree returned
    is built in complete-subtree order; for any two of its nodes [a] and
    [b], [a] is an ancestor of [b] exactly when [a.contains(b)]; and for
    tokens that all occur in its cross-reference, [searchAND] returns the
    nearest common dominator of their occurrence nodes. *)
Theorem parsers_built
  (match_open match_text : string -> option string)
  (match_close : string -> bool)
  (splitIntoSentences split_paragraphs : string -> list string)
  (tagToNodeType : string -> NodeType) (input : string) :
  (exists fuel0, forall fuel, (fuel0 <= fuel)%nat ->
     exists T,
       parseHTML match_open match_text match_close splitIntoSentences
                 tagToNodeType fuel input = Ok T /\
       dfs_built T /\
       (forall a b na nb,
          heap T !! a = Some na -> heap T !! b = Some nb ->
          (ancestor (heap T) a b <-> contains na nb = true)) /\
       (forall tokens, tokens <> [] ->
          (forall token, token ∈ tokens ->
                         TokenXref.get (xref T) token <> []) ->
          exists res,
            searchAND fuel T tokens = Ok (Some res) /\
            is_ncd (heap T) (flat_map (TokenXref.get (xref T)) tokens)
                   (context res))) /\
  (exists fuel0, forall fuel, (fuel0 <= fuel)%nat ->
     exists T,
       parsePlainText splitIntoSentences split_paragraphs fuel input
       = Ok T /\
       dfs_built T /\
       (forall a b na nb,
          heap T !! a = Some na -> heap T !! b = Some nb ->
          (ancestor (heap T) a b <-> contains na nb = true)) /\
       (forall tokens, tokens <> [] ->
          (forall token, token ∈ tokens ->
                         TokenXref.get (xref T) token <> []) ->
          exists res,
            searchAND fuel T tokens = Ok (Some res) /\
            is_ncd (heap T) (flat_map (TokenXref.get (xref T)) tokens)
                   (context res))).
Proof.
  split.
  - destruct (parseHTML_lines_inv match_open match_text match_close
                splitIntoSentences tagToNodeType
                (split_lines input EmptyString) _
                (parser_inv_new (Some (mkData NT_document None))))
      as ([[T cur] stack] & E & Hb & _).
    destruct (parsed_tree T Hb) as [fuel0 Hre].
    exists fuel0. intros fuel Hfuel.
    destruct (Hre fuel Hfuel) as (T' & HT' & H).
    exists T'. unfold parseHTML. cbn zeta. rewrite E.
    split; [exact HT'|exact H].
  - destruct (parsePlainText_paragraphs_inv splitIntoSentences
                (split_paragraphs input) _
                (parser_inv_new (Some (mkData NT_document None))))
      as (T & E & Hb).
    destruct (parsed_tree T Hb) as [fuel0 Hre].
    exists fuel0. intros fuel Hfuel.
    destruct (Hre fuel Hfuel) as (T' & HT' & H).
    exists T'. unfold parsePlainText. cbn zeta. rewrite E.
    split; [exact HT'|exact H].
Qed.

(** ** Copies of subtrees *)

Lemma copySubtreeRecursive_S (fuel : nat) (node : ref)
  (newParent : option ref) (h : gmap ref DTreeNode) (next : nat)
  (os : list DTreeNodeData) :
  copySubtreeRecursive (S fuel) node newParent (h, next, os) =
  (n ← deref h node;
   st' ← copyChildren fuel (children n) next
           (<[ next := mkNode next (q1 n) (q2 n) (length os) newParent
                              [] None None ]> h,
            S next, os ++ [dataOf os (data n)]);
   let '(h', next', os') := st' in
   Ok (h', next', os', next)).
Proof.
  cbn [copySubtreeRecursive]. destruct (deref h node) as [n| |];
    [|reflexivity|reflexivity].
  cbn [mbind outcome_bind].
  generalize (<[ next := mkNode next (q1 n) (q2 n) (length os) newParent
                                [] None None ]> h,
              S next, os ++ [dataOf os (data n)]).
  induction (children n) as [|c cs IH]; intros st0; [reflexivity|].
  cbn [copyChildren].
  destruct (copySubtreeRecursive fuel c (Some next) st0)
    as [[[[h1 next1] os1] cc]| |]; [|reflexivity|reflexivity].
  cbn [mbind outcome_bind]. apply IH.
Qed.

Lemma copy_of_inv (h h' : gmap ref DTreeNode) (os os' : list DTreeNodeData)
  (par : option ref) (x : ref) (kids : list shape) (s' : shape) :
  copy_of h h' os os' par (Sh x kids) s' ->
  exists x' kids' n n',
    s' = Sh x' kids' /\ h !! x = Some n /\ h' !! x' = Some n' /\
    id n' = x' /\ q1 n' = q1 n /\ q2 n' = q2 n /\
    (length os <= data n')%nat /\
    os' !! data n' = Some (dataOf os (data n)) /\
    parent n' = par /\ children n' = map sroot kids' /\
    Forall2 (copy_of h h' os os' (Some x')) kids kids'.
Proof. inversion 1; subst. eauto 15. Qed.

Lemma copy_of_ext (h h' h'' : gmap ref DTreeNode)
  (os os' os'' : list DTreeNodeData) (s : shape) :
  (forall r d, os' !! r = Some d -> os'' !! r = Some d) ->
  forall par s',
    copy_of h h' os os' par s s' ->
    (forall y, y ∈ pre s' -> body <$> h'' !! y = body <$> h' !! y) ->
    copy_of h h'' os os'' par s s'.
Proof.
  intros Hos. induction s as [x kids IH] using shape_ind'.
  intros par s' Hc Hag.
  apply copy_of_inv in Hc
    as (x' & kids' & n & n' & -> & Hn & Hn' & Hid & H1 & H2 & Hfr & Hd & Hp
        & Hch & Hk).
  pose proof (Hag x' ltac:(left)) as Hx. rewrite Hn' in Hx.
  destruct (h'' !! x') as [n''|] eqn:Hn''; [|discriminate].
  unfold body in Hx. injection Hx as E1 E2 E3 E4 E5 E6.
  apply copy_of_node with n n''; try congruence.
  { rewrite E4. now apply Hos. }
  assert (Hag' : forall y, y ∈ flat_map pre kids' ->
                           body <$> h'' !! y = body <$> h' !! y)
    by (intros y Hy; apply Hag; now right).
  clear Hch Hag Hn' Hn'' E1 E2 E3 E4 E5 E6 Hfr Hd. revert Hag'.
  induction Hk as [|k k' kids kids' Hkk Hk IHk]; intros Hag'; constructor.
  - apply Forall_cons in IH as [IH _]. apply IH; [assumption|].
    intros y Hy. apply Hag'. simpl. apply elem_of_app. now left.
  - apply Forall_cons in IH as [_ IH]. apply IHk; [assumption|].
    intros y Hy. apply Hag'. simpl. apply elem_of_app. now right.
Qed.

Section CopyProps.

Variable hT : gmap ref DTreeNode.
Variable N0 : nat.
Variable osT : list DTreeNodeData.
Hypothesis HT : forall y, (N0 <= y)%nat -> hT !! y = None.

Lemma copyChildren_spec (kids : list shape) :
  Forall (fun k => forall h next os par fuel,
    has_shape hT k ->
    (forall y n, y ∈ pre k -> hT !! y = Some n ->
                 (data n < length osT)%nat) ->
    (forall y, (y < N0)%nat -> h !! y = hT !! y) ->
    (N0 <= next)%nat -> (forall y, (next <= y)%nat -> h !! y = None) ->
    (exists mid, os = osT ++ mid) ->
    (length (pre k) <= fuel)%nat ->
    exists h' k' new,
      copySubtreeRecursive fuel (sroot k) par (h, next, os)
      = Ok (h', (next + length (pre k))%nat, os ++ new, next) /\
      length new = length (pre k) /\
      sroot k' = next /\
      (forall y, (y < next)%nat -> h' !! y = h !! y) /\
      (forall y, (next + length (pre k) <= y)%nat -> h' !! y = None) /\
      copy_of hT h' osT (os ++ new) par k k' /\
      pre k' = seq next (length (pre k)) /\
      (forall y, y ∈ pre k' ->
         data <$> h' !! y = Some (length os + (y - next))%nat) /\
      (forall y, y ∈ pre k' -> sview <$> h' !! y = Some (None, None))) kids ->
  forall h next os copy cn fuel,
    Forall (has_shape hT) kids ->
    (forall y n, y ∈ flat_map pre kids -> hT !! y = Some n ->
                 (data n < length osT)%nat) ->
    (forall y, (y < N0)%nat -> h !! y = hT !! y) ->
    (N0 <= copy)%nat -> (copy < next)%nat ->
    (forall y, (next <= y)%nat -> h !! y = None) ->
    (exists mid, os = osT ++ mid) ->
    h !! copy = Some cn ->
    (length (flat_map pre kids) <= fuel)%nat ->
    exists h' kids' new,
      copyChildren fuel (map sroot kids) copy (h, next, os)
      = Ok (h', (next + length (flat_map pre kids))%nat, os ++ new) /\
      length new = length (flat_map pre kids) /\
      (forall y, (y < next)%nat -> y <> copy -> h' !! y = h !! y) /\
      h' !! copy
      = Some (set_children (children cn ++ map sroot kids') cn) /\
      (forall y, (next + length (flat_map pre kids) <= y)%nat ->
                 h' !! y = None) /\
      Forall2 (copy_of hT h' osT (os ++ new) (Some copy)) kids kids' /\
      flat_map pre kids' = seq next (length (flat_map pre kids)) /\
      (forall y, y ∈ flat_map pre kids' ->
         data <$> h' !! y = Some (length os + (y - next))%nat) /\
      (forall y, y ∈ flat_map pre kids' ->
                 sview <$> h' !! y = Some (None, None)).
Proof.
  induction 1 as [|k kids Hk _ IH];
    intros h next os copy cn fuel Hs Hdat Hag Hc0 Hc Hfresh Hmid Hcn Hfuel.
  - exists h, [], []. simpl. rewrite Nat.add_0_r, !app_nil_r.
    split; [reflexivity|]. split; [reflexivity|]. split; [auto|].
    split; [rewrite Hcn; now destruct cn|]. split; [assumption|].
    split; [constructor|]. split; [reflexivity|].
    split; intros y Hy; inversion Hy.
  - apply Forall_cons in Hs as [Hsk Hs]. simpl in Hfuel.
    rewrite length_app in Hfuel.
    destruct (Hk h next os (Some copy) fuel Hsk) as
      (h1 & k' & new1 & E1 & Hl1 & Hr1 & Hold1 & Hfresh1 & Hcp1 & Hpre1
       & Hdat1 & Hsv1); try assumption; try lia.
    { intros y n Hy. apply Hdat. simpl. apply elem_of_app. now left. }
    set (next1 := (next + length (pre k))%nat) in *.
    set (cn' := set_children (children cn ++ [next]) cn).
    set (h1' := alter (fun c => set_children (children c ++ [next]) c)
                      copy h1).
    assert (Hcn1 : h1' !! copy = Some cn').
    { unfold h1'. now rewrite lookup_alter_eq, Hold1, Hcn by lia. }
    assert (Hne : forall y, y <> copy -> h1' !! y = h1 !! y).
    { intros y Hy. unfold h1'. now rewrite lookup_alter_ne. }
    destruct (IH h1' next1 (os ++ new1) copy cn' fuel Hs) as
      (h2 & kids' & new2 & E2 & Hl2 & Hold2 & Hc2 & Hfresh2 & Hcp2 & Hpre2
       & Hdat2 & Hsv2);
      try assumption; try (unfold next1; lia).
    { intros y n Hy. apply Hdat. simpl. apply elem_of_app. now right. }
    { intros y Hy. rewrite Hne, Hold1 by lia. now apply Hag. }
    { intros y Hy. rewrite Hne by (unfold next1 in Hy; lia).
      apply Hfresh1. exact Hy. }
    { destruct Hmid as [mid ->]. exists (mid ++ new1).
      now rewrite app_assoc. }
    assert (Hin1 : forall y, y ∈ pre k' -> (next <= y < next1)%nat).
    { intros y Hy. rewrite Hpre1 in Hy. apply elem_of_seq in Hy.
      unfold next1. lia. }
    assert (Hin2 : forall y, y ∈ flat_map pre kids' -> (next1 <= y)%nat).
    { intros y Hy. rewrite Hpre2 in Hy. apply elem_of_seq in Hy. lia. }
    exists h2, (k' :: kids'), (new1 ++ new2).
    cbn [map copyChildren]. rewrite E1.
    cbn [mbind outcome_bind]. fold h1'. fold next1.
    split.
    { rewrite E2. rewrite <- app_assoc. f_equal. f_equal. f_equal. simpl.
      rewrite length_app. unfold next1. lia. }
    split; [simpl; rewrite !length_app; lia|].
    split.
    { intros y Hy Hyc. rewrite Hold2, Hne, Hold1 by (unfold next1; lia).
      reflexivity. }
    split.
    { rewrite Hc2. unfold cn', set_children. simpl.
      rewrite Hr1, <- app_assoc. reflexivity. }
    split.
    { intros y Hy. apply Hfresh2. simpl in Hy. rewrite length_app in Hy.
      unfold next1. lia. }
    split.
    { rewrite app_assoc. constructor; [|assumption].
      apply copy_of_ext with h1 (os ++ new1); [| assumption |].
      - intros r d Hr. now apply lookup_app_l_Some.
      - intros y Hy. apply Hin1 in Hy.
        rewrite Hold2, Hne by lia. reflexivity. }
    split.
    { simpl. rewrite Hpre1, Hpre2, length_app. fold next1.
      unfold next1. now rewrite seq_app. }
    split.
    { intros y Hy. simpl in Hy. apply elem_of_app in Hy as [Hy|Hy].
      - pose proof (Hin1 y Hy). rewrite Hold2, Hne by lia. now apply Hdat1.
      - rewrite (Hdat2 y Hy). pose proof (Hin2 y Hy).
        rewrite length_app, Hl1. f_equal. unfold next1 in *. lia. }
    intros y Hy. simpl in Hy. apply elem_of_app in Hy as [Hy|Hy].
    + pose proof (Hin1 y Hy). rewrite Hold2, Hne by lia. now apply Hsv1.
    + now apply Hsv2.
Qed.

Lemma copySubtreeRecursive_spec (k : shape) :
  forall h next os par fuel,
    has_shape hT k ->
    (forall y n, y ∈ pre k -> hT !! y = Some n ->
                 (data n < length osT)%nat) ->
    (forall y, (y < N0)%nat -> h !! y = hT !! y) ->
    (N0 <= next)%nat -> (forall y, (next <= y)%nat -> h !! y = None) ->
    (exists mid, os = osT ++ mid) ->
    (length (pre k) <= fuel)%nat ->
    exists h' k' new,
      copySubtreeRecursive fuel (sroot k) par (h, next, os)
      = Ok (h', (next + length (pre k))%nat, os ++ new, next) /\
      length new = length (pre k) /\
      sroot k' = next /\
      (forall y, (y < next)%nat -> h' !! y = h !! y) /\
      (forall y, (next + length (pre k) <= y)%nat -> h' !! y = None) /\
      copy_of hT h' osT (os ++ new) par k k' /\
      pre k' = seq next (length (pre k)) /\
      (forall y, y ∈ pre k' ->
         data <$> h' !! y = Some (length os + (y - next))%nat) /\
      (forall y, y ∈ pre k' -> sview <$> h' !! y = Some (None, None)).
Proof.
  induction k as [x kids IH] using shape_ind'.
  intros h next os par fuel Hs Hdat Hag Hn0 Hfresh Hmid Hfuel.
  apply has_shape_inv in Hs as (n & Hn & Hch & Hkids).
  assert (Hx : (x < N0)%nat).
  { destruct (decide (x < N0)%nat) as [|Hge]; [assumption|].
    rewrite HT in Hn by lia. discriminate. }
  destruct fuel as [|fuel]; [simpl in Hfuel; lia|].
  simpl in Hfuel.
  rewrite copySubtreeRecursive_S. unfold deref. cbn [sroot].
  rewrite (Hag x Hx), Hn. cbn [mbind outcome_bind].
  set (cn := mkNode next (q1 n) (q2 n) (length os) par [] None None).
  assert (Hd : dataOf os (data n) = dataOf osT (data n)).
  { destruct Hmid as [mid ->]. unfold dataOf.
    rewrite lookup_app_l; [reflexivity|].
    apply (Hdat x n); [now left|assumption]. }
  rewrite Hd.
  destruct (copyChildren_spec kids IH (<[next := cn]> h) (S next)
              (os ++ [dataOf osT (data n)]) next cn fuel Hkids)
    as (h' & kids' & new & E & Hl & Hold & Hc & Hfresh' & Hcp & Hpre & Hdt
        & Hsv);
    try lia.
  { intros y m Hy. apply Hdat. now right. }
  { intros y Hy. rewrite lookup_insert_ne by lia. now apply Hag. }
  { intros y Hy. rewrite lookup_insert_ne by lia. apply Hfresh. lia. }
  { destruct Hmid as [mid ->]. eexists. now rewrite <- app_assoc. }
  { apply lookup_insert_eq. }
  exists h', (Sh next kids'), (dataOf osT (data n) :: new).
  rewrite Hch, E. cbn [mbind outcome_bind].
  split.
  { replace (next + length (pre (Sh x kids)))%nat
      with (S next + length (flat_map pre kids))%nat by (simpl; lia).
    now rewrite <- app_assoc. }
  split; [simpl; now rewrite Hl|].
  split; [reflexivity|].
  split.
  { intros y Hy. rewrite Hold, lookup_insert_ne by lia. reflexivity. }
  split; [intros y Hy; apply Hfresh'; simpl in Hy; lia|].
  rewrite <- app_assoc in Hcp. simpl in Hcp.
  split.
  { apply copy_of_node
      with n (set_children (children cn ++ map sroot kids') cn);
      [exact Hn|exact Hc|reflexivity..| | |reflexivity|reflexivity|exact Hcp].
    - simpl. destruct Hmid as [mid ->]. rewrite length_app. lia.
    - simpl. rewrite lookup_app_r, Nat.sub_diag by lia. reflexivity. }
  split; [simpl; now rewrite Hpre|].
  split.
  { intros y Hy. simpl in Hy. apply elem_of_cons in Hy as [->|Hy].
    - rewrite Hc. simpl. f_equal. lia.
    - rewrite (Hdt y Hy). rewrite Hpre in Hy. apply elem_of_seq in Hy.
      rewrite length_app. simpl. f_equal. lia. }
  intros y Hy. simpl in Hy. apply elem_of_cons in Hy as [->|Hy].
  - rewrite Hc. reflexivity.
  - now apply Hsv.
Qed.

End CopyProps.

Lemma linked_pointwise (h : gmap ref DTreeNode) (cs : list ref) :
  forall prev,
    (forall i c, cs !! i = Some c ->
       exists n, h !! c = Some n /\
                 prevSibling n = match i with
                                 | O => prev
                                 | S i' => cs !! i'
                                 end /\
                 nextSibling n = cs !! S i) ->
    linked h prev cs.
Proof.
  induction cs as [|c cs IH]; intros prev H; [exact I|].
  split.
  - destruct (H 0%nat c eq_refl) as (n & Hn & Hp & Hx).
    exists n. rewrite head_lookup. auto.
  - apply IH. intros i c' Hi.
    destruct (H (S i) c' Hi) as (n & Hn & Hp & Hx).
    exists n. split; [assumption|]. split; [|assumption].
    rewrite Hp. now destruct i.
Qed.

Lemma linkSibling_other (cs : list ref) (h : gmap ref DTreeNode) (i : nat)
  (y : ref) :
  cs !! i <> Some y -> linkSibling cs h i !! y = h !! y.
Proof.
  intros Hy. unfold linkSibling. destruct (cs !! i) as [c|]; [|reflexivity].
  assert (c <> y) by congruence.
  destruct (0 <? i)%nat, (i <? length cs - 1)%nat;
    rewrite ?lookup_alter_ne by assumption; reflexivity.
Qed.

Lemma linkSibling_at (cs : list ref) (h : gmap ref DTreeNode) (i : nat)
  (c : ref) :
  cs !! i = Some c ->
  body <$> linkSibling cs h i !! c = body <$> h !! c /\
  sview <$> linkSibling cs h i !! c
  = (fun n => (match i with O => prevSibling n | S i' => cs !! i' end,
               if (i <? length cs - 1)%nat then cs !! S i
               else nextSibling n)) <$> h !! c.
Proof.
  intros Hc. unfold linkSibling. rewrite Hc.
  replace (cs !! (i + 1)%nat) with (cs !! S i) by (f_equal; lia).
  destruct i as [|i].
  - change (0 <? 0)%nat with false. cbn iota.
    destruct (0 <? length cs - 1)%nat;
      rewrite ?lookup_alter_eq; destruct (h !! c) as [n|]; split;
      reflexivity.
  - change (0 <? S i)%nat with true. cbn iota.
    replace (S i - 1)%nat with i by lia.
    destruct (S i <? length cs - 1)%nat;
      rewrite ?lookup_alter_eq; destruct (h !! c) as [n|]; split;
      reflexivity.
Qed.

Lemma linkSibling_body (cs : list ref) (h : gmap ref DTreeNode) (i : nat)
  (y : ref) :
  body <$> linkSibling cs h i !! y = body <$> h !! y.
Proof.
  destruct (decide (cs !! i = Some y)) as [E|E].
  - now apply linkSibling_at.
  - now rewrite linkSibling_other.
Qed.

Lemma linkSiblings_spec (cs : list ref) (h : gmap ref DTreeNode) :
  NoDup cs ->
  forall j, (j <= length cs)%nat ->
    (forall y, body <$> foldl (linkSibling cs) h (seq 0 j) !! y
               = body <$> h !! y) /\
    (forall y, y ∉ cs -> foldl (linkSibling cs) h (seq 0 j) !! y = h !! y) /\
    (forall i c, cs !! i = Some c ->
       sview <$> foldl (linkSibling cs) h (seq 0 j) !! c
       = if (i <? j)%nat then
           (fun n => (match i with O => prevSibling n | S i' => cs !! i' end,
                      if (i <? length cs - 1)%nat then cs !! S i
                      else nextSibling n)) <$> h !! c
         else sview <$> h !! c).
Proof.
  intros Hnd. induction j as [|j IH]; intros Hj.
  - simpl. auto.
  - destruct IH as (Hb & Ho & Hs); [lia|].
    rewrite seq_S, foldl_app. cbn [foldl Nat.add].
    set (hj := foldl (linkSibling cs) h (seq 0 j)) in *.
    split; [intros y; now rewrite linkSibling_body|].
    split.
    + intros y Hy. rewrite linkSibling_other; [now apply Ho|].
      intros E. apply Hy. eapply list_elem_of_lookup_2; eauto.
    + intros i c Hi. destruct (decide (i = j)) as [->|Hne].
      * destruct (linkSibling_at cs hj j c Hi) as [_ E]. rewrite E.
        rewrite (proj2 (Nat.ltb_lt j (S j))) by lia.
        specialize (Hs j c Hi). rewrite Nat.ltb_irrefl in Hs.
        destruct (hj !! c) as [n|], (h !! c) as [n0|]; try discriminate;
          [|reflexivity].
        injection Hs as E1 E2. cbn [fmap option_fmap option_map].
        rewrite E1, E2. reflexivity.
      * rewrite linkSibling_other.
        { rewrite (Hs i c Hi).
          destruct (i <? j)%nat eqn:E1, (i <? S j)%nat eqn:E2;
            try reflexivity;
            apply Nat.ltb_lt in E1 || apply Nat.ltb_ge in E1;
            apply Nat.ltb_lt in E2 || apply Nat.ltb_ge in E2; lia. }
        intros E. apply Hne. eapply NoDup_lookup; eauto.
Qed.

Lemma sroot_in_flat_pre (kids : list shape) (c : ref) :
  c ∈ map sroot kids -> c ∈ flat_map pre kids.
Proof.
  intros Hc. apply list_elem_of_fmap in Hc as (k & -> & Hk).
  apply elem_of_flat_map. exists k. split; [assumption|apply sroot_in_pre].
Qed.

(** X13: [copySubtree] on a node, below which the heap has the shape [s]
    and every node has a data object, in a tree whose references from
    [nextId] on are unused (with fuel for the nodes of [s]).  It returns a new
    node, numbered [nextId], below which the heap has a shape [s'] that is
    a copy of [s]: same arities, node by node the same [q1] and [q2], each
    copy with the copy of the parent as [parent] and the top one with none,
    and each with a new data object that has the type and the content of the
    data object of its original.  The copies are numbered in pre-order from
    [nextId] on, and [nextId] advances by their number; their data objects
    are appended to the store in the same order, one for each.  The nodes
    and the data objects that were there are untouched; the copies are not
    entered in [nodeMap], so [getNode] does not find them; the root and the
    cross-reference stay.  The children of the top copy are linked as
    siblings; every other copy has neither a previous nor a next sibling,
    whatever the siblings of its original. *)
Theorem copySubtree_independent (T : DTree) (s : shape) (fuel : nat) :
  (forall y, (nextId T <= y)%nat -> heap T !! y = None) ->
  has_shape (heap T) s ->
  (forall y n, y ∈ pre s -> heap T !! y = Some n ->
               (data n < length (objects T))%nat) ->
  (length (pre s) <= fuel)%nat ->
  exists T' s',
    copySubtree fuel T (sroot s) = Ok (T', nextId T) /\
    sroot s' = nextId T /\
    pre s' = seq (nextId T) (length (pre s)) /\
    nextId T' = (nextId T + length (pre s))%nat /\
    copy_of (heap T) (heap T') (objects T) (objects T') None s s' /\
    (forall y, (y < nextId T)%nat -> heap T' !! y = heap T !! y) /\
    (forall y, (nextId T' <= y)%nat -> heap T' !! y = None) /\
    (exists new, objects T' = objects T ++ new /\
                 length new = length (pre s)) /\
    (forall y, y ∈ pre s' ->
       data <$> heap T' !! y
       = Some (length (objects T) + (y - nextId T))%nat) /\
    nodeMap T' = nodeMap T /\ root T' = root T /\ xref T' = xref T /\
    linked (heap T') None (map sroot (skids s')) /\
    (forall y, y ∈ pre s' -> y ∉ map sroot (skids s') ->
               sview <$> heap T' !! y = Some (None, None)).
Proof.
  intros HT Hs Hdat Hfuel. destruct s as [x kids].
  apply has_shape_inv in Hs as (n & Hn & Hch & Hkids).
  simpl in Hfuel. set (next := nextId T) in *.
  set (cn := mkNode next (q1 n) (q2 n) (length (objects T)) None
                    [] None None).
  destruct (copyChildren_spec (heap T) next (objects T) kids
              ltac:(apply Forall_forall; intros k _;
                    apply copySubtreeRecursive_spec, HT)
              (<[next := cn]> (heap T)) (S next)
              (objects T ++ [dataOf (objects T) (data n)]) next cn fuel
              Hkids)
    as (h1 & kids' & new & E & Hl & Hold & Hc & Hfresh & Hcp & Hpre & Hdt
        & Hsv);
    try lia.
  { intros y m Hy. apply Hdat. now right. }
  { intros y Hy. now rewrite lookup_insert_ne by lia. }
  { intros y Hy. rewrite lookup_insert_ne by lia. apply HT. lia. }
  { eexists. reflexivity. }
  { apply lookup_insert_eq. }
  set (cs := map sroot kids') in *.
  set (os1 := (objects T ++ [dataOf (objects T) (data n)]) ++ new) in *.
  assert (Hcs : forall c, c ∈ cs ->
                  (S next <= c < S next + length (flat_map pre kids))%nat).
  { intros c Hin. apply sroot_in_flat_pre in Hin. rewrite Hpre in Hin.
    apply elem_of_seq in Hin. lia. }
  assert (Hnd : NoDup cs).
  { apply NoDup_map_sroot. rewrite Hpre. apply NoDup_seq. }
  destruct (linkSiblings_spec cs h1 Hnd (length cs) (le_n _))
    as (Hb & Ho & Hlk).
  set (h2 := foldl (linkSibling cs) h1 (seq 0 (length cs))) in *.
  assert (Hdata : forall y, data <$> h2 !! y = data <$> h1 !! y).
  { intros y. specialize (Hb y).
    destruct (h2 !! y), (h1 !! y); try discriminate; [|reflexivity].
    unfold body in Hb. simpl in *. congruence. }
  exists (mkTree h2 (root T) (xref T) (nodeMap T)
                 (S next + length (flat_map pre kids))%nat
                 (q1Counter T) (q2Counter T) os1),
         (Sh next kids').
  split.
  { unfold copySubtree, deref. cbn [sroot]. rewrite Hn.
    cbn [mbind outcome_bind]. fold next. fold cn. rewrite Hch, E.
    cbn [mbind outcome_bind]. rewrite Hc. reflexivity. }
  split; [reflexivity|]. split; [simpl; now rewrite Hpre|].
  split; [simpl; lia|]. cbn [heap nodeMap root xref nextId skids objects].
  split.
  { apply copy_of_ext with h1 os1; [auto| |intros y _; apply Hb].
    apply copy_of_node
      with n (set_children (children cn ++ map sroot kids') cn);
      [exact Hn|exact Hc|reflexivity..| | |reflexivity|reflexivity|exact Hcp].
    - simpl. lia.
    - simpl. unfold os1. rewrite <- app_assoc.
      rewrite lookup_app_r, Nat.sub_diag by lia. reflexivity. }
  split.
  { intros y Hy.
    rewrite Ho; [rewrite Hold, lookup_insert_ne by lia; reflexivity|].
    intros Hin. apply Hcs in Hin. lia. }
  split.
  { intros y Hy. rewrite Ho; [apply Hfresh; lia|].
    intros Hin. apply Hcs in Hin. lia. }
  split.
  { exists (dataOf (objects T) (data n) :: new). unfold os1.
    rewrite <- app_assoc. split; [reflexivity|]. simpl. now rewrite Hl. }
  split.
  { intros y Hy. rewrite Hdata. simpl in Hy.
    apply elem_of_cons in Hy as [->|Hy].
    - rewrite Hc. simpl. f_equal. lia.
    - rewrite (Hdt y Hy). rewrite Hpre in Hy. apply elem_of_seq in Hy.
      rewrite length_app. simpl. f_equal. lia. }
  do 3 (split; [reflexivity|]).
  split.
  - apply linked_pointwise. intros i c Hi.
    pose proof (Hlk i c Hi) as Hv.
    assert (Hin : c ∈ cs) by (eapply list_elem_of_lookup_2; eauto).
    pose proof (Hsv c (sroot_in_flat_pre _ _ Hin)) as H1.
    rewrite (proj2 (Nat.ltb_lt i (length cs))) in Hv
      by (eapply lookup_lt_Some; eauto).
    destruct (h1 !! c) as [n1|]; [|discriminate].
    destruct (h2 !! c) as [n2|]; [|discriminate].
    injection H1 as P1 P2. injection Hv as Q1 Q2.
    exists n2. split; [reflexivity|]. rewrite Q1, Q2, P1, P2.
    split; [reflexivity|].
    destruct (i <? length cs - 1)%nat eqn:Ei; [reflexivity|].
    apply Nat.ltb_ge in Ei. symmetry. apply lookup_ge_None. fold cs. lia.
  - intros y Hy Hny. rewrite Ho by assumption.
    simpl in Hy. apply elem_of_cons in Hy as [->|Hy].
    + rewrite Hc. reflexivity.
    + now apply Hsv.
Qed.

(** ** The numbers that [recalculateQ2] gives *)

Lemma traverse_children_exact (kids : list shape) :
  Forall (fun k => forall h c fuel h' c',
            has_shape h k -> NoDup (pre k) -> (length (pre k) <= fuel)%nat ->
            traverse fuel (sroot k) (h, c) = Ok (h', c') ->
            forall i r, post k !! i = Some r ->
              q2_of h' r = c + INITIAL_SPACING * (Z.of_nat i + 1)) kids ->
  forall h c fuel h' c',
    Forall (has_shape h) kids -> NoDup (flat_map pre kids) ->
    (length (flat_map pre kids) <= fuel)%nat ->
    traverse_children fuel (map sroot kids) (h, c) = Ok (h', c') ->
    forall i r, flat_map post kids !! i = Some r ->
      q2_of h' r = c + INITIAL_SPACING * (Z.of_nat i + 1).
Proof.
  induction 1 as [|k kids Hk Hkids IH];
    intros h c fuel h' c' Hs Hnd Hfuel Ht i r Hi; [discriminate|].
  simpl in *. apply Forall_cons in Hs as [Hsk Hs].
  apply NoDup_app in Hnd as (Hnd1 & Hdisj & Hnd2).
  rewrite length_app in Hfuel.
  destruct (traverse_spec k h c fuel Hsk Hnd1 ltac:(lia))
    as (h1 & c1 & Ht1 & Hn1).
  rewrite Ht1 in Ht. simpl in Ht.
  assert (Hs1 : Forall (has_shape h1) kids).
  { eapply Forall_impl; [exact Hs|]. intros t.
    apply has_shape_same_but_q2, Hn1. }
  destruct (traverse_children_spec kids
              ltac:(apply Forall_forall; intros t _ h0 c0 f0;
                    apply traverse_spec)
              h1 c1 fuel Hs1 Hnd2 ltac:(lia))
    as (h2 & c2 & Ht2 & Hn2).
  rewrite Ht2 in Ht. injection Ht as <- <-.
  destruct Hn1 as (Hc1 & _). destruct Hn2 as (_ & Hframe & _).
  destruct (decide (i < length (post k))%nat) as [Hlt|Hge].
  - rewrite lookup_app_l in Hi by assumption.
    rewrite <- (Hk h c fuel h1 c1 Hsk Hnd1 ltac:(lia) Ht1 i r Hi).
    apply q2_of_eq, Hframe. intros Hin.
    apply (Hdisj r); [|assumption].
    apply elem_of_post. eapply list_elem_of_lookup_2; eauto.
  - rewrite lookup_app_r in Hi by lia.
    rewrite (IH h1 c1 fuel h2 c2 Hs1 Hnd2 ltac:(lia) Ht2 _ r Hi).
    rewrite Hc1, length_post. unfold INITIAL_SPACING.
    rewrite length_post in Hge. lia.
Qed.

Lemma traverse_exact (t : shape) :
  forall h c fuel h' c',
    has_shape h t -> NoDup (pre t) -> (length (pre t) <= fuel)%nat ->
    traverse fuel (sroot t) (h, c) = Ok (h', c') ->
    forall i r, post t !! i = Some r ->
      q2_of h' r = c + INITIAL_SPACING * (Z.of_nat i + 1).
Proof.
  induction t as [x kids IH] using shape_ind'.
  intros h c fuel h' c' Hs Hnd Hfuel Ht i r Hi.
  apply has_shape_inv in Hs as (n & Hn & Hk & Hkids). simpl in *.
  apply NoDup_cons in Hnd as [Hx Hnd].
  destruct fuel as [|fuel]; [lia|].
  rewrite traverse_S in Ht. unfold deref in Ht. simpl fst in Ht.
  rewrite Hn in Ht. simpl in Ht.
  destruct (traverse_children_spec kids
              ltac:(apply Forall_forall; intros t _ h0 c0 f0;
                    apply traverse_spec)
              h c fuel Hkids Hnd ltac:(lia))
    as (h1 & c1 & Ht1 & Hn1).
  rewrite Hk, Ht1 in Ht. simpl in Ht. injection Ht as <- <-.
  pose proof Hn1 as (Hc1 & _ & Hsame & _).
  destruct (decide (i < length (flat_map post kids))%nat) as [Hlt|Hge].
  - rewrite lookup_app_l in Hi by assumption.
    rewrite <- (traverse_children_exact kids IH h c fuel h1 c1 Hkids Hnd
                  ltac:(lia) Ht1 i r Hi).
    apply q2_of_eq. apply lookup_alter_ne. intros <-. apply Hx.
    apply elem_of_flat_map_post. eapply list_elem_of_lookup_2; eauto.
  - rewrite lookup_app_r in Hi by lia.
    destruct (i - length (flat_map post kids))%nat as [|j] eqn:Ej;
      [|now destruct j].
    injection Hi as <-. unfold q2_of. rewrite lookup_alter_eq.
    destruct (h1 !! x) as [n1|] eqn:Hn1x.
    + simpl. rewrite Hc1.
      assert (length (flat_map post kids) = length (flat_map pre kids)).
      { clear. induction kids as [|k kids IHk]; [reflexivity|].
        simpl. now rewrite !length_app, length_post, IHk. }
      unfold INITIAL_SPACING. lia.
    + specialize (Hsame x). rewrite Hn, Hn1x in Hsame. discriminate.
Qed.

(** X30: [recalculateQ2] numbers the nodes in post-order in steps of
    [INITIAL_SPACING], whatever their [q2] before: in a tree whose heap has
    the shape [t] below the root, no node twice (with fuel for its nodes),
    the node at position [i] of the post-order gets
    [q2 = 1000 * (i + 1)], so the root gets 1000 times the number of
    nodes; the nodes outside [t] are untouched; and a second pass changes
    nothing. *)
Theorem recalculateQ2_exact (T : DTree) (t : shape) (fuel : nat) :
  sroot t = root T -> has_shape (heap T) t -> NoDup (pre t) ->
  (length (pre t) <= fuel)%nat ->
  exists T',
    recalculateQ2 fuel T = Ok T' /\
    (forall i r, post t !! i = Some r ->
                 q2_of (heap T') r = INITIAL_SPACING * (Z.of_nat i + 1)) /\
    q2_of (heap T') (root T)
    = INITIAL_SPACING * Z.of_nat (length (pre t)) /\
    (forall r, r ∉ pre t -> heap T' !! r = heap T !! r) /\
    recalculateQ2 fuel T' = Ok T'.
Proof.
  intros Hroot Hs Hnd Hfuel.
  destruct (traverse_spec t (heap T) 0 fuel Hs Hnd Hfuel)
    as (h' & c' & Ht & Hnum).
  pose proof Hnum as (_ & Hframe & Hsame & _).
  pose proof (traverse_exact t (heap T) 0 fuel h' c' Hs Hnd Hfuel Ht) as Hex.
  assert (Hs' : has_shape h' t) by (eapply has_shape_same_but_q2; eauto).
  exists (with_heap h' T).
  split; [unfold recalculateQ2; now rewrite <- Hroot, Ht|].
  split; [exact Hex|]. split; [|split; [exact Hframe|]].
  - rewrite <- Hroot. destruct t as [x kids]. simpl.
    rewrite (Hex (length (flat_map post kids)) x).
    + assert (length (flat_map post kids) = length (flat_map pre kids)).
      { clear. induction kids as [|k kids IHk]; [reflexivity|].
        simpl. now rewrite !length_app, length_post, IHk. }
      unfold INITIAL_SPACING. lia.
    + simpl. rewrite lookup_app_r, Nat.sub_diag by lia. reflexivity.
  - destruct (traverse_spec t h' 0 fuel Hs' Hnd Hfuel)
      as (h'' & c'' & Ht' & Hnum').
    pose proof Hnum' as (_ & Hframe' & Hsame' & _).
    pose proof (traverse_exact t h' 0 fuel h'' c'' Hs' Hnd Hfuel Ht') as Hex'.
    assert (E : h'' = h').
    { apply map_eq. intros r.
      destruct (decide (r ∈ pre t)) as [Hin|Hout]; [|now apply Hframe'].
      apply elem_of_post, list_elem_of_lookup in Hin as [i Hi].
      rewrite (Hsame' r), (Hex' i r Hi), <- (Hex i r Hi).
      unfold q2_of. destruct (h' !! r) as [n|]; [|reflexivity].
      simpl. now destruct n. }
    unfold recalculateQ2. simpl. rewrite <- Hroot, Ht'. simpl.
    now rewrite E.
Qed.

End WithStrings.

(** ** The theorems on the example trees *)

Import Examples.

Lemma dfs_built_appended (t : DTree) (p r : ref) (d : DTreeNodeData)
  (t' : DTree) :
  dfs_built t -> on_last_path (heap t) (root t) p ->
  appendChild (fst (newData t d)) p (snd (newData t d)) = Ok (t', r) ->
  dfs_built (appended t p d).
Proof.
  intros Hb Hp Happ. unfold appended. cbn [newData fst snd] in *.
  rewrite Happ.
  eapply dfs_appendChild; [exact (dfs_newData t d Hb)|exact Hp|exact Happ].
Qed.

Ltac last_path :=
  first [ apply on_last_path_here
        | eapply on_last_path_down; [vm_compute; reflexivity
                                    |vm_compute; reflexivity|last_path] ].

Lemma document_dfs_built : dfs_built document.
Proof.
  unfold document. cbv zeta.
  repeat (eapply dfs_built_appended;
          [ | last_path | vm_compute; reflexivity ]).
  apply dfs_new.
Qed.

(** On the example document the pass returns and containment by
    coordinates is ancestry. *)
Lemma contains_iff_ancestor_witness :
  exists fuel0, forall fuel, (fuel0 <= fuel)%nat ->
    exists T', recalculateQ2 fuel document = Ok T' /\
      same_but_q2 (heap document) (heap T') /\
      (root T' = root document /\ xref T' = xref document /\
       nodeMap T' = nodeMap document) /\
      (forall x, in_tree T' x <-> in_tree document x) /\
      (forall a b, ancestor (heap T') a b <-> ancestor (heap document) a b) /\
      forall a b na nb,
        in_tree T' a -> in_tree T' b ->
        heap T' !! a = Some na -> heap T' !! b = Some nb ->
        (ancestor (heap T') a b <-> contains na nb = true).
Proof. exact (contains_iff_ancestor document document_dfs_built). Defined.

Lemma interleaved_is_tree : is_tree (heap interleaved) (root interleaved).
Proof.
  exists (Sh 1%nat [Sh 2%nat [Sh 4%nat []]; Sh 3%nat []]).
  split; [reflexivity|]. split.
  - repeat (eapply has_shape_node;
            [vm_compute; reflexivity|reflexivity|repeat constructor]).
  - apply (bool_decide_unpack _). vm_compute. exact I.
Qed.

Lemma recalculateQ2_post_order_witness :
  exists fuel0, forall fuel, (fuel0 <= fuel)%nat ->
    exists T', recalculateQ2 fuel interleaved = Ok T' /\
      same_but_q2 (heap interleaved) (heap T') /\
      (root T' = root interleaved /\ xref T' = xref interleaved /\
       nodeMap T' = nodeMap interleaved) /\
      forall x, in_tree T' x ->
        (forall d, ancestor (heap T') x d ->
                   q2_of (heap T') d < q2_of (heap T') x) /\
        (forall a, in_tree T' a -> ancestor (heap T') a x ->
                   q2_of (heap T') x < q2_of (heap T') a).
Proof. exact (recalculateQ2_post_order interleaved interleaved_is_tree). Defined.

(** After the removal of the first section of the example document the root
    has the second section as its only child, and the tokens of the removed
    sentences have no occurrence left. *)
Example removeNode_document :
  (T ← removeNode 10 indexed_document 2%nat;
   Ok (children <$> heap T !! 1%nat, sview <$> heap T !! 5%nat,
       TokenXref.get (xref T) "data", TokenXref.get (xref T) "security"))
  = Ok (Some [5%nat], Some (None, None), [], [6%nat]).
Proof. vm_compute. reflexivity. Qed.

Lemma document_attached_2 :
  exists n pn,
    heap indexed_document !! 2%nat = Some n /\ parent n = Some 1%nat /\
    attached (heap indexed_document) 1%nat pn 2%nat /\
    has_shape (heap indexed_document) (Sh 2%nat [Sh 3%nat []; Sh 4%nat []]).
Proof.
  eexists _, _. split; [vm_compute; reflexivity|].
  split; [reflexivity|]. split.
  - split; [vm_compute; reflexivity|]. split; [now left|]. split.
    + apply (bool_decide_unpack _). vm_compute. exact I.
    + cbv [linked children]. repeat split; eexists;
        (split; [vm_compute; reflexivity|split; reflexivity]).
  - repeat (eapply has_shape_node;
            [vm_compute; reflexivity|reflexivity|repeat constructor]).
Qed.

(** The section 2 of the example document is a node; [removeNode] behaves
    on it as stated. *)
Lemma removeNode_spec_witness :
  exists n, heap indexed_document !! 2%nat = Some n /\
    (parent n = None ->
     forall fuel,
       removeNode fuel indexed_document 2%nat = Throw RootRemovalForbidden) /\
    (forall p pn s,
       parent n = Some p -> attached (heap indexed_document) p pn 2%nat ->
       sroot s = 2%nat -> has_shape (heap indexed_document) s ->
       exists fuel0, forall fuel, (fuel0 <= fuel)%nat ->
         exists T', removeNode fuel indexed_document 2%nat = Ok T' /\
           (exists pn' l1 l2,
              heap T' !! p = Some pn' /\ children pn = l1 ++ 2%nat :: l2 /\
              children pn' = l1 ++ l2 /\ (2%nat ∉ children pn') /\
              linked (heap T') None (children pn')) /\
           (forall token x, x ∈ pre s ->
                            x ∉ TokenXref.get (xref T') token) /\
           (forall token x, x ∉ pre s ->
              ((x ∈ TokenXref.get (xref T') token)
               <-> (x ∈ TokenXref.get (xref indexed_document) token))) /\
           (forall x nx, x ∈ pre s -> heap indexed_document !! x = Some nx ->
                         nodeMap T' !! id nx = None)) /\
    (dfs_built indexed_document ->
     (2%nat = root indexed_document <-> parent n = None) /\
     (2%nat <> root indexed_document ->
      exists p pn s,
        parent n = Some p /\ attached (heap indexed_document) p pn 2%nat /\
        sroot s = 2%nat /\ has_shape (heap indexed_document) s)).
Proof.
  eexists. split; [vm_compute; reflexivity|].
  apply (removeNode_spec indexed_document 2%nat). vm_compute. reflexivity.
Defined.

(** C9 (as stated, refuted): in a tree that has its root only, the root is
    a leaf, and the search returns it as its own context: it has no parent
    that could replace it. *)
Lemma searchOR_root_leaf :
  searchOR lone_root ["hello"%string]
  = Ok (mkOR [1%nat] [("hello"%string, [1%nat])]) /\
  isLeaf <$> heap lone_root !! 1%nat = Some true /\
  parent <$> heap lone_root !! 1%nat = Some None.
Proof. vm_compute. repeat split. Qed.

Lemma indexed_document_occurrences (token : string) (x : ref) :
  token ∈ ["data"%string; "security"%string] ->
  x ∈ TokenXref.get (xref indexed_document) token ->
  is_Some (heap indexed_document !! x).
Proof.
  intros Ht Hx.
  assert (Hx' : x ∈ [3%nat; 4%nat; 6%nat]).
  { apply elem_of_cons in Ht as [->|Ht];
      [|apply list_elem_of_singleton in Ht as ->].
    - change (TokenXref.get (xref indexed_document) "data")
        with [3%nat; 4%nat] in Hx.
      apply elem_of_cons in Hx as [->|Hx]; [now left|].
      apply list_elem_of_singleton in Hx as ->. right. now left.
    - change (TokenXref.get (xref indexed_document) "security")
        with [6%nat] in Hx.
      apply list_elem_of_singleton in Hx as ->. right. right. now left. }
  repeat (apply elem_of_cons in Hx' as [->|Hx']; [eexists; vm_compute;
                                                   reflexivity|]).
  inversion Hx'.
Qed.

(** The search for two tokens of the example document. *)
Lemma searchOR_spec_witness :
  exists res,
    searchOR indexed_document ["data"%string; "security"%string] = Ok res /\
    NoDup (contexts res) /\
    (forall c, c ∈ contexts res <->
       exists token x,
         token ∈ ["data"%string; "security"%string] /\
         x ∈ TokenXref.get (xref indexed_document) token /\
         lifted (heap indexed_document) x c) /\
    (forall token, token ∈ ["data"%string; "security"%string] ->
       map_get (or_occurrences res) token
       = Some (TokenXref.get (xref indexed_document) token)) /\
    (forall token, token ∉ ["data"%string; "security"%string] ->
       map_get (or_occurrences res) token = None).
Proof.
  exact (searchOR_spec indexed_document ["data"%string; "security"%string]
           indexed_document_occurrences).
Defined.

(** The searches of the example: two tokens of the first section, a token of
    each section, and a token that does not occur. *)
Example searchAND_document :
  (T ← recalculateQ2 10 indexed_document;
   a ← searchAND 10 T ["data"%string; "privacy"%string];
   b ← searchAND 10 T ["data"%string; "security"%string];
   c ← searchAND 0 T ["data"%string; "missingword"%string];
   Ok (option_map context a, option_map context b, option_map context c))
  = Ok (Some 2%nat, Some 1%nat, None).
Proof. vm_compute. reflexivity. Qed.

(** Without the complete-subtree order containment by coordinates is no
    ancestry: in the interleaved tree, after the pass, the section 3
    contains the sentence 4 by its coordinates, and 4 lies below 2. *)
Example interleaved_contains :
  (T ← recalculateQ2 10 interleaved;
   Ok ((fun n => (q1 n, q2 n, children n)) <$> heap T !! 3%nat,
       (fun n => (q1 n, q2 n, parent n)) <$> heap T !! 4%nat))
  = Ok (Some (2000, 3000, []), Some (3000, 1000, Some 2%nat)).
Proof. vm_compute. reflexivity. Qed.

Lemma dfs_built_indexed (t : DTree) (node : ref) (content : string)
  (t' : DTree) :
  dfs_built t -> indexContent t node content = Ok t' ->
  dfs_built (indexed t node content).
Proof.
  intros Hb Hix. unfold indexed. rewrite Hix.
  eapply dfs_indexContent; eauto.
Qed.

Lemma indexed_document_dfs_built : dfs_built indexed_document.
Proof.
  unfold indexed_document.
  repeat (eapply dfs_built_indexed; [|vm_compute; reflexivity]).
  apply document_dfs_built.
Qed.

(** The indexed example document is well formed. *)
Lemma dfs_built_well_formed_witness :
  links_wf indexed_document /\ xref_wf indexed_document /\
  (forall x, is_Some (heap indexed_document !! x)
             <-> in_tree indexed_document x).
Proof.
  exact (dfs_built_well_formed indexed_document indexed_document_dfs_built).
Defined.

(** The removal of the section 2 of the indexed example document. *)
Lemma removeNode_built_witness :
  exists n, heap indexed_document !! 2%nat = Some n /\
    (2%nat = root indexed_document ->
     forall fuel,
       removeNode fuel indexed_document 2%nat = Throw RootRemovalForbidden) /\
    (2%nat <> root indexed_document ->
     exists p pn, parent n = Some p /\ heap indexed_document !! p = Some pn /\
       exists fuel0, forall fuel, (fuel0 <= fuel)%nat ->
         exists T' pn' l1 l2,
           removeNode fuel indexed_document 2%nat = Ok T' /\
           heap T' !! p = Some pn' /\
           children pn = l1 ++ 2%nat :: l2 /\ children pn' = l1 ++ l2 /\
           (2%nat ∉ l1 ++ l2) /\
           forall token, 2%nat ∉ TokenXref.get (xref T') token).
Proof.
  eexists.
  refine ((fun H => conj H (removeNode_built indexed_document 2%nat _
                              indexed_document_dfs_built H)) _).
  vm_compute. reflexivity.
Defined.

(** The dominators of the indexed example document. *)
Lemma findNCD_nearest_witness :
  exists fuel0, forall fuel, (fuel0 <= fuel)%nat ->
    exists T', recalculateQ2 fuel indexed_document = Ok T' /\
      forall a b, in_tree T' a -> in_tree T' b ->
        exists c, findNCD fuel T' a b = Ok c /\ is_ncd (heap T') [a; b] c.
Proof.
  exact (findNCD_nearest indexed_document indexed_document_dfs_built).
Defined.

Lemma findNCDMultiple_nearest_witness :
  exists fuel0, forall fuel, (fuel0 <= fuel)%nat ->
    exists T', recalculateQ2 fuel indexed_document = Ok T' /\
      forall nodes, nodes <> [] -> (forall x, x ∈ nodes -> in_tree T' x) ->
        exists c, findNCDMultiple fuel T' nodes = Ok c /\
                  is_ncd (heap T') nodes c.
Proof.
  exact (findNCDMultiple_nearest indexed_document indexed_document_dfs_built).
Defined.

Lemma findNCDMultiple_root_witness :
  exists fuel0, forall fuel, (fuel0 <= fuel)%nat ->
    exists T', recalculateQ2 fuel indexed_document = Ok T' /\
      forall nodes, (root T' ∈ nodes) ->
        (forall x, x ∈ nodes -> in_tree T' x) ->
        findNCDMultiple fuel T' nodes = Ok (root T').
Proof.
  exact (findNCDMultiple_root indexed_document indexed_document_dfs_built).
Defined.

(** The search for a token of each section of the indexed example
    document. *)
Lemma searchAND_spec_witness :
  exists fuel0, forall fuel, (fuel0 <= fuel)%nat ->
    exists T' res,
      recalculateQ2 fuel indexed_document = Ok T' /\
      same_but_q2 (heap indexed_document) (heap T') /\
      xref T' = xref indexed_document /\
      searchAND fuel T' ["data"%string; "security"%string] = Ok (Some res) /\
      is_ncd (heap T')
             (flat_map (TokenXref.get (xref indexed_document))
                       ["data"%string; "security"%string])
             (context res) /\
      (forall token, token ∈ ["data"%string; "security"%string] ->
         map_get (and_occurrences res) token
         = Some (TokenXref.get (xref indexed_document) token)).
Proof.
  apply (proj2 (proj2 (searchAND_spec indexed_document
                         ["data"%string; "security"%string]))).
  - apply indexed_document_dfs_built.
  - discriminate.
  - intros token Ht.
    apply elem_of_cons in Ht as [->|Ht];
      [|apply list_elem_of_singleton in Ht as ->]; vm_compute; discriminate.
Defined.

(** C3 (as stated, refuted): what the search returns is not always the
    nearest common dominator.  Without a [recalculateQ2] pass: in the
    example document the sentence 4 still has its provisional [q2], above
    that of the section 5 that was appended after it; [findNCD] then takes
    the sentence 4 for an ancestor of the section 5, and the search for a
    token of each returns the sentence 4, a leaf that does not dominate the
    section 5.  Out of the complete-subtree order, even after a pass: the
    section 3 was appended before the sentence 4 of the section 2, so its
    [q1] is below and its [q2] above those of the sentence, and the search
    returns the section 3, which does not dominate the sentence 4.  And for
    no token at all the search returns the root, where no node is dominated
    by every node. *)
Lemma searchAND_not_ncd :
  (exists res,
     searchAND 10 stale_document ["privacy"%string; "security"%string]
     = Ok (Some res) /\
     flat_map (TokenXref.get (xref stale_document))
              ["privacy"%string; "security"%string] = [4%nat; 5%nat] /\
     context res = 4%nat /\
     ~ dominates (heap stale_document) 4%nat 5%nat /\
     ~ is_ncd (heap stale_document) [4%nat; 5%nat] (context res)) /\
  (exists T res,
     recalculateQ2 10 interleaved_indexed = Ok T /\
     searchAND 10 T ["terms"%string; "privacy"%string] = Ok (Some res) /\
     flat_map (TokenXref.get (xref T)) ["terms"%string; "privacy"%string]
     = [3%nat; 4%nat] /\
     context res = 3%nat /\
     ~ dominates (heap T) 3%nat 4%nat /\
     ~ is_ncd (heap T) [3%nat; 4%nat] (context res)) /\
  (exists res,
     searchAND 10 document [] = Ok (Some res) /\
     context res = root document /\
     ~ is_ncd (heap document) [] (context res)).
Proof.
  split; [|split].
  - eexists. split; [vm_compute; reflexivity|].
    split; [vm_compute; reflexivity|]. split; [reflexivity|].
    assert (Hnd : ~ dominates (heap stale_document) 4%nat 5%nat).
    { intros Hd. apply rtc_inv in Hd as [Hd|(y & (n & Hn & Hy) & _)];
        [discriminate|].
      vm_compute in Hn. injection Hn as <-. inversion Hy. }
    split; [exact Hnd|].
    intros [Hdom _]. apply Hnd, Hdom. right. left.
  - destruct (recalculateQ2 10 interleaved_indexed) as [T| |] eqn:E;
      vm_compute in E; try discriminate.
    injection E as <-.
    eexists _, _. split; [reflexivity|].
    split; [vm_compute; reflexivity|].
    split; [vm_compute; reflexivity|]. split; [reflexivity|].
    match goal with |- ~ dominates ?h _ _ /\ _ =>
      assert (Hnd : ~ dominates h 3%nat 4%nat) end.
    { intros Hd. apply rtc_inv in Hd as [Hd|(y & (n & Hn & Hy) & _)];
        [discriminate|].
      vm_compute in Hn. injection Hn as <-. inversion Hy. }
    split; [exact Hnd|].
    intros [Hdom _]. apply Hnd, Hdom. right. left.
  - eexists. split; [vm_compute; reflexivity|]. split; [reflexivity|].
    intros [_ Hall].
    specialize (Hall 2%nat ltac:(intros x Hx; inversion Hx)).
    apply rtc_inv in Hall as [Hd|(y & (n & Hn & Hy) & Hrest)];
      [discriminate|].
    vm_compute in Hn. injection Hn as <-.
    apply elem_of_cons in Hy as [->|Hy];
      [|apply list_elem_of_singleton in Hy as ->].
    + apply rtc_inv in Hrest as [Hd|(y & (n & Hn & Hy) & Hrest)];
        [discriminate|].
      vm_compute in Hn. injection Hn as <-. inversion Hy.
    + apply rtc_inv in Hrest as [Hd|(y & (n & Hn & Hy) & Hrest)];
        [discriminate|].
      vm_compute in Hn. injection Hn as <-. inversion Hy.
Qed.

(** Dominators in the example document: of two sentences of one section,
    of sentences of two sections, and of a section and its sentence. *)
Example findNCD_document :
  (T ← recalculateQ2 10 indexed_document;
   a ← findNCD 10 T 3%nat 4%nat;
   b ← findNCD 10 T 4%nat 6%nat;
   c ← findNCD 10 T 3%nat 2%nat;
   Ok (a, b, c))
  = Ok (2%nat, 1%nat, 2%nat).
Proof. vm_compute. reflexivity. Qed.

(** A third sentence appended to the section 2 of the example document. *)
Lemma appendChild_built_witness :
  exists pn, heap document_with_object !! 2%nat = Some pn /\
    exists T' r pn' rn,
      appendChild document_with_object 2%nat 6%nat = Ok (T', r) /\
      heap document_with_object !! r = None /\ heap T' !! r = Some rn /\
      heap T' !! 2%nat = Some pn' /\ children pn' = children pn ++ [r] /\
      id rn = r /\ parent rn = Some 2%nat /\ children rn = [] /\
      prevSibling rn = last (children pn) /\ nextSibling rn = None /\
      q1 rn = q1Counter T' /\
      (forall x n, heap document_with_object !! x = Some n ->
                   q1 n < q1 rn).
Proof.
  eexists.
  refine ((fun H => conj H (appendChild_built document_with_object 2%nat
                              6%nat _
                              (dfs_newData _ _ document_dfs_built) H)) _).
  vm_compute. reflexivity.
Defined.

(** The sentence 3 of the example document is indexed. *)
Lemma indexContent_spec_witness :
  exists n, heap document !! 3%nat = Some n /\
    exists T', indexContent document 3%nat "Data privacy matters." = Ok T' /\
      (forall token x,
         x ∈ TokenXref.get (xref T') token <->
         x ∈ TokenXref.get (xref document) token \/
         (x = 3%nat /\
          exists tk, tk ∈ tokenize "Data privacy matters." /\
                     trim (toLowerCase tk) = trim (toLowerCase token))) /\
      (forall tk, tk ∈ tokenize "Data privacy matters." ->
                  3%nat ∈ TokenXref.get (xref T') tk) /\
      heap T' = heap document /\
      objects T'
      = <[data n := mkData (type (dataOf (objects document) (data n)))
                           (Some "Data privacy matters."%string)]>
          (objects document) /\
      (forall x m, heap document !! x = Some m -> data m = data n ->
                   (data n < length (objects document))%nat ->
         dataOf (objects T') (data m)
         = mkData (type (dataOf (objects document) (data n)))
                  (Some "Data privacy matters."%string)) /\
      (forall r, r <> data n -> objects T' !! r = objects document !! r) /\
      root T' = root document /\ nodeMap T' = nodeMap document /\
      nextId T' = nextId document /\ q1Counter T' = q1Counter document.
Proof.
  eexists.
  refine ((fun H => conj H (indexContent_spec document 3%nat
                              "Data privacy matters." _ H)) _).
  vm_compute. reflexivity.
Defined.

(** Two nodes made with one data object: the content that [indexContent]
    stores for the node 2 is the content of the node 3 as well, while only
    the node 2 is listed under the tokens. *)
Example indexContent_shared :
  (content <$> (dataOf (objects shared_data) <$>
                  (data <$> heap shared_data !! 2%nat)),
   content <$> (dataOf (objects shared_data) <$>
                  (data <$> heap shared_data !! 3%nat)),
   TokenXref.get (xref shared_data) "shared")
  = (Some (Some "Shared content."%string),
     Some (Some "Shared content."%string), [2%nat]).
Proof. vm_compute. reflexivity. Qed.

(** The tokens of a content: lower case, split at blanks, without
    punctuation. *)
Example tokenize_sentence :
  tokenize "We use  encryption, to protect data."
  = ["we"; "use"; "encryption"; "to"; "protect"; "data"]%string.
Proof. vm_compute. reflexivity. Qed.

Lemma document_links_wf : links_wf document.
Proof. apply dfs_built_links, document_dfs_built. Qed.

(** The path from the sentence 4 of the example document to the root. *)
Lemma getAncestryPath_built_witness :
  exists n, heap document !! 4%nat = Some n /\
    exists l,
      getAncestryPath 10 (heap document) 4%nat = Ok (4%nat :: l) /\
      up_path (heap document) (parent n) l /\
      last (4%nat :: l) = Some (root document) /\ NoDup (4%nat :: l) /\
      (forall c, c ∈ 4%nat :: l <-> dominates (heap document) c 4%nat) /\
      getDepth 10 (heap document) 4%nat = Ok (Z.of_nat (length l)) /\
      (forall p, parent n = Some p ->
         getDepth 10 (heap document) p = Ok (Z.of_nat (length l) - 1)).
Proof.
  eexists.
  refine ((fun H => conj H (getAncestryPath_built document 4%nat _ 10%nat
                              document_dfs_built H _)) _).
  - vm_compute. lia.
  - vm_compute. reflexivity.
Defined.

(** The section of the sentence 4 of the example document. *)
Lemma liftToLevel_built_witness :
  exists n, heap document !! 4%nat = Some n /\
    exists c,
      liftToLevel 10 document 4%nat NT_section = Ok c /\
      ((dominates (heap document) c 4%nat /\
        has_type document NT_section c /\
        forall c', dominates (heap document) c' 4%nat ->
                   has_type document NT_section c' ->
                   dominates (heap document) c' c) \/
       (c = root document /\
        forall c', dominates (heap document) c' 4%nat ->
                   ~ has_type document NT_section c')).
Proof.
  eexists.
  refine ((fun H => conj H (liftToLevel_built document 4%nat _ NT_section
                              10%nat document_dfs_built H _)) _).
  - vm_compute. lia.
  - vm_compute. reflexivity.
Defined.

(** The subtree of the section 2 of the example document. *)
Lemma getSubtree_built_witness :
  exists n, heap document !! 2%nat = Some n /\
    exists fuel0, forall fuel, (fuel0 <= fuel)%nat ->
      exists l,
        getSubtree fuel (heap document) 2%nat = Ok (2%nat :: l) /\
        NoDup (2%nat :: l) /\
        (forall y, y ∈ 2%nat :: l <-> dominates (heap document) 2%nat y) /\
        StronglySorted
          (fun a b => q1_of (heap document) a < q1_of (heap document) b)
          (2%nat :: l).
Proof.
  eexists.
  refine ((fun H => conj H (getSubtree_built document 2%nat _
                              document_dfs_built H)) _).
  vm_compute. reflexivity.
Defined.

(** The node map and the statistics of the indexed example document. *)
Lemma getStats_built_witness :
  (forall k x, getNode indexed_document k = Some x <->
               exists n, heap indexed_document !! x = Some n /\ id n = k) /\
  exists fuel0, forall fuel, (fuel0 <= fuel)%nat ->
    exists st l,
      getStats fuel indexed_document = Ok st /\
      getSubtree fuel (heap indexed_document) (root indexed_document)
      = Ok l /\
      (forall x, x ∈ l <-> is_Some (heap indexed_document !! x)) /\
      nodeCount st = length l /\
      (forall x d, x ∈ l ->
         getDepth fuel (heap indexed_document) x = Ok d ->
         d <= maxDepth st) /\
      (exists x, x ∈ l /\
         getDepth fuel (heap indexed_document) x = Ok (maxDepth st)).
Proof. exact (getStats_built indexed_document indexed_document_dfs_built). Defined.

Example getStats_document :
  getStats 10 indexed_document = Ok (mkStats 6 2 10).
Proof. vm_compute. reflexivity. Qed.

(** A sentence inserted between the sentences 3 and 4 of the section 2 of
    the example document, and removed again. *)
Lemma addNode_links_witness :
  exists pn, heap document_with_object !! 2%nat = Some pn /\
    children pn = [3%nat] ++ [4%nat] /\
    exists T' r pn' rn,
      addNode document_with_object 2%nat 6%nat (last [3%nat])
      = Ok (T', r) /\
      heap document_with_object !! r = None /\ links_wf T' /\
      heap T' !! 2%nat = Some pn' /\
      children pn' = [3%nat] ++ r :: [4%nat] /\
      heap T' !! r = Some rn /\ parent rn = Some 2%nat /\
      children rn = [] /\
      prevSibling rn = last [3%nat] /\ nextSibling rn = head [4%nat] /\
      exists fuel0, forall fuel, (fuel0 <= fuel)%nat ->
        exists T'' pn'',
          removeNode fuel T' r = Ok T'' /\ heap T'' !! 2%nat = Some pn'' /\
          children pn'' = children pn /\
          linked (heap T'') None (children pn).
Proof.
  eexists.
  refine ((fun H1 H2 => conj H1 (conj H2
             (addNode_links document_with_object 2%nat 6%nat _
                [3%nat] [4%nat] document_links_wf H1 H2))) _ _).
  - vm_compute. reflexivity.
  - vm_compute. reflexivity.
Defined.

Example addNode_document :
  ('(T, r) ← addNode document_with_object 2%nat 6%nat (Some 3%nat);
   Ok (r, children <$> heap T !! 2%nat, sview <$> heap T !! 3%nat,
       sview <$> heap T !! r, sview <$> heap T !! 4%nat))
  = Ok (7%nat, Some [3%nat; 7%nat; 4%nat], Some (None, Some 7%nat),
        Some (Some 3%nat, Some 4%nat), Some (Some 7%nat, None)).
Proof. vm_compute. reflexivity. Qed.

(** The copy of the section 2 of the example document, with its two
    sentences. *)
Lemma copySubtree_independent_witness :
  has_shape (heap document) (Sh 2%nat [Sh 3%nat []; Sh 4%nat []]) /\
  exists T' s',
    copySubtree 3 document 2%nat = Ok (T', nextId document) /\
    sroot s' = nextId document /\
    pre s' = seq (nextId document) 3 /\
    nextId T' = (nextId document + 3)%nat /\
    copy_of (heap document) (heap T') (objects document) (objects T') None
            (Sh 2%nat [Sh 3%nat []; Sh 4%nat []]) s' /\
    (forall y, (y < nextId document)%nat ->
               heap T' !! y = heap document !! y) /\
    (forall y, (nextId T' <= y)%nat -> heap T' !! y = None) /\
    (exists new, objects T' = objects document ++ new /\ length new = 3%nat) /\
    (forall y, y ∈ pre s' ->
       data <$> heap T' !! y
       = Some (length (objects document) + (y - nextId document))%nat) /\
    nodeMap T' = nodeMap document /\ root T' = root document /\
    xref T' = xref document /\
    linked (heap T') None (map sroot (skids s')) /\
    (forall y, y ∈ pre s' -> y ∉ map sroot (skids s') ->
               sview <$> heap T' !! y = Some (None, None)).
Proof.
  refine ((fun H => conj H (copySubtree_independent document
                              (Sh 2%nat [Sh 3%nat []; Sh 4%nat []]) 3
                              (proj1 document_links_wf) H _ _)) _).
  - intros y n Hy Hn. simpl in Hy.
    repeat (apply elem_of_cons in Hy as [->|Hy];
            [vm_compute in Hn; injection Hn as <-; vm_compute; lia|]).
    inversion Hy.
  - simpl. lia.
  - eapply has_shape_node; [vm_compute; reflexivity|reflexivity|].
    repeat constructor;
      (eapply has_shape_node;
       [vm_compute; reflexivity|reflexivity|constructor]).
Defined.

(** A copy of the whole example document: the copies 9 and 10 of the
    sentences 3 and 4 are not linked, [getNode] does not find the copy
    8 of the section 2, and the copy 8 has a data object of its own, the
    object 7, with the type of the object 1 of the section 2. *)
Example copySubtree_document :
  ('(T, r) ← copySubtree 10 document 1%nat;
   Ok (r, nextId T, children <$> heap T !! r, sview <$> heap T !! 8%nat,
       children <$> heap T !! 8%nat, sview <$> heap T !! 9%nat,
       sview <$> heap T !! 3%nat, getNode T 8%nat,
       data <$> heap T !! 2%nat, data <$> heap T !! 8%nat,
       type <$> objects T !! 7%nat))
  = Ok (7%nat, 13%nat, Some [8%nat; 11%nat], Some (None, Some 11%nat),
        Some [9%nat; 10%nat], Some (None, None),
        Some (None, Some 4%nat), None,
        Some 1%nat, Some 7%nat, Some NT_section).
Proof. vm_compute. reflexivity. Qed.

(** The [q2] of the example document after a pass: 1000 to 6000 along the
    post-order 3, 4, 2, 6, 5, 1. *)
Lemma recalculateQ2_exact_witness :
  has_shape (heap document)
            (Sh 1%nat [Sh 2%nat [Sh 3%nat []; Sh 4%nat []];
                       Sh 5%nat [Sh 6%nat []]]) /\
  exists T',
    recalculateQ2 6 document = Ok T' /\
    (forall i r,
       [3%nat; 4%nat; 2%nat; 6%nat; 5%nat; 1%nat] !! i = Some r ->
       q2_of (heap T') r = INITIAL_SPACING * (Z.of_nat i + 1)) /\
    q2_of (heap T') (root document) = INITIAL_SPACING * Z.of_nat 6 /\
    (forall r, r ∉ [1%nat; 2%nat; 3%nat; 4%nat; 5%nat; 6%nat] ->
               heap T' !! r = heap document !! r) /\
    recalculateQ2 6 T' = Ok T'.
Proof.
  refine ((fun H => conj H (recalculateQ2_exact document
             (Sh 1%nat [Sh 2%nat [Sh 3%nat []; Sh 4%nat []];
                        Sh 5%nat [Sh 6%nat []]]) 6 eq_refl H _ _)) _).
  - apply (bool_decide_unpack _). vm_compute. exact I.
  - simpl. lia.
  - repeat (eapply has_shape_node;
            [vm_compute; reflexivity|reflexivity|repeat constructor]).
Defined.

End DTreeProps.
